(** * Spelling suggestions of Vim (src/spellsuggest.c): a shallow embedding

    The C code is embedded as Rocq functions:
    - an [int] is a [Z]; C's [/] on [int] is [Z.quot] (truncation), the bit
      masks are [Z.land];
    - a [char_u *] string is the [list Z] of its characters up to, and without,
      the terminating NUL; reading the string at an index is [char_at], which
      yields NUL at and after the end.  The same lists stand for the [int]
      arrays [wbadword]/[wgoodword] the multi-byte code expands a string into;
    - a [garray_T] of [suggest_T] is the list of its first [ga_len] entries;
    - structs are records, enums are inductive types;
    - code of the repository that is not in spellsuggest.c (soundfolding, case
      folding, the word tables) is a [Variable] of the section that uses it.

    Where the code branches on [has_mbyte], the byte-wise branch is the one
    embedded, except for the edit scores, whose two branches run the same
    algorithm on the characters of the words, for the loop of
    [add_suggestion] that minimizes the lengths, which has both, and for the
    walk through the word trees, which is embedded for both with what it
    reads handed to it (see [walk_obs]).

    The file has five parts: the embedding, what the code guarantees, the
    embedding of more of the code, what that guarantees, and examples on a
    small setting. *)

From Stdlib Require Import ZArith List Lia Bool Sorted Permutation.
From stdpp Require Import base list sorting.
Import ListNotations.
Local Open Scope Z_scope.

(** * The embedding *)

(** ** Score constants (spellsuggest.c, lines 85-127) *)

Definition SCORE_SPLIT : Z := 149.
Definition SCORE_SPLIT_NO : Z := 249.
Definition SCORE_ICASE : Z := 52.
Definition SCORE_REGION : Z := 200.
Definition SCORE_RARE : Z := 180.
Definition SCORE_SWAP : Z := 75.
Definition SCORE_SWAP3 : Z := 110.
Definition SCORE_REP : Z := 65.
Definition SCORE_SUBST : Z := 93.
Definition SCORE_SIMILAR : Z := 33.
Definition SCORE_SUBCOMP : Z := 33.
Definition SCORE_DEL : Z := 94.
Definition SCORE_DELDUP : Z := 66.
Definition SCORE_DELCOMP : Z := 28.
Definition SCORE_INS : Z := 96.
Definition SCORE_INSDUP : Z := 67.
Definition SCORE_INSCOMP : Z := 30.
Definition SCORE_NONWORD : Z := 103.
Definition SCORE_FILE : Z := 30.
Definition SCORE_MAXINIT : Z := 350.
Definition SCORE_SFMAX1 : Z := 200.
Definition SCORE_SFMAX2 : Z := 300.
Definition SCORE_SFMAX3 : Z := 400.
Definition SCORE_BIG : Z := SCORE_INS * 3.
Definition SCORE_MAXMAX : Z := 999999.
Definition SCORE_LIMITMAX : Z := 350.
Definition SCORE_EDIT_MIN : Z := SCORE_SIMILAR.

(** [RESCORE] and [MAXSCORE] (lines 26 and 32); the division is C's. *)
Definition RESCORE (word_score sound_score : Z) : Z :=
  Z.quot (3 * word_score + sound_score) 4.
Definition MAXSCORE (word_score sound_score : Z) : Z :=
  Z.quot (4 * word_score - sound_score) 3.

(** The NUL character and reading a NUL-terminated string at an index. *)
Definition NUL : Z := 0.
Definition char_at (s : list Z) (i : nat) : Z := nth i s NUL.

(** A C string holds no NUL before its end. *)
Definition cstring (s : list Z) : Prop := Forall (fun c => c <> NUL) s.

(** ** bytes2offset (lines 357-390)

    [pp] is the memory from [*pp] on, a list of bytes ([char_u], 0..255).
    The result is the number read and the memory from the advanced pointer on;
    [None] when the bytes run out. *)
Definition bytes2offset (pp : list Z) : option (Z * list Z) :=
  match pp with
  | [] => None
  | c :: p =>
      if Z.land c 0x80 =? 0x00 then
        Some (c - 1, p)
      else if Z.land c 0xc0 =? 0x80 then
        match p with
        | b1 :: p =>
            let nr := Z.land c 0x3f - 1 in
            let nr := nr * 255 + (b1 - 1) in
            Some (nr, p)
        | _ => None
        end
      else if Z.land c 0xe0 =? 0xc0 then
        match p with
        | b1 :: b2 :: p =>
            let nr := Z.land c 0x1f - 1 in
            let nr := nr * 255 + (b1 - 1) in
            let nr := nr * 255 + (b2 - 1) in
            Some (nr, p)
        | _ => None
        end
      else
        match p with
        | b1 :: b2 :: b3 :: p =>
            let nr := Z.land c 0x0f - 1 in
            let nr := nr * 255 + (b1 - 1) in
            let nr := nr * 255 + (b2 - 1) in
            let nr := nr * 255 + (b3 - 1) in
            Some (nr, p)
        | _ => None
        end
  end.

(** ** The candidate store: [suggest_T], [suginfo_T] (lines 40-82) *)

(** [slang_T] is declared outside spellsuggest.c; these are the fields the
    embedded functions read.  [sl_id] stands for the address of the struct:
    the code compares [slang_T] pointers. *)
Record slang_T := {
  sl_id : nat;
  sl_sal_len : Z;             (* sl_sal.ga_len *)
  sl_has_map : bool;
  sl_map_array : Z -> Z;      (* sl_map_array[c], c < 256 *)
  sl_map_hash : Z -> Z;       (* the mapped character sl_map_hash gives c >= 256,
                                 0 when it has none *)
  sl_pbyts : option (list Z); (* the prefix tree, [None] for NULL *)
  sl_nobreak : bool;
  sl_nosplitsugs : bool
}.

Definition slang_ptr_eqb (a b : option slang_T) : bool :=
  match a, b with
  | None, None => true
  | Some x, Some y => Nat.eqb (sl_id x) (sl_id y)
  | _, _ => false
  end.

(** ** The edit scores: [similar_chars], [spell_edit_score],
    [spell_edit_score_limit] (lines 3482-3517 and 4047-4526)

    A word is the list of its characters: the bytes of the string when
    [has_mbyte] is not set, and the characters [mb_cptr2char_adv] reads into
    [wbadword]/[wgoodword] when it is.  Both branches of [spell_edit_score]
    and both of [spell_edit_score_limit] and [spell_edit_score_limit_w] then
    run the code below on these characters. *)

Section EditScore.

(** [SPELL_TOFOLD] is a table lookup declared outside spellsuggest.c. *)
Variable SPELL_TOFOLD : Z -> Z.

(** [similar_chars] (lines 3482-3517): [sl_map_array] for a character below
    256, the hash table above. *)
Definition map_char (slang : slang_T) (c : Z) : Z :=
  if 256 <=? c then sl_map_hash slang c else sl_map_array slang c.

Definition similar_chars (slang : slang_T) (c1 c2 : Z) : bool :=
  let m1 := map_char slang c1 in
  if m1 =? 0 then false
  else
    let m2 := map_char slang c2 in
    m1 =? m2.

(** The score of substituting [gc] for [bc] (lines 4110-4121 and 4302-4313). *)
Definition subst_score (slang : option slang_T) (bc gc : Z) : Z :=
  if SPELL_TOFOLD bc =? SPELL_TOFOLD gc then SCORE_ICASE
  else
    match slang with
    | Some sl =>
        if sl_has_map sl && similar_chars sl gc bc then SCORE_SIMILAR
        else SCORE_SUBST
    | None => SCORE_SUBST
    end.

(** *** [spell_edit_score]: the array [cnt]

    [badlen] and [goodlen] count the NUL, as in the code; [CNT(a, b)] is
    [cnt[a + b * (badlen + 1)]]. *)
Definition CNT_idx (badlen a b : nat) : nat := (a + b * (badlen + 1))%nat.

Definition CNT (badlen : nat) (cnt : list Z) (a b : nat) : Z :=
  cnt !!! CNT_idx badlen a b.

Definition set_CNT (badlen : nat) (cnt : list Z) (a b : nat) (v : Z) : list Z :=
  <[CNT_idx badlen a b := v]> cnt.

(** The body of the inner loop (lines 4095-4148) for the cell [(i, j)]. *)
Definition edit_cell (slang : option slang_T) (badword goodword : list Z)
    (badlen : nat) (cnt : list Z) (i j : nat) : list Z :=
  let bc := char_at badword (i - 1) in
  let gc := char_at goodword (j - 1) in
  if bc =? gc then
    set_CNT badlen cnt i j (CNT badlen cnt (i - 1) (j - 1))
  else
    let cnt := set_CNT badlen cnt i j
                 (subst_score slang bc gc + CNT badlen cnt (i - 1) (j - 1)) in
    let cnt :=
      if (1 <? i)%nat && (1 <? j)%nat then
        let pbc := char_at badword (i - 2) in
        let pgc := char_at goodword (j - 2) in
        if (bc =? pgc) && (pbc =? gc) then
          let t := SCORE_SWAP + CNT badlen cnt (i - 2) (j - 2) in
          if t <? CNT badlen cnt i j then set_CNT badlen cnt i j t else cnt
        else cnt
      else cnt in
    let t := SCORE_DEL + CNT badlen cnt (i - 1) j in
    let cnt := if t <? CNT badlen cnt i j then set_CNT badlen cnt i j t else cnt in
    let t := SCORE_INS + CNT badlen cnt i (j - 1) in
    if t <? CNT badlen cnt i j then set_CNT badlen cnt i j t else cnt.

(** One turn of the outer loop (lines 4092-4149) for the row [i]. *)
Definition edit_row (slang : option slang_T) (badword goodword : list Z)
    (badlen goodlen : nat) (cnt : list Z) (i : nat) : list Z :=
  let cnt := set_CNT badlen cnt i 0 (CNT badlen cnt (i - 1) 0 + SCORE_DEL) in
  fold_left (fun cnt j => edit_cell slang badword goodword badlen cnt i j)
            (seq 1 goodlen) cnt.

(** The array when the loops are done (lines 4086-4150); the allocation
    succeeds. *)
Definition edit_matrix (slang : option slang_T) (badword goodword : list Z)
  : list Z :=
  let badlen := (length badword + 1)%nat in
  let goodlen := (length goodword + 1)%nat in
  let cnt := replicate ((badlen + 1) * (goodlen + 1)) 0 in
  let cnt := set_CNT badlen cnt 0 0 0 in
  let cnt := fold_left
               (fun cnt j =>
                  set_CNT badlen cnt 0 j (CNT badlen cnt 0 (j - 1) + SCORE_INS))
               (seq 1 goodlen) cnt in
  fold_left (fun cnt i => edit_row slang badword goodword badlen goodlen cnt i)
            (seq 1 badlen) cnt.

(** [spell_edit_score] (lines 4047-4155). *)
Definition spell_edit_score (slang : option slang_T) (badword goodword : list Z)
  : Z :=
  let badlen := (length badword + 1)%nat in
  let goodlen := (length goodword + 1)%nat in
  CNT badlen (edit_matrix slang badword goodword) (badlen - 1) (goodlen - 1).

(** *** [spell_edit_score_limit]: the stack of alternatives *)

Record limitscore_T := {
  badi : nat;
  goodi : nat;
  score : Z
}.

(** The local variables the loop carries.  [l_stack] holds the entries
    [stack[0 .. stackidx-1]], the top first. *)
Record limit_state := {
  l_stack : list limitscore_T;
  l_bi : nat;
  l_gi : nat;
  l_score : Z;
  l_minscore : Z
}.

(** [limitscore_T stack[10]] (lines 4179 and 4354). *)
Definition LIMIT_STACK_SIZE : nat := 10.

(** How one turn of the outer [for (;;)] ends before the label [pop]:
    [Next] is [continue], [ToPop] is reaching [pop] with this stack and
    [minscore], [StackFull] is a write behind [stack[9]]. *)
Inductive limit_turn :=
| Next (st : limit_state)
| ToPop (stack : list limitscore_T) (minscore : Z)
| StackFull.

(** The loop that skips an equal part (lines 4210-4224): the indexes it stops
    at, and whether both words ended there.  [n] bounds the turns. *)
Fixpoint skip_equal (badword goodword : list Z) (n bi gi : nat) : nat * nat * bool :=
  let bc := char_at badword bi in
  let gc := char_at goodword gi in
  if negb (bc =? gc) then (bi, gi, false)
  else if bc =? NUL then (bi, gi, true)
  else
    match n with
    | O => (bi, gi, false)
    | S n' => skip_equal badword goodword n' (S bi) (S gi)
    end.

(** The [do ... while] loops that delete or insert what is left of one word
    (lines 4228-4233 and 4237-4242), on the word [w] from index [i] on with
    the score [step] of one character: the score reached, or [None] when it
    reaches [minscore] first. *)
Fixpoint score_rest (w : list Z) (step : Z) (n i : nat) (score minscore : Z)
  : option Z :=
  let score := score + step in
  if minscore <=? score then None
  else if char_at w (S i) =? NUL then Some score
  else
    match n with
    | O => Some score
    | S n' => score_rest w step n' (S i) score minscore
    end.

(** The loop that checks that the rest of the words match (lines 4262-4271):
    whether it reached the NUL of both. *)
Fixpoint rest_matches (badword goodword : list Z) (n bi2 gi2 : nat) : bool :=
  if char_at goodword gi2 =? char_at badword bi2 then
    if char_at goodword gi2 =? NUL then true
    else
      match n with
      | O => false
      | S n' => rest_matches badword goodword n' (S bi2) (S gi2)
      end
  else false.

(** One round of the loop over [round] (lines 4252-4281): the stack and
    [minscore] after it, [None] when the stack is full. *)
Definition try_round (badword goodword : list Z) (round : nat)
    (bi gi : nat) (score : Z) (stack : list limitscore_T) (minscore : Z)
  : option (list limitscore_T * Z) :=
  let score_off := score + (if Nat.eqb round 0 then SCORE_DEL else SCORE_INS) in
  if score_off <? minscore then
    if minscore <=? score_off + SCORE_EDIT_MIN then
      let bi2 := (bi + 1 - round)%nat in
      let gi2 := (gi + round)%nat in
      if rest_matches badword goodword (length badword) bi2 gi2
      then Some (stack, score_off)
      else Some (stack, minscore)
    else
      if (length stack <? LIMIT_STACK_SIZE)%nat then
        Some ({| badi := (bi + 1 - round)%nat; goodi := (gi + round)%nat;
                 score := score_off |} :: stack, minscore)
      else None
  else Some (stack, minscore).

(** One turn of the outer loop up to the label [pop] (lines 4209-4322). *)
Definition limit_turn_of (slang : option slang_T) (badword goodword : list Z)
    (st : limit_state) : limit_turn :=
  let stack := l_stack st in
  let minscore := l_minscore st in
  let score := l_score st in
  let '(bi, gi, ended) :=
    skip_equal badword goodword (length badword) (l_bi st) (l_gi st) in
  if ended then
    ToPop stack (if score <? minscore then score else minscore)
  else
    let bc := char_at badword bi in
    let gc := char_at goodword gi in
    if gc =? NUL then
      match score_rest badword SCORE_DEL (length badword) bi score minscore with
      | None => ToPop stack minscore
      | Some score => ToPop stack score
      end
    else if bc =? NUL then
      match score_rest goodword SCORE_INS (length goodword) gi score minscore with
      | None => ToPop stack minscore
      | Some score => ToPop stack score
      end
    else
      match try_round badword goodword 0 bi gi score stack minscore with
      | None => StackFull
      | Some (stack, minscore) =>
          match try_round badword goodword 1 bi gi score stack minscore with
          | None => StackFull
          | Some (stack, minscore) =>
              if (score + SCORE_SWAP <? minscore)
                 && (gc =? char_at badword (bi + 1))
                 && (bc =? char_at goodword (gi + 1))
              then
                Next {| l_stack := stack; l_bi := (bi + 2)%nat; l_gi := (gi + 2)%nat;
                        l_score := score + SCORE_SWAP; l_minscore := minscore |}
              else
                let score := score + subst_score slang bc gc in
                if score <? minscore then
                  Next {| l_stack := stack; l_bi := (bi + 1)%nat; l_gi := (gi + 1)%nat;
                          l_score := score; l_minscore := minscore |}
                else ToPop stack minscore
          end
      end.

(** How the whole loop ends. *)
Inductive limit_end :=
| Finished (minscore : Z)
| Overrun            (* an entry written behind the end of [stack] *)
| Unfinished.        (* the turns given were not enough *)

(** The outer loop with the code at [pop] (lines 4207-4333), for at most
    [turns] turns. *)
Fixpoint limit_loop (slang : option slang_T) (badword goodword : list Z)
    (turns : nat) (st : limit_state) : limit_end :=
  match turns with
  | O => Unfinished
  | S turns' =>
      match limit_turn_of slang badword goodword st with
      | Next st' => limit_loop slang badword goodword turns' st'
      | StackFull => Overrun
      | ToPop stack minscore =>
          match stack with
          | [] => Finished minscore
          | e :: stack' =>
              limit_loop slang badword goodword turns'
                {| l_stack := stack'; l_bi := badi e; l_gi := goodi e;
                   l_score := score e; l_minscore := minscore |}
          end
      end
  end.

(** Turns that are always enough (see [limit_loop_finishes]). *)
Definition limit_turns (badword goodword : list Z) : nat :=
  S (3 ^ (length badword + length goodword + 1)).

(** [spell_edit_score_limit] and [spell_edit_score_limit_w] (lines 4172-4341
    and 4347-4526); [None] when the code writes behind the end of [stack]. *)
Definition spell_edit_score_limit (slang : option slang_T)
    (badword goodword : list Z) (limit : Z) : option Z :=
  match limit_loop slang badword goodword (limit_turns badword goodword)
          {| l_stack := []; l_bi := 0; l_gi := 0; l_score := 0;
             l_minscore := limit + 1 |} with
  | Finished minscore =>
      Some (if limit <? minscore then SCORE_MAXMAX else minscore)
  | Overrun | Unfinished => None
  end.

End EditScore.

Record suggest_T := {
  st_word : list Z;
  st_wordlen : Z;
  st_orglen : Z;
  st_score : Z;
  st_altscore : Z;
  st_salscore : bool;
  st_had_bonus : bool;
  st_slang : option slang_T
}.

(** The table [sl_sounddone] of a language (lines 3095-3107, 3236-3260):
    the sound-folded words [add_sound_suggest] has handled, each with its
    [sft_score]. *)
Definition sounddone_T := list (list Z * Z).

(** [suginfo_T] (lines 40-65).  The last field is not in the struct: it is
    the state outside of it that the functions embedded here change, the
    tables [sl_sounddone] of the languages, each under the [sl_id] of its
    [slang_T].  The state is handed on with [su], which every function that
    comes to [add_sound_suggest] has. *)
Record suginfo_T := {
  su_ga : list suggest_T;
  su_maxcount : Z;
  su_maxscore : Z;
  su_sfmaxscore : Z;
  su_sga : list suggest_T;
  su_badptr : list Z;         (* the line from the bad word on *)
  su_badlen : Z;
  su_badflags : Z;
  su_badword : list Z;
  su_fbadword : list Z;
  su_sal_badword : list Z;
  su_banned : list (list Z);
  su_sallang : option slang_T;
  su_sounddone : list (nat * sounddone_T)
}.

(** Which of the two arrays of [su] a [garray_T *gap] points to. *)
Inductive gap_T := GA | SGA.

Definition get_gap (su : suginfo_T) (gap : gap_T) : list suggest_T :=
  match gap with GA => su_ga su | SGA => su_sga su end.

Definition set_su_ga (su : suginfo_T) (l : list suggest_T) : suginfo_T :=
  {| su_ga := l; su_maxcount := su_maxcount su; su_maxscore := su_maxscore su;
     su_sfmaxscore := su_sfmaxscore su; su_sga := su_sga su;
     su_badptr := su_badptr su; su_badlen := su_badlen su;
     su_badflags := su_badflags su; su_badword := su_badword su;
     su_fbadword := su_fbadword su; su_sal_badword := su_sal_badword su;
     su_banned := su_banned su; su_sallang := su_sallang su;
     su_sounddone := su_sounddone su |}.

Definition set_su_sga (su : suginfo_T) (l : list suggest_T) : suginfo_T :=
  {| su_ga := su_ga su; su_maxcount := su_maxcount su; su_maxscore := su_maxscore su;
     su_sfmaxscore := su_sfmaxscore su; su_sga := l;
     su_badptr := su_badptr su; su_badlen := su_badlen su;
     su_badflags := su_badflags su; su_badword := su_badword su;
     su_fbadword := su_fbadword su; su_sal_badword := su_sal_badword su;
     su_banned := su_banned su; su_sallang := su_sallang su;
     su_sounddone := su_sounddone su |}.

Definition set_gap (su : suginfo_T) (gap : gap_T) (l : list suggest_T) : suginfo_T :=
  match gap with GA => set_su_ga su l | SGA => set_su_sga su l end.

Definition set_su_maxscore (su : suginfo_T) (v : Z) : suginfo_T :=
  {| su_ga := su_ga su; su_maxcount := su_maxcount su; su_maxscore := v;
     su_sfmaxscore := su_sfmaxscore su; su_sga := su_sga su;
     su_badptr := su_badptr su; su_badlen := su_badlen su;
     su_badflags := su_badflags su; su_badword := su_badword su;
     su_fbadword := su_fbadword su; su_sal_badword := su_sal_badword su;
     su_banned := su_banned su; su_sallang := su_sallang su;
     su_sounddone := su_sounddone su |}.

Definition set_su_sfmaxscore (su : suginfo_T) (v : Z) : suginfo_T :=
  {| su_ga := su_ga su; su_maxcount := su_maxcount su; su_maxscore := su_maxscore su;
     su_sfmaxscore := v; su_sga := su_sga su;
     su_badptr := su_badptr su; su_badlen := su_badlen su;
     su_badflags := su_badflags su; su_badword := su_badword su;
     su_fbadword := su_fbadword su; su_sal_badword := su_sal_badword su;
     su_banned := su_banned su; su_sallang := su_sallang su;
     su_sounddone := su_sounddone su |}.

Definition set_su_badflags (su : suginfo_T) (v : Z) : suginfo_T :=
  {| su_ga := su_ga su; su_maxcount := su_maxcount su; su_maxscore := su_maxscore su;
     su_sfmaxscore := su_sfmaxscore su; su_sga := su_sga su;
     su_badptr := su_badptr su; su_badlen := su_badlen su;
     su_badflags := v; su_badword := su_badword su;
     su_fbadword := su_fbadword su; su_sal_badword := su_sal_badword su;
     su_banned := su_banned su; su_sallang := su_sallang su;
     su_sounddone := su_sounddone su |}.

Definition set_su_banned (su : suginfo_T) (v : list (list Z)) : suginfo_T :=
  {| su_ga := su_ga su; su_maxcount := su_maxcount su; su_maxscore := su_maxscore su;
     su_sfmaxscore := su_sfmaxscore su; su_sga := su_sga su;
     su_badptr := su_badptr su; su_badlen := su_badlen su;
     su_badflags := su_badflags su; su_badword := su_badword su;
     su_fbadword := su_fbadword su; su_sal_badword := su_sal_badword su;
     su_banned := v; su_sallang := su_sallang su;
     su_sounddone := su_sounddone su |}.

Definition set_su_sounddone (su : suginfo_T) (v : list (nat * sounddone_T))
  : suginfo_T :=
  {| su_ga := su_ga su; su_maxcount := su_maxcount su; su_maxscore := su_maxscore su;
     su_sfmaxscore := su_sfmaxscore su; su_sga := su_sga su;
     su_badptr := su_badptr su; su_badlen := su_badlen su;
     su_badflags := su_badflags su; su_badword := su_badword su;
     su_fbadword := su_fbadword su; su_sal_badword := su_sal_badword su;
     su_banned := su_banned su; su_sallang := su_sallang su;
     su_sounddone := v |}.

(** [SUG_CLEAN_COUNT] and [SUG_MAX_COUNT] (lines 78 and 82). *)
Definition SUG_CLEAN_COUNT (su : suginfo_T) : Z :=
  if su_maxcount su <? 130 then 150 else su_maxcount su + 20.
Definition SUG_MAX_COUNT (su : suginfo_T) : Z := SUG_CLEAN_COUNT su + 50.

(** *** String comparisons *)

(** [STRNCMP(s1, s2, n) == 0]: the strings agree on their first [n]
    characters, or end together before. *)
Fixpoint strncmp_eq (s1 s2 : list Z) (n : nat) : bool :=
  match n with
  | O => true
  | S n' =>
      match s1, s2 with
      | [], [] => true
      | c1 :: r1, c2 :: r2 => (c1 =? c2) && strncmp_eq r1 r2 n'
      | _, _ => false
      end
  end.

(** [STRCMP(s1, s2) == 0]. *)
Fixpoint strcmp_eq (s1 s2 : list Z) : bool :=
  match s1, s2 with
  | [], [] => true
  | c1 :: r1, c2 :: r2 => (c1 =? c2) && strcmp_eq r1 r2
  | _, _ => false
  end.

Section Suggest.

(** [TOLOWER_LOC] is declared outside spellsuggest.c. *)
Variable TOLOWER_LOC : Z -> Z.

(** Modelled from the spec: [STRICMP] is the "case-insensitive word
    comparison" of the sort key; the macro and the lower-casing it uses are
    declared outside spellsuggest.c.  It compares the lower-cased characters
    one by one and returns the first difference, the terminating NUL
    included. *)
Fixpoint STRICMP (s1 s2 : list Z) : Z :=
  match s1, s2 with
  | [], [] => 0
  | [], c2 :: _ => TOLOWER_LOC NUL - TOLOWER_LOC c2
  | c1 :: _, [] => TOLOWER_LOC c1 - TOLOWER_LOC NUL
  | c1 :: r1, c2 :: r2 =>
      let i := TOLOWER_LOC c1 - TOLOWER_LOC c2 in
      if i =? 0 then STRICMP r1 r2 else i
  end.

(** [sug_compare] (lines 3761-3775). *)
Definition sug_compare (p1 p2 : suggest_T) : Z :=
  let n := st_score p1 - st_score p2 in
  if n =? 0 then
    let n := st_altscore p1 - st_altscore p2 in
    if n =? 0 then STRICMP (st_word p1) (st_word p2) else n
  else n.

(** The order [qsort] is given: [p1] may stand before [p2]. *)
Definition sug_le (p1 p2 : suggest_T) : Prop := sug_compare p1 p2 <= 0.

#[local] Instance sug_le_dec (p1 p2 : suggest_T) : Decision (sug_le p1 p2).
Proof. unfold sug_le. apply Z_le_dec. Defined.

(** [qsort] belongs to the C library: it returns the elements in an order in
    which the comparison never puts a later element before an earlier one.
    The merge sort stands for it; C leaves the order of elements that compare
    equal open, and nothing below depends on it. *)
Definition qsort (l : list suggest_T) : list suggest_T := merge_sort sug_le l.

(** [cleanup_suggestions] (lines 3783-3810); it returns the array and the
    maximum score. *)
Definition cleanup_suggestions (gap : list suggest_T) (maxscore keep : Z)
  : list suggest_T * Z :=
  if Z.of_nat (length gap) <=? 0 then (gap, maxscore)
  else
    let sorted := qsort gap in
    if keep <? Z.of_nat (length gap) then
      let kept := take (Z.to_nat keep) sorted in
      if 1 <=? keep then
        match sorted !! Z.to_nat (keep - 1) with
        | Some stp => (kept, st_score stp)
        | None => (kept, maxscore)
        end
      else (kept, maxscore)
    else (sorted, maxscore).

(** Code outside spellsuggest.c: sound folding of a word. *)
Variable spell_soundfold : slang_T -> list Z -> bool -> list Z.

(** [stp_sal_score] (lines 3039-3093) reads the entry, [su_badptr] and
    [su_badlen], the language and the sound-folded bad word; it compares what
    the sound folding, the case folding and [soundalike_score] give, which is
    left open here. *)
Variable stp_sal_score : suggest_T -> list Z -> Z -> slang_T -> list Z -> Z.

Definition set_st_scores (stp : suggest_T) (score altscore : Z) (had_bonus : bool)
  : suggest_T :=
  {| st_word := st_word stp; st_wordlen := st_wordlen stp;
     st_orglen := st_orglen stp; st_score := score; st_altscore := altscore;
     st_salscore := st_salscore stp; st_had_bonus := had_bonus;
     st_slang := st_slang stp |}.

Definition set_st_slang (stp : suggest_T) (slang : option slang_T) : suggest_T :=
  {| st_word := st_word stp; st_wordlen := st_wordlen stp;
     st_orglen := st_orglen stp; st_score := st_score stp;
     st_altscore := st_altscore stp; st_salscore := st_salscore stp;
     st_had_bonus := st_had_bonus stp; st_slang := slang |}.

Definition set_st_salscore (stp : suggest_T) (b : bool) : suggest_T :=
  {| st_word := st_word stp; st_wordlen := st_wordlen stp;
     st_orglen := st_orglen stp; st_score := st_score stp;
     st_altscore := st_altscore stp; st_salscore := b;
     st_had_bonus := st_had_bonus stp; st_slang := st_slang stp |}.

(** [rescore_one] (lines 3728-3753). *)
Definition rescore_one (su : suginfo_T) (stp : suggest_T) : suggest_T :=
  match st_slang stp with
  | Some slang =>
      if (0 <? sl_sal_len slang) && negb (st_had_bonus stp) then
        let p := if slang_ptr_eqb (Some slang) (su_sallang su)
                 then su_sal_badword su
                 else spell_soundfold slang (su_fbadword su) true in
        let altscore := stp_sal_score stp (su_badptr su) (su_badlen su) slang p in
        let altscore := if altscore =? SCORE_MAXMAX then SCORE_BIG else altscore in
        set_st_scores stp (RESCORE (st_score stp) altscore) altscore true
      else stp
  | None => stp
  end.

(** [rescore_suggestions] (lines 3715-3723). *)
Definition rescore_suggestions (su : suginfo_T) : suginfo_T :=
  match su_sallang su with
  | Some _ => set_su_ga su (map (rescore_one su) (su_ga su))
  | None => su
  end.

(** [has_mbyte] and the functions that [mb_head_off] and [mb_ptr2char] point
    to are declared outside spellsuggest.c; the encoding sets them.
    [( *mb_head_off)(s, p)] is the number of bytes from [p] back to the first
    byte of the character [p] is in, and [( *mb_ptr2char)(p)] the character
    that starts at [p], read from the bytes from [p] on. *)
Variable has_mbyte : bool.
Variable mb_head_off : list Z -> Z -> Z.
Variable mb_ptr2char : list Z -> Z.

(** [MB_PTR_BACK(s, p)], a macro of macros.h:
    [p -= has_mbyte ? (( *mb_head_off)(s, p - 1) + 1) : 1], with [p] as its
    offset in [s].  The first byte of a character is not before the string
    and not behind the byte asked for: every function [mb_head_off] points
    to answers between 0 and [p - 1 - s], and an answer of the variable
    outside of that is taken as the nearest of the two. *)
Definition MB_PTR_BACK (s : list Z) (p : Z) : Z :=
  if has_mbyte
  then p - (Z.max 0 (Z.min (mb_head_off s (p - 1)) (p - 1)) + 1)
  else p - 1.

(** The test that ends the loop (lines 3555-3561), with [pgood] and [pbad]
    as offsets: [mb_ptr2char(pgood) != mb_ptr2char(pbad)] with [has_mbyte],
    [*pgood != *pbad] without. *)
Definition chars_differ (goodword badptr : list Z) (pgood pbad : Z) : bool :=
  if has_mbyte
  then negb (mb_ptr2char (drop (Z.to_nat pgood) goodword)
             =? mb_ptr2char (drop (Z.to_nat pbad) badptr))
  else negb (char_at goodword (Z.to_nat pgood) =? char_at badptr (Z.to_nat pbad)).

(** The loop of [add_suggestion] that minimizes the lengths (lines
    3545-3562): [n] bounds the iterations, the number of bytes of [goodword]
    is enough.  [pgood] and [pbad] are kept as their offsets in [goodword]
    and in [su_badptr], which [goodlen] and [badlen] are set to at the start
    of every turn. *)
Fixpoint minimize_len (goodword badptr : list Z) (n : nat) (goodlen badlen : Z)
  : Z * Z :=
  if (goodlen <=? 0) || (badlen <=? 0) then (goodlen, badlen)
  else
    match n with
    | O => (goodlen, badlen)
    | S n' =>
        let pgood := MB_PTR_BACK goodword goodlen in
        let pbad := MB_PTR_BACK badptr badlen in
        if chars_differ goodword badptr pgood pbad then (goodlen, badlen)
        else minimize_len goodword badptr n' pgood pbad
    end.

(** The test of the search loop (lines 3578-3580). *)
Definition same_suggestion (stp : suggest_T) (goodword : list Z) (goodlen badlen : Z)
  : bool :=
  (st_wordlen stp =? goodlen) && (st_orglen stp =? badlen)
  && strncmp_eq (st_word stp) goodword (Z.to_nat goodlen).

(** The search loop: the index of the first entry that passes the test. *)
Fixpoint find_suggestion (l : list suggest_T) (goodword : list Z) (goodlen badlen : Z)
  : option nat :=
  match l with
  | [] => None
  | stp :: rest =>
      if same_suggestion stp goodword goodlen badlen then Some O
      else option_map S (find_suggestion rest goodword goodlen badlen)
  end.

(** The found entry takes the language of the new suggestion when it has
    none (lines 3583-3584). *)
Definition fill_slang (stp : suggest_T) (slang : option slang_T) : suggest_T :=
  match st_slang stp with
  | None => set_st_slang stp slang
  | Some _ => stp
  end.

(** [new_sug] as the code fills it before rescoring it (lines 3586-3588 and
    3602-3605). *)
Definition new_sug_of (stp : suggest_T) (badlen score altscore : Z) (had_bonus : bool)
  : suggest_T :=
  {| st_word := st_word stp; st_wordlen := st_wordlen stp; st_orglen := badlen;
     st_score := score; st_altscore := altscore;
     st_salscore := false; st_had_bonus := had_bonus;
     st_slang := st_slang stp |}.

(** What the loop does to the entry found (lines 3582-3616). *)
Definition merge_suggestion (su : suginfo_T) (stp : suggest_T)
    (badlen score altscore : Z) (had_bonus : bool) (slang : option slang_T)
  : suggest_T :=
  let stp := fill_slang stp slang in
  let new_sug := new_sug_of stp badlen score altscore had_bonus in
  let '(stp, new_sug) :=
    if negb (eqb (st_had_bonus stp) had_bonus) then
      if had_bonus then (rescore_one su stp, new_sug)
      else (stp, rescore_one su new_sug)
    else (stp, new_sug) in
  if st_score new_sug <? st_score stp then
    set_st_scores stp (st_score new_sug) (st_altscore new_sug) (st_had_bonus new_sug)
  else stp.

(** The entry [add_suggestion] appends (lines 3623-3633). *)
Definition new_suggestion (goodword : list Z) (goodlen badlen score altscore : Z)
    (had_bonus : bool) (slang : option slang_T) : suggest_T :=
  {| st_word := take (Z.to_nat goodlen) goodword;
     st_wordlen := goodlen; st_orglen := badlen;
     st_score := score; st_altscore := altscore;
     st_salscore := false; st_had_bonus := had_bonus;
     st_slang := slang |}.

(** [add_suggestion] (lines 3523-3648), with the allocations succeeding.
    [maxsf] selects the bound the cleanup updates. *)
Definition add_suggestion (su : suginfo_T) (gap : gap_T) (goodword : list Z)
    (badlenarg score altscore : Z) (had_bonus : bool) (slang : option slang_T)
    (maxsf : bool) : suginfo_T :=
  let '(goodlen, badlen) :=
    minimize_len goodword (su_badptr su) (length goodword)
                 (Z.of_nat (length goodword)) badlenarg in
  if (badlen =? 0) && (goodlen =? 0) then su
  else
    let l := get_gap su gap in
    match find_suggestion l goodword goodlen badlen with
    | Some i =>
        match l !! i with
        | Some stp =>
            set_gap su gap
              (<[i := merge_suggestion su stp badlen score altscore had_bonus slang]> l)
        | None => su
        end
    | None =>
        let stp := new_suggestion goodword goodlen badlen score altscore
                                  had_bonus slang in
        let l := l ++ [stp] in
        if SUG_MAX_COUNT su <? Z.of_nat (length l) then
          if maxsf then
            let '(l, m) := cleanup_suggestions l (su_sfmaxscore su) (SUG_CLEAN_COUNT su) in
            set_su_sfmaxscore (set_gap su gap l) m
          else
            let '(l, m) := cleanup_suggestions l (su_maxscore su) (SUG_CLEAN_COUNT su) in
            set_su_maxscore (set_gap su gap l) m
        else set_gap su gap l
    end.

(** *** The orchestration: special cases, checking, combining *)

(** [VIM_ISWHITE], [skiptowhite] and [skipwhite] are declared outside
    spellsuggest.c: a blank is a space or a tab, [skiptowhite] stops at the
    first blank or at the end, [skipwhite] at the first character that is no
    blank. *)
Definition VIM_ISWHITE (c : Z) : bool := (c =? 32) || (c =? 9).

Fixpoint skiptowhite (p : list Z) : list Z :=
  match p with
  | [] => []
  | c :: r => if VIM_ISWHITE c then p else skiptowhite r
  end.

Fixpoint skipwhite (p : list Z) : list Z :=
  match p with
  | [] => []
  | c :: r => if VIM_ISWHITE c then skipwhite r else p
  end.

(** Code outside spellsuggest.c. *)
Variable make_case_word : list Z -> Z -> list Z.
Variable captype : list Z -> Z.
Variable SPELL_ISUPPER : Z -> bool.
Variable spell_casefold : list Z -> list Z.
(** [spell_check] on the text at a pointer: the length of the word it looked
    at, and whether it flagged the word ([attr != HLF_COUNT]). *)
Variable spell_check : list Z -> Z * bool.
Variable MAXWLEN : Z.
Variable WF_ONECAP WF_ALLCAP WF_KEEPCAP : Z.

(** [WF_MIXCAP] (line 35). *)
Definition WF_MIXCAP : Z := 0x20.

(** [suggest_try_special] (lines 1107-1133). *)
Definition suggest_try_special (su : suginfo_T) : suginfo_T :=
  let p := skiptowhite (su_fbadword su) in
  let len := (length (su_fbadword su) - length p)%nat in
  let p := skipwhite p in
  if Nat.eqb (length p) len && strncmp_eq (su_fbadword su) p len then
    let word := make_case_word (take len (su_fbadword su)) (su_badflags su) in
    add_suggestion su GA word (su_badlen su) (RESCORE SCORE_REP 0) 0 true
                   (su_sallang su) false
  else su.

(** A string copied to offset [off] of a buffer that holds the string [b]:
    the buffer then holds the first [off] characters of [b] followed by [s];
    past the end of [b] the copy lands behind its NUL and [b] stays what the
    buffer holds. *)
Definition strcpy_at (b : list Z) (off : Z) (s : list Z) : list Z :=
  if off <=? Z.of_nat (length b) then take (Z.to_nat off) b ++ s else b.

(** The word [check_suggestions] has checked (lines 3671-3674). *)
Definition longword_of (su : suginfo_T) (stp : suggest_T) : list Z :=
  strcpy_at (take (Z.to_nat MAXWLEN) (st_word stp)) (st_wordlen stp)
            (take (Z.to_nat (MAXWLEN - st_wordlen stp))
                  (drop (Z.to_nat (st_orglen stp)) (su_badptr su))).

(** The loop of [check_suggestions] (lines 3668-3686), from index [i - 1]
    down to 0. *)
Fixpoint check_suggestions_loop (su : suginfo_T) (l : list suggest_T) (i : nat)
  : list suggest_T :=
  match i with
  | O => l
  | S i' =>
      let l :=
        match l !! i' with
        | Some stp => if (spell_check (longword_of su stp)).2 then delete i' l else l
        | None => l
        end in
      check_suggestions_loop su l i'
  end.

(** [check_suggestions] (lines 3654-3687). *)
Definition check_suggestions (su : suginfo_T) (gap : gap_T) : suginfo_T :=
  let l := get_gap su gap in
  if Nat.eqb (length l) 0 then su
  else set_gap su gap (check_suggestions_loop su l (length l)).

(** The calls [(void)cleanup_suggestions(gap, su->su_maxscore,
    su->su_maxcount)], which drop the score returned (lines 942, 999, 1080,
    2969, 2990, 2992). *)
Definition cleanup_void (su : suginfo_T) (gap : gap_T) : suginfo_T :=
  set_gap su gap (cleanup_suggestions (get_gap su gap) (su_maxscore su)
                                      (su_maxcount su)).1.

(** The languages of the window, [b_langp]; [langp_T] is declared outside
    spellsuggest.c. *)
Record langp_T := {
  lp_slang : slang_T;
  lp_sallang : option slang_T;
  lp_replang : option slang_T;
  lp_region : Z
}.

(** A loop [for (i = 0; i < len; ++i)] that rewrites entry [i] of an array. *)
Definition for_each_entry {A} (f : A -> A) (l : list A) : list A :=
  fold_left (fun l i => match l !! i with
                        | Some x => <[i := f x]> l
                        | None => l
                        end)
            (seq 0 (length l)) l.

(** The first language with sound folding (lines 2943-2949, 2888-2891). *)
Fixpoint first_sal_lang (langs : list langp_T) : option slang_T :=
  match langs with
  | [] => None
  | lp :: rest =>
      if 0 <? sl_sal_len (lp_slang lp) then Some (lp_slang lp)
      else first_sal_lang rest
  end.

(** [score_comp_sal] (lines 2873-2921), with the allocations succeeding. *)
Definition score_comp_sal (langs : list langp_T) (su : suginfo_T) : suginfo_T :=
  match first_sal_lang langs with
  | Some slang =>
      let badsound := spell_soundfold slang (su_fbadword su) true in
      set_su_sga su
        (fold_left
           (fun sga stp =>
              let score := stp_sal_score stp (su_badptr su) (su_badlen su)
                                         slang badsound in
              if score <? SCORE_MAXMAX then
                sga ++ [ {| st_word := st_word stp; st_wordlen := st_wordlen stp;
                            st_orglen := st_orglen stp; st_score := score;
                            st_altscore := 0; st_salscore := false;
                            st_had_bonus := false; st_slang := None |} ]
              else sga)
           (su_ga su) (su_sga su))
  | None => su
  end.

Variable SPELL_TOFOLD : Z -> Z.

(** What [score_combine] does to an entry of [su_ga] (lines 2955-2961), with
    [altscore] from [stp_sal_score], and to an entry of [su_sga] (lines
    2978-2984), with [altscore] from [spell_edit_score]. *)
Definition combine_ga_entry (stp : suggest_T) (altscore : Z) : suggest_T :=
  let score := if altscore =? SCORE_MAXMAX
               then Z.quot (st_score stp * 3 + SCORE_BIG) 4
               else Z.quot (st_score stp * 3 + altscore) 4 in
  set_st_salscore (set_st_scores stp score altscore (st_had_bonus stp)) false.

Definition combine_sga_entry (stp : suggest_T) (altscore : Z) : suggest_T :=
  let score := if st_score stp =? SCORE_MAXMAX
               then Z.quot (SCORE_BIG * 7 + altscore) 8
               else Z.quot (st_score stp * 7 + altscore) 8 in
  set_st_salscore (set_st_scores stp score altscore (st_had_bonus stp)) true.

(** The test of lines 3010-3014: the entry is added when no entry of [ga]
    has its word. *)
Definition add_unless_present (ga : list suggest_T) (stp : suggest_T)
  : list suggest_T :=
  if existsb (fun s => strcmp_eq (st_word s) (st_word stp)) ga then ga
  else ga ++ [stp].

(** The loop that entwines the two arrays (lines 2999-3019), from index [i]
    for [n] turns. *)
Fixpoint combine_loop (gap1 gap2 : list suggest_T) (n i : nat) (ga : list suggest_T)
  : list suggest_T :=
  match n with
  | O => ga
  | S n' =>
      let ga := match gap1 !! i with
                | Some stp => add_unless_present ga stp
                | None => ga
                end in
      let ga := match gap2 !! i with
                | Some stp => add_unless_present ga stp
                | None => ga
                end in
      combine_loop gap1 gap2 n' (S i) ga
  end.

(** The loop over [su_ga] (lines 2950-2962). *)
Definition score_combine_ga (slang : slang_T) (su : suginfo_T) : suginfo_T :=
  let badsound := spell_soundfold slang (su_fbadword su) true in
  set_su_ga su
    (for_each_entry
       (fun stp => combine_ga_entry stp
                     (stp_sal_score stp (su_badptr su) (su_badlen su)
                                    slang badsound))
       (su_ga su)).

(** The loop over [su_sga] (lines 2975-2985). *)
Definition score_combine_sga (slang : slang_T) (su : suginfo_T) : suginfo_T :=
  set_su_sga su
    (for_each_entry
       (fun stp => combine_sga_entry stp
                     (spell_edit_score SPELL_TOFOLD (Some slang)
                                       (su_badword su) (st_word stp)))
       (su_sga su)).

(** The new array made of the two, cut down to [su_maxcount] (lines
    2994-3032). *)
Definition score_combine_entwine (su : suginfo_T) : suginfo_T :=
  let ga := combine_loop (su_ga su) (su_sga su)
                         (Nat.max (length (su_ga su)) (length (su_sga su)))
                         0 [] in
  let ga := if su_maxcount su <? Z.of_nat (length ga)
            then take (Z.to_nat (su_maxcount su)) ga else ga in
  set_su_sga (set_su_ga su ga) [].

(** [score_combine] (lines 2927-3033), with the allocation succeeding. *)
Definition score_combine (langs : list langp_T) (su : suginfo_T) : suginfo_T :=
  match first_sal_lang langs with
  | None => cleanup_void su GA
  | Some slang =>
      let su := score_combine_ga slang su in
      let su := score_combine_sga slang su in
      let su := check_suggestions su GA in
      let su := cleanup_void su GA in
      let su := check_suggestions su SGA in
      let su := cleanup_void su SGA in
      score_combine_entwine su
  end.

(** [badword_captype] (lines 309-350) on the text between [word] and [end]. *)
Definition badword_captype (word : list Z) : Z :=
  let flags := captype word in
  if Z.land flags WF_KEEPCAP =? 0 then flags
  else
    let u := Z.of_nat (length (filter (fun c => SPELL_ISUPPER c = true) word)) in
    let l := Z.of_nat (length (filter (fun c => SPELL_ISUPPER c = false) word)) in
    let first := match word with c :: _ => SPELL_ISUPPER c | [] => false end in
    let flags := if (l <? u) && (2 <? u) then Z.lor flags WF_ALLCAP
                 else if first then Z.lor flags WF_ONECAP
                 else flags in
    if (2 <=? u) && (2 <=? l) then Z.lor flags WF_MIXCAP else flags.

(** [add_banned] (lines 3693-3709): the table as the list of its words. *)
Definition add_banned (su : suginfo_T) (word : list Z) : suginfo_T :=
  if existsb (strcmp_eq word) (su_banned su) then su
  else set_su_banned su (word :: su_banned su).

(** Code outside spellsuggest.c: the (word, score) pairs an expression
    yields, and the lines of a file ([None] when it cannot be opened). *)
Variable eval_spell_expr : list Z -> list Z -> list (list Z * Z).
Variable read_lines : list Z -> option (list (list Z)).

(** [spell_suggest_expr] (lines 913-943). *)
Definition spell_suggest_expr (su : suginfo_T) (expr : list Z) : suginfo_T :=
  let su :=
    fold_left
      (fun su ws =>
         let '(p, score) := ws in
         if (0 <=? score) && (score <=? su_maxscore su)
         then add_suggestion su GA p (su_badlen su) score 0 true (su_sallang su) false
         else su)
      (eval_spell_expr (su_badword su) expr) su in
  let su := check_suggestions su GA in
  cleanup_void su GA.

(** The line of a suggestion file at its first slash (line 971). *)
Fixpoint split_slash (line : list Z) : option (list Z * list Z) :=
  match line with
  | [] => None
  | c :: r =>
      if c =? 47 then Some ([], r)
      else match split_slash r with
           | Some (a, b) => Some (c :: a, b)
           | None => None
           end
  end.

(** The good word of the line, up to the first control character (line 978). *)
Fixpoint upto_control (p : list Z) : list Z :=
  match p with
  | [] => []
  | c :: r => if 32 <=? c then c :: upto_control r else []
  end.

(** [spell_suggest_file] (lines 949-1000). *)
Definition spell_suggest_file (su : suginfo_T) (fname : list Z) : suginfo_T :=
  match read_lines fname with
  | None => su
  | Some lines =>
      let su :=
        fold_left
          (fun su line =>
             match split_slash line with
             | None => su
             | Some (bad, p) =>
                 if STRICMP (su_badword su) bad =? 0 then
                   let p := upto_control p in
                   let p := if captype p =? 0
                            then make_case_word p (su_badflags su) else p in
                   add_suggestion su GA p (su_badlen su) SCORE_FILE 0 true
                                  (su_sallang su) false
                 else su
             end)
          lines su in
      let su := check_suggestions su GA in
      cleanup_void su GA
  end.

(** [sps_flags] (lines 393-395). *)
Definition SPS_BEST : Z := 1.
Definition SPS_FAST : Z := 2.
Definition SPS_DOUBLE : Z := 4.

(** The two walks of the tries, [suggest_try_change] (lines 1188-1228) and
    [suggest_try_soundalike] (lines 3133-3164), as what they do to [su]; the
    second is called up to three times and remembers in [sl_sounddone] what
    the earlier calls did, so it is given the number of the call. *)
Variable suggest_try_change : suginfo_T -> suginfo_T.
Variable suggest_try_soundalike : nat -> suginfo_T -> suginfo_T.

(** [spell_suggest_intern] (lines 1005-1082). *)
Definition spell_suggest_intern (langs : list langp_T) (sps_flags : Z)
    (su : suginfo_T) : suginfo_T :=
  let su := suggest_try_special su in
  let su := suggest_try_change su in
  let su := if negb (Z.land sps_flags SPS_DOUBLE =? 0)
            then score_comp_sal langs su else su in
  let su :=
    if Z.land sps_flags SPS_FAST =? 0 then
      let su := if negb (Z.land sps_flags SPS_BEST =? 0)
                then rescore_suggestions su else su in
      let su := set_su_maxscore su SCORE_SFMAX1 in
      let su := set_su_sfmaxscore su (SCORE_MAXINIT * 3) in
      let su := suggest_try_soundalike 0 su in
      let su :=
        if Z.of_nat (length (su_ga su)) <? SUG_CLEAN_COUNT su then
          let su := set_su_maxscore su SCORE_SFMAX2 in
          let su := suggest_try_soundalike 1 su in
          if Z.of_nat (length (su_ga su)) <? SUG_CLEAN_COUNT su then
            let su := set_su_maxscore su SCORE_SFMAX3 in
            suggest_try_soundalike 2 su
          else su
        else su in
      set_su_maxscore su (su_sfmaxscore su)
    else su in
  if (Z.land sps_flags SPS_DOUBLE =? 0) && negb (Nat.eqb (length (su_ga su)) 0) then
    let su := if negb (Z.land sps_flags SPS_BEST =? 0)
              then rescore_suggestions su else su in
    let su := check_suggestions su GA in
    cleanup_void su GA
  else su.

(** An item of the option 'spellsuggest' as [spell_find_suggest] reads it
    (lines 872-898): an expression, a file, a timeout, or anything else. *)
Inductive sps_item :=
| SpsExpr (expr : list Z)
| SpsFile (fname : list Z)
| SpsTimeout (msec : Z)
| SpsOther.

(** One turn of the loop over the items (lines 868-899): [su], [do_combine]
    and [did_intern]. *)
Definition sps_item_step (langs : list langp_T) (sps_flags : Z)
    (acc : suginfo_T * bool * bool) (item : sps_item) : suginfo_T * bool * bool :=
  let '(su, do_combine, did_intern) := acc in
  match item with
  | SpsExpr expr => (spell_suggest_expr su expr, do_combine, did_intern)
  | SpsFile fname => (spell_suggest_file su fname, do_combine, did_intern)
  | SpsTimeout _ => acc
  | SpsOther =>
      if did_intern then acc
      else (spell_suggest_intern langs sps_flags su,
            if negb (Z.land sps_flags SPS_DOUBLE =? 0) then true else do_combine,
            true)
  end.

(** The first language with [lp_sallang] (lines 830-838). *)
Fixpoint first_sallang (langs : list langp_T) : option slang_T :=
  match langs with
  | [] => None
  | lp :: rest =>
      match lp_sallang lp with
      | Some sl => Some sl
      | None => first_sallang rest
      end
  end.

(** [spell_find_suggest] (lines 772-907); [p_sps] is given as its items. *)
Definition spell_find_suggest (langs : list langp_T) (sps_flags : Z)
    (p_sps : list sps_item) (badptr : list Z) (badlen maxcount : Z)
    (banbadword need_cap : bool) : suginfo_T :=
  let su := {| su_ga := []; su_maxcount := 0; su_maxscore := 0;
               su_sfmaxscore := 0; su_sga := []; su_badptr := [];
               su_badlen := 0; su_badflags := 0; su_badword := [];
               su_fbadword := []; su_sal_badword := []; su_banned := [];
               su_sallang := None; su_sounddone := [] |} in
  match badptr with
  | [] => su
  | c :: _ =>
      let checked := spell_check badptr in
      let flagged := if badlen =? 0 then checked.2 else false in
      let su_badlen := if badlen =? 0 then checked.1 else badlen in
      let su_badlen := if MAXWLEN <=? su_badlen then MAXWLEN - 1 else su_badlen in
      let badword := take (Z.to_nat su_badlen) badptr in
      let fbadword := take (Z.to_nat su_badlen) (spell_casefold badword) in
      let badflags := badword_captype badword in
      let badflags := if need_cap then Z.lor badflags WF_ONECAP else badflags in
      let sallang := first_sallang langs in
      let su := {| su_ga := []; su_maxcount := maxcount;
                   su_maxscore := SCORE_MAXINIT;
                   su_sfmaxscore := 0; su_sga := []; su_badptr := badptr;
                   su_badlen := su_badlen; su_badflags := badflags;
                   su_badword := badword; su_fbadword := fbadword;
                   su_sal_badword := match sallang with
                                     | Some sl => spell_soundfold sl fbadword true
                                     | None => []
                                     end;
                   su_banned := []; su_sallang := sallang;
                   su_sounddone := [] |} in
      let su := if negb (SPELL_ISUPPER c) && negb flagged
                then add_suggestion su GA (make_case_word badword WF_ONECAP)
                                    su_badlen SCORE_ICASE 0 true sallang false
                else su in
      let su := if banbadword then add_banned su badword else su in
      let '(su, do_combine, _) :=
        fold_left (sps_item_step langs sps_flags) p_sps (su, false, false) in
      if do_combine then score_combine langs su else su
  end.

(** [spell_suggest_list] (lines 727-763): the strings put in [gap], with the
    allocations succeeding. *)
Definition spell_suggest_list (langs : list langp_T) (sps_flags : Z)
    (p_sps : list sps_item) (word : list Z) (maxcount : Z) (need_cap : bool)
  : list (list Z) :=
  let sug := spell_find_suggest langs sps_flags p_sps word 0 maxcount false need_cap in
  map (fun stp =>
         strcpy_at (st_word stp) (st_wordlen stp)
                   (drop (Z.to_nat (st_orglen stp)) (su_badptr sug)))
      (su_ga sug).

(** ** The walk through the word trees: [suggest_trie_walk] (lines 1265-2703)

    The walk is embedded for what decides how deep it goes: of every level
    of [stack] its state, its score and [ts_prefixdepth], and of [su] all of
    it.  What the code reads from the byte arrays of the trees, from
    [fword], [tword], [preword] and [compflags], and from the functions of
    spell.c is handed to a turn of the loop as a [walk_obs]; the scores are
    [int]s that stay far from the ends of their range. *)

Inductive state_T :=
| STATE_START | STATE_NOPREFIX | STATE_SPLITUNDO | STATE_ENDNUL | STATE_PLAIN
| STATE_DEL | STATE_INS_PREP | STATE_INS | STATE_SWAP | STATE_UNSWAP
| STATE_SWAP3 | STATE_UNSWAP3 | STATE_UNROT3L | STATE_UNROT3R | STATE_REP_INI
| STATE_REP | STATE_REP_UNDO | STATE_FINAL.

(** [trystate_T] (lines 159-183); [ts_prefixdepth] and [ts_save_badflags]
    are [char_u]. *)
Record trystate_T := {
  ts_state : state_T;
  ts_score : Z;
  ts_prefixdepth : Z;
  ts_save_badflags : Z
}.

Definition PFD_NOPREFIX : Z := 0xff.
Definition PFD_PREFIXTREE : Z := 0xfe.
Definition PFD_NOTSPECIAL : Z := 0xfd.

Definition SCORE_COMMON1 : Z := 30.
Definition SCORE_COMMON2 : Z := 40.
Definition SCORE_COMMON3 : Z := 50.
Definition SCORE_THRES2 : Z := 10.
Definition SCORE_THRES3 : Z := 100.

Definition set_ts_state (sp : trystate_T) (v : state_T) : trystate_T :=
  {| ts_state := v; ts_score := ts_score sp; ts_prefixdepth := ts_prefixdepth sp;
     ts_save_badflags := ts_save_badflags sp |}.

Definition set_ts_score (sp : trystate_T) (v : Z) : trystate_T :=
  {| ts_state := ts_state sp; ts_score := v; ts_prefixdepth := ts_prefixdepth sp;
     ts_save_badflags := ts_save_badflags sp |}.

Definition set_ts_prefixdepth (sp : trystate_T) (v : Z) : trystate_T :=
  {| ts_state := ts_state sp; ts_score := ts_score sp; ts_prefixdepth := v;
     ts_save_badflags := ts_save_badflags sp |}.

Definition set_ts_save_badflags (sp : trystate_T) (v : Z) : trystate_T :=
  {| ts_state := ts_state sp; ts_score := ts_score sp;
     ts_prefixdepth := ts_prefixdepth sp; ts_save_badflags := Z.land v 255 |}.

(** [score_wordcount_adj] (lines 272-302); [wc] is the count that
    [sl_wordcount] has for the word, [None] when it has none. *)
Definition score_wordcount_adj (wc : option Z) (score : Z) (split : bool) : Z :=
  match wc with
  | None => score
  | Some wc_count =>
      let bonus := if wc_count <? SCORE_THRES2 then SCORE_COMMON1
                   else if wc_count <? SCORE_THRES3 then SCORE_COMMON2
                   else SCORE_COMMON3 in
      let newscore := if split then score - Z.quot bonus 2 else score - bonus in
      if newscore <? 0 then 0 else newscore
  end.

(** The changes of the score of the new level after [go_deeper]. *)
Inductive plain_adj :=
| AdjNone
| AdjSubComp      (* line 2008 *)
| AdjSimilar      (* lines 2021 and 2063 *)
| AdjInsComp      (* line 2033 *)
| AdjInsDup.      (* line 2044 *)

Inductive del_adj :=
| DelNone
| DelComp         (* line 2113 *)
| DelDup.         (* lines 2115 and 2121 *)

(** What one turn of the loop reads outside of [stack[depth]]'s state and
    score and of [su]. *)
Record walk_obs := {
  o_has_mbyte : bool;       (* has_mbyte *)
  (* STATE_START and STATE_NOPREFIX *)
  o_byte_nul : bool;        (* byts[arridx] == 0 *)
  o_curi_past : bool;       (* sp->ts_curi > len, sp->ts_curi > byts[...] *)
  o_n : nat;                (* n: nofold_len(...) or sp->ts_fidx *)
  o_nosuggest : bool;       (* flags & WF_NOSUGGEST *)
  o_prefixok : bool;        (* sp->ts_flags & TSF_PREFIXOK *)
  o_prefix_invalid : bool;  (* c > 0 and valid_word_prefix(...) == 0 *)
  o_fword_ends : bool;      (* fword_ends *)
  o_goodword_ends : bool;   (* goodword_ends at line 1627 *)
  o_compound_ok : bool;     (* compound_ok at line 1627 *)
  o_word_before : bool;     (* sp->ts_complen > sp->ts_compsplit *)
  o_nobreak_same : bool;    (* the condition of lines 1498-1502 *)
  o_compound_giveup : bool; (* the conditions of lines 1523-1533 *)
  o_preword_before : list Z; (* preword[0 .. sp->ts_prewordlen - 1] *)
  o_word : list Z;          (* preword + sp->ts_prewordlen, once formed *)
  o_tword : list Z;         (* tword + sp->ts_splitoff *)
  o_splitfidx : Z;          (* sp->ts_splitfidx - repextra *)
  o_fidx : Z;               (* sp->ts_fidx - repextra *)
  o_fidx_pos : bool;        (* sp->ts_fidx > 0 *)
  o_wc : option Z;          (* the count score_wordcount_adj() finds at lines
                               1505 and 1665 *)
  o_wc_split : option Z;    (* and at line 1794 *)
  o_prewordlen_pos : bool;  (* sp->ts_prewordlen > 0 *)
  o_flag_banned : bool;     (* flags & WF_BANNED *)
  o_complen_same : bool;    (* sp->ts_complen == sp->ts_compsplit *)
  o_no_compprog : bool;     (* slang->sl_compprog == NULL *)
  o_region_wrong : bool;    (* the condition of lines 1615-1616 *)
  o_rare : bool;            (* flags & WF_RARE *)
  o_case_invalid : bool;    (* !spell_valid_case(...) *)
  o_nonword_before : bool;  (* the conditions of lines 1656 and 1660 *)
  o_try_compound : bool;    (* try_compound at line 1769 *)
  o_split_invalid : bool;   (* the conditions of lines 1777-1786 *)
  o_nonword_here : bool;    (* !spell_iswordp_nmw(fword + sp->ts_fidx),
                               !spell_iswordp(fword + sp->ts_fidx) *)
  o_fword_nul : bool;       (* fword[sp->ts_fidx] == NUL *)
  (* STATE_ENDNUL and STATE_PLAIN *)
  o_in_char : bool;         (* sp->ts_tcharlen > 0 *)
  o_same_byte : bool;       (* the condition of lines 1938-1939 *)
  o_fidx_ge : bool;         (* sp->ts_fidx >= sp->ts_fidxtry *)
  o_subst_ok : bool;        (* the condition of lines 1945-1946 *)
  o_plain_adj : plain_adj;
  (* STATE_DEL *)
  o_del_star : bool;        (* sp->ts_fidx == 0 && fword[sp->ts_fidx] == '*' *)
  o_del_adj : del_adj;
  (* STATE_INS_PREP and STATE_INS *)
  o_diddel : bool;          (* sp->ts_flags & TSF_DIDDEL *)
  o_only_nul : bool;        (* the loop of lines 2139-2156 ends at line 2141 *)
  o_out_of_bounds : bool;   (* the condition of line 2180 *)
  o_ins_star : bool;        (* sp->ts_twordlen == 0 && c == '*' *)
  o_ins_differs : bool;     (* c != fword[sp->ts_fidx] *)
  o_ins_dup : bool;         (* the conditions of lines 2220-2227 *)
  (* STATE_SWAP to STATE_UNROT3R *)
  o_c2_nul : bool;          (* c2 == NUL *)
  o_c2_same : bool;         (* c == c2 *)
  o_c3_skip : bool;         (* c == c3 || c3 == NUL *)
  o_mid_nonword : bool;     (* !spell_iswordp(p) at line 2437 *)
  (* STATE_REP_INI and STATE_REP *)
  o_rep_first_neg : bool;   (* sp->ts_curi < 0 at line 2591 *)
  o_rep_match : bool;       (* the loop of lines 2612-2648 comes to an entry
                               with STRNCMP(...) == 0 *)
  (* STATE_FINAL *)
  o_interrupt : bool        (* got_int after ui_breakcheck() or the time limit *)
}.

(** The state of the loop: [su], [stack[depth]], ..., [stack[0]] (the live
    levels, the top first) and [got_int].  [depth] is one less than the
    number of live levels. *)
Record walk_T := {
  w_su : suginfo_T;
  w_stack : list trystate_T;
  w_got_int : bool
}.

Definition w_depth (w : walk_T) : Z := Z.of_nat (length (w_stack w)) - 1.

(** What a turn did to the depth: [Pushed add] is [go_deeper(stack, depth,
    add)] with [++depth]. *)
Inductive walk_event :=
| Pushed (add : Z)
| Popped
| Stayed.

(** [TRY_DEEPER] (lines 1231-1232), with [sp] for [stack[depth]]. *)
Definition TRY_DEEPER (su : suginfo_T) (sp : trystate_T) (depth add : Z) : bool :=
  (depth <? MAXWLEN - 1) && (ts_score sp + add <? su_maxscore su).

(** [go_deeper] (lines 2709-2717): the new [stack[depth + 1]]. *)
Definition go_deeper (sp : trystate_T) (score_add : Z) : trystate_T :=
  set_ts_score (set_ts_state sp STATE_START) (ts_score sp + score_add).

Section TrieWalk.

(** [add_sound_suggest] (lines 3206-3402) goes through the words of a
    sound-folded word; it gets [su], the word, the score and [lp]. *)
Variable add_sound_suggest : suginfo_T -> list Z -> Z -> langp_T -> suginfo_T.

Variable lp : langp_T.
Variable soundfold : bool.

(** [pbyts != NULL] (lines 1318-1350). *)
Definition has_pbyts : bool :=
  if soundfold then false
  else match sl_pbyts (lp_slang lp) with Some _ => true | None => false end.

Definition staying (su : suginfo_T) (sp : trystate_T) (below : list trystate_T)
  : walk_T * walk_event :=
  ({| w_su := su; w_stack := sp :: below; w_got_int := false |}, Stayed).

Definition pushing (su : suginfo_T) (child sp : trystate_T)
    (below : list trystate_T) (add : Z) : walk_T * walk_event :=
  ({| w_su := su; w_stack := child :: sp :: below; w_got_int := false |}, Pushed add).

(** [badword_captype(su->su_badptr + n, su->su_badptr + su->su_badlen)]. *)
Definition captype_from (su : suginfo_T) (n : nat) : Z :=
  badword_captype (take (Z.to_nat (su_badlen su) - n) (drop n (su_badptr su))).

(** [WAS_BANNED(su, word)]. *)
Definition WAS_BANNED (su : suginfo_T) (word : list Z) : bool :=
  existsb (strcmp_eq word) (su_banned su).

(** The start of a node in the prefix tree (lines 1376-1423). *)
Definition walk_start_prefix (o : walk_obs) (su : suginfo_T) (sp : trystate_T)
    (below : list trystate_T) : walk_T * walk_event :=
  let depth := Z.of_nat (length below) in
  let n := ts_state sp in
  let sp := set_ts_save_badflags (set_ts_state sp STATE_ENDNUL) (su_badflags su) in
  if (depth <? MAXWLEN - 1)
     && (o_byte_nul o || match n with STATE_NOPREFIX => true | _ => false end)
  then
    let su := set_su_badflags su (captype_from su (o_n o)) in
    let child := set_ts_prefixdepth (go_deeper sp 0) (Z.land depth 255) in
    pushing su child sp below 0
  else staying su sp below.

(** The end of a word in the tree (lines 1434-1885). *)
Definition walk_start_word (o : walk_obs) (su : suginfo_T) (sp : trystate_T)
    (below : list trystate_T) : walk_T * walk_event :=
  let depth := Z.of_nat (length below) in
  let slang := lp_slang lp in
  if o_nosuggest o then staying su sp below
  else if (ts_prefixdepth sp <=? PFD_NOTSPECIAL) && negb (o_prefixok o) && has_pbyts
          && o_prefix_invalid o
  then staying su sp below
  else if o_word_before o && sl_nobreak slang && o_nobreak_same o then
    (* lines 1498-1515 *)
    let newscore := score_wordcount_adj (o_wc o) (ts_score sp) (o_prewordlen_pos o) in
    let su := if newscore <=? su_maxscore su
              then add_suggestion su GA (o_preword_before o) (o_splitfidx o)
                                  newscore 0 false (lp_sallang lp) false
              else su in
    staying su sp below
  else if o_word_before o && negb (sl_nobreak slang) && o_compound_giveup o
  then staying su sp below
  else
    let preword := o_preword_before o ++ o_word o in
    if negb soundfold && o_flag_banned o then
      staying (add_banned su (o_word o)) sp below
    else if negb soundfold
            && ((o_complen_same o && WAS_BANNED su (o_word o)) || WAS_BANNED su preword)
            && o_no_compprog o
    then staying su sp below
    else
      (* lines 1612-1624 *)
      let newscore :=
        if soundfold then 0
        else (if o_region_wrong o then SCORE_REGION else 0)
             + (if o_rare o then SCORE_RARE else 0)
             + (if o_case_invalid o then SCORE_ICASE else 0) in
      let ends := o_fword_ends o && o_goodword_ends o && o_fidx_ge o
                  && o_compound_ok o in
      (* lines 1627-1696 *)
      let '(su, newscore) :=
        if ends then
          if soundfold then (add_sound_suggest su preword (ts_score sp) lp, newscore)
          else if o_fidx_pos o then
            let newscore :=
              if o_nonword_before o then newscore + SCORE_NONWORD else newscore in
            let score := score_wordcount_adj (o_wc o) (ts_score sp + newscore)
                                             (o_prewordlen_pos o) in
            if score <=? su_maxscore su then
              let su := add_suggestion su GA preword (o_fidx o) score 0 false
                                       (lp_sallang lp) false in
              if negb (Z.land (su_badflags su) WF_MIXCAP =? 0) then
                let c := captype preword in
                if (c =? 0) || (c =? WF_ALLCAP) then
                  let preword :=
                    o_preword_before o
                    ++ make_case_word (o_tword o) (if c =? 0 then WF_ALLCAP else 0) in
                  (add_suggestion su GA preword (o_fidx o) (score + SCORE_ICASE) 0
                                  false (lp_sallang lp) false, newscore)
                else (su, newscore)
              else (su, newscore)
            else (su, newscore)
          else (su, newscore)
        else (su, newscore) in
      (* lines 1698-1884 *)
      if (o_fidx_ge o || o_fword_ends o) && (negb (o_has_mbyte o) || negb (o_in_char o))
      then
        let try_split := (o_fidx o <? su_badlen su) && negb soundfold in
        let try_compound := o_try_compound o in
        if try_split || try_compound then
          let splitting := negb try_compound
                           && (negb (o_fword_ends o) || negb (o_goodword_ends o)) in
          if splitting && o_split_invalid o then staying su sp below
          else
            let newscore :=
              if splitting then
                score_wordcount_adj (o_wc_split o)
                  (newscore + (if sl_nosplitsugs slang then SCORE_SPLIT_NO
                               else SCORE_SPLIT))
                  true
              else newscore in
            if TRY_DEEPER su sp depth newscore then
              let child := go_deeper sp newscore in
              let sp := set_ts_state (set_ts_save_badflags sp (su_badflags su))
                                     STATE_SPLITUNDO in
              let child :=
                if ((negb try_compound && o_nonword_here o) || o_fword_ends o)
                   && negb (o_fword_nul o) && o_goodword_ends o
                then
                  if o_fword_ends o then child
                  else set_ts_score child (ts_score child - (SCORE_SPLIT - SCORE_SUBST))
                else child in
              let child := set_ts_prefixdepth child PFD_NOPREFIX in
              let su := set_su_badflags su (captype_from su (o_n o)) in
              let child :=
                if has_pbyts
                then set_ts_state (set_ts_prefixdepth child PFD_PREFIXTREE)
                                  STATE_NOPREFIX
                else child in
              pushing su child sp below newscore
            else staying su sp below
        else staying su sp below
      else staying su sp below.

(** [STATE_START] and [STATE_NOPREFIX] (lines 1368-1885). *)
Definition walk_start (o : walk_obs) (su : suginfo_T) (sp : trystate_T)
    (below : list trystate_T) : walk_T * walk_event :=
  if ts_prefixdepth sp =? PFD_PREFIXTREE then walk_start_prefix o su sp below
  else if o_curi_past o || negb (o_byte_nul o) then
    staying su (set_ts_save_badflags (set_ts_state sp STATE_ENDNUL) (su_badflags su))
            below
  else walk_start_word o su sp below.

(** The score the new level loses after [go_deeper]. *)
Definition plain_adj_score (a : plain_adj) : Z :=
  match a with
  | AdjNone => 0
  | AdjSubComp => SCORE_SUBST - SCORE_SUBCOMP
  | AdjSimilar => SCORE_SUBST - SCORE_SIMILAR
  | AdjInsComp => SCORE_INS - SCORE_INSCOMP
  | AdjInsDup => SCORE_INS - SCORE_INSDUP
  end.

Definition del_adj_score (a : del_adj) : Z :=
  match a with
  | DelNone => 0
  | DelComp => SCORE_DEL - SCORE_DELCOMP
  | DelDup => SCORE_DEL - SCORE_DELDUP
  end.

(** [STATE_PLAIN] (lines 1914-2067). *)
Definition walk_plain (o : walk_obs) (su : suginfo_T) (sp : trystate_T)
    (below : list trystate_T) : walk_T * walk_event :=
  let depth := Z.of_nat (length below) in
  if o_curi_past o then
    staying su (set_ts_state sp (if o_fidx_ge o then STATE_DEL else STATE_FINAL)) below
  else
    let newscore := if o_same_byte o then 0 else SCORE_SUBST in
    if ((newscore =? 0) || (o_fidx_ge o && o_subst_ok o))
       && TRY_DEEPER su sp depth newscore
    then
      let child := go_deeper sp newscore in
      let child := set_ts_score child (ts_score child - plain_adj_score (o_plain_adj o)) in
      pushing su child sp below newscore
    else staying su sp below.

(** [STATE_ENDNUL] (lines 1900-1912), which goes on with [STATE_PLAIN]. *)
Definition walk_endnul (o : walk_obs) (su : suginfo_T) (sp : trystate_T)
    (below : list trystate_T) : walk_T * walk_event :=
  let su := set_su_badflags su (ts_save_badflags sp) in
  if o_fword_nul o && negb (o_in_char o) then
    staying su (set_ts_state sp STATE_DEL) below
  else walk_plain o su (set_ts_state sp STATE_PLAIN) below.

(** [STATE_INS_PREP] (lines 2127-2157). *)
Definition walk_ins_prep (o : walk_obs) (su : suginfo_T) (sp : trystate_T)
    (below : list trystate_T) : walk_T * walk_event :=
  if o_diddel o then staying su (set_ts_state sp STATE_SWAP) below
  else if o_only_nul o then staying su (set_ts_state sp STATE_SWAP) below
  else staying su (set_ts_state sp STATE_INS) below.

(** [STATE_DEL] (lines 2069-2125), which goes on with [STATE_INS_PREP] when
    it does not delete. *)
Definition walk_del (o : walk_obs) (su : suginfo_T) (sp : trystate_T)
    (below : list trystate_T) : walk_T * walk_event :=
  let depth := Z.of_nat (length below) in
  if o_has_mbyte o && o_in_char o then
    staying su (set_ts_state sp STATE_FINAL) below
  else
    let sp := set_ts_state sp STATE_INS_PREP in
    let newscore := if soundfold && o_del_star o then Z.quot (2 * SCORE_DEL) 3
                    else SCORE_DEL in
    if negb (o_fword_nul o) && TRY_DEEPER su sp depth newscore then
      let child := go_deeper sp newscore in
      let child := set_ts_score child (ts_score child - del_adj_score (o_del_adj o)) in
      pushing su child sp below newscore
    else walk_ins_prep o su sp below.

(** [STATE_INS] (lines 2161-2231). *)
Definition walk_ins (o : walk_obs) (su : suginfo_T) (sp : trystate_T)
    (below : list trystate_T) : walk_T * walk_event :=
  let depth := Z.of_nat (length below) in
  if o_curi_past o then staying su (set_ts_state sp STATE_SWAP) below
  else if o_out_of_bounds o then
    ({| w_su := su; w_stack := sp :: below; w_got_int := true |}, Stayed)
  else
    let newscore := if soundfold && o_ins_star o then Z.quot (2 * SCORE_INS) 3
                    else SCORE_INS in
    if o_ins_differs o && TRY_DEEPER su sp depth newscore then
      let child := go_deeper sp newscore in
      let child := if o_ins_dup o
                   then set_ts_score child (ts_score child - (SCORE_INS - SCORE_INSDUP))
                   else child in
      pushing su child sp below newscore
    else staying su sp below.

(** [STATE_REP] (lines 2602-2657). *)
Definition walk_rep (o : walk_obs) (su : suginfo_T) (sp : trystate_T)
    (below : list trystate_T) : walk_T * walk_event :=
  let depth := Z.of_nat (length below) in
  if o_rep_match o && TRY_DEEPER su sp depth SCORE_REP then
    pushing su (go_deeper sp SCORE_REP) (set_ts_state sp STATE_REP_UNDO) below SCORE_REP
  else staying su (set_ts_state sp STATE_FINAL) below.

(** [STATE_REP_INI] (lines 2569-2600), which goes on with [STATE_REP]. *)
Definition walk_rep_ini (o : walk_obs) (su : suginfo_T) (sp : trystate_T)
    (below : list trystate_T) : walk_T * walk_event :=
  if (match lp_replang lp with None => true | Some _ => false end && negb soundfold)
     || (su_maxscore su <=? ts_score sp + SCORE_REP)
     || negb (o_fidx_ge o)
  then staying su (set_ts_state sp STATE_FINAL) below
  else if o_rep_first_neg o then staying su (set_ts_state sp STATE_FINAL) below
  else walk_rep o su (set_ts_state sp STATE_REP) below.

(** A swap or a rotation that costs [add] and is undone in the state [undo]
    (lines 2293-2323, 2381-2411, 2448-2484 and 2509-2545). *)
Definition walk_try_swap (su : suginfo_T) (sp : trystate_T)
    (below : list trystate_T) (add : Z) (undo : state_T) : walk_T * walk_event :=
  let depth := Z.of_nat (length below) in
  if TRY_DEEPER su sp depth add then
    pushing su (go_deeper sp add) (set_ts_state sp undo) below add
  else staying su (set_ts_state sp STATE_REP_INI) below.

(** [STATE_SWAP] (lines 2233-2324). *)
Definition walk_swap (o : walk_obs) (su : suginfo_T) (sp : trystate_T)
    (below : list trystate_T) : walk_T * walk_event :=
  if o_fword_nul o then staying su (set_ts_state sp STATE_FINAL) below
  else if negb soundfold && o_nonword_here o then
    staying su (set_ts_state sp STATE_REP_INI) below
  else if o_c2_nul o then staying su (set_ts_state sp STATE_REP_INI) below
  else if o_c2_same o then staying su (set_ts_state sp STATE_SWAP3) below
  else walk_try_swap su sp below SCORE_SWAP STATE_UNSWAP.

(** [STATE_SWAP3] (lines 2344-2412); [STATE_UNSWAP] goes on with it. *)
Definition walk_swap3 (o : walk_obs) (su : suginfo_T) (sp : trystate_T)
    (below : list trystate_T) : walk_T * walk_event :=
  if o_c3_skip o then staying su (set_ts_state sp STATE_REP_INI) below
  else walk_try_swap su sp below SCORE_SWAP3 STATE_UNSWAP3.

(** [STATE_UNSWAP3] (lines 2414-2485). *)
Definition walk_unswap3 (o : walk_obs) (su : suginfo_T) (sp : trystate_T)
    (below : list trystate_T) : walk_T * walk_event :=
  if negb soundfold && o_mid_nonword o then
    staying su (set_ts_state sp STATE_REP_INI) below
  else walk_try_swap su sp below SCORE_SWAP3 STATE_UNROT3L.

(** The [default] of the [switch] (lines 2679-2700): [--depth]. *)
Definition walk_final (o : walk_obs) (su : suginfo_T) (below : list trystate_T)
  : walk_T * walk_event :=
  ({| w_su := su; w_stack := below; w_got_int := o_interrupt o |}, Popped).

(** One turn of [while (depth >= 0 && !got_int)] (lines 1363-2702); after
    the loop has ended nothing changes. *)
Definition walk_step (o : walk_obs) (w : walk_T) : walk_T * walk_event :=
  match w_stack w with
  | [] => (w, Stayed)
  | sp :: below =>
      if w_got_int w then (w, Stayed)
      else
        let su := w_su w in
        match ts_state sp with
        | STATE_START | STATE_NOPREFIX => walk_start o su sp below
        | STATE_SPLITUNDO =>
            staying (set_su_badflags su (ts_save_badflags sp))
                    (set_ts_state sp STATE_START) below
        | STATE_ENDNUL => walk_endnul o su sp below
        | STATE_PLAIN => walk_plain o su sp below
        | STATE_DEL => walk_del o su sp below
        | STATE_INS_PREP => walk_ins_prep o su sp below
        | STATE_INS => walk_ins o su sp below
        | STATE_SWAP => walk_swap o su sp below
        | STATE_UNSWAP | STATE_SWAP3 => walk_swap3 o su sp below
        | STATE_UNSWAP3 => walk_unswap3 o su sp below
        | STATE_UNROT3L => walk_try_swap su sp below SCORE_SWAP3 STATE_UNROT3R
        | STATE_UNROT3R | STATE_REP_INI => walk_rep_ini o su sp below
        | STATE_REP => walk_rep o su sp below
        | STATE_REP_UNDO => staying su (set_ts_state sp STATE_REP) below
        | STATE_FINAL => walk_final o su below
        end
  end.

(** The state before the loop (lines 1313-1350): [stack[0]] cleared. *)
Definition walk_init (su : suginfo_T) : walk_T :=
  {| w_su := su;
     w_stack := [ {| ts_state := if has_pbyts then STATE_NOPREFIX else STATE_START;
                     ts_score := 0;
                     ts_prefixdepth := if has_pbyts then PFD_PREFIXTREE
                                       else PFD_NOPREFIX;
                     ts_save_badflags := 0 |} ];
     w_got_int := false |}.

(** The loop for the turns that read the observations [os]. *)
Definition walk_run (os : list walk_obs) (w : walk_T) : walk_T :=
  fold_left (fun w o => fst (walk_step o w)) os w.

(** [suggest_trie_walk] for the turns that read [os]. *)
Definition suggest_trie_walk (su : suginfo_T) (os : list walk_obs) : walk_T :=
  walk_run os (walk_init su).

End TrieWalk.

(** ** The walks of [suggest_try_change] (lines 1188-1228)

    [suggest_try_change] makes [fword], the case-folded bad word with the
    case-folded text behind it, cut to the length of the text in the line,
    and walks the trees of every language of [b_langp] with it, in their
    order; a language whose word tree is not loaded ([sl_fbyts] is NULL) is
    passed over.  [fword] is read by the walks only, which have what they
    read handed to them: the walk for the language [lpi] reads [os lpi].
    [loaded lp] is [lp->lp_slang->sl_fbyts != NULL], a field the record
    [slang_T] above does not have.  The walks are not for the sound-folded
    word, so they never come to [add_sound_suggest]. *)
Definition suggest_try_change_walks
    (add_sound_suggest : suginfo_T -> list Z -> Z -> langp_T -> suginfo_T)
    (loaded : langp_T -> bool) (os : nat -> list walk_obs)
    (langs : list langp_T) (su : suginfo_T) : suginfo_T :=
  fold_left (fun su lpi =>
               match langs !! lpi with
               | Some lp =>
                   if loaded lp
                   then w_su (suggest_trie_walk add_sound_suggest lp false su (os lpi))
                   else su
               | None => su
               end)
            (seq 0 (length langs)) su.

(** * What the code guarantees *)

(** ** The candidate store *)

(** *** The order of [sug_compare] *)

Lemma STRICMP_opp (s1 s2 : list Z) : STRICMP s2 s1 = - STRICMP s1 s2.
Proof.
  revert s2. induction s1 as [|c1 r1 IH]; intros [|c2 r2]; simpl; try lia.
  destruct (Z.eqb_spec (TOLOWER_LOC c1 - TOLOWER_LOC c2) 0) as [E|E];
    destruct (Z.eqb_spec (TOLOWER_LOC c2 - TOLOWER_LOC c1) 0) as [E'|E']; try lia.
  apply IH.
Qed.

Lemma sug_compare_opp (p1 p2 : suggest_T) : sug_compare p2 p1 = - sug_compare p1 p2.
Proof.
  unfold sug_compare.
  destruct (Z.eqb_spec (st_score p1 - st_score p2) 0);
    destruct (Z.eqb_spec (st_score p2 - st_score p1) 0); try lia.
  destruct (Z.eqb_spec (st_altscore p1 - st_altscore p2) 0);
    destruct (Z.eqb_spec (st_altscore p2 - st_altscore p1) 0); try lia.
  apply STRICMP_opp.
Qed.

#[local] Instance sug_le_total : Total sug_le.
Proof.
  intros p1 p2. unfold sug_le. rewrite (sug_compare_opp p1 p2). lia.
Qed.

(** The key the comparison orders by: first the score, then the alternative
    score, then the words without regard to case. *)
Lemma sug_le_key (p1 p2 : suggest_T) :
  sug_le p1 p2 <->
  st_score p1 < st_score p2 \/
  (st_score p1 = st_score p2 /\
   (st_altscore p1 < st_altscore p2 \/
    (st_altscore p1 = st_altscore p2 /\ STRICMP (st_word p1) (st_word p2) <= 0))).
Proof.
  unfold sug_le, sug_compare.
  destruct (Z.eqb_spec (st_score p1 - st_score p2) 0);
    [destruct (Z.eqb_spec (st_altscore p1 - st_altscore p2) 0)|]; lia.
Qed.

(** The order the claims speak of, written out: [p1] may stand before [p2]
    when its score is lower, or the scores are the same and its alternative
    score is lower, or these are the same too and its word is not behind the
    other without regard to case. *)
Definition by_key (p1 p2 : suggest_T) : Prop :=
  st_score p1 < st_score p2 \/
  (st_score p1 = st_score p2 /\
   (st_altscore p1 < st_altscore p2 \/
    (st_altscore p1 = st_altscore p2 /\
     STRICMP (st_word p1) (st_word p2) <= 0))).

(** An array that [sug_compare] sorts is in the order of the key. *)
Lemma Sorted_by_key (l : list suggest_T) : Sorted sug_le l -> Sorted by_key l.
Proof.
  induction 1 as [|a l Hs IH Hd]; constructor; [exact IH|].
  destruct Hd as [|b l Hab]; constructor. apply sug_le_key. exact Hab.
Qed.

(** An array that [sug_compare] sorts has its scores in order. *)
Lemma Sorted_scores (l : list suggest_T) :
  Sorted sug_le l -> StronglySorted (fun a b => st_score a <= st_score b) l.
Proof.
  intros H. apply Sorted_StronglySorted; [intros a b c; lia|].
  induction H as [|a l Hs IH Hd]; constructor; [exact IH|].
  destruct Hd as [|b l Hab]; constructor.
  apply sug_le_key in Hab. lia.
Qed.

Lemma qsort_Sorted (l : list suggest_T) : Sorted sug_le (qsort l).
Proof. unfold qsort. apply Sorted_merge_sort. apply sug_le_total. Qed.

Lemma qsort_Permutation (l : list suggest_T) : Permutation (qsort l) l.
Proof. unfold qsort. apply merge_sort_Permutation. Qed.

Lemma qsort_length (l : list suggest_T) : length (qsort l) = length l.
Proof. apply Permutation_length, qsort_Permutation. Qed.

Lemma Sorted_take {A} (R : A -> A -> Prop) (l : list A) (n : nat) :
  Sorted R l -> Sorted R (take n l).
Proof.
  intros H. revert n. induction H as [|a l Hs IH Hd]; intros [|n]; simpl;
    try constructor.
  - apply IH.
  - destruct Hd; destruct n; simpl; constructor. assumption.
Qed.

(** What [cleanup_suggestions] returns on an array longer than [keep >= 1]. *)
Lemma cleanup_suggestions_truncates (gap : list suggest_T) (maxscore keep : Z) :
  1 <= keep < Z.of_nat (length gap) ->
  exists lst,
    cleanup_suggestions gap maxscore keep
    = (take (Z.to_nat keep) (qsort gap), st_score lst) /\
    last (take (Z.to_nat keep) (qsort gap)) = Some lst.
Proof.
  intros Hk. unfold cleanup_suggestions.
  destruct (Z.leb_spec (Z.of_nat (length gap)) 0); [lia|].
  destruct (Z.ltb_spec keep (Z.of_nat (length gap))); [|lia].
  destruct (Z.leb_spec 1 keep); [|lia].
  assert (Hlen : (Z.to_nat (keep - 1) < length (qsort gap))%nat)
    by (rewrite qsort_length; lia).
  destruct (lookup_lt_is_Some_2 _ _ Hlen) as [stp Hstp].
  rewrite Hstp. exists stp. split; [reflexivity|].
  rewrite last_lookup. rewrite length_take, qsort_length.
  replace (Init.Nat.pred (Z.to_nat keep `min` length gap)) with (Z.to_nat (keep - 1)) by lia.
  rewrite lookup_take_lt by lia. exact Hstp.
Qed.

(** The entry at which a sorted array is cut parts the scores: no entry
    before the cut has a higher score than the last of them, and no entry
    behind it a lower one. *)
Lemma sorted_cut_scores (l : list suggest_T) (n : nat) (lst : suggest_T) :
  Sorted sug_le l -> last (take n l) = Some lst ->
  Forall (fun stp => st_score stp <= st_score lst) (take n l) /\
  Forall (fun stp => st_score lst <= st_score stp) (drop n l).
Proof.
  intros Hsorted Hlast.
  pose proof (Sorted_scores _ Hsorted) as Hs.
  rewrite <- (take_drop n l) in Hs.
  assert (Hin : lst ∈ take n l).
  { apply last_Some in Hlast. destruct Hlast as [l' ->].
    apply elem_of_app. right. apply list_elem_of_singleton. reflexivity. }
  split.
  - apply last_Some in Hlast. destruct Hlast as [l' El]. rewrite El in Hs |- *.
    apply Forall_app. split; [|constructor; [lia|constructor]].
    apply List.Forall_forall. intros x Hx.
    apply StronglySorted_app_1_l in Hs.
    apply (StronglySorted_app_1_elem_of _ _ _ x lst Hs);
      [apply list_elem_of_In; exact Hx|apply list_elem_of_singleton; reflexivity].
  - apply List.Forall_forall. intros x Hx.
    apply (StronglySorted_app_1_elem_of _ _ _ lst x Hs);
      [exact Hin|apply list_elem_of_In; exact Hx].
Qed.

(** [cleanup_suggestions] always leaves the array sorted, unless it is empty. *)
Lemma cleanup_suggestions_Sorted (gap : list suggest_T) (maxscore keep : Z) :
  Sorted sug_le (cleanup_suggestions gap maxscore keep).1.
Proof.
  unfold cleanup_suggestions.
  destruct (Z.leb_spec (Z.of_nat (length gap)) 0).
  - destruct gap; [constructor | simpl in *; lia].
  - destruct (Z.ltb_spec keep (Z.of_nat (length gap))).
    + assert (Sorted sug_le (take (Z.to_nat keep) (qsort gap)))
        by (apply Sorted_take, qsort_Sorted).
      destruct (Z.leb_spec 1 keep); [|assumption].
      destruct (qsort gap !! Z.to_nat (keep - 1)); assumption.
    + apply qsort_Sorted.
Qed.

Lemma cleanup_suggestions_length (gap : list suggest_T) (maxscore keep : Z) :
  0 <= keep ->
  Z.of_nat (length (cleanup_suggestions gap maxscore keep).1)
  = Z.min keep (Z.of_nat (length gap)).
Proof.
  intros Hk. unfold cleanup_suggestions.
  destruct (Z.leb_spec (Z.of_nat (length gap)) 0); [simpl; lia|].
  destruct (Z.ltb_spec keep (Z.of_nat (length gap))).
  - assert (Z.of_nat (length (take (Z.to_nat keep) (qsort gap))) = keep)
      by (rewrite length_take, qsort_length; lia).
    destruct (Z.leb_spec 1 keep); [|simpl; lia].
    destruct (qsort gap !! Z.to_nat (keep - 1)); simpl; lia.
  - simpl. rewrite qsort_length. lia.
Qed.

(** *** The pieces of [add_suggestion] *)

Lemma get_set_gap su gap l : get_gap (set_gap su gap l) gap = l.
Proof. destruct gap; reflexivity. Qed.

Lemma SUG_CLEAN_COUNT_ge su : 150 <= SUG_CLEAN_COUNT su.
Proof. unfold SUG_CLEAN_COUNT. destruct (Z.ltb_spec (su_maxcount su) 130); lia. Qed.

(** *** The loop that minimizes the lengths *)

(** [MB_PTR_BACK] goes to a place before the one it starts from, and not
    before the string. *)
Lemma MB_PTR_BACK_range (s : list Z) (p : Z) : 0 < p -> 0 <= MB_PTR_BACK s p < p.
Proof. unfold MB_PTR_BACK. destruct has_mbyte; lia. Qed.

(** The offset [j] characters before the offset [p] of [s]. *)
Definition back (s : list Z) (j : nat) (p : Z) : Z := Nat.iter j (MB_PTR_BACK s) p.

(** The character of [s] that ends at the offset [p]: the byte before [p]
    when a character is a byte, else what [mb_ptr2char] reads at the first
    byte of the character. *)
Definition char_before (s : list Z) (p : Z) : Z :=
  if has_mbyte then mb_ptr2char (drop (Z.to_nat (MB_PTR_BACK s p)) s)
  else char_at s (Z.to_nat (p - 1)).

Lemma back_S_inner (s : list Z) (j : nat) (p : Z) :
  back s (S j) p = back s j (MB_PTR_BACK s p).
Proof. unfold back. apply Nat.iter_succ_r. Qed.

Lemma back_bytes (s : list Z) (j : nat) (p : Z) :
  has_mbyte = false -> back s j p = p - Z.of_nat j.
Proof.
  intros Hb. induction j as [|j IH]; [cbn; lia|].
  change (back s (S j) p) with (MB_PTR_BACK s (back s j p)).
  rewrite IH. unfold MB_PTR_BACK. rewrite Hb. lia.
Qed.

Lemma char_before_bytes (s : list Z) (p : Z) :
  has_mbyte = false -> char_before s p = char_at s (Z.to_nat (p - 1)).
Proof. intros Hb. unfold char_before. rewrite Hb. reflexivity. Qed.

Lemma chars_differ_before (goodword badptr : list Z) (goodlen badlen : Z) :
  chars_differ goodword badptr (MB_PTR_BACK goodword goodlen)
               (MB_PTR_BACK badptr badlen)
  = negb (char_before goodword goodlen =? char_before badptr badlen).
Proof.
  unfold chars_differ, char_before, MB_PTR_BACK. destruct has_mbyte; reflexivity.
Qed.

(** The loop backs off [k] characters of both: the last [k] characters of
    the word and of the replaced text are the same, one by one, and it stops
    at a length that is zero or below, or at two characters that differ. *)
Lemma minimize_len_spec (goodword badptr : list Z) (n : nat) (goodlen badlen : Z) :
  goodlen <= Z.of_nat n ->
  exists k : nat,
    minimize_len goodword badptr n goodlen badlen
    = (back goodword k goodlen, back badptr k badlen) /\
    (forall j : nat, (j < k)%nat ->
       0 < back goodword j goodlen /\ 0 < back badptr j badlen /\
       char_before goodword (back goodword j goodlen)
       = char_before badptr (back badptr j badlen)) /\
    (back goodword k goodlen <= 0 \/ back badptr k badlen <= 0 \/
     char_before goodword (back goodword k goodlen)
     <> char_before badptr (back badptr k badlen)).
Proof using Type.
  revert goodlen badlen.
  induction n as [|n IH]; intros goodlen badlen Hn; cbn [minimize_len].
  - exists O. unfold back; cbn [Nat.iter nat_rect].
    destruct (Z.leb_spec goodlen 0); [|lia]. cbn [orb].
    split; [reflexivity|]. split; [intros j Hj; lia|]. left. assumption.
  - destruct (Z.leb_spec goodlen 0); cbn [orb].
    { exists O. unfold back; cbn [Nat.iter nat_rect].
      split; [reflexivity|]. split; [intros j Hj; lia|]. left. assumption. }
    destruct (Z.leb_spec badlen 0); cbn [orb].
    { exists O. unfold back; cbn [Nat.iter nat_rect].
      split; [reflexivity|]. split; [intros j Hj; lia|]. right. left. assumption. }
    rewrite chars_differ_before.
    destruct (Z.eqb_spec (char_before goodword goodlen) (char_before badptr badlen))
      as [E|E]; cbn [negb].
    + pose proof (MB_PTR_BACK_range goodword goodlen ltac:(lia)) as Hg.
      destruct (IH (MB_PTR_BACK goodword goodlen) (MB_PTR_BACK badptr badlen)
                  ltac:(lia)) as (k & Hk & Hsame & Hstop).
      exists (S k). rewrite !back_S_inner.
      split; [exact Hk|]. split; [|exact Hstop].
      intros [|j] Hj.
      * unfold back; cbn [Nat.iter nat_rect]. split; [lia|]. split; [lia|exact E].
      * rewrite !back_S_inner. apply Hsame. lia.
    + exists O. unfold back; cbn [Nat.iter nat_rect].
      split; [reflexivity|]. split; [intros j Hj; lia|]. right. right. exact E.
Qed.

(** What the loop leaves of the two lengths is inside them. *)
Lemma minimize_len_range (goodword badptr : list Z) (n : nat) (goodlen badlen : Z) :
  0 <= goodlen ->
  0 <= (minimize_len goodword badptr n goodlen badlen).1 <= goodlen /\
  (minimize_len goodword badptr n goodlen badlen).2 <= badlen /\
  (0 <= badlen -> 0 <= (minimize_len goodword badptr n goodlen badlen).2).
Proof using Type.
  revert goodlen badlen.
  induction n as [|n IH]; intros goodlen badlen Hg; cbn [minimize_len].
  - destruct (_ || _); cbn [fst snd]; lia.
  - destruct (Z.leb_spec goodlen 0); cbn [orb fst snd]; [lia|].
    destruct (Z.leb_spec badlen 0); cbn [orb fst snd]; [lia|].
    destruct (chars_differ _ _ _ _); cbn [fst snd]; [lia|].
    pose proof (MB_PTR_BACK_range goodword goodlen ltac:(lia)).
    pose proof (MB_PTR_BACK_range badptr badlen ltac:(lia)).
    destruct (IH (MB_PTR_BACK goodword goodlen) (MB_PTR_BACK badptr badlen)
                ltac:(lia)) as (I1 & I2 & I3).
    lia.
Qed.

(** When a character is a byte, the loop takes the same number [k] of bytes
    off both lengths. *)
Lemma minimize_len_bytes (goodword badptr : list Z) (n : nat) (goodlen badlen : Z) :
  has_mbyte = false ->
  goodlen <= Z.of_nat n ->
  exists k : nat,
    minimize_len goodword badptr n goodlen badlen
    = (goodlen - Z.of_nat k, badlen - Z.of_nat k) /\
    (forall j : nat, (j < k)%nat ->
       char_at goodword (Z.to_nat (goodlen - 1 - Z.of_nat j))
       = char_at badptr (Z.to_nat (badlen - 1 - Z.of_nat j))) /\
    (0 < Z.of_nat k -> Z.of_nat k <= goodlen /\ Z.of_nat k <= badlen) /\
    (goodlen - Z.of_nat k <= 0 \/ badlen - Z.of_nat k <= 0 \/
     char_at goodword (Z.to_nat (goodlen - Z.of_nat k - 1))
     <> char_at badptr (Z.to_nat (badlen - Z.of_nat k - 1))).
Proof using Type.
  intros Hb Hn.
  destruct (minimize_len_spec goodword badptr n goodlen badlen Hn)
    as (k & Hk & Hsame & Hstop).
  exists k. rewrite !back_bytes in Hk by exact Hb.
  split; [exact Hk|]. split; [|split].
  - intros j Hj. destruct (Hsame j Hj) as (_ & _ & E).
    rewrite !char_before_bytes, !back_bytes in E by exact Hb.
    replace (goodlen - 1 - Z.of_nat j) with (goodlen - Z.of_nat j - 1) by lia.
    replace (badlen - 1 - Z.of_nat j) with (badlen - Z.of_nat j - 1) by lia.
    exact E.
  - intros Hpos. destruct k as [|k]; [lia|].
    destruct (Hsame k ltac:(lia)) as (H1 & H2 & _).
    rewrite !back_bytes in H1, H2 by exact Hb. lia.
  - rewrite !char_before_bytes, !back_bytes in Hstop by exact Hb. exact Hstop.
Qed.

(** The length recorded in an entry is the length of its word. *)
Definition entry_ok (stp : suggest_T) : Prop :=
  st_wordlen stp = Z.of_nat (length (st_word stp)).

(** The search returns the first entry that passes the test. *)
Lemma find_suggestion_Some l goodword goodlen badlen i :
  find_suggestion l goodword goodlen badlen = Some i ->
  exists stp, l !! i = Some stp /\
              same_suggestion stp goodword goodlen badlen = true /\
              forall j stp', (j < i)%nat -> l !! j = Some stp' ->
                             same_suggestion stp' goodword goodlen badlen = false.
Proof.
  revert i. induction l as [|a l IH]; intros i; simpl; [discriminate|].
  destruct (same_suggestion a goodword goodlen badlen) eqn:Ea.
  - intros [= <-]. exists a. repeat split; try assumption. intros j stp' Hj. lia.
  - destruct (find_suggestion l goodword goodlen badlen) as [i'|]; [|discriminate].
    simpl. intros [= <-]. destruct (IH i' eq_refl) as (stp & H1 & H2 & H3).
    exists stp. repeat split; try assumption.
    intros [|j] stp' Hj; simpl.
    + intros [= <-]. exact Ea.
    + apply H3. lia.
Qed.

Lemma find_suggestion_None l goodword goodlen badlen :
  find_suggestion l goodword goodlen badlen = None ->
  Forall (fun stp => same_suggestion stp goodword goodlen badlen = false) l.
Proof.
  induction l as [|a l IH]; simpl; [constructor|].
  destruct (same_suggestion a goodword goodlen badlen) eqn:Ea; [discriminate|].
  destruct (find_suggestion l goodword goodlen badlen); [discriminate|].
  intros _. constructor; [assumption | apply IH; reflexivity].
Qed.

Lemma strncmp_eq_take s1 s2 n :
  strncmp_eq s1 s2 n = true <-> take n s1 = take n s2.
Proof.
  revert s1 s2. induction n as [|n IH]; intros s1 s2; simpl.
  - destruct s1, s2; simpl; split; reflexivity.
  - destruct s1 as [|c1 r1], s2 as [|c2 r2]; simpl; try (split; [discriminate|discriminate]).
    + split; reflexivity.
    + rewrite andb_true_iff, Z.eqb_eq, IH. split.
      * intros [-> ->]. reflexivity.
      * intros [= -> ->]. split; reflexivity.
Qed.

(** *** Claims about [add_suggestion] *)

(** C3.  When the append of [add_suggestion] makes the array longer than
    [SUG_MAX_COUNT = SUG_CLEAN_COUNT + 50], the entries are put in the order
    of the key, ascending by score, then by alternative score, then by the
    words without regard to case ([by_key]), and only the first
    [SUG_CLEAN_COUNT] of them are kept, with [SUG_CLEAN_COUNT = (su_maxcount
    < 130 ? 150 : su_maxcount + 20)]: no entry kept has a higher score than
    the last entry kept, and no entry dropped has a lower one.  The bound
    [maxsf] selects ([su_sfmaxscore] when set, else [su_maxscore]) is the
    score of the last entry kept; the other bound is unchanged. *)
Theorem add_suggestion_cleans_up
    (su : suginfo_T) (gap : gap_T) (goodword : list Z)
    (badlenarg score altscore : Z) (had_bonus : bool) (slang : option slang_T)
    (maxsf : bool) (goodlen badlen : Z) :
  minimize_len goodword (su_badptr su) (length goodword)
               (Z.of_nat (length goodword)) badlenarg = (goodlen, badlen) ->
  ~ (badlen = 0 /\ goodlen = 0) ->
  find_suggestion (get_gap su gap) goodword goodlen badlen = None ->
  SUG_MAX_COUNT su < Z.of_nat (length (get_gap su gap)) + 1 ->
  SUG_MAX_COUNT su = SUG_CLEAN_COUNT su + 50 /\
  SUG_CLEAN_COUNT su = (if su_maxcount su <? 130 then 150 else su_maxcount su + 20) /\
  exists sorted lst,
    Permutation sorted
      (get_gap su gap
       ++ [new_suggestion goodword goodlen badlen score altscore had_bonus slang]) /\
    Sorted by_key sorted /\
    get_gap (add_suggestion su gap goodword badlenarg score altscore
                            had_bonus slang maxsf) gap
    = take (Z.to_nat (SUG_CLEAN_COUNT su)) sorted /\
    Z.of_nat (length (take (Z.to_nat (SUG_CLEAN_COUNT su)) sorted))
    = SUG_CLEAN_COUNT su /\
    last (take (Z.to_nat (SUG_CLEAN_COUNT su)) sorted) = Some lst /\
    Forall (fun stp => st_score stp <= st_score lst)
           (take (Z.to_nat (SUG_CLEAN_COUNT su)) sorted) /\
    Forall (fun stp => st_score lst <= st_score stp)
           (drop (Z.to_nat (SUG_CLEAN_COUNT su)) sorted) /\
    (if maxsf
     then su_sfmaxscore (add_suggestion su gap goodword badlenarg score altscore
                                        had_bonus slang maxsf) = st_score lst /\
          su_maxscore (add_suggestion su gap goodword badlenarg score altscore
                                      had_bonus slang maxsf) = su_maxscore su
     else su_maxscore (add_suggestion su gap goodword badlenarg score altscore
                                      had_bonus slang maxsf) = st_score lst /\
          su_sfmaxscore (add_suggestion su gap goodword badlenarg score altscore
                                        had_bonus slang maxsf) = su_sfmaxscore su).
Proof.
  intros Hmin Hnz Hfind Hlen.
  split; [reflexivity|]. split; [reflexivity|].
  set (new := new_suggestion goodword goodlen badlen score altscore had_bonus slang).
  set (l := get_gap su gap ++ [new]).
  assert (Hl : Z.of_nat (length l) = Z.of_nat (length (get_gap su gap)) + 1)
    by (unfold l; rewrite length_app; simpl; lia).
  pose proof (SUG_CLEAN_COUNT_ge su) as Hge.
  assert (Hkeep : 1 <= SUG_CLEAN_COUNT su < Z.of_nat (length l))
    by (unfold SUG_MAX_COUNT in Hlen; lia).
  exists (qsort l).
  assert (Hadd : forall m0,
    exists lst, cleanup_suggestions l m0 (SUG_CLEAN_COUNT su)
                = (take (Z.to_nat (SUG_CLEAN_COUNT su)) (qsort l), st_score lst) /\
                last (take (Z.to_nat (SUG_CLEAN_COUNT su)) (qsort l)) = Some lst)
    by (intros m0; apply cleanup_suggestions_truncates; exact Hkeep).
  destruct (Hadd (su_maxscore su)) as (lst & Hc1 & Hlast).
  destruct (Hadd (su_sfmaxscore su)) as (lst' & Hc2 & Hlast').
  assert (lst' = lst) by congruence. subst lst'.
  exists lst.
  split; [apply qsort_Permutation|].
  split; [apply Sorted_by_key, qsort_Sorted|].
  destruct (sorted_cut_scores (qsort l) (Z.to_nat (SUG_CLEAN_COUNT su)) lst
              (qsort_Sorted l) Hlast) as [Hkept Hdropped].
  assert (Hnz' : (badlen =? 0) && (goodlen =? 0) = false).
  { apply andb_false_iff.
    destruct (Z.eqb_spec badlen 0); destruct (Z.eqb_spec goodlen 0); auto.
    exfalso. apply Hnz. split; assumption. }
  unfold add_suggestion. rewrite Hmin, Hnz', Hfind.
  fold new. fold l.
  destruct (Z.ltb_spec (SUG_MAX_COUNT su) (Z.of_nat (length l))); [|lia].
  destruct maxsf.
  - rewrite Hc2. split; [destruct gap; reflexivity|].
    split; [rewrite length_take, qsort_length; lia|].
    split; [exact Hlast|]. split; [exact Hkept|]. split; [exact Hdropped|].
    split; destruct gap; reflexivity.
  - rewrite Hc1. split; [destruct gap; reflexivity|].
    split; [rewrite length_take, qsort_length; lia|].
    split; [exact Hlast|]. split; [exact Hkept|]. split; [exact Hdropped|].
    split; destruct gap; reflexivity.
Qed.

Lemma rescore_one_keeps (su : suginfo_T) (stp : suggest_T) :
  st_word (rescore_one su stp) = st_word stp /\
  st_wordlen (rescore_one su stp) = st_wordlen stp /\
  st_orglen (rescore_one su stp) = st_orglen stp /\
  st_slang (rescore_one su stp) = st_slang stp.
Proof.
  unfold rescore_one. destruct (st_slang stp) as [slang|] eqn:E; [|auto].
  destruct ((0 <? sl_sal_len slang) && negb (st_had_bonus stp)); simpl; auto.
Qed.

Lemma fill_slang_keeps (stp : suggest_T) (slang : option slang_T) :
  st_word (fill_slang stp slang) = st_word stp /\
  st_wordlen (fill_slang stp slang) = st_wordlen stp /\
  st_orglen (fill_slang stp slang) = st_orglen stp /\
  st_score (fill_slang stp slang) = st_score stp /\
  st_had_bonus (fill_slang stp slang) = st_had_bonus stp.
Proof. unfold fill_slang. destruct (st_slang stp); simpl; auto. Qed.

(** The scores the two sides of a merge are compared with: a side that lacks
    the bonus the other side has is rescored first. *)
Definition merged_old_score (su : suginfo_T) (stp : suggest_T)
    (had_bonus : bool) (slang : option slang_T) : Z :=
  if negb (eqb (st_had_bonus stp) had_bonus) && had_bonus
  then st_score (rescore_one su (fill_slang stp slang))
  else st_score stp.

Definition merged_new_score (su : suginfo_T) (stp : suggest_T)
    (badlen score altscore : Z) (had_bonus : bool) (slang : option slang_T) : Z :=
  if negb (eqb (st_had_bonus stp) had_bonus) && negb had_bonus
  then st_score (rescore_one su (new_sug_of (fill_slang stp slang)
                                            badlen score altscore had_bonus))
  else score.

Lemma merge_suggestion_spec (su : suginfo_T) (stp : suggest_T)
    (badlen score altscore : Z) (had_bonus : bool) (slang : option slang_T) :
  st_word (merge_suggestion su stp badlen score altscore had_bonus slang)
  = st_word stp /\
  st_wordlen (merge_suggestion su stp badlen score altscore had_bonus slang)
  = st_wordlen stp /\
  st_orglen (merge_suggestion su stp badlen score altscore had_bonus slang)
  = st_orglen stp /\
  st_score (merge_suggestion su stp badlen score altscore had_bonus slang)
  = Z.min (merged_old_score su stp had_bonus slang)
          (merged_new_score su stp badlen score altscore had_bonus slang).
Proof.
  unfold merge_suggestion, merged_old_score, merged_new_score.
  destruct (fill_slang_keeps stp slang) as (F1 & F2 & F3 & F4 & F5).
  rewrite F5.
  destruct (negb (eqb (st_had_bonus stp) had_bonus)) eqn:Ex; simpl.
  - destruct had_bonus; simpl.
    + destruct (rescore_one_keeps su (fill_slang stp slang)) as (R1 & R2 & R3 & _).
      destruct (Z.ltb_spec score (st_score (rescore_one su (fill_slang stp slang))));
        simpl; rewrite ?R1, ?R2, ?R3, ?F1, ?F2, ?F3; repeat split; lia.
    + set (ns := rescore_one su (new_sug_of (fill_slang stp slang) badlen score altscore false)).
      destruct (Z.ltb_spec (st_score ns) (st_score (fill_slang stp slang)));
        simpl; rewrite ?F1, ?F2, ?F3, ?F4 in *; repeat split; lia.
  - destruct (Z.ltb_spec score (st_score (fill_slang stp slang)));
      simpl; rewrite ?F1, ?F2, ?F3, ?F4 in *; repeat split; lia.
Qed.

(** The score of an entry with the bonus for how it sounds: [RESCORE] of
    its score and of its sound-alike score against the sound-folded bad
    word, [SCORE_BIG] standing in for [SCORE_MAXMAX].  An entry without a
    language, or whose language folds no sounds, has no bonus to get. *)
Definition score_with_bonus (su : suginfo_T) (stp : suggest_T) : Z :=
  match st_slang stp with
  | Some slang =>
      if 0 <? sl_sal_len slang then
        let badsound := if slang_ptr_eqb (Some slang) (su_sallang su)
                        then su_sal_badword su
                        else spell_soundfold slang (su_fbadword su) true in
        let alt := stp_sal_score stp (su_badptr su) (su_badlen su) slang badsound in
        RESCORE (st_score stp) (if alt =? SCORE_MAXMAX then SCORE_BIG else alt)
      else st_score stp
  | None => st_score stp
  end.

(** The entry found with the language of the new suggestion, when it has
    none of its own. *)
Definition with_slang (stp : suggest_T) (slang : option slang_T) : suggest_T :=
  set_st_slang stp match st_slang stp with
                   | Some sl => Some sl
                   | None => slang
                   end.

(** The new suggestion as an entry with the word of the entry found: what
    is given the bonus when the entry found has it and the new suggestion
    has not. *)
Definition as_entry (stp : suggest_T) (badlen score altscore : Z) : suggest_T :=
  {| st_word := st_word stp; st_wordlen := st_wordlen stp; st_orglen := badlen;
     st_score := score; st_altscore := altscore; st_salscore := false;
     st_had_bonus := false; st_slang := st_slang stp |}.

Lemma rescore_one_score (su : suginfo_T) (stp : suggest_T) :
  st_had_bonus stp = false ->
  st_score (rescore_one su stp) = score_with_bonus su stp.
Proof.
  intros Hb. unfold rescore_one, score_with_bonus.
  destruct (st_slang stp) as [slang|]; [|reflexivity].
  rewrite Hb. cbn [negb]. rewrite andb_true_r.
  destruct (0 <? sl_sal_len slang); reflexivity.
Qed.

Lemma fill_slang_with_slang (stp : suggest_T) (slang : option slang_T) :
  fill_slang stp slang = with_slang stp slang.
Proof.
  unfold fill_slang, with_slang. destruct (st_slang stp) eqn:E; [|reflexivity].
  unfold set_st_slang. rewrite <- E. destruct stp; reflexivity.
Qed.

(** The scores of the two sides of a merge, written out. *)
Lemma merged_scores (su : suginfo_T) (stp : suggest_T)
    (badlen score altscore : Z) (had_bonus : bool) (slang : option slang_T) :
  merged_old_score su stp had_bonus slang
  = (if had_bonus && negb (st_had_bonus stp)
     then score_with_bonus su (with_slang stp slang)
     else st_score stp) /\
  merged_new_score su stp badlen score altscore had_bonus slang
  = (if st_had_bonus stp && negb had_bonus
     then score_with_bonus su (as_entry (with_slang stp slang) badlen score altscore)
     else score).
Proof.
  unfold merged_old_score, merged_new_score.
  rewrite fill_slang_with_slang.
  destruct (st_had_bonus stp) eqn:Es; destruct had_bonus; cbn [eqb negb andb];
    split; try reflexivity.
  - apply (rescore_one_score su (new_sug_of (with_slang stp slang) badlen score
                                            altscore false)).
    reflexivity.
  - apply rescore_one_score. unfold with_slang. cbn. exact Es.
Qed.

(** The test of the search, on an entry that records the length of its
    word: the entry has the minimized word and the minimized length. *)
Lemma same_suggestion_key (stp : suggest_T) (goodword : list Z) (goodlen badlen : Z) :
  entry_ok stp -> 0 <= goodlen <= Z.of_nat (length goodword) ->
  same_suggestion stp goodword goodlen badlen = true <->
  st_word stp = take (Z.to_nat goodlen) goodword /\ st_orglen stp = badlen.
Proof.
  unfold entry_ok, same_suggestion. intros Hok Hg.
  rewrite !andb_true_iff, !Z.eqb_eq, strncmp_eq_take. split.
  - intros [[Hl Ho] Ht]. split; [|exact Ho].
    rewrite <- Ht. rewrite take_ge by lia. reflexivity.
  - intros [Hw Ho]. split; [split; [|exact Ho]|].
    + rewrite Hok, Hw, length_take. lia.
    + rewrite Hw, take_take. f_equal. lia.
Qed.

(** The search finds the first entry with the word and the length. *)
Lemma find_suggestion_first (l : list suggest_T) (goodword : list Z)
    (goodlen badlen : Z) (i : nat) (stp : suggest_T) :
  l !! i = Some stp ->
  same_suggestion stp goodword goodlen badlen = true ->
  (forall j stp', (j < i)%nat -> l !! j = Some stp' ->
     same_suggestion stp' goodword goodlen badlen = false) ->
  find_suggestion l goodword goodlen badlen = Some i.
Proof.
  revert i. induction l as [|a l IH]; intros i Hi Hs Hfirst;
    [rewrite lookup_nil in Hi; discriminate|].
  cbn [find_suggestion]. destruct i as [|i].
  - cbn in Hi. injection Hi as ->. rewrite Hs. reflexivity.
  - rewrite (Hfirst O a ltac:(lia) eq_refl).
    rewrite (IH i Hi Hs); [reflexivity|].
    intros j stp' Hj Hl. apply (Hfirst (S j) stp'); [lia|exact Hl].
Qed.

(** C5.  [add_suggestion] first backs off both lengths while the word and
    the replaced text end in the same character: [k] characters, after
    which the last characters of what is left of the two differ, unless one
    of the two has come to its start.  A character is a byte, and with
    [has_mbyte] what [MB_PTR_BACK] steps over and [mb_ptr2char] reads.  When
    both lengths reach zero nothing changes.  Otherwise, when the array (whose entries
    record the lengths of their words) holds an entry with the minimized
    word and the minimized length, nothing is appended, the other entries
    stay as they are, and the first such entry keeps the lower of the two
    scores; when one of the two has the bonus for the sound and the other
    has not, the other one is given it first ([score_with_bonus]). *)
Theorem add_suggestion_minimizes_and_merges
    (su : suginfo_T) (gap : gap_T) (goodword : list Z)
    (badlenarg score altscore : Z) (had_bonus : bool) (slang : option slang_T)
    (maxsf : bool) :
  exists (k : nat) (goodlen badlen : Z),
    minimize_len goodword (su_badptr su) (length goodword)
                 (Z.of_nat (length goodword)) badlenarg = (goodlen, badlen) /\
    goodlen = back goodword k (Z.of_nat (length goodword)) /\
    badlen = back (su_badptr su) k badlenarg /\
    (has_mbyte = false ->
     goodlen = Z.of_nat (length goodword) - Z.of_nat k /\
     badlen = badlenarg - Z.of_nat k) /\
    (forall j : nat, (j < k)%nat ->
       0 < back goodword j (Z.of_nat (length goodword)) /\
       0 < back (su_badptr su) j badlenarg /\
       char_before goodword (back goodword j (Z.of_nat (length goodword)))
       = char_before (su_badptr su) (back (su_badptr su) j badlenarg)) /\
    (goodlen <= 0 \/ badlen <= 0 \/
     char_before goodword goodlen <> char_before (su_badptr su) badlen) /\
    (goodlen = 0 /\ badlen = 0 ->
     add_suggestion su gap goodword badlenarg score altscore had_bonus slang maxsf
     = su) /\
    (~ (goodlen = 0 /\ badlen = 0) ->
     Forall entry_ok (get_gap su gap) ->
     forall (i : nat) (stp : suggest_T),
       get_gap su gap !! i = Some stp ->
       st_word stp = take (Z.to_nat goodlen) goodword ->
       st_orglen stp = badlen ->
       (forall (j : nat) (stp' : suggest_T),
          (j < i)%nat -> get_gap su gap !! j = Some stp' ->
          ~ (st_word stp' = take (Z.to_nat goodlen) goodword /\
             st_orglen stp' = badlen)) ->
       exists stp',
         length (get_gap (add_suggestion su gap goodword badlenarg score altscore
                                         had_bonus slang maxsf) gap)
         = length (get_gap su gap) /\
         (forall j : nat, j <> i ->
            get_gap (add_suggestion su gap goodword badlenarg score altscore
                                    had_bonus slang maxsf) gap !! j
            = get_gap su gap !! j) /\
         get_gap (add_suggestion su gap goodword badlenarg score altscore
                                 had_bonus slang maxsf) gap !! i = Some stp' /\
         st_word stp' = st_word stp /\
         st_wordlen stp' = st_wordlen stp /\
         st_orglen stp' = st_orglen stp /\
         st_score stp'
         = Z.min (if had_bonus && negb (st_had_bonus stp)
                  then score_with_bonus su (with_slang stp slang)
                  else st_score stp)
                 (if st_had_bonus stp && negb had_bonus
                  then score_with_bonus su (as_entry (with_slang stp slang)
                                                     badlen score altscore)
                  else score)).
Proof.
  destruct (minimize_len_spec goodword (su_badptr su) (length goodword)
              (Z.of_nat (length goodword)) badlenarg ltac:(lia))
    as (k & Hmin & Hsame & Hstop).
  pose proof (minimize_len_range goodword (su_badptr su) (length goodword)
                (Z.of_nat (length goodword)) badlenarg ltac:(lia)) as (Hrange & _).
  rewrite Hmin in Hrange. cbn [fst] in Hrange.
  exists k, (back goodword k (Z.of_nat (length goodword))),
         (back (su_badptr su) k badlenarg).
  split; [exact Hmin|]. split; [reflexivity|]. split; [reflexivity|].
  split; [intros Hb; rewrite !back_bytes by exact Hb; split; reflexivity|].
  split; [exact Hsame|]. split; [exact Hstop|].
  set (goodlen := back goodword k (Z.of_nat (length goodword))) in *.
  set (badlen := back (su_badptr su) k badlenarg) in *.
  split.
  - intros [Hg Hb]. unfold add_suggestion. rewrite Hmin, Hg, Hb. reflexivity.
  - intros Hnz Hok i stp Hi Hword Horg Hfirst.
    assert (Hfind : find_suggestion (get_gap su gap) goodword goodlen badlen = Some i).
    { apply (find_suggestion_first _ _ _ _ i stp Hi).
      - apply same_suggestion_key; [|exact Hrange|split; assumption].
        rewrite Forall_lookup in Hok. apply (Hok i stp Hi).
      - intros j stp' Hj Hl.
        destruct (same_suggestion stp' goodword goodlen badlen) eqn:Es; [|reflexivity].
        exfalso. apply (Hfirst j stp' Hj Hl).
        apply same_suggestion_key in Es; [exact Es| |exact Hrange].
        rewrite Forall_lookup in Hok. apply (Hok j stp' Hl). }
    exists (merge_suggestion su stp badlen score altscore had_bonus slang).
    assert (Hnz' : (badlen =? 0) && (goodlen =? 0) = false).
    { apply andb_false_iff.
      destruct (Z.eqb_spec badlen 0); destruct (Z.eqb_spec goodlen 0); auto.
      exfalso. apply Hnz. split; assumption. }
    assert (Hadd : add_suggestion su gap goodword badlenarg score altscore
                                  had_bonus slang maxsf
                   = set_gap su gap
                       (<[i := merge_suggestion su stp badlen score altscore
                                                had_bonus slang]> (get_gap su gap))).
    { unfold add_suggestion. rewrite Hmin, Hnz', Hfind, Hi. reflexivity. }
    rewrite Hadd, get_set_gap.
    destruct (merge_suggestion_spec su stp badlen score altscore had_bonus slang)
      as (M1 & M2 & M3 & M4).
    destruct (merged_scores su stp badlen score altscore had_bonus slang)
      as (S1 & S2).
    rewrite S1, S2 in M4.
    split; [apply length_insert|].
    split; [intros j Hj; apply list_lookup_insert_ne; congruence|].
    split; [apply list_lookup_insert_eq; eapply lookup_lt_Some; exact Hi|].
    auto.
Qed.

(** *** [suggest_try_special] *)

Lemma skiptowhite_app (w r : list Z) :
  Forall (fun c => VIM_ISWHITE c = false) w ->
  skiptowhite (w ++ r) = skiptowhite r.
Proof.
  induction 1 as [|c w Hc Hw IH]; simpl; [reflexivity|]. rewrite Hc. exact IH.
Qed.

Lemma skiptowhite_white (c : Z) (r : list Z) :
  VIM_ISWHITE c = true -> skiptowhite (c :: r) = c :: r.
Proof. intros H. simpl. rewrite H. reflexivity. Qed.

Lemma skipwhite_app (sp r : list Z) :
  Forall (fun c => VIM_ISWHITE c = true) sp ->
  skipwhite (sp ++ r) = skipwhite r.
Proof.
  induction 1 as [|c sp Hc Hsp IH]; simpl; [reflexivity|]. rewrite Hc. exact IH.
Qed.

Lemma skipwhite_nonwhite (w : list Z) :
  Forall (fun c => VIM_ISWHITE c = false) w -> skipwhite w = w.
Proof. destruct 1 as [|c w Hc Hw]; simpl; [reflexivity|]. rewrite Hc. reflexivity. Qed.

Lemma strncmp_eq_prefix (w r : list Z) : strncmp_eq (w ++ r) w (length w) = true.
Proof.
  apply strncmp_eq_take. rewrite take_app_length. rewrite take_ge by lia. reflexivity.
Qed.

(** When a character is a byte, the minimizing loop does not change the text
    a suggestion stands for: the word it keeps, followed by the line from the
    length it keeps on, is the word followed by the line from [badlenarg]
    on. *)
Lemma minimize_len_same_text (goodword badptr : list Z) (badlenarg : Z) :
  has_mbyte = false ->
  0 <= badlenarg <= Z.of_nat (length badptr) ->
  exists (k : nat),
    minimize_len goodword badptr (length goodword)
                 (Z.of_nat (length goodword)) badlenarg
    = (Z.of_nat (length goodword) - Z.of_nat k, badlenarg - Z.of_nat k) /\
    0 <= Z.of_nat (length goodword) - Z.of_nat k /\
    0 <= badlenarg - Z.of_nat k /\
    take (Z.to_nat (Z.of_nat (length goodword) - Z.of_nat k)) goodword
    ++ drop (Z.to_nat (badlenarg - Z.of_nat k)) badptr
    = goodword ++ drop (Z.to_nat badlenarg) badptr.
Proof using Type.
  intros Hbytes Hb.
  destruct (minimize_len_bytes goodword badptr (length goodword)
              (Z.of_nat (length goodword)) badlenarg Hbytes ltac:(lia))
    as (k & Hmin & Hsame & Hle & _).
  exists k. split; [exact Hmin|].
  assert (Hk : Z.of_nat k <= Z.of_nat (length goodword) /\ Z.of_nat k <= badlenarg)
    by (destruct k; [lia | apply Hle; lia]).
  split; [lia|]. split; [lia|].
  clear Hmin Hle.
  induction k as [|k IH].
  - rewrite !Z.sub_0_r, Nat2Z.id, take_ge by lia. reflexivity.
  - rewrite <- IH by (try lia; intros j Hj; apply Hsame; lia).
    pose proof (Hsame k ltac:(lia)) as Hc. unfold char_at in Hc.
    set (g := Z.to_nat (Z.of_nat (length goodword) - Z.of_nat (S k))) in *.
    set (b := Z.to_nat (badlenarg - Z.of_nat (S k))) in *.
    replace (Z.to_nat (Z.of_nat (length goodword) - 1 - Z.of_nat k)) with g in Hc by lia.
    replace (Z.to_nat (badlenarg - 1 - Z.of_nat k)) with b in Hc by lia.
    replace (Z.to_nat (Z.of_nat (length goodword) - Z.of_nat k)) with (S g) by lia.
    replace (Z.to_nat (badlenarg - Z.of_nat k)) with (S b) by lia.
    assert (Hg : (g < length goodword)%nat) by lia.
    assert (Hbl : (b < length badptr)%nat) by lia.
    destruct (lookup_lt_is_Some_2 goodword g Hg) as [cg Hcg].
    destruct (lookup_lt_is_Some_2 badptr b Hbl) as [cb Hcb].
    rewrite (take_S_r _ _ _ Hcg). rewrite (drop_S _ _ _ Hcb).
    rewrite (nth_lookup_Some _ _ _ _ Hcg), (nth_lookup_Some _ _ _ _ Hcb) in Hc.
    subst cb. rewrite <- app_assoc. reflexivity.
Qed.

(** The search finds nothing in an array that has no entry with the word
    and the length. *)
Lemma find_suggestion_no_key (l : list suggest_T) (goodword : list Z)
    (goodlen badlen : Z) :
  Forall entry_ok l -> 0 <= goodlen <= Z.of_nat (length goodword) ->
  (forall stp, In stp l ->
     ~ (st_word stp = take (Z.to_nat goodlen) goodword /\ st_orglen stp = badlen)) ->
  find_suggestion l goodword goodlen badlen = None.
Proof.
  intros Hok Hg Hno. induction l as [|a l IH]; [reflexivity|].
  cbn [find_suggestion].
  apply Forall_cons in Hok. destruct Hok as [Ha Hok].
  destruct (same_suggestion a goodword goodlen badlen) eqn:Es.
  - exfalso. apply (Hno a (or_introl eq_refl)).
    apply (same_suggestion_key a goodword goodlen badlen Ha Hg). exact Es.
  - rewrite IH; [reflexivity|exact Hok|].
    intros stp Hin. apply Hno. right. exact Hin.
Qed.

(** C6 as the code has it.  When the case-folded bad word is a word [w], one
    or more blanks, and [w] again, [suggest_try_special] hands [w] in the case
    of the bad word to [add_suggestion] with the score [RESCORE(SCORE_REP, 0)
    = 48] and the length [su_badlen].  [add_suggestion] stores it minimized:
    all the characters that the end of the word shares with the end of the
    replaced text are taken off both, [k] characters that are the same one by
    one, up to the first two that differ or to the start of the word or of
    the text, and the entry appended has the lengths that are left and the
    score 48.  When a character is a byte the two lengths are [k] less, and
    the minimized entry stands for the same text: its word followed by the
    line from its length on is the word followed by the line from
    [su_badlen] on. *)
Theorem suggest_try_special_repeated_word (su : suginfo_T) (w sp : list Z) :
  su_fbadword su = w ++ sp ++ w ->
  Forall (fun c => VIM_ISWHITE c = false) w ->
  sp <> [] ->
  Forall (fun c => VIM_ISWHITE c = true) sp ->
  0 <= su_badlen su <= Z.of_nat (length (su_badptr su)) ->
  RESCORE SCORE_REP 0 = 48 /\
  suggest_try_special su
  = add_suggestion su GA (make_case_word w (su_badflags su)) (su_badlen su)
                   48 0 true (su_sallang su) false /\
  exists (k : nat) (goodlen badlen : Z),
    minimize_len (make_case_word w (su_badflags su)) (su_badptr su)
                 (length (make_case_word w (su_badflags su)))
                 (Z.of_nat (length (make_case_word w (su_badflags su))))
                 (su_badlen su) = (goodlen, badlen) /\
    goodlen = back (make_case_word w (su_badflags su)) k
                   (Z.of_nat (length (make_case_word w (su_badflags su)))) /\
    badlen = back (su_badptr su) k (su_badlen su) /\
    0 <= goodlen /\ 0 <= badlen /\
    (forall j : nat, (j < k)%nat ->
       0 < back (make_case_word w (su_badflags su)) j
                (Z.of_nat (length (make_case_word w (su_badflags su)))) /\
       0 < back (su_badptr su) j (su_badlen su) /\
       char_before (make_case_word w (su_badflags su))
                   (back (make_case_word w (su_badflags su)) j
                         (Z.of_nat (length (make_case_word w (su_badflags su)))))
       = char_before (su_badptr su) (back (su_badptr su) j (su_badlen su))) /\
    (goodlen = 0 \/ badlen = 0 \/
     char_before (make_case_word w (su_badflags su)) goodlen
     <> char_before (su_badptr su) badlen) /\
    (has_mbyte = false ->
     goodlen = Z.of_nat (length (make_case_word w (su_badflags su))) - Z.of_nat k /\
     badlen = su_badlen su - Z.of_nat k /\
     take (Z.to_nat goodlen) (make_case_word w (su_badflags su))
     ++ drop (Z.to_nat badlen) (su_badptr su)
     = make_case_word w (su_badflags su)
       ++ drop (Z.to_nat (su_badlen su)) (su_badptr su)) /\
    (goodlen = 0 /\ badlen = 0 -> suggest_try_special su = su) /\
    (~ (goodlen = 0 /\ badlen = 0) ->
     Forall entry_ok (su_ga su) ->
     (forall stp, In stp (su_ga su) ->
        ~ (st_word stp = take (Z.to_nat goodlen) (make_case_word w (su_badflags su)) /\
           st_orglen stp = badlen)) ->
     Z.of_nat (length (su_ga su)) + 1 <= SUG_MAX_COUNT su ->
     su_ga (suggest_try_special su)
     = su_ga su ++ [new_suggestion (make_case_word w (su_badflags su))
                                   goodlen badlen 48 0 true (su_sallang su)]).
Proof.
  intros Hf Hw Hsp Hwhite Hlen.
  split; [reflexivity|].
  set (word := make_case_word w (su_badflags su)).
  assert (Hspecial : suggest_try_special su
                     = add_suggestion su GA word (su_badlen su) 48 0 true
                                      (su_sallang su) false).
  { unfold suggest_try_special. rewrite Hf.
    rewrite (skiptowhite_app w (sp ++ w) Hw).
    destruct sp as [|c sp']; [congruence|].
    inversion Hwhite as [|c' sp'' Hc Hsp' E]; subst.
    rewrite <- app_comm_cons. rewrite (skiptowhite_white c (sp' ++ w) Hc).
    rewrite app_comm_cons. rewrite (skipwhite_app (c :: sp') w Hwhite).
    rewrite (skipwhite_nonwhite w Hw).
    replace (length (w ++ (c :: sp') ++ w) - length ((c :: sp') ++ w))%nat
      with (length w) by (rewrite !length_app; lia).
    rewrite Nat.eqb_refl. rewrite strncmp_eq_prefix. simpl.
    rewrite take_app_length. reflexivity. }
  split; [exact Hspecial|].
  destruct (minimize_len_spec word (su_badptr su) (length word)
              (Z.of_nat (length word)) (su_badlen su) ltac:(lia))
    as (k & Hmin & Hsame & Hstop).
  pose proof (minimize_len_range word (su_badptr su) (length word)
                (Z.of_nat (length word)) (su_badlen su) ltac:(lia))
    as (Hg & _ & Hb).
  rewrite Hmin in Hg, Hb. cbn [fst snd] in Hg, Hb. specialize (Hb ltac:(lia)).
  exists k, (back word k (Z.of_nat (length word))),
         (back (su_badptr su) k (su_badlen su)).
  split; [exact Hmin|]. split; [reflexivity|]. split; [reflexivity|].
  split; [lia|]. split; [exact Hb|]. split; [exact Hsame|].
  split; [destruct Hstop as [H|[H|H]]; [left; lia|right; left; lia|right; right; exact H]|].
  split.
  { intros Hbytes.
    destruct (minimize_len_same_text word (su_badptr su) (su_badlen su) Hbytes Hlen)
      as (k' & Hmin' & _ & _ & Htext).
    rewrite !back_bytes by exact Hbytes.
    rewrite Hmin, !back_bytes in Hmin' by exact Hbytes.
    injection Hmin' as E1 E2.
    assert (k' = k) by lia. subst k'.
    split; [reflexivity|]. split; [reflexivity|]. exact Htext. }
  rewrite Hspecial. unfold add_suggestion. rewrite Hmin. split.
  - intros [-> ->]. reflexivity.
  - intros Hnz Hok Hno Hcount.
    set (goodlen := back word k (Z.of_nat (length word))) in *.
    set (badlen := back (su_badptr su) k (su_badlen su)) in *.
    assert (Hnz' : (badlen =? 0) && (goodlen =? 0) = false).
    { apply andb_false_iff.
      destruct (Z.eqb_spec badlen 0); destruct (Z.eqb_spec goodlen 0); auto.
      exfalso. apply Hnz. split; assumption. }
    rewrite Hnz'. cbn [get_gap].
    rewrite (find_suggestion_no_key (su_ga su) word goodlen badlen Hok Hg Hno).
    rewrite length_app. cbn [length].
    destruct (Z.ltb_spec (SUG_MAX_COUNT su) (Z.of_nat (length (su_ga su) + 1))); [lia|].
    reflexivity.
Qed.

(** *** [score_combine] *)

Lemma for_each_entry_map {A} (f : A -> A) (l : list A) :
  for_each_entry f l = map f l.
Proof.
  unfold for_each_entry.
  assert (H : forall m k l0,
             (k + m <= length l)%nat -> length l0 = length l ->
             l0 = map f (take k l) ++ drop k l ->
             fold_left (fun l i => match l !! i with
                                   | Some x => <[i := f x]> l
                                   | None => l
                                   end) (seq k m) l0
             = map f (take (k + m) l) ++ drop (k + m) l).
  { induction m as [|m IH]; intros k l0 Hk Hlen Hl0; simpl.
    - rewrite Nat.add_0_r. exact Hl0.
    - assert (Hkl : (k < length l)%nat) by lia.
      destruct (lookup_lt_is_Some_2 l k Hkl) as [x Hx].
      assert (Hl0k : l0 !! k = Some x).
      { rewrite Hl0. rewrite lookup_app_r by (rewrite length_map, length_take; lia).
        rewrite length_map, length_take.
        replace (k - k `min` length l)%nat with 0%nat by lia.
        rewrite lookup_drop. rewrite Nat.add_0_r. exact Hx. }
      rewrite Hl0k.
      replace (k + S m)%nat with (S k + m)%nat by lia.
      apply IH; [lia | rewrite length_insert; exact Hlen |].
      rewrite Hl0. rewrite (take_S_r _ _ _ Hx). rewrite map_app. simpl.
      rewrite <- app_assoc. simpl.
      rewrite (drop_S _ _ _ Hx).
      rewrite insert_app_r_alt by (rewrite length_map, length_take; lia).
      rewrite length_map, length_take.
      replace (k - k `min` length l)%nat with 0%nat by lia.
      reflexivity. }
  rewrite (H (length l) 0%nat l); try reflexivity; try lia.
  simpl. rewrite take_ge by lia. rewrite drop_ge by lia. apply app_nil_r.
Qed.

(** An entry passes [check_suggestions] when [spell_check] does not flag the
    word made of it and the text that follows. *)
Definition passes_check (su : suginfo_T) (stp : suggest_T) : Prop :=
  (spell_check (longword_of su stp)).2 = false.

#[global] Instance passes_check_dec su stp : Decision (passes_check su stp).
Proof. unfold passes_check. apply _. Defined.

Lemma check_suggestions_loop_filter (su : suginfo_T) (pre post : list suggest_T) :
  check_suggestions_loop su (pre ++ post) (length pre)
  = filter (passes_check su) pre ++ post.
Proof.
  revert post. induction pre as [|x pre IH] using rev_ind; intros post.
  - reflexivity.
  - rewrite length_app. simpl length. rewrite Nat.add_1_r. simpl.
    rewrite <- app_assoc. simpl.
    rewrite lookup_app_r by lia. rewrite Nat.sub_diag. simpl.
    rewrite filter_app. rewrite <- app_assoc.
    destruct (spell_check (longword_of su x)).2 eqn:E.
    + rewrite delete_middle. rewrite IH.
      rewrite filter_cons_False by (unfold passes_check; rewrite E; discriminate).
      reflexivity.
    + rewrite IH.
      rewrite filter_cons_True by exact E. reflexivity.
Qed.

Lemma check_suggestions_filter (su : suginfo_T) (gap : gap_T) :
  get_gap (check_suggestions su gap) gap = filter (passes_check su) (get_gap su gap).
Proof.
  unfold check_suggestions.
  destruct (get_gap su gap) as [|x l] eqn:E; simpl.
  - rewrite E. reflexivity.
  - rewrite get_set_gap.
    pose proof (check_suggestions_loop_filter su (x :: l) []) as H.
    rewrite !app_nil_r in H. exact H.
Qed.

Lemma check_suggestions_eq (su : suginfo_T) (gap : gap_T) :
  check_suggestions su gap
  = set_gap su gap (filter (passes_check su) (get_gap su gap)).
Proof.
  unfold check_suggestions.
  destruct (get_gap su gap) as [|x l] eqn:E.
  - simpl. destruct su, gap; simpl in *; subst; reflexivity.
  - simpl Nat.eqb. cbv iota.
    pose proof (check_suggestions_loop_filter su (x :: l) []) as H.
    rewrite !app_nil_r in H. rewrite H. reflexivity.
Qed.


(** The two arrays entwined: one entry of each in turn, the rest of the
    longer one behind. *)
Fixpoint entwine {A} (l1 l2 : list A) : list A :=
  match l1, l2 with
  | [], _ => l2
  | _, [] => l1
  | x :: r1, y :: r2 => x :: y :: entwine r1 r2
  end.

Lemma entwine_nil_r {A} (l : list A) : entwine l [] = l.
Proof. destruct l; reflexivity. Qed.

Lemma combine_loop_entwine (gap1 gap2 : list suggest_T) (n i : nat)
    (ga : list suggest_T) :
  (Nat.max (length gap1) (length gap2) <= i + n)%nat ->
  combine_loop gap1 gap2 n i ga
  = fold_left add_unless_present (entwine (drop i gap1) (drop i gap2)) ga.
Proof.
  revert i ga. induction n as [|n IH]; intros i ga Hn; simpl.
  - rewrite !drop_ge by lia. reflexivity.
  - rewrite IH by lia.
    destruct (gap1 !! i) as [x|] eqn:E1; destruct (gap2 !! i) as [y|] eqn:E2.
    + rewrite (drop_S _ _ _ E1), (drop_S _ _ _ E2). reflexivity.
    + rewrite (drop_S _ _ _ E1).
      apply lookup_ge_None in E2.
      rewrite (drop_ge gap2 i) by lia. rewrite (drop_ge gap2 (S i)) by lia.
      rewrite !entwine_nil_r. reflexivity.
    + rewrite (drop_S _ _ _ E2).
      apply lookup_ge_None in E1.
      rewrite (drop_ge gap1 i) by lia. rewrite (drop_ge gap1 (S i)) by lia.
      reflexivity.
    + apply lookup_ge_None in E1. apply lookup_ge_None in E2.
      rewrite (drop_ge gap1 i) by lia. rewrite (drop_ge gap1 (S i)) by lia.
      rewrite (drop_ge gap2 i) by lia. rewrite (drop_ge gap2 (S i)) by lia.
      reflexivity.
Qed.

Lemma strcmp_eq_iff (s1 s2 : list Z) : strcmp_eq s1 s2 = true <-> s1 = s2.
Proof.
  revert s2. induction s1 as [|c1 r1 IH]; intros [|c2 r2]; simpl;
    try (split; [discriminate|discriminate]); [split; reflexivity|].
  rewrite andb_true_iff, Z.eqb_eq, IH. split.
  - intros [-> ->]. reflexivity.
  - intros [= -> ->]. split; reflexivity.
Qed.

Lemma add_unless_present_NoDup (ga : list suggest_T) (stp : suggest_T) :
  NoDup (map st_word ga) -> NoDup (map st_word (add_unless_present ga stp)).
Proof.
  intros H. unfold add_unless_present.
  destruct (existsb (fun s => strcmp_eq (st_word s) (st_word stp)) ga) eqn:E;
    [exact H|].
  rewrite map_app. simpl. apply NoDup_app. split; [exact H|].
  split; [|apply NoDup_singleton].
  intros wd Hin Hin'. apply list_elem_of_singleton in Hin'. subst wd.
  apply list_elem_of_In in Hin. apply in_map_iff in Hin.
  destruct Hin as (s & Hs & Hsin).
  assert (existsb (fun s => strcmp_eq (st_word s) (st_word stp)) ga = true).
  { apply existsb_exists. exists s. split; [exact Hsin|]. apply strcmp_eq_iff. exact Hs. }
  congruence.
Qed.

Lemma fold_add_unless_present_NoDup (l ga : list suggest_T) :
  NoDup (map st_word ga) ->
  NoDup (map st_word (fold_left add_unless_present l ga)).
Proof.
  revert ga. induction l as [|x l IH]; intros ga H; simpl; [exact H|].
  apply IH. apply add_unless_present_NoDup. exact H.
Qed.



(** *** The order of the list [spell_find_suggest] returns *)

Lemma cleanup_void_Sorted (su : suginfo_T) : Sorted sug_le (su_ga (cleanup_void su GA)).
Proof. unfold cleanup_void. simpl. apply cleanup_suggestions_Sorted. Qed.

Lemma spell_suggest_expr_Sorted (su : suginfo_T) (expr : list Z) :
  Sorted sug_le (su_ga (spell_suggest_expr su expr)).
Proof. unfold spell_suggest_expr. apply cleanup_void_Sorted. Qed.

Lemma spell_suggest_file_Sorted (su : suginfo_T) (fname : list Z) :
  Sorted sug_le (su_ga su) -> Sorted sug_le (su_ga (spell_suggest_file su fname)).
Proof.
  intros H. unfold spell_suggest_file.
  destruct (read_lines fname); [apply cleanup_void_Sorted | exact H].
Qed.

Lemma spell_suggest_intern_Sorted (langs : list langp_T) (sps_flags : Z)
    (su : suginfo_T) :
  Z.land sps_flags SPS_DOUBLE = 0 ->
  Sorted sug_le (su_ga (spell_suggest_intern langs sps_flags su)).
Proof.
  intros Hd. unfold spell_suggest_intern. rewrite Hd. simpl.
  match goal with
  | |- context [(length (su_ga ?s) =? 0)%nat] =>
      destruct (Nat.eqb_spec (length (su_ga s)) 0) as [E|E]; simpl
  end.
  - destruct (su_ga _); [constructor | discriminate].
  - apply cleanup_void_Sorted.
Qed.

Lemma add_suggestion_first (su : suginfo_T) (goodword : list Z)
    (badlenarg score altscore : Z) (had_bonus : bool) (slang : option slang_T)
    (maxsf : bool) :
  su_ga su = [] ->
  (length (su_ga (add_suggestion su GA goodword badlenarg score altscore
                                 had_bonus slang maxsf)) <= 1)%nat.
Proof.
  intros E. unfold add_suggestion.
  destruct (minimize_len _ _ _ _ _) as [goodlen badlen].
  destruct ((badlen =? 0) && (goodlen =? 0)); [rewrite E; simpl; lia|].
  simpl get_gap. rewrite E. simpl.
  pose proof (SUG_CLEAN_COUNT_ge su). unfold SUG_MAX_COUNT.
  destruct (Z.ltb_spec (SUG_CLEAN_COUNT su + 50) (Z.of_nat 1)); [lia|]. simpl. lia.
Qed.

Lemma Sorted_short {A} (R : A -> A -> Prop) (l : list A) :
  (length l <= 1)%nat -> Sorted R l.
Proof.
  destruct l as [|x [|y l]]; simpl; intros H; try lia; repeat constructor.
Qed.

Lemma add_banned_ga (su : suginfo_T) (word : list Z) :
  su_ga (add_banned su word) = su_ga su.
Proof. unfold add_banned. destruct (existsb _ _); reflexivity. Qed.

Lemma spell_find_suggest_sug_le (langs : list langp_T) (sps_flags : Z)
    (p_sps : list sps_item) (badptr : list Z) (badlen maxcount : Z)
    (banbadword need_cap : bool) :
  Z.land sps_flags SPS_DOUBLE = 0 \/ first_sal_lang langs = None ->
  Sorted sug_le
         (su_ga (spell_find_suggest langs sps_flags p_sps badptr badlen maxcount
                                    banbadword need_cap)).
Proof.
  intros Hmode. unfold spell_find_suggest.
  destruct badptr as [|c badptr']; [constructor|].
  set (bp := c :: badptr').
  match goal with
  | |- context [fold_left _ _ (?s, false, false)] => set (su0 := s)
  end.
  assert (H0 : Sorted sug_le (su_ga su0)).
  { unfold su0. apply Sorted_short.
    destruct banbadword; rewrite ?add_banned_ga;
      destruct (negb (SPELL_ISUPPER c) && negb _);
      try (apply add_suggestion_first; reflexivity); simpl; lia. }
  clearbody su0.
  assert (Hinv : forall items acc,
             (acc.1.2 = false -> Sorted sug_le (su_ga acc.1.1)) ->
             (acc.1.2 = true -> Z.land sps_flags SPS_DOUBLE <> 0) ->
             let r := fold_left (sps_item_step langs sps_flags) items acc in
             (r.1.2 = false -> Sorted sug_le (su_ga r.1.1)) /\
             (r.1.2 = true -> Z.land sps_flags SPS_DOUBLE <> 0)).
  { induction items as [|item items IH]; intros [[su dc] di] Hs Hd; simpl in *.
    - split; assumption.
    - apply IH; destruct item; simpl.
      + intros E. apply spell_suggest_expr_Sorted.
      + intros E. apply spell_suggest_file_Sorted. apply Hs. exact E.
      + exact Hs.
      + destruct di; simpl; [exact Hs|].
        destruct (Z.eqb_spec (Z.land sps_flags SPS_DOUBLE) 0) as [E0|E0]; simpl.
        * intros _. apply spell_suggest_intern_Sorted. exact E0.
        * discriminate.
      + exact Hd.
      + exact Hd.
      + exact Hd.
      + destruct di; simpl; [exact Hd|].
        destruct (Z.eqb_spec (Z.land sps_flags SPS_DOUBLE) 0) as [E0|E0]; simpl.
        * exact Hd.
        * intros _. exact E0. }
  specialize (Hinv p_sps (su0, false, false) (fun _ => H0) ltac:(discriminate)).
  simpl in Hinv.
  destruct (fold_left (sps_item_step langs sps_flags) p_sps (su0, false, false))
    as [[su dc] di].
  simpl in Hinv. destruct Hinv as [Hs Hd].
  destruct dc.
  - destruct Hmode as [Hm|Hm]; [exfalso; apply Hd; [reflexivity | exact Hm]|].
    unfold score_combine. rewrite Hm. apply cleanup_void_Sorted.
  - apply Hs. reflexivity.
Qed.

(** C4 as the code has it.  When the mode is not "double" ([SPS_DOUBLE] is
    not set: "best" or "fast"), and also in "double" when no language folds
    sounds, the list [spell_find_suggest] returns is in the order of the key
    ([by_key]): every entry has a lower score than the next one, or the same
    score and a lower alternative score, or the same two scores and a word
    that is not behind the next one without regard to case; so the scores
    never go down along the list.  In "double" with sound folding the list is
    [score_combine]'s: the two sorted arrays entwined. *)
Theorem spell_find_suggest_sorted (langs : list langp_T) (sps_flags : Z)
    (p_sps : list sps_item) (badptr : list Z) (badlen maxcount : Z)
    (banbadword need_cap : bool) :
  Z.land sps_flags SPS_DOUBLE = 0 \/ first_sal_lang langs = None ->
  Sorted by_key
         (su_ga (spell_find_suggest langs sps_flags p_sps badptr badlen maxcount
                                    banbadword need_cap)) /\
  StronglySorted (fun a b => st_score a <= st_score b)
         (su_ga (spell_find_suggest langs sps_flags p_sps badptr badlen maxcount
                                    banbadword need_cap)).
Proof.
  intros Hmode.
  pose proof (spell_find_suggest_sug_le langs sps_flags p_sps badptr badlen maxcount
                banbadword need_cap Hmode) as H.
  split; [apply Sorted_by_key; exact H|apply Sorted_scores; exact H].
Qed.

(** *** What every step keeps: the line, and the lengths of the words *)

(** [su] still points to the line [word], and the entries of its two arrays
    record the lengths of their words. *)
Definition list_inv (word : list Z) (su : suginfo_T) : Prop :=
  su_badptr su = word /\ Forall entry_ok (su_ga su) /\ Forall entry_ok (su_sga su).

Lemma list_inv_set_gap word su gap l :
  list_inv word su -> Forall entry_ok l -> list_inv word (set_gap su gap l).
Proof. intros (H1 & H2 & H3) Hl. destruct gap; repeat split; assumption. Qed.

Lemma list_inv_get_gap word su gap :
  list_inv word su -> Forall entry_ok (get_gap su gap).
Proof. intros (H1 & H2 & H3). destruct gap; assumption. Qed.

Lemma list_inv_maxscore word su v :
  list_inv word su -> list_inv word (set_su_maxscore su v).
Proof. intros (H1 & H2 & H3). repeat split; assumption. Qed.

Lemma list_inv_sfmaxscore word su v :
  list_inv word su -> list_inv word (set_su_sfmaxscore su v).
Proof. intros (H1 & H2 & H3). repeat split; assumption. Qed.

Lemma cleanup_suggestions_Forall (P : suggest_T -> Prop) (gap : list suggest_T)
    (maxscore keep : Z) :
  Forall P gap -> Forall P (cleanup_suggestions gap maxscore keep).1.
Proof.
  intros H. unfold cleanup_suggestions.
  assert (Hq : Forall P (qsort gap)).
  { eapply Permutation_Forall; [symmetry; apply qsort_Permutation | exact H]. }
  destruct (Z.of_nat (length gap) <=? 0); [exact H|].
  destruct (keep <? Z.of_nat (length gap)); [|exact Hq].
  assert (Forall P (take (Z.to_nat keep) (qsort gap))) by (apply Forall_take; exact Hq).
  destruct (1 <=? keep); [|assumption].
  destruct (qsort gap !! Z.to_nat (keep - 1)); assumption.
Qed.

Lemma Forall_filter_keeps {A} (P Q : A -> Prop) `{forall x, Decision (Q x)}
    (l : list A) :
  Forall P l -> Forall P (filter Q l).
Proof.
  induction 1 as [|x l Hx Hl IH]; [constructor|].
  rewrite filter_cons. destruct (decide (Q x)); [constructor|]; assumption.
Qed.

Lemma cleanup_void_inv word su gap :
  list_inv word su -> list_inv word (cleanup_void su gap).
Proof.
  intros H. unfold cleanup_void. apply list_inv_set_gap; [exact H|].
  apply cleanup_suggestions_Forall. apply (list_inv_get_gap word). exact H.
Qed.

Lemma check_suggestions_inv word su gap :
  list_inv word su -> list_inv word (check_suggestions su gap).
Proof.
  intros H. rewrite check_suggestions_eq. apply list_inv_set_gap; [exact H|].
  apply Forall_filter_keeps. apply (list_inv_get_gap word). exact H.
Qed.

Lemma rescore_one_ok su stp : entry_ok stp -> entry_ok (rescore_one su stp).
Proof.
  unfold entry_ok. destruct (rescore_one_keeps su stp) as (R1 & R2 & _).
  rewrite R1, R2. auto.
Qed.

Lemma rescore_suggestions_inv word su :
  list_inv word su -> list_inv word (rescore_suggestions su).
Proof.
  intros H. unfold rescore_suggestions. destruct (su_sallang su); [|exact H].
  apply (list_inv_set_gap word su GA); [exact H|].
  destruct H as (_ & H & _). apply List.Forall_forall. intros x Hx.
  apply in_map_iff in Hx. destruct Hx as (y & <- & Hy).
  apply rescore_one_ok. rewrite List.Forall_forall in H. apply H. exact Hy.
Qed.

Lemma add_suggestion_inv word su gap goodword badlenarg score altscore
    had_bonus slang maxsf :
  list_inv word su ->
  list_inv word (add_suggestion su gap goodword badlenarg score altscore
                                had_bonus slang maxsf).
Proof.
  intros H. unfold add_suggestion.
  pose proof (minimize_len_range goodword (su_badptr su) (length goodword)
                (Z.of_nat (length goodword)) badlenarg ltac:(lia)) as (Hrange & _).
  destruct (minimize_len _ _ _ _ _) as [goodlen badlen]. cbn [fst] in Hrange.
  destruct ((badlen =? 0) && (goodlen =? 0)); [exact H|].
  pose proof (list_inv_get_gap word su gap H) as Hgap.
  destruct (find_suggestion _ _ _ _) as [i|].
  - destruct (get_gap su gap !! i) as [stp|] eqn:Ei; [|exact H].
    apply list_inv_set_gap; [exact H|].
    apply Forall_insert; [exact Hgap|].
    destruct (merge_suggestion_spec su stp badlen score altscore
                                    had_bonus slang) as (M1 & M2 & _).
    unfold entry_ok. rewrite M1, M2.
    rewrite Forall_lookup in Hgap. apply (Hgap i stp Ei).
  - assert (Hnew : Forall entry_ok
               (get_gap su gap
                ++ [new_suggestion goodword goodlen badlen score altscore
                                   had_bonus slang])).
    { apply Forall_app. split; [exact Hgap|]. constructor; [|constructor].
      unfold entry_ok, new_suggestion. simpl. rewrite length_take. lia. }
    destruct (SUG_MAX_COUNT su <? _); [|apply list_inv_set_gap; assumption].
    destruct maxsf.
    + destruct (cleanup_suggestions _ (su_sfmaxscore su) _) as [l m] eqn:Ec.
      apply list_inv_sfmaxscore. apply list_inv_set_gap; [exact H|].
      change l with (l, m).1. rewrite <- Ec.
      apply cleanup_suggestions_Forall. exact Hnew.
    + destruct (cleanup_suggestions _ (su_maxscore su) _) as [l m] eqn:Ec.
      apply list_inv_maxscore. apply list_inv_set_gap; [exact H|].
      change l with (l, m).1. rewrite <- Ec.
      apply cleanup_suggestions_Forall. exact Hnew.
Qed.

Lemma suggest_try_special_inv word su :
  list_inv word su -> list_inv word (suggest_try_special su).
Proof.
  intros H. unfold suggest_try_special.
  destruct (_ && _); [apply add_suggestion_inv|]; exact H.
Qed.

Lemma score_comp_sal_inv word langs su :
  list_inv word su -> list_inv word (score_comp_sal langs su).
Proof.
  intros H. unfold score_comp_sal. destruct (first_sal_lang langs) as [slang|]; [|exact H].
  apply (list_inv_set_gap word su SGA); [exact H|].
  destruct H as (_ & Hga & Hsga).
  revert Hsga. generalize (su_sga su).
  induction Hga as [|stp l Hstp Hl IH]; intros sga Hsga; simpl; [exact Hsga|].
  apply IH. destruct (_ <? SCORE_MAXMAX); [|exact Hsga].
  apply Forall_app. split; [exact Hsga|]. constructor; [|constructor]. exact Hstp.
Qed.

Lemma add_unless_present_Forall (P : suggest_T -> Prop) ga stp :
  Forall P ga -> P stp -> Forall P (add_unless_present ga stp).
Proof.
  intros H Hs. unfold add_unless_present. destruct (existsb _ _); [exact H|].
  apply Forall_app. split; [exact H|]. constructor; [exact Hs|constructor].
Qed.

Lemma combine_loop_Forall (P : suggest_T -> Prop) gap1 gap2 n i ga :
  Forall P gap1 -> Forall P gap2 -> Forall P ga ->
  Forall P (combine_loop gap1 gap2 n i ga).
Proof.
  intros H1 H2. revert i ga. induction n as [|n IH]; intros i ga Hga; simpl;
    [exact Hga|].
  apply IH.
  assert (Forall P match gap1 !! i with
                   | Some stp => add_unless_present ga stp
                   | None => ga
                   end).
  { destruct (gap1 !! i) as [x|] eqn:E; [|exact Hga].
    apply add_unless_present_Forall; [exact Hga|].
    rewrite Forall_lookup in H1. apply (H1 i x E). }
  destruct (gap2 !! i) as [y|] eqn:E; [|assumption].
  apply add_unless_present_Forall; [assumption|].
  rewrite Forall_lookup in H2. apply (H2 i y E).
Qed.

Lemma score_combine_inv word langs su :
  list_inv word su -> list_inv word (score_combine langs su).
Proof.
  intros H. unfold score_combine.
  destruct (first_sal_lang langs) as [slang|]; [|apply cleanup_void_inv; exact H].
  assert (H1 : list_inv word (score_combine_ga slang su)).
  { unfold score_combine_ga. rewrite for_each_entry_map.
    apply (list_inv_set_gap word su GA); [exact H|].
    destruct H as (_ & H & _). apply List.Forall_forall. intros x Hx.
    apply in_map_iff in Hx. destruct Hx as (y & <- & Hy).
    rewrite List.Forall_forall in H. apply (H y Hy). }
  assert (H2 : list_inv word (score_combine_sga slang (score_combine_ga slang su))).
  { unfold score_combine_sga at 1. rewrite for_each_entry_map.
    apply (list_inv_set_gap word _ SGA); [exact H1|].
    destruct H1 as (_ & _ & H1). apply List.Forall_forall. intros x Hx.
    apply in_map_iff in Hx. destruct Hx as (y & <- & Hy).
    rewrite List.Forall_forall in H1. apply (H1 y Hy). }
  cbv zeta.
  match goal with
  | |- list_inv word (score_combine_entwine ?s) =>
      assert (H3 : list_inv word s)
        by (repeat first [apply cleanup_void_inv | apply check_suggestions_inv];
            exact H2);
      generalize dependent s
  end.
  intros s (Hs1 & Hs2 & Hs3). unfold score_combine_entwine.
  repeat split; simpl; [exact Hs1| |constructor].
  assert (Forall entry_ok (combine_loop (su_ga s) (su_sga s)
                             (length (su_ga s) `max` length (su_sga s)) 0 []))
    by (apply combine_loop_Forall; [assumption|assumption|constructor]).
  destruct (su_maxcount s <? _); [apply Forall_take|]; assumption.
Qed.

Lemma spell_suggest_expr_inv word su expr :
  list_inv word su -> list_inv word (spell_suggest_expr su expr).
Proof.
  intros H. unfold spell_suggest_expr.
  apply cleanup_void_inv, check_suggestions_inv.
  generalize (eval_spell_expr (su_badword su) expr). intros l.
  revert su H. induction l as [|[p score] l IH];
    intros su H; simpl; [exact H|].
  apply IH. destruct (_ && _); [apply add_suggestion_inv|]; exact H.
Qed.

Lemma spell_suggest_file_inv word su fname :
  list_inv word su -> list_inv word (spell_suggest_file su fname).
Proof.
  intros H. unfold spell_suggest_file. destruct (read_lines fname) as [lines|]; [|exact H].
  apply cleanup_void_inv, check_suggestions_inv.
  revert su H. induction lines as [|line l IH]; intros su H; simpl; [exact H|].
  apply IH. destruct (split_slash line) as [[bad p]|]; [|exact H].
  destruct (_ =? 0); [apply add_suggestion_inv|]; exact H.
Qed.

Section Walks.

(** What is asked of the two walks, which are not given here: they add,
    merge and remove entries, and keep the line and the recorded lengths. *)
Hypothesis suggest_try_change_inv :
  forall word su, list_inv word su -> list_inv word (suggest_try_change su).
Hypothesis suggest_try_soundalike_inv :
  forall word n su, list_inv word su -> list_inv word (suggest_try_soundalike n su).

Lemma spell_suggest_intern_inv word langs sps_flags su :
  list_inv word su -> list_inv word (spell_suggest_intern langs sps_flags su).
Proof.
  intros H. unfold spell_suggest_intern.
  repeat first
    [ exact H
    | apply cleanup_void_inv
    | apply check_suggestions_inv
    | apply rescore_suggestions_inv
    | apply list_inv_maxscore
    | apply list_inv_sfmaxscore
    | apply suggest_try_soundalike_inv
    | apply score_comp_sal_inv
    | apply suggest_try_change_inv
    | apply suggest_try_special_inv
    | match goal with
      | |- list_inv _ (if ?c then _ else _) => destruct c
      | |- list_inv _ (let su := _ in _) => cbv zeta
      end ].
Qed.

Lemma spell_find_suggest_inv langs sps_flags p_sps badptr badlen maxcount
    banbadword need_cap :
  list_inv badptr (spell_find_suggest langs sps_flags p_sps badptr badlen maxcount
                                      banbadword need_cap).
Proof.
  unfold spell_find_suggest.
  destruct badptr as [|c badptr']; [repeat split; constructor|].
  set (bp := c :: badptr').
  match goal with
  | |- context [fold_left _ _ (?s, false, false)] => set (su0 := s)
  end.
  assert (H0 : list_inv bp su0).
  { unfold su0.
    assert (Hb : forall su w, list_inv bp su -> list_inv bp (add_banned su w)).
    { intros su w (H1 & H2 & H3). unfold add_banned.
      destruct (existsb _ _); repeat split; assumption. }
    destruct banbadword; [apply Hb|];
      (destruct (negb (SPELL_ISUPPER c) && negb _);
       [apply add_suggestion_inv|]; repeat split; constructor). }
  clearbody su0.
  assert (Hinv : forall items acc,
             list_inv bp acc.1.1 ->
             list_inv bp (fold_left (sps_item_step langs sps_flags) items acc).1.1).
  { induction items as [|item items IH]; intros [[su dc] di] Hs; simpl in *;
      [exact Hs|].
    apply IH. destruct item; simpl.
    - apply spell_suggest_expr_inv. exact Hs.
    - apply spell_suggest_file_inv. exact Hs.
    - exact Hs.
    - destruct di; simpl; [exact Hs|]. apply spell_suggest_intern_inv. exact Hs. }
  specialize (Hinv p_sps (su0, false, false) H0).
  destruct (fold_left (sps_item_step langs sps_flags) p_sps (su0, false, false))
    as [[su dc] di].
  simpl in Hinv. destruct dc; [apply score_combine_inv|]; exact Hinv.
Qed.

(** With walks that keep the line and the recorded lengths, every string
    [spell_suggest_list] hands to the caller is the word of the suggestion
    followed by the bytes of the input from the offset [st_orglen] to its
    end. *)
Lemma spell_suggest_list_strings (langs : list langp_T) (sps_flags : Z)
    (p_sps : list sps_item) (word : list Z) (maxcount : Z) (need_cap : bool) :
  spell_suggest_list langs sps_flags p_sps word maxcount need_cap
  = map (fun stp => st_word stp ++ drop (Z.to_nat (st_orglen stp)) word)
        (su_ga (spell_find_suggest langs sps_flags p_sps word 0 maxcount
                                   false need_cap)) /\
  forall stp,
    In stp (su_ga (spell_find_suggest langs sps_flags p_sps word 0 maxcount
                                      false need_cap)) ->
    (st_orglen stp = Z.of_nat (length word) ->
     st_word stp ++ drop (Z.to_nat (st_orglen stp)) word = st_word stp) /\
    (0 <= st_orglen stp < Z.of_nat (length word) ->
     exists rest, rest <> [] /\
       drop (Z.to_nat (st_orglen stp)) word = rest /\
       word = take (Z.to_nat (st_orglen stp)) word ++ rest).
Proof.
  pose proof (spell_find_suggest_inv langs sps_flags p_sps word 0 maxcount
                                     false need_cap) as (Hptr & Hga & _).
  split.
  - unfold spell_suggest_list. rewrite Hptr.
    apply map_ext_in. intros stp Hin.
    rewrite List.Forall_forall in Hga. specialize (Hga stp Hin).
    unfold entry_ok in Hga. unfold strcpy_at. rewrite Hga.
    destruct (Z.leb_spec (Z.of_nat (length (st_word stp)))
                         (Z.of_nat (length (st_word stp)))); [|lia].
    rewrite Nat2Z.id. rewrite take_ge by lia. reflexivity.
  - intros stp Hin. split.
    + intros E. rewrite E, Nat2Z.id. rewrite drop_all. apply app_nil_r.
    + intros Hlt. exists (drop (Z.to_nat (st_orglen stp)) word).
      split; [|split; [reflexivity | symmetry; apply take_drop]].
      intros Hnil. apply (f_equal length) in Hnil.
      rewrite length_drop in Hnil. simpl in Hnil. lia.
Qed.

End Walks.

(** ** The walk: when it goes deeper *)

Section TrieWalkFacts.

Variable add_sound_suggest : suginfo_T -> list Z -> Z -> langp_T -> suginfo_T.
Variable lp : langp_T.
Variable soundfold : bool.

(** A level at the start of a node of the prefix tree: the next turn goes
    deeper from it without looking at the score (line 1391). *)
Definition is_fresh (sp : trystate_T) : bool :=
  (ts_prefixdepth sp =? PFD_PREFIXTREE)
  && match ts_state sp with
     | STATE_START | STATE_NOPREFIX => true
     | _ => false
     end.

(** A level of the prefix tree that is, or comes back to, the start of its
    node. *)
Definition is_unsettled (sp : trystate_T) : bool :=
  (ts_prefixdepth sp =? PFD_PREFIXTREE)
  && match ts_state sp with
     | STATE_START | STATE_NOPREFIX | STATE_SPLITUNDO => true
     | _ => false
     end.

Definition frame_ok (su : suginfo_T) (sp : trystate_T) : Prop :=
  is_unsettled sp = true ->
  is_fresh sp = true /\ ts_score sp < su_maxscore su.

Definition walk_inv (w : walk_T) : Prop :=
  match w_stack w with
  | [] => True
  | sp :: below =>
      frame_ok (w_su w) sp /\ Forall (fun f => is_unsettled f = false) below
  end.

(** What a turn from the level [sp] above the levels [below] can come to. *)
Definition turn_ok (su : suginfo_T) (sp : trystate_T) (below : list trystate_T)
    (r : walk_T * walk_event) : Prop :=
  match snd r with
  | Stayed =>
      exists sp', w_stack (fst r) = sp' :: below /\
                  (frame_ok su sp -> frame_ok (w_su (fst r)) sp')
  | Pushed add =>
      exists child sp',
        w_stack (fst r) = child :: sp' :: below /\
        Z.of_nat (length below) < MAXWLEN - 1 /\
        ts_score sp' = ts_score sp /\
        ts_score child <= ts_score sp + add /\
        (ts_score sp + add < su_maxscore (w_su (fst r)) \/
         (add = 0 /\ is_fresh sp = true /\
          su_maxscore (w_su (fst r)) = su_maxscore su)) /\
        (MAXWLEN <= 255 -> frame_ok su sp ->
         is_unsettled sp' = false /\ frame_ok (w_su (fst r)) child)
  | Popped => w_stack (fst r) = below
  end.

Lemma TRY_DEEPER_true (su : suginfo_T) (sp : trystate_T) (depth add : Z) :
  TRY_DEEPER su sp depth add = true ->
  depth < MAXWLEN - 1 /\ ts_score sp + add < su_maxscore su.
Proof.
  unfold TRY_DEEPER. intros H. apply andb_true_iff in H. destruct H as [H1 H2].
  apply Z.ltb_lt in H1, H2. split; assumption.
Qed.

Lemma plain_adj_score_nonneg (a : plain_adj) : 0 <= plain_adj_score a.
Proof. destruct a; vm_compute; congruence. Qed.

Lemma del_adj_score_nonneg (a : del_adj) : 0 <= del_adj_score a.
Proof. destruct a; vm_compute; congruence. Qed.

Lemma frame_ok_settled (su : suginfo_T) (sp : trystate_T) :
  is_unsettled sp = false -> frame_ok su sp.
Proof. intros H H'. congruence. Qed.

(** A turn that stays at the level [sp'] with the score limit unchanged. *)
Lemma turn_ok_staying (su su' : suginfo_T) (sp sp' : trystate_T)
    (below : list trystate_T) :
  (frame_ok su sp -> frame_ok su' sp') ->
  turn_ok su sp below (staying su' sp' below).
Proof. intros H. unfold turn_ok, staying. simpl. exists sp'. split; [reflexivity|exact H]. Qed.

(** A turn that goes deeper after [TRY_DEEPER]. *)
Lemma turn_ok_pushing (su0 su' : suginfo_T) (sp0 sp sp' child : trystate_T)
    (below : list trystate_T) (add : Z) :
  TRY_DEEPER su' sp (Z.of_nat (length below)) add = true ->
  ts_score sp = ts_score sp0 ->
  ts_score sp' = ts_score sp0 ->
  ts_score child <= ts_score sp0 + add ->
  is_unsettled sp' = false ->
  is_unsettled child = is_fresh child ->
  turn_ok su0 sp0 below (pushing su' child sp' below add).
Proof.
  intros Ht Hs0 Hs Hc Hu Hf. apply TRY_DEEPER_true in Ht. destruct Ht as [Hd Hm].
  unfold turn_ok, pushing. simpl. exists child, sp'.
  split; [reflexivity|]. split; [exact Hd|]. split; [exact Hs|]. split; [exact Hc|].
  split; [left; lia|]. intros _ _. split; [exact Hu|].
  intros Hc'. rewrite Hf in Hc'. split; [exact Hc'|lia].
Qed.

Ltac break_if :=
  match goal with
  | |- context [if ?b then _ else _] => destruct b eqn:?
  end.

Ltac settle :=
  unfold is_unsettled, is_fresh; cbn [ts_state ts_prefixdepth set_ts_state
    set_ts_score set_ts_prefixdepth set_ts_save_badflags go_deeper];
  rewrite ?andb_false_r, ?andb_true_r; try reflexivity; try assumption;
  try (intros; assumption).

Lemma walk_try_swap_ok (su : suginfo_T) (sp : trystate_T) (below : list trystate_T)
    (add : Z) (undo : state_T) :
  is_unsettled (set_ts_state sp undo) = false ->
  turn_ok su sp below (walk_try_swap su sp below add undo).
Proof.
  intros Hu. unfold walk_try_swap. break_if.
  - apply (turn_ok_pushing su su sp sp); try assumption; reflexivity.
  - apply turn_ok_staying. intros _. apply frame_ok_settled. settle.
Qed.

Lemma walk_rep_ok (o : walk_obs) (su su0 : suginfo_T) (sp sp0 : trystate_T)
    (below : list trystate_T) :
  ts_score sp = ts_score sp0 ->
  turn_ok su0 sp0 below (walk_rep o su sp below).
Proof.
  intros Hsc. unfold walk_rep. break_if.
  - apply andb_true_iff in Heqb. destruct Heqb as [_ Ht].
    apply (turn_ok_pushing su0 su sp0 sp); try assumption; try reflexivity.
    + cbn [go_deeper ts_score set_ts_score set_ts_state]. lia.
    + settle.
  - apply turn_ok_staying. intros _. apply frame_ok_settled. settle.
Qed.

Lemma walk_rep_ini_ok (o : walk_obs) (su : suginfo_T) (sp : trystate_T)
    (below : list trystate_T) :
  turn_ok su sp below (walk_rep_ini lp soundfold o su sp below).
Proof.
  unfold walk_rep_ini. repeat break_if;
    try (apply turn_ok_staying; intros _; apply frame_ok_settled; settle).
  apply walk_rep_ok. reflexivity.
Qed.

Lemma walk_plain_ok (o : walk_obs) (su su0 : suginfo_T) (sp sp0 : trystate_T)
    (below : list trystate_T) :
  ts_state sp = STATE_PLAIN -> ts_score sp = ts_score sp0 ->
  su_maxscore su = su_maxscore su0 ->
  turn_ok su0 sp0 below (walk_plain o su sp below).
Proof.
  intros Hst Hsc Hmax. unfold walk_plain.
  assert (Hu : is_unsettled sp = false) by (unfold is_unsettled; rewrite Hst; settle).
  break_if; [|break_if].
  - apply turn_ok_staying. intros _. apply frame_ok_settled. break_if; settle.
  - apply andb_true_iff in Heqb0. destruct Heqb0 as [_ Ht].
    unfold turn_ok, pushing. cbn [fst snd w_stack w_su].
    apply TRY_DEEPER_true in Ht. destruct Ht as [Hd Hm].
    pose proof (plain_adj_score_nonneg (o_plain_adj o)) as Hadj.
    eexists _, sp. split; [reflexivity|]. split; [exact Hd|]. split; [exact Hsc|].
    cbn [go_deeper ts_score set_ts_score set_ts_state].
    split; [lia|]. split; [left; lia|]. intros _ _. split; [exact Hu|].
    unfold frame_ok. intros Hc. split; [|cbn [ts_score set_ts_score]; lia].
    revert Hc. settle.
  - apply turn_ok_staying. intros _. apply frame_ok_settled. exact Hu.
Qed.

Lemma walk_endnul_ok (o : walk_obs) (su : suginfo_T) (sp : trystate_T)
    (below : list trystate_T) :
  turn_ok su sp below (walk_endnul o su sp below).
Proof.
  unfold walk_endnul. break_if.
  - apply turn_ok_staying. intros _. apply frame_ok_settled. settle.
  - apply walk_plain_ok; reflexivity.
Qed.

Lemma walk_ins_prep_ok (o : walk_obs) (su su0 : suginfo_T) (sp sp0 : trystate_T)
    (below : list trystate_T) :
  turn_ok su0 sp0 below (walk_ins_prep o su sp below).
Proof.
  unfold walk_ins_prep.
  repeat break_if; apply turn_ok_staying; intros _; apply frame_ok_settled; settle.
Qed.

Lemma walk_del_ok (o : walk_obs) (su : suginfo_T) (sp : trystate_T)
    (below : list trystate_T) :
  turn_ok su sp below (walk_del soundfold o su sp below).
Proof.
  unfold walk_del. break_if.
  - apply turn_ok_staying. intros _. apply frame_ok_settled. settle.
  - match goal with
    | |- context [if ?b then _ else _] => destruct b eqn:Hb
    end; [|apply walk_ins_prep_ok].
    apply andb_true_iff in Hb. destruct Hb as [_ Ht].
    apply TRY_DEEPER_true in Ht. destruct Ht as [Hd Hm].
    cbn [ts_score set_ts_state] in Hm.
    pose proof (del_adj_score_nonneg (o_del_adj o)) as Hadj.
    unfold turn_ok, pushing. cbn [fst snd w_stack w_su].
    eexists _, _. split; [reflexivity|]. split; [exact Hd|].
    cbn [go_deeper ts_score set_ts_score set_ts_state].
    split; [reflexivity|]. split; [lia|]. split; [left; lia|].
    intros _ _. split; [settle|].
    unfold frame_ok. intros Hc. split; [|cbn [ts_score set_ts_score]; lia].
    revert Hc. settle.
Qed.

Lemma walk_ins_ok (o : walk_obs) (su : suginfo_T) (sp : trystate_T)
    (below : list trystate_T) :
  ts_state sp = STATE_INS ->
  turn_ok su sp below (walk_ins soundfold o su sp below).
Proof.
  intros Hst. unfold walk_ins.
  assert (Hu : is_unsettled sp = false) by (unfold is_unsettled; rewrite Hst; settle).
  break_if; [|break_if; [|break_if]].
  - apply turn_ok_staying. intros _. apply frame_ok_settled. settle.
  - unfold turn_ok. cbn [fst snd w_stack w_su]. exists sp. split; [reflexivity|].
    intros _. apply frame_ok_settled. exact Hu.
  - apply andb_true_iff in Heqb1. destruct Heqb1 as [_ Ht].
    apply TRY_DEEPER_true in Ht. destruct Ht as [Hd Hm].
    unfold turn_ok, pushing. cbn [fst snd w_stack w_su].
    eexists _, sp. split; [reflexivity|]. split; [exact Hd|].
    split; [reflexivity|].
    assert (Hle : ts_score (if o_ins_dup o
                            then set_ts_score (go_deeper sp
                                   (if soundfold && o_ins_star o
                                    then Z.quot (2 * SCORE_INS) 3 else SCORE_INS))
                                   (ts_score (go_deeper sp
                                      (if soundfold && o_ins_star o
                                       then Z.quot (2 * SCORE_INS) 3 else SCORE_INS))
                                    - (SCORE_INS - SCORE_INSDUP))
                            else go_deeper sp
                                   (if soundfold && o_ins_star o
                                    then Z.quot (2 * SCORE_INS) 3 else SCORE_INS))
                  <= ts_score sp + (if soundfold && o_ins_star o
                                    then Z.quot (2 * SCORE_INS) 3 else SCORE_INS)).
    { destruct (o_ins_dup o);
        cbn [go_deeper ts_score set_ts_score set_ts_state];
        unfold SCORE_INS, SCORE_INSDUP; lia. }
    split; [exact Hle|]. split; [left; exact Hm|]. intros _ _. split; [exact Hu|].
    unfold frame_ok. intros Hc. split; [|lia].
    revert Hc. destruct (o_ins_dup o); settle.
  - apply turn_ok_staying. intros _. apply frame_ok_settled. exact Hu.
Qed.

Lemma walk_swap_ok (o : walk_obs) (su : suginfo_T) (sp : trystate_T)
    (below : list trystate_T) :
  turn_ok su sp below (walk_swap soundfold o su sp below).
Proof.
  unfold walk_swap.
  repeat break_if;
    try (apply turn_ok_staying; intros _; apply frame_ok_settled; settle).
  apply walk_try_swap_ok. settle.
Qed.

Lemma walk_swap3_ok (o : walk_obs) (su : suginfo_T) (sp : trystate_T)
    (below : list trystate_T) :
  turn_ok su sp below (walk_swap3 o su sp below).
Proof.
  unfold walk_swap3. break_if.
  - apply turn_ok_staying. intros _. apply frame_ok_settled. settle.
  - apply walk_try_swap_ok. settle.
Qed.

Lemma walk_unswap3_ok (o : walk_obs) (su : suginfo_T) (sp : trystate_T)
    (below : list trystate_T) :
  turn_ok su sp below (walk_unswap3 soundfold o su sp below).
Proof.
  unfold walk_unswap3. break_if.
  - apply turn_ok_staying. intros _. apply frame_ok_settled. settle.
  - apply walk_try_swap_ok. settle.
Qed.

Lemma land_255_small (d : Z) : 0 <= d < 254 -> Z.land d 255 = d.
Proof.
  intros H. change 255 with (Z.ones 8). rewrite Z.land_ones by lia.
  apply Z.mod_small. change (2 ^ 8) with 256. lia.
Qed.

Lemma walk_start_prefix_ok (o : walk_obs) (su : suginfo_T) (sp : trystate_T)
    (below : list trystate_T) :
  is_fresh sp = true ->
  turn_ok su sp below (walk_start_prefix o su sp below).
Proof.
  intros Hfresh. unfold walk_start_prefix. break_if.
  - apply andb_true_iff in Heqb. destruct Heqb as [Hd _]. apply Z.ltb_lt in Hd.
    unfold turn_ok, pushing. cbn [fst snd w_stack w_su].
    eexists _, _. split; [reflexivity|]. split; [exact Hd|].
    cbn [go_deeper ts_score set_ts_score set_ts_state set_ts_prefixdepth
         set_ts_save_badflags].
    split; [reflexivity|]. split; [lia|].
    split; [right; split; [reflexivity|split; [exact Hfresh|reflexivity]]|].
    intros Hmax _. split; [settle|].
    apply frame_ok_settled. unfold is_unsettled.
    cbn [ts_prefixdepth set_ts_prefixdepth].
    rewrite land_255_small by lia.
    replace (Z.of_nat (length below) =? PFD_PREFIXTREE) with false; [reflexivity|].
    symmetry. apply Z.eqb_neq. unfold PFD_PREFIXTREE. lia.
  - apply turn_ok_staying. intros _. apply frame_ok_settled. settle.
Qed.

Lemma walk_start_word_ok (o : walk_obs) (su : suginfo_T) (sp : trystate_T)
    (below : list trystate_T) :
  (ts_prefixdepth sp =? PFD_PREFIXTREE) = false ->
  turn_ok su sp below (walk_start_word add_sound_suggest lp soundfold o su sp below).
Proof.
  intros Hpd. unfold walk_start_word.
  assert (Hstay : forall su' sp',
             ts_prefixdepth sp' = ts_prefixdepth sp ->
             turn_ok su sp below (staying su' sp' below)).
  { intros su' sp' E. apply turn_ok_staying. intros _. apply frame_ok_settled.
    unfold is_unsettled. rewrite E, Hpd. reflexivity. }
  do 4 (break_if; [apply Hstay; reflexivity|]).
  do 2 (break_if; [apply Hstay; reflexivity|]).
  match goal with
  | |- context [let '(a, b) := ?X in _] => destruct X as [su1 newscore1]
  end.
  break_if; [|apply Hstay; reflexivity].
  break_if; [|apply Hstay; reflexivity].
  break_if; [apply Hstay; reflexivity|].
  break_if; [|apply Hstay; reflexivity].
  match goal with
  | H : TRY_DEEPER su1 sp _ ?add = true |- _ =>
      apply (turn_ok_pushing su _ sp sp _ _ below add H)
  end.
  - reflexivity.
  - reflexivity.
  - repeat break_if;
      cbn [go_deeper ts_score set_ts_score set_ts_state set_ts_prefixdepth];
      unfold SCORE_SPLIT, SCORE_SUBST; lia.
  - unfold is_unsettled. cbn [ts_prefixdepth set_ts_state set_ts_save_badflags].
    rewrite Hpd. reflexivity.
  - repeat break_if; unfold is_unsettled, is_fresh;
      cbn [go_deeper ts_state ts_score set_ts_score set_ts_state ts_prefixdepth
           set_ts_prefixdepth]; reflexivity.
Qed.

Lemma walk_start_ok (o : walk_obs) (su : suginfo_T) (sp : trystate_T)
    (below : list trystate_T) :
  ts_state sp = STATE_START \/ ts_state sp = STATE_NOPREFIX ->
  turn_ok su sp below (walk_start add_sound_suggest lp soundfold o su sp below).
Proof.
  intros Hst. unfold walk_start.
  destruct (ts_prefixdepth sp =? PFD_PREFIXTREE) eqn:Hpd.
  - apply walk_start_prefix_ok. unfold is_fresh. rewrite Hpd.
    destruct Hst as [-> | ->]; reflexivity.
  - break_if.
    + apply turn_ok_staying. intros _. apply frame_ok_settled. settle.
    + apply walk_start_word_ok. exact Hpd.
Qed.

(** Every turn from a level [sp] is as [turn_ok] says. *)
Lemma walk_step_ok (o : walk_obs) (su : suginfo_T) (sp : trystate_T)
    (below : list trystate_T) :
  turn_ok su sp below
    (walk_step add_sound_suggest lp soundfold o
       {| w_su := su; w_stack := sp :: below; w_got_int := false |}).
Proof.
  unfold walk_step. cbn [w_stack w_got_int w_su].
  destruct (ts_state sp) eqn:Hst.
  - apply walk_start_ok. left. exact Hst.
  - apply walk_start_ok. right. exact Hst.
  - apply turn_ok_staying. intros Hok. unfold frame_ok in *.
    unfold is_unsettled in *. cbn [ts_state ts_prefixdepth set_ts_state].
    rewrite Hst in Hok. rewrite andb_true_r in *.
    intros Hpd. destruct (Hok Hpd) as [Hf _].
    unfold is_fresh in Hf. rewrite Hst, andb_false_r in Hf. discriminate.
  - apply walk_endnul_ok.
  - apply walk_plain_ok; [exact Hst|reflexivity|reflexivity].
  - apply walk_del_ok.
  - apply walk_ins_prep_ok.
  - apply walk_ins_ok. exact Hst.
  - apply walk_swap_ok.
  - apply walk_swap3_ok.
  - apply walk_swap3_ok.
  - apply walk_unswap3_ok.
  - apply walk_try_swap_ok. settle.
  - apply walk_rep_ini_ok.
  - apply walk_rep_ini_ok.
  - apply walk_rep_ok. reflexivity.
  - apply turn_ok_staying. intros _. apply frame_ok_settled. settle.
  - unfold turn_ok, walk_final. reflexivity.
Qed.

Lemma walk_step_turn (o : walk_obs) (w : walk_T) :
  match w_stack w with
  | [] => walk_step add_sound_suggest lp soundfold o w = (w, Stayed)
  | sp :: below =>
      (w_got_int w = true /\
       walk_step add_sound_suggest lp soundfold o w = (w, Stayed)) \/
      (w_got_int w = false /\
       turn_ok (w_su w) sp below (walk_step add_sound_suggest lp soundfold o w))
  end.
Proof.
  destruct w as [su stack gi]. cbn [w_stack w_got_int w_su].
  destruct stack as [|sp below]; [reflexivity|].
  destruct gi.
  - left. split; reflexivity.
  - right. split; [reflexivity|]. apply walk_step_ok.
Qed.

Lemma walk_step_depth (o : walk_obs) (w : walk_T) :
  w_depth w <= MAXWLEN - 1 ->
  w_depth (fst (walk_step add_sound_suggest lp soundfold o w)) <= MAXWLEN - 1.
Proof.
  intros Hd. pose proof (walk_step_turn o w) as H. unfold w_depth in *.
  destruct (w_stack w) as [|sp below] eqn:Hw.
  - rewrite H. cbn [fst]. rewrite Hw. exact Hd.
  - destruct H as [[_ H]|[_ H]].
    + rewrite H. cbn [fst]. rewrite Hw. exact Hd.
    + unfold turn_ok in H.
      destruct (walk_step add_sound_suggest lp soundfold o w) as [w' ev].
      cbn [fst snd] in *. destruct ev as [add| |].
      * destruct H as (child & sp' & E & Hlt & _). rewrite E.
        cbn [length] in *. lia.
      * rewrite H. cbn [length] in *. lia.
      * destruct H as (sp' & E & _). rewrite E. cbn [length] in *. lia.
Qed.

Lemma walk_step_inv (o : walk_obs) (w : walk_T) :
  MAXWLEN <= 255 -> walk_inv w ->
  walk_inv (fst (walk_step add_sound_suggest lp soundfold o w)).
Proof.
  intros Hmax Hinv. pose proof (walk_step_turn o w) as H. unfold walk_inv in *.
  destruct (w_stack w) as [|sp below] eqn:Hw.
  - rewrite H. cbn [fst]. rewrite Hw. exact I.
  - destruct Hinv as [Hsp Hbelow]. destruct H as [[_ H]|[_ H]].
    + rewrite H. cbn [fst]. rewrite Hw. split; assumption.
    + unfold turn_ok in H.
      destruct (walk_step add_sound_suggest lp soundfold o w) as [w' ev].
      cbn [fst snd] in *. destruct ev as [add| |].
      * destruct H as (child & sp' & E & _ & _ & _ & _ & Hok). rewrite E.
        destruct (Hok Hmax Hsp) as [Hu Hc].
        split; [exact Hc|]. constructor; assumption.
      * rewrite H. destruct below as [|sp1 below1]; [exact I|].
        inversion Hbelow as [|? ? H1 H2]; subst.
        split; [apply frame_ok_settled; exact H1|exact H2].
      * destruct H as (sp' & E & Hok). rewrite E. split; [apply Hok; exact Hsp|exact Hbelow].
Qed.

Lemma walk_run_depth (os : list walk_obs) (w : walk_T) :
  w_depth w <= MAXWLEN - 1 ->
  w_depth (walk_run add_sound_suggest lp soundfold os w) <= MAXWLEN - 1.
Proof.
  revert w. induction os as [|o os IH]; intros w Hd; [exact Hd|].
  unfold walk_run. cbn [fold_left]. apply IH. apply walk_step_depth. exact Hd.
Qed.

Lemma walk_run_inv (os : list walk_obs) (w : walk_T) :
  MAXWLEN <= 255 -> walk_inv w ->
  walk_inv (walk_run add_sound_suggest lp soundfold os w).
Proof.
  intros Hmax. revert w. induction os as [|o os IH]; intros w Hinv; [exact Hinv|].
  unfold walk_run. cbn [fold_left]. apply IH. apply walk_step_inv; assumption.
Qed.

Lemma walk_init_inv (su : suginfo_T) :
  0 < su_maxscore su -> walk_inv (walk_init lp soundfold su).
Proof.
  intros Hpos. unfold walk_inv, walk_init. cbn [w_stack w_su].
  split; [|constructor].
  unfold frame_ok, is_unsettled, is_fresh. cbn [ts_state ts_prefixdepth ts_score].
  destruct (has_pbyts lp soundfold); intros H.
  - split; [reflexivity|exact Hpos].
  - discriminate.
Qed.

(** C2 as the code has it.  From any reachable state of the walk, a turn
    goes deeper only at a depth below [MAXWLEN - 1], so that the depth never
    exceeds [MAXWLEN - 1]; the new level starts with at most the score of the
    level plus the cost of the change; that sum is below [su_maxscore], as
    [TRY_DEEPER] checks, except when the turn leaves the prefix tree for the
    word tree (lines 1391-1409), which costs nothing and looks at the depth
    only.  When [su_maxscore] is positive at the start of the walk the sum is
    below [su_maxscore] there too. *)
Theorem suggest_trie_walk_goes_deeper (su : suginfo_T) (os : list walk_obs)
    (o : walk_obs) (add : Z) :
  0 < MAXWLEN <= 255 ->
  w_depth (suggest_trie_walk add_sound_suggest lp soundfold su os) <= MAXWLEN - 1 /\
  (snd (walk_step add_sound_suggest lp soundfold o
          (suggest_trie_walk add_sound_suggest lp soundfold su os)) = Pushed add ->
   exists sp below child sp',
     w_stack (suggest_trie_walk add_sound_suggest lp soundfold su os) = sp :: below /\
     w_stack (fst (walk_step add_sound_suggest lp soundfold o
                     (suggest_trie_walk add_sound_suggest lp soundfold su os)))
     = child :: sp' :: below /\
     w_depth (suggest_trie_walk add_sound_suggest lp soundfold su os) < MAXWLEN - 1 /\
     ts_score child <= ts_score sp + add /\
     (ts_score sp + add
      < su_maxscore (w_su (fst (walk_step add_sound_suggest lp soundfold o
                                  (suggest_trie_walk add_sound_suggest lp soundfold
                                     su os)))) \/
      (add = 0 /\ is_fresh sp = true)) /\
     (0 < su_maxscore su ->
      ts_score sp + add
      < su_maxscore (w_su (fst (walk_step add_sound_suggest lp soundfold o
                                  (suggest_trie_walk add_sound_suggest lp soundfold
                                     su os)))))).
Proof.
  intros [Hpos Hmax].
  assert (Hdepth : w_depth (suggest_trie_walk add_sound_suggest lp soundfold su os)
                   <= MAXWLEN - 1).
  { apply walk_run_depth. unfold w_depth, walk_init. cbn [w_stack length]. lia. }
  split; [exact Hdepth|]. intros Hev.
  set (w := suggest_trie_walk add_sound_suggest lp soundfold su os) in *.
  pose proof (walk_step_turn o w) as H.
  destruct (w_stack w) as [|sp below] eqn:Hw.
  - rewrite H in Hev. discriminate.
  - destruct H as [[_ H]|[_ H]]; [rewrite H in Hev; discriminate|].
    unfold turn_ok in H. rewrite Hev in H.
    destruct H as (child & sp' & E & Hlt & Hs & Hc & Hguard & Hok).
    exists sp, below, child, sp'.
    split; [reflexivity|]. split; [exact E|].
    split; [unfold w_depth; rewrite Hw; cbn [length]; lia|].
    split; [exact Hc|].
    split; [destruct Hguard as [Hg|(Ha & Hf & _)]; [left; exact Hg|right; split; assumption]|].
    intros Hsu.
    destruct Hguard as [Hg|(Ha & Hf & Hm)]; [exact Hg|].
    assert (Hinv : walk_inv w).
    { apply walk_run_inv; [exact Hmax|]. apply walk_init_inv. exact Hsu. }
    unfold walk_inv in Hinv. rewrite Hw in Hinv. destruct Hinv as [Hfr _].
    unfold frame_ok in Hfr.
    assert (Hun : is_unsettled sp = true).
    { unfold is_fresh in Hf. unfold is_unsettled.
      apply andb_true_iff in Hf. destruct Hf as [Hf1 Hf2]. rewrite Hf1.
      destruct (ts_state sp); try discriminate; reflexivity. }
    destruct (Hfr Hun) as [_ Hlt']. rewrite Hm. lia.
Qed.

End TrieWalkFacts.

(** ** More about the candidate store *)

(** X12.  When [cleanup_suggestions] cuts an array down to its [keep] best
    entries, the score it returns parts what is kept from what is dropped:
    the array is split into the [keep] entries kept and the others, no entry
    kept has a score above the score returned and no entry dropped has a
    score below it. *)
Theorem cleanup_suggestions_cutoff (gap : list suggest_T) (maxscore keep : Z) :
  1 <= keep < Z.of_nat (length gap) ->
  exists dropped : list suggest_T,
    Permutation gap ((cleanup_suggestions gap maxscore keep).1 ++ dropped) /\
    Z.of_nat (length (cleanup_suggestions gap maxscore keep).1) = keep /\
    Forall (fun stp => st_score stp <= (cleanup_suggestions gap maxscore keep).2)
           (cleanup_suggestions gap maxscore keep).1 /\
    Forall (fun stp => (cleanup_suggestions gap maxscore keep).2 <= st_score stp)
           dropped.
Proof.
  intros Hk.
  destruct (cleanup_suggestions_truncates gap maxscore keep Hk) as (lst & E & Hlast).
  rewrite E. cbn [fst snd].
  exists (drop (Z.to_nat keep) (qsort gap)).
  pose proof (qsort_length gap) as Hlen.
  split; [rewrite take_drop; symmetry; apply qsort_Permutation|].
  split; [rewrite length_take; lia|].
  pose proof (Sorted_scores _ (qsort_Sorted gap)) as Hs.
  rewrite <- (take_drop (Z.to_nat keep) (qsort gap)) in Hs.
  assert (Hin : lst ∈ take (Z.to_nat keep) (qsort gap)).
  { apply last_Some in Hlast. destruct Hlast as [l' ->].
    apply elem_of_app. right. apply list_elem_of_singleton. reflexivity. }
  split.
  - apply last_Some in Hlast. destruct Hlast as [l' El]. rewrite El in Hs |- *.
    apply Forall_app. split; [|constructor; [lia|constructor]].
    apply List.Forall_forall. intros x Hx.
    apply StronglySorted_app_1_l in Hs.
    apply (StronglySorted_app_1_elem_of _ _ _ x lst Hs);
      [apply list_elem_of_In; exact Hx|apply list_elem_of_singleton; reflexivity].
  - apply List.Forall_forall. intros x Hx.
    apply (StronglySorted_app_1_elem_of _ _ _ lst x Hs);
      [exact Hin|apply list_elem_of_In; exact Hx].
Qed.


(** *** The number of suggestions *)

Lemma set_gap_maxcount su gap l : su_maxcount (set_gap su gap l) = su_maxcount su.
Proof. destruct gap; reflexivity. Qed.

Lemma add_suggestion_maxcount su gap goodword badlenarg score altscore had_bonus
    slang maxsf :
  su_maxcount (add_suggestion su gap goodword badlenarg score altscore had_bonus
                              slang maxsf)
  = su_maxcount su.
Proof.
  unfold add_suggestion.
  destruct (minimize_len _ _ _ _ _) as [goodlen badlen].
  destruct (_ && _); [reflexivity|].
  destruct (find_suggestion _ _ _ _) as [i|].
  - destruct (_ !! i); [apply set_gap_maxcount|reflexivity].
  - destruct (_ <? _); [|apply set_gap_maxcount].
    destruct maxsf; destruct (cleanup_suggestions _ _ _) as [l m];
      cbn [su_maxcount set_su_sfmaxscore set_su_maxscore]; apply set_gap_maxcount.
Qed.

Lemma check_suggestions_maxcount su gap :
  su_maxcount (check_suggestions su gap) = su_maxcount su.
Proof. rewrite check_suggestions_eq. apply set_gap_maxcount. Qed.

Lemma cleanup_void_maxcount su gap : su_maxcount (cleanup_void su gap) = su_maxcount su.
Proof. apply set_gap_maxcount. Qed.

Lemma rescore_suggestions_maxcount su :
  su_maxcount (rescore_suggestions su) = su_maxcount su.
Proof. unfold rescore_suggestions. destruct (su_sallang su); reflexivity. Qed.

Lemma score_comp_sal_maxcount langs su :
  su_maxcount (score_comp_sal langs su) = su_maxcount su.
Proof. unfold score_comp_sal. destruct (first_sal_lang langs); reflexivity. Qed.

Lemma suggest_try_special_maxcount su :
  su_maxcount (suggest_try_special su) = su_maxcount su.
Proof.
  unfold suggest_try_special. destruct (_ && _); [|reflexivity].
  apply add_suggestion_maxcount.
Qed.

(** After the cleanup with [su_maxcount] the array is no longer than
    that. *)
Lemma cleanup_void_length su :
  0 <= su_maxcount su ->
  Z.of_nat (length (su_ga (cleanup_void su GA))) <= su_maxcount su.
Proof.
  intros H. unfold cleanup_void. cbn [set_gap get_gap su_ga set_su_ga].
  rewrite cleanup_suggestions_length by exact H. lia.
Qed.

Lemma spell_suggest_expr_count su expr :
  su_maxcount (spell_suggest_expr su expr) = su_maxcount su /\
  (0 <= su_maxcount su ->
   Z.of_nat (length (su_ga (spell_suggest_expr su expr))) <= su_maxcount su).
Proof.
  unfold spell_suggest_expr.
  assert (H : forall l su0,
             su_maxcount
               (fold_left
                  (fun su ws =>
                     let '(p, score) := ws in
                     if (0 <=? score) && (score <=? su_maxscore su)
                     then add_suggestion su GA p (su_badlen su) score 0 true
                                         (su_sallang su) false
                     else su) l su0)
             = su_maxcount su0).
  { induction l as [|[p score] l IH]; intros su0; [reflexivity|].
    cbn [fold_left]. rewrite IH.
    destruct (_ && _); [apply add_suggestion_maxcount|reflexivity]. }
  split.
  - rewrite cleanup_void_maxcount, check_suggestions_maxcount. apply H.
  - intros Hm.
    match goal with
    | |- context [cleanup_void ?s GA] =>
        assert (Hs : su_maxcount s = su_maxcount su)
          by (rewrite check_suggestions_maxcount; apply H);
        rewrite <- Hs in Hm |- *; apply cleanup_void_length; exact Hm
    end.
Qed.

Lemma spell_suggest_file_count su fname :
  su_maxcount (spell_suggest_file su fname) = su_maxcount su /\
  (0 <= su_maxcount su ->
   Z.of_nat (length (su_ga su)) <= su_maxcount su ->
   Z.of_nat (length (su_ga (spell_suggest_file su fname))) <= su_maxcount su).
Proof.
  unfold spell_suggest_file.
  destruct (read_lines fname) as [lines|]; [|split; [reflexivity|intros _ H; exact H]].
  assert (H : forall l su0,
             su_maxcount
               (fold_left
                  (fun su line =>
                     match split_slash line with
                     | None => su
                     | Some (bad, p) =>
                         if STRICMP (su_badword su) bad =? 0 then
                           let p := upto_control p in
                           let p := if captype p =? 0
                                    then make_case_word p (su_badflags su) else p in
                           add_suggestion su GA p (su_badlen su) SCORE_FILE 0 true
                                          (su_sallang su) false
                         else su
                     end) l su0)
             = su_maxcount su0).
  { induction l as [|line l IH]; intros su0; [reflexivity|].
    cbn [fold_left]. rewrite IH.
    destruct (split_slash line) as [[bad p]|]; [|reflexivity].
    destruct (_ =? 0); [apply add_suggestion_maxcount|reflexivity]. }
  split.
  - rewrite cleanup_void_maxcount, check_suggestions_maxcount. apply H.
  - intros Hm _.
    match goal with
    | |- context [cleanup_void ?s GA] =>
        assert (Hs : su_maxcount s = su_maxcount su)
          by (rewrite check_suggestions_maxcount; apply H);
        rewrite <- Hs in Hm |- *; apply cleanup_void_length; exact Hm
    end.
Qed.

Lemma score_combine_count langs su :
  0 <= su_maxcount su ->
  Z.of_nat (length (su_ga (score_combine langs su))) <= su_maxcount su.
Proof.
  intros Hm. unfold score_combine.
  destruct (first_sal_lang langs) as [slang|]; [|apply cleanup_void_length; exact Hm].
  cbv zeta.
  match goal with
  | |- context [score_combine_entwine ?s] =>
      assert (Hs : su_maxcount s = su_maxcount su);
      [|generalize dependent s]
  end.
  { repeat first [rewrite cleanup_void_maxcount | rewrite check_suggestions_maxcount].
    unfold score_combine_sga, score_combine_ga. reflexivity. }
  intros s Hs. unfold score_combine_entwine. cbn [su_ga set_su_sga set_su_ga].
  rewrite Hs.
  match goal with
  | |- context [if ?c <? ?n then _ else _] => destruct (Z.ltb_spec c n)
  end; [rewrite length_take|]; lia.
Qed.

Section Counts.

(** What is asked of the two walks here: they leave [su_maxcount] as it
    is. *)
Hypothesis suggest_try_change_maxcount :
  forall su, su_maxcount (suggest_try_change su) = su_maxcount su.
Hypothesis suggest_try_soundalike_maxcount :
  forall n su, su_maxcount (suggest_try_soundalike n su) = su_maxcount su.

Lemma spell_suggest_intern_count langs sps_flags su :
  su_maxcount (spell_suggest_intern langs sps_flags su) = su_maxcount su /\
  (0 <= su_maxcount su ->
   Z.land sps_flags SPS_DOUBLE = 0 ->
   Z.of_nat (length (su_ga (spell_suggest_intern langs sps_flags su)))
   <= su_maxcount su).
Proof.
  unfold spell_suggest_intern. cbv zeta.
  match goal with
  | |- context [if (Z.land sps_flags SPS_DOUBLE =? 0)
                   && negb (Nat.eqb (length (su_ga ?s)) 0) then _ else _] =>
      assert (Hs : su_maxcount s = su_maxcount su);
      [|generalize dependent s]
  end.
  { repeat first
      [ reflexivity
      | rewrite suggest_try_soundalike_maxcount
      | rewrite rescore_suggestions_maxcount
      | rewrite score_comp_sal_maxcount
      | rewrite suggest_try_change_maxcount
      | rewrite suggest_try_special_maxcount
      | match goal with
        | |- su_maxcount (if ?c then _ else _) = _ => destruct c
        | |- su_maxcount (set_su_maxscore _ _) = _ =>
            cbn [su_maxcount set_su_maxscore]
        | |- su_maxcount (set_su_sfmaxscore _ _) = _ =>
            cbn [su_maxcount set_su_sfmaxscore]
        end ]. }
  intros s Hs. split.
  - destruct (_ && _); [|exact Hs].
    rewrite cleanup_void_maxcount, check_suggestions_maxcount.
    destruct (negb _); [rewrite rescore_suggestions_maxcount|]; exact Hs.
  - intros Hm Hd. rewrite Hd. cbn [Z.eqb andb].
    destruct (Nat.eqb_spec (length (su_ga s)) 0) as [E|E]; cbn [negb].
    + rewrite E. cbn. exact Hm.
    + match goal with
      | |- context [cleanup_void ?t GA] =>
          assert (Ht : su_maxcount t = su_maxcount su)
      end.
      { rewrite check_suggestions_maxcount.
        destruct (negb _); [rewrite rescore_suggestions_maxcount|]; exact Hs. }
      rewrite <- Ht in Hm |- *. apply cleanup_void_length. exact Hm.
Qed.

(** The array is cut down to [su_maxcount] entries at the end of every way
    through the items of 'spellsuggest'. *)
Lemma spell_find_suggest_cut_down (langs : list langp_T) (sps_flags : Z)
    (p_sps : list sps_item) (badptr : list Z) (badlen maxcount : Z)
    (banbadword need_cap : bool) :
  1 <= maxcount ->
  Z.of_nat (length (su_ga (spell_find_suggest langs sps_flags p_sps badptr badlen
                                              maxcount banbadword need_cap)))
  <= maxcount /\
  Z.of_nat (length (spell_suggest_list langs sps_flags p_sps badptr maxcount need_cap))
  <= maxcount.
Proof.
  intros Hm.
  assert (Hgen : forall badlen banbadword,
             Z.of_nat (length (su_ga (spell_find_suggest langs sps_flags p_sps badptr
                                        badlen maxcount banbadword need_cap)))
             <= maxcount).
  { clear badlen banbadword. intros badlen banbadword.
    unfold spell_find_suggest.
    destruct badptr as [|c badptr']; [cbn; lia|].
    set (bp := c :: badptr').
    match goal with
    | |- context [fold_left _ _ (?s, false, false)] => set (su0 := s)
    end.
    assert (H0 : su_maxcount su0 = maxcount /\
                 Z.of_nat (length (su_ga su0)) <= maxcount).
    { unfold su0.
      assert (Hb : forall su w, su_maxcount (add_banned su w) = su_maxcount su /\
                                su_ga (add_banned su w) = su_ga su).
      { intros su w. unfold add_banned. destruct (existsb _ _); split; reflexivity. }
      match goal with
      | |- context [if banbadword then add_banned ?s ?w else _] =>
          assert (Hs : su_maxcount s = maxcount /\
                       Z.of_nat (length (su_ga s)) <= maxcount)
      end.
      { destruct (negb (SPELL_ISUPPER c) && negb _); [|cbn; lia].
        split; [rewrite add_suggestion_maxcount; reflexivity|].
        match goal with
        | |- context [add_suggestion ?s GA ?w ?bl ?sc ?al ?hb ?sl ?mf] =>
            pose proof (add_suggestion_first s w bl sc al hb sl mf eq_refl) as Hf
        end.
        lia. }
      destruct banbadword; [|exact Hs].
      match goal with
      | |- context [add_banned ?s ?w] => destruct (Hb s w) as [Hb1 Hb2]
      end.
      rewrite Hb1, Hb2. exact Hs. }
    clearbody su0.
    assert (Hinv : forall items acc,
               su_maxcount acc.1.1 = maxcount ->
               (acc.1.2 = true \/ Z.of_nat (length (su_ga acc.1.1)) <= maxcount) ->
               su_maxcount (fold_left (sps_item_step langs sps_flags) items acc).1.1
               = maxcount /\
               ((fold_left (sps_item_step langs sps_flags) items acc).1.2 = true \/
                Z.of_nat (length (su_ga (fold_left (sps_item_step langs sps_flags)
                                                   items acc).1.1))
                <= maxcount)).
    { induction items as [|item items IH]; intros [[su dc] di] Hs1 Hs2;
        cbn [fst snd] in *; [split; assumption|].
      cbn [fold_left]. apply IH; destruct item; cbn [sps_item_step fst snd].
      - rewrite (proj1 (spell_suggest_expr_count su expr)). exact Hs1.
      - rewrite (proj1 (spell_suggest_file_count su fname)). exact Hs1.
      - exact Hs1.
      - destruct di; cbn [fst snd]; [exact Hs1|].
        rewrite (proj1 (spell_suggest_intern_count langs sps_flags su)). exact Hs1.
      - right. rewrite <- Hs1. apply spell_suggest_expr_count. lia.
      - destruct Hs2 as [Hs2|Hs2]; [left; exact Hs2|].
        right. rewrite <- Hs1 in *. apply spell_suggest_file_count; [lia|exact Hs2].
      - exact Hs2.
      - destruct di; cbn [fst snd]; [exact Hs2|].
        destruct (Z.eqb_spec (Z.land sps_flags SPS_DOUBLE) 0) as [Ed|Ed]; cbn [negb].
        + right. rewrite <- Hs1. apply spell_suggest_intern_count; [lia|exact Ed].
        + left. reflexivity. }
    specialize (Hinv p_sps (su0, false, false) (proj1 H0) (or_intror (proj2 H0))).
    destruct (fold_left (sps_item_step langs sps_flags) p_sps (su0, false, false))
      as [[su dc] di].
    cbn [fst snd] in Hinv. destruct Hinv as [Hc Hl].
    destruct dc.
    - rewrite <- Hc. apply score_combine_count. lia.
    - destruct Hl as [Hl|Hl]; [discriminate|exact Hl]. }
  split; [apply Hgen|].
  unfold spell_suggest_list. rewrite length_map. apply Hgen.
Qed.

(** X15.  [spell_find_suggest] gives at most [maxcount] suggestions, and so
    does [spell_suggest_list], whatever the option asks for: every way
    through the items of 'spellsuggest' ends with the array cut down to
    [su_maxcount] entries, or with the entry for the capitalised word
    alone. *)
Theorem spell_find_suggest_count (langs : list langp_T) (sps_flags : Z)
    (p_sps : list sps_item) (badptr : list Z) (badlen maxcount : Z)
    (banbadword need_cap : bool) :
  1 <= maxcount ->
  Z.of_nat (length (su_ga (spell_find_suggest langs sps_flags p_sps badptr badlen
                                              maxcount banbadword need_cap)))
  <= maxcount /\
  Z.of_nat (length (spell_suggest_list langs sps_flags p_sps badptr maxcount need_cap))
  <= maxcount.
Proof. apply spell_find_suggest_cut_down. Qed.

End Counts.

(** *** No suggestion twice *)

(** What tells two suggestions apart: the word and the length of the text it
    replaces. *)
Definition sug_key (stp : suggest_T) : list Z * Z := (st_word stp, st_orglen stp).

Definition no_dups (l : list suggest_T) : Prop := NoDup (map sug_key l).

(** The line and the recorded lengths are kept, and [su_ga] holds no
    suggestion twice. *)
Definition dup_inv (word : list Z) (su : suginfo_T) : Prop :=
  list_inv word su /\ no_dups (su_ga su).

Lemma no_dups_Permutation (l l' : list suggest_T) :
  Permutation l l' -> no_dups l -> no_dups l'.
Proof.
  unfold no_dups. intros Hp H.
  apply (Permutation_map sug_key) in Hp. rewrite <- Hp. exact H.
Qed.

Lemma no_dups_take (l : list suggest_T) (n : nat) : no_dups l -> no_dups (take n l).
Proof.
  unfold no_dups. intros H. rewrite <- (take_drop n l), map_app in H.
  apply NoDup_app in H. destruct H as [H _]. exact H.
Qed.

Lemma no_dups_filter (P : suggest_T -> Prop) `{forall x, Decision (P x)}
    (l : list suggest_T) :
  no_dups l -> no_dups (filter P l).
Proof.
  unfold no_dups. induction l as [|x l IH]; intros Hl; [constructor|].
  cbn [map] in Hl. apply NoDup_cons in Hl. destruct Hl as [Hx Hl].
  rewrite filter_cons. destruct (decide (P x)); [|apply IH; exact Hl].
  cbn [map]. apply NoDup_cons. split; [|apply IH; exact Hl].
  intros Hin. apply Hx. apply list_elem_of_fmap in Hin.
  destruct Hin as (y & Ey & Hy). apply list_elem_of_fmap. exists y.
  split; [exact Ey|]. apply list_elem_of_filter in Hy. destruct Hy as [_ Hy]. exact Hy.
Qed.

Lemma no_dups_map (f : suggest_T -> suggest_T) (l : list suggest_T) :
  (forall x, sug_key (f x) = sug_key x) -> no_dups l -> no_dups (map f l).
Proof.
  unfold no_dups. intros Hf H. rewrite map_map.
  rewrite (map_ext _ sug_key Hf). exact H.
Qed.

Lemma cleanup_suggestions_no_dups (gap : list suggest_T) (maxscore keep : Z) :
  no_dups gap -> no_dups (cleanup_suggestions gap maxscore keep).1.
Proof.
  intros H. unfold cleanup_suggestions.
  assert (Hq : no_dups (qsort gap)).
  { apply (no_dups_Permutation gap); [symmetry; apply qsort_Permutation|exact H]. }
  destruct (Z.of_nat (length gap) <=? 0); [exact H|].
  destruct (keep <? Z.of_nat (length gap)); [|exact Hq].
  assert (no_dups (take (Z.to_nat keep) (qsort gap))) by (apply no_dups_take; exact Hq).
  destruct (1 <=? keep); [|assumption].
  destruct (qsort gap !! Z.to_nat (keep - 1)); assumption.
Qed.

Lemma set_gap_su_ga su l : su_ga (set_gap su SGA l) = su_ga su.
Proof. reflexivity. Qed.

(** [add_suggestion] on an array without a suggestion twice. *)
Lemma add_suggestion_no_dups su gap goodword badlenarg score altscore had_bonus
    slang maxsf :
  Forall entry_ok (get_gap su gap) -> no_dups (get_gap su gap) ->
  no_dups (get_gap (add_suggestion su gap goodword badlenarg score altscore
                                   had_bonus slang maxsf) gap).
Proof.
  intros Hok H. unfold add_suggestion.
  pose proof (minimize_len_range goodword (su_badptr su) (length goodword)
                (Z.of_nat (length goodword)) badlenarg (Nat2Z.is_nonneg _))
    as (Hk & _).
  destruct (minimize_len _ _ _ _ _) as [goodlen badlen]. cbn [fst] in Hk.
  destruct ((badlen =? 0) && (goodlen =? 0)); [exact H|].
  destruct (find_suggestion _ _ _ _) as [i|] eqn:Ef.
  - destruct (get_gap su gap !! i) as [stp|] eqn:Ei; [|exact H].
    rewrite get_set_gap. unfold no_dups.
    rewrite list_fmap_insert.
    destruct (merge_suggestion_spec su stp badlen score altscore
                                    had_bonus slang) as (M1 & _ & M3 & _).
    unfold sug_key at 1. rewrite M1, M3.
    rewrite list_insert_id; [exact H|].
    rewrite list_lookup_fmap, Ei. reflexivity.
  - assert (Hnew : no_dups
               (get_gap su gap
                ++ [new_suggestion goodword goodlen badlen score altscore
                                   had_bonus slang])).
    { unfold no_dups. rewrite map_app. cbn [map].
      apply NoDup_app. split; [exact H|]. split; [|apply NoDup_singleton].
      intros key Hin Hnew. apply list_elem_of_singleton in Hnew. subst key.
      apply list_elem_of_fmap in Hin. destruct Hin as (stp & Ekey & Hstp).
      apply find_suggestion_None in Ef.
      rewrite List.Forall_forall in Ef, Hok.
      apply list_elem_of_In in Hstp.
      specialize (Ef stp Hstp). specialize (Hok stp Hstp).
      unfold sug_key, new_suggestion in Ekey. cbn in Ekey.
      injection Ekey as Ew Eo.
      unfold same_suggestion in Ef. unfold entry_ok in Hok.
      assert (Hl : st_wordlen stp = goodlen).
      { rewrite Hok, <- Ew, length_take. lia. }
      rewrite Hl, <- Eo, !Z.eqb_refl in Ef. cbn [andb] in Ef.
      assert (Ht : strncmp_eq (st_word stp) goodword (Z.to_nat goodlen) = true).
      { apply strncmp_eq_take. rewrite <- Ew. rewrite take_take.
        f_equal. lia. }
      congruence. }
    destruct (SUG_MAX_COUNT su <? _); [|rewrite get_set_gap; exact Hnew].
    destruct maxsf.
    + destruct (cleanup_suggestions _ (su_sfmaxscore su) _) as [l m] eqn:Ec.
      assert (Hl : no_dups l).
      { change l with (l, m).1. rewrite <- Ec.
        apply cleanup_suggestions_no_dups. exact Hnew. }
      destruct gap; exact Hl.
    + destruct (cleanup_suggestions _ (su_maxscore su) _) as [l m] eqn:Ec.
      assert (Hl : no_dups l).
      { change l with (l, m).1. rewrite <- Ec.
        apply cleanup_suggestions_no_dups. exact Hnew. }
      destruct gap; exact Hl.
Qed.

Lemma add_suggestion_other su goodword badlenarg score altscore had_bonus slang maxsf :
  su_ga (add_suggestion su SGA goodword badlenarg score altscore had_bonus slang maxsf)
  = su_ga su.
Proof.
  unfold add_suggestion.
  destruct (minimize_len _ _ _ _ _) as [goodlen badlen].
  destruct (_ && _); [reflexivity|].
  destruct (find_suggestion _ _ _ _) as [i|].
  - destruct (_ !! i); reflexivity.
  - destruct (_ <? _); [|reflexivity].
    destruct maxsf; destruct (cleanup_suggestions _ _ _) as [l m]; reflexivity.
Qed.

Lemma add_suggestion_dup_inv word su gap goodword badlenarg score altscore
    had_bonus slang maxsf :
  dup_inv word su ->
  dup_inv word (add_suggestion su gap goodword badlenarg score altscore
                               had_bonus slang maxsf).
Proof.
  intros [Hl Hd]. split; [apply add_suggestion_inv; exact Hl|].
  destruct gap.
  - apply (add_suggestion_no_dups su GA); [|exact Hd].
    apply (list_inv_get_gap word su GA). exact Hl.
  - rewrite add_suggestion_other. exact Hd.
Qed.

Lemma check_suggestions_dup_inv word su gap :
  dup_inv word su -> dup_inv word (check_suggestions su gap).
Proof.
  intros [Hl Hd]. split; [apply check_suggestions_inv; exact Hl|].
  rewrite check_suggestions_eq. destruct gap; [|exact Hd].
  cbn [set_gap get_gap su_ga set_su_ga]. apply no_dups_filter. exact Hd.
Qed.

Lemma cleanup_void_dup_inv word su gap :
  dup_inv word su -> dup_inv word (cleanup_void su gap).
Proof.
  intros [Hl Hd]. split; [apply cleanup_void_inv; exact Hl|].
  unfold cleanup_void. destruct gap; [|exact Hd].
  cbn [set_gap get_gap su_ga set_su_ga]. apply cleanup_suggestions_no_dups. exact Hd.
Qed.

Lemma rescore_suggestions_dup_inv word su :
  dup_inv word su -> dup_inv word (rescore_suggestions su).
Proof.
  intros [Hl Hd]. split; [apply rescore_suggestions_inv; exact Hl|].
  unfold rescore_suggestions. destruct (su_sallang su); [|exact Hd].
  cbn [su_ga set_su_ga]. apply no_dups_map; [|exact Hd].
  intros x. destruct (rescore_one_keeps su x) as (R1 & _ & R3 & _).
  unfold sug_key. rewrite R1, R3. reflexivity.
Qed.

Lemma score_comp_sal_dup_inv word langs su :
  dup_inv word su -> dup_inv word (score_comp_sal langs su).
Proof.
  intros [Hl Hd]. split; [apply score_comp_sal_inv; exact Hl|].
  unfold score_comp_sal. destruct (first_sal_lang langs); exact Hd.
Qed.

Lemma suggest_try_special_dup_inv word su :
  dup_inv word su -> dup_inv word (suggest_try_special su).
Proof.
  intros H. unfold suggest_try_special.
  destruct (_ && _); [apply add_suggestion_dup_inv|]; exact H.
Qed.

Lemma spell_suggest_expr_dup_inv word su expr :
  dup_inv word su -> dup_inv word (spell_suggest_expr su expr).
Proof.
  intros H. unfold spell_suggest_expr.
  apply cleanup_void_dup_inv, check_suggestions_dup_inv.
  generalize (eval_spell_expr (su_badword su) expr). intros l.
  revert su H. induction l as [|[p score] l IH];
    intros su H; simpl; [exact H|].
  apply IH. destruct (_ && _); [apply add_suggestion_dup_inv|]; exact H.
Qed.

Lemma spell_suggest_file_dup_inv word su fname :
  dup_inv word su -> dup_inv word (spell_suggest_file su fname).
Proof.
  intros H. unfold spell_suggest_file.
  destruct (read_lines fname) as [lines|]; [|exact H].
  apply cleanup_void_dup_inv, check_suggestions_dup_inv.
  revert su H. induction lines as [|line l IH]; intros su H; simpl; [exact H|].
  apply IH. destruct (split_slash line) as [[bad p]|]; [|exact H].
  destruct (_ =? 0); [apply add_suggestion_dup_inv|]; exact H.
Qed.

(** What [score_combine] makes holds no word twice. *)
Lemma score_combine_entwine_no_dups su :
  no_dups (su_ga (score_combine_entwine su)).
Proof.
  unfold score_combine_entwine. cbn [su_ga set_su_sga set_su_ga].
  assert (Hn : NoDup (map st_word
                 (combine_loop (su_ga su) (su_sga su)
                               (length (su_ga su) `max` length (su_sga su)) 0 []))).
  { rewrite combine_loop_entwine by lia.
    apply fold_add_unless_present_NoDup. constructor. }
  assert (Hk : forall l, NoDup (map st_word l) -> no_dups l).
  { intros l Hl. unfold no_dups.
    assert (E : map st_word l = map fst (map sug_key l))
      by (rewrite map_map; reflexivity).
    rewrite E in Hl. apply (NoDup_fmap_1 fst). exact Hl. }
  destruct (su_maxcount su <? _); [apply no_dups_take|]; apply Hk; exact Hn.
Qed.

Lemma score_combine_dup_inv word langs su :
  dup_inv word su -> dup_inv word (score_combine langs su).
Proof.
  intros [Hl Hd]. split; [apply score_combine_inv; exact Hl|].
  unfold score_combine.
  destruct (first_sal_lang langs) as [slang|];
    [apply score_combine_entwine_no_dups|].
  apply (cleanup_void_dup_inv word su GA). split; assumption.
Qed.

Section NoDups.

(** What is asked of the two walks here: they keep the line and the recorded
    lengths, and put no suggestion twice into [su_ga]. *)
Hypothesis suggest_try_change_dup_inv :
  forall word su, dup_inv word su -> dup_inv word (suggest_try_change su).
Hypothesis suggest_try_soundalike_dup_inv :
  forall word n su, dup_inv word su -> dup_inv word (suggest_try_soundalike n su).

Lemma dup_inv_maxscore word su v :
  dup_inv word su -> dup_inv word (set_su_maxscore su v).
Proof. intros [Hl Hd]. split; [apply list_inv_maxscore; exact Hl|exact Hd]. Qed.

Lemma dup_inv_sfmaxscore word su v :
  dup_inv word su -> dup_inv word (set_su_sfmaxscore su v).
Proof. intros [Hl Hd]. split; [apply list_inv_sfmaxscore; exact Hl|exact Hd]. Qed.

Lemma spell_suggest_intern_dup_inv word langs sps_flags su :
  dup_inv word su -> dup_inv word (spell_suggest_intern langs sps_flags su).
Proof.
  intros H. unfold spell_suggest_intern.
  repeat first
    [ exact H
    | apply cleanup_void_dup_inv
    | apply check_suggestions_dup_inv
    | apply rescore_suggestions_dup_inv
    | apply dup_inv_maxscore
    | apply dup_inv_sfmaxscore
    | apply suggest_try_soundalike_dup_inv
    | apply score_comp_sal_dup_inv
    | apply suggest_try_change_dup_inv
    | apply suggest_try_special_dup_inv
    | match goal with
      | |- dup_inv _ (if ?c then _ else _) => destruct c
      | |- dup_inv _ (let su := _ in _) => cbv zeta
      end ].
Qed.

(** Every step of [spell_find_suggest] keeps the array free of
    duplicates. *)
Lemma spell_find_suggest_no_dups (langs : list langp_T) (sps_flags : Z)
    (p_sps : list sps_item) (badptr : list Z) (badlen maxcount : Z)
    (banbadword need_cap : bool) :
  NoDup (map (fun stp => (st_word stp, st_orglen stp))
             (su_ga (spell_find_suggest langs sps_flags p_sps badptr badlen
                                        maxcount banbadword need_cap))).
Proof.
  change (no_dups (su_ga (spell_find_suggest langs sps_flags p_sps badptr badlen
                                              maxcount banbadword need_cap))).
  apply (proj2 (A := list_inv badptr
                       (spell_find_suggest langs sps_flags p_sps badptr badlen
                                           maxcount banbadword need_cap))).
  change (dup_inv badptr (spell_find_suggest langs sps_flags p_sps badptr badlen
                                             maxcount banbadword need_cap)).
  unfold spell_find_suggest.
  destruct badptr as [|c badptr'];
    [split; [repeat split; constructor|constructor]|].
  set (bp := c :: badptr').
  match goal with
  | |- context [fold_left _ _ (?s, false, false)] => set (su0 := s)
  end.
  assert (H0 : dup_inv bp su0).
  { unfold su0.
    assert (Hb : forall su w, dup_inv bp su -> dup_inv bp (add_banned su w)).
    { intros su w [(H1 & H2 & H3) H4]. unfold add_banned.
      destruct (existsb _ _); (split; [repeat split|]; assumption). }
    destruct banbadword; [apply Hb|];
      (destruct (negb (SPELL_ISUPPER c) && negb _);
       [apply add_suggestion_dup_inv|];
       (split; [repeat split; constructor|constructor])). }
  clearbody su0.
  assert (Hinv : forall items acc,
             dup_inv bp acc.1.1 ->
             dup_inv bp (fold_left (sps_item_step langs sps_flags) items acc).1.1).
  { induction items as [|item items IH]; intros [[su dc] di] Hs; simpl in *;
      [exact Hs|].
    apply IH. destruct item; simpl.
    - apply spell_suggest_expr_dup_inv. exact Hs.
    - apply spell_suggest_file_dup_inv. exact Hs.
    - exact Hs.
    - destruct di; simpl; [exact Hs|]. apply spell_suggest_intern_dup_inv. exact Hs. }
  specialize (Hinv p_sps (su0, false, false) H0).
  destruct (fold_left (sps_item_step langs sps_flags) p_sps (su0, false, false))
    as [[su dc] di].
  simpl in Hinv. destruct dc; [apply score_combine_dup_inv|]; exact Hinv.
Qed.

(** X16.  [spell_find_suggest] gives no suggestion twice: no two entries of
    the array it returns have the same word and replace the same length of
    text.  [add_suggestion] merges a suggestion that is there already, the
    checks, the sorting and the rescoring drop or move entries or change
    their scores only, and [score_combine] leaves out a word it has
    already. *)
Theorem spell_find_suggest_no_duplicates (langs : list langp_T) (sps_flags : Z)
    (p_sps : list sps_item) (badptr : list Z) (badlen maxcount : Z)
    (banbadword need_cap : bool) :
  NoDup (map (fun stp => (st_word stp, st_orglen stp))
             (su_ga (spell_find_suggest langs sps_flags p_sps badptr badlen
                                        maxcount banbadword need_cap))).
Proof. apply spell_find_suggest_no_dups. Qed.

End NoDups.

(** *** [suggest_try_special] on other words *)

Lemma skiptowhite_split (s : list Z) :
  exists w, s = w ++ skiptowhite s /\ Forall (fun c => VIM_ISWHITE c = false) w.
Proof.
  induction s as [|c s IH]; [exists []; split; [reflexivity|constructor]|].
  cbn [skiptowhite]. destruct (VIM_ISWHITE c) eqn:E.
  - exists []. split; [reflexivity|constructor].
  - destruct IH as (w & Hw & Hf). exists (c :: w).
    split; [cbn [app]; f_equal; exact Hw|constructor; assumption].
Qed.

Lemma skipwhite_split (s : list Z) :
  exists ws, s = ws ++ skipwhite s /\ Forall (fun c => VIM_ISWHITE c = true) ws.
Proof.
  induction s as [|c s IH]; [exists []; split; [reflexivity|constructor]|].
  cbn [skipwhite]. destruct (VIM_ISWHITE c) eqn:E.
  - destruct IH as (w & Hw & Hf). exists (c :: w).
    split; [cbn [app]; f_equal; exact Hw|constructor; assumption].
  - exists []. split; [reflexivity|constructor].
Qed.

(** X17.  [suggest_try_special] adds nothing for a bad word of any other
    shape: it leaves [su] as it is unless the case-folded bad word is a word
    without blanks, a run of blanks, and the same word again (both empty for
    an empty bad word or one of blanks only). *)
Theorem suggest_try_special_other_words (su : suginfo_T) :
  suggest_try_special su = su \/
  exists w sp,
    su_fbadword su = w ++ sp ++ w /\
    Forall (fun c => VIM_ISWHITE c = false) w /\
    Forall (fun c => VIM_ISWHITE c = true) sp.
Proof.
  unfold suggest_try_special.
  destruct (skiptowhite_split (su_fbadword su)) as (w & Hw & Fw).
  destruct (skipwhite_split (skiptowhite (su_fbadword su))) as (sp & Hsp & Fsp).
  set (p := skipwhite (skiptowhite (su_fbadword su))) in *.
  assert (Hlen : (length (su_fbadword su) - length (skiptowhite (su_fbadword su))
                  = length w)%nat).
  { rewrite Hw at 1. rewrite length_app. lia. }
  rewrite Hlen.
  destruct (Nat.eqb_spec (length p) (length w)) as [El|El]; [|left; reflexivity].
  destruct (strncmp_eq (su_fbadword su) p (length w)) eqn:Es; [|left; reflexivity].
  right. exists w, sp.
  apply strncmp_eq_take in Es.
  rewrite Hw in Es at 1. rewrite take_app_length in Es.
  rewrite <- El, firstn_all in Es.
  split; [|split; assumption].
  rewrite Hw at 1. rewrite Hsp at 1. fold p. rewrite <- Es. reflexivity.
Qed.

(** *** What a walk does to the store *)

(** What a walk for [suggest_try_change] leaves of [su] as it was: all but
    [su_ga], [su_maxscore] and [su_badflags], and the banned words, of which
    none is taken away. *)
Definition store_kept (su su' : suginfo_T) : Prop :=
  su_badptr su' = su_badptr su /\ su_badlen su' = su_badlen su /\
  su_maxcount su' = su_maxcount su /\ su_sfmaxscore su' = su_sfmaxscore su /\
  su_sga su' = su_sga su /\ su_badword su' = su_badword su /\
  su_fbadword su' = su_fbadword su /\ su_sal_badword su' = su_sal_badword su /\
  su_sallang su' = su_sallang su /\
  forall w, In w (su_banned su) -> In w (su_banned su').

Section WalkStore.

Variable add_sound_suggest : suginfo_T -> list Z -> Z -> langp_T -> suginfo_T.
Variable lp : langp_T.

(** A walk that is not for the sound-folded word changes [su] in three ways:
    it sets [su_badflags], it bans a word, and it adds a suggestion to
    [su_ga]; a walk for the sound-folded word ([soundfold] TRUE) bans no
    word and hands the words it comes to to [add_sound_suggest].  What these
    keep, every turn keeps. *)
Section Keeps.

Variable P : suginfo_T -> Prop.
Hypothesis P_badflags : forall su flags, P su -> P (set_su_badflags su flags).
Hypothesis P_banned : forall su word, P su -> P (add_banned su word).
Hypothesis P_add :
  forall su goodword badlen score,
    P su -> P (add_suggestion su GA goodword badlen score 0 false (lp_sallang lp) false).
Variable soundfold : bool.
Hypothesis P_sound :
  soundfold = true ->
  forall su word score, P su -> P (add_sound_suggest su word score lp).

Ltac keeps :=
  repeat first
    [ assumption
    | progress cbn [w_su fst snd negb andb orb]
    | apply P_badflags
    | apply P_banned
    | apply P_add
    | match goal with
      | |- context [if ?c then _ else _] => destruct c
      end ].

Lemma walk_try_swap_keeps su sp below add undo :
  P su -> P (w_su (walk_try_swap su sp below add undo).1).
Proof. intros H. unfold walk_try_swap, staying, pushing. keeps. Qed.

Lemma walk_plain_keeps o su sp below :
  P su -> P (w_su (walk_plain o su sp below).1).
Proof. intros H. unfold walk_plain, staying, pushing. keeps. Qed.

Lemma walk_ins_prep_keeps o su sp below :
  P su -> P (w_su (walk_ins_prep o su sp below).1).
Proof. intros H. unfold walk_ins_prep, staying. keeps. Qed.

Lemma walk_rep_keeps o su sp below :
  P su -> P (w_su (walk_rep o su sp below).1).
Proof. intros H. unfold walk_rep, staying, pushing. keeps. Qed.

Lemma walk_start_word_keeps o su sp below :
  P su -> P (w_su (walk_start_word add_sound_suggest lp soundfold o su sp below).1).
Proof.
  intros H. unfold walk_start_word, staying, pushing.
  pose proof P_sound as Hsound.
  destruct soundfold; [specialize (Hsound eq_refl)|clear Hsound];
    cbn [negb andb orb].
  - repeat first
      [ assumption
      | progress cbn [w_su fst snd negb andb orb]
      | apply P_badflags
      | apply P_add
      | apply Hsound
      | match goal with
        | |- context [if ?c then _ else _] => destruct c
        end ].
  - keeps.
Qed.

Lemma walk_step_keeps o w :
  P (w_su w) -> P (w_su (walk_step add_sound_suggest lp soundfold o w).1).
Proof.
  intros H. unfold walk_step.
  destruct (w_stack w) as [|sp below]; [exact H|].
  destruct (w_got_int w); [exact H|].
  destruct (ts_state sp).
  all: try (unfold walk_start, walk_start_prefix, walk_endnul, walk_del, walk_ins,
            walk_swap, walk_swap3, walk_unswap3, walk_rep_ini, walk_final,
            staying, pushing;
            repeat first
              [ assumption
              | progress cbn [w_su fst snd negb andb orb]
              | apply walk_try_swap_keeps
              | apply walk_plain_keeps
              | apply walk_ins_prep_keeps
              | apply walk_rep_keeps
              | apply walk_start_word_keeps
              | apply P_badflags
              | match goal with
                | |- context [if ?c then _ else _] => destruct c
                end ]).
Qed.

Lemma walk_run_keeps os w :
  P (w_su w) -> P (w_su (walk_run add_sound_suggest lp soundfold os w)).
Proof.
  revert w. induction os as [|o os IH]; intros w H; [exact H|].
  unfold walk_run. cbn [fold_left]. apply IH. apply walk_step_keeps. exact H.
Qed.

End Keeps.

Lemma store_kept_refl su : store_kept su su.
Proof. unfold store_kept. repeat split; auto. Qed.

Lemma store_kept_badflags su su' flags :
  store_kept su su' -> store_kept su (set_su_badflags su' flags).
Proof. exact (fun H => H). Qed.

Lemma store_kept_banned su su' word :
  store_kept su su' -> store_kept su (add_banned su' word).
Proof.
  unfold store_kept, add_banned. intros H.
  destruct (existsb _ _); [exact H|]. cbn.
  repeat split; try apply H. intros w Hw. right. apply H. exact Hw.
Qed.

Lemma store_kept_add su su' goodword badlen score altscore slang :
  store_kept su su' ->
  store_kept su (add_suggestion su' GA goodword badlen score altscore false slang false).
Proof.
  intros H. unfold add_suggestion.
  destruct (minimize_len _ _ _ _ _) as [goodlen badlen'].
  destruct (_ && _); [exact H|].
  destruct (find_suggestion _ _ _ _) as [i|].
  - destruct (_ !! i); exact H.
  - destruct (_ <? _); [|exact H].
    destruct (cleanup_suggestions _ _ _). exact H.
Qed.

(** The number of entries [add_suggestion] leaves in an array is at most
    [SUG_MAX_COUNT] when it was so before. *)
Lemma add_suggestion_length su gap goodword badlenarg score altscore had_bonus
    slang maxsf :
  Z.of_nat (length (get_gap su gap)) <= SUG_MAX_COUNT su ->
  Z.of_nat (length (get_gap (add_suggestion su gap goodword badlenarg score altscore
                                            had_bonus slang maxsf) gap))
  <= SUG_MAX_COUNT su.
Proof.
  intros H. unfold add_suggestion.
  destruct (minimize_len _ _ _ _ _) as [goodlen badlen].
  destruct (_ && _); [exact H|].
  destruct (find_suggestion _ _ _ _) as [i|].
  - destruct (_ !! i); [|exact H].
    rewrite get_set_gap, length_insert. exact H.
  - destruct (Z.ltb_spec (SUG_MAX_COUNT su)
                (Z.of_nat (length (get_gap su gap ++ [new_suggestion goodword goodlen badlen score altscore had_bonus slang]))))
      as [Hlt|Hge]; [|rewrite get_set_gap; exact Hge].
    assert (Hk : 0 <= SUG_CLEAN_COUNT su)
      by (unfold SUG_CLEAN_COUNT; destruct (Z.ltb_spec (su_maxcount su) 130); lia).
    destruct maxsf.
    + pose proof (cleanup_suggestions_length
                    (get_gap su gap ++ [new_suggestion goodword goodlen badlen score
                                                       altscore had_bonus slang])
                    (su_sfmaxscore su) (SUG_CLEAN_COUNT su) Hk) as Hl.
      destruct (cleanup_suggestions _ (su_sfmaxscore su) _) as [l m].
      cbn [fst] in Hl. unfold SUG_MAX_COUNT. destruct gap; cbn; lia.
    + pose proof (cleanup_suggestions_length
                    (get_gap su gap ++ [new_suggestion goodword goodlen badlen score
                                                       altscore had_bonus slang])
                    (su_maxscore su) (SUG_CLEAN_COUNT su) Hk) as Hl.
      destruct (cleanup_suggestions _ (su_maxscore su) _) as [l m].
      cbn [fst] in Hl. unfold SUG_MAX_COUNT. destruct gap; cbn; lia.
Qed.

(** The invariant of the array: the line and the recorded lengths, no
    suggestion twice, and no more than [SUG_MAX_COUNT] entries. *)
Definition ga_inv (word : list Z) (su : suginfo_T) : Prop :=
  dup_inv word su /\ Z.of_nat (length (su_ga su)) <= SUG_MAX_COUNT su.

Lemma ga_inv_badflags word su flags :
  ga_inv word su -> ga_inv word (set_su_badflags su flags).
Proof. exact (fun H => H). Qed.

Lemma ga_inv_banned word su w : ga_inv word su -> ga_inv word (add_banned su w).
Proof. unfold add_banned. destruct (existsb _ _); exact (fun H => H). Qed.

Lemma ga_inv_add word su goodword badlen score altscore had_bonus slang maxsf :
  ga_inv word su ->
  ga_inv word (add_suggestion su GA goodword badlen score altscore had_bonus slang maxsf).
Proof.
  intros [Hd Hl]. split; [apply add_suggestion_dup_inv; exact Hd|].
  unfold SUG_MAX_COUNT, SUG_CLEAN_COUNT. rewrite add_suggestion_maxcount.
  apply (add_suggestion_length su GA). exact Hl.
Qed.

(** X18.  A walk of [suggest_trie_walk] for the word itself ([soundfold]
    FALSE), whatever it finds in the trees and however many turns it takes,
    changes of [su] only the array [su_ga], [su_maxscore], [su_badflags] and
    the banned words, of which it takes none away; and it leaves [su_ga]
    without a suggestion twice (the same word for the same length of text)
    and with at most [SUG_MAX_COUNT] entries, when it was so before. *)
Theorem suggest_trie_walk_keeps_store (su : suginfo_T) (os : list walk_obs)
    (word : list Z) :
  store_kept su (w_su (suggest_trie_walk add_sound_suggest lp false su os)) /\
  (dup_inv word su -> Z.of_nat (length (su_ga su)) <= SUG_MAX_COUNT su ->
   dup_inv word (w_su (suggest_trie_walk add_sound_suggest lp false su os)) /\
   Z.of_nat (length (su_ga (w_su (suggest_trie_walk add_sound_suggest lp false su os))))
   <= SUG_MAX_COUNT su).
Proof.
  unfold suggest_trie_walk. split.
  - apply (walk_run_keeps (store_kept su)).
    + intros; apply store_kept_badflags; assumption.
    + intros; apply store_kept_banned; assumption.
    + intros; apply store_kept_add; assumption.
    + discriminate.
    + apply store_kept_refl.
  - intros Hd Hl.
    assert (H : ga_inv word (w_su (walk_run add_sound_suggest lp false os (walk_init lp false su)))).
    { apply (walk_run_keeps (ga_inv word)).
      - intros; apply ga_inv_badflags; assumption.
      - intros; apply ga_inv_banned; assumption.
      - intros; apply ga_inv_add; assumption.
      - discriminate.
      - split; assumption. }
    destruct H as [H1 H2]. split; [exact H1|].
    assert (Hk : store_kept su (w_su (walk_run add_sound_suggest lp false os (walk_init lp false su)))).
    { apply (walk_run_keeps (store_kept su)).
      - intros; apply store_kept_badflags; assumption.
      - intros; apply store_kept_banned; assumption.
      - intros; apply store_kept_add; assumption.
      - discriminate.
      - apply store_kept_refl. }
    destruct Hk as (_ & _ & Hm & _).
    unfold SUG_MAX_COUNT, SUG_CLEAN_COUNT in *. rewrite Hm in H2. exact H2.
Qed.

End WalkStore.

(** The walks of [suggest_try_change] keep what one walk keeps. *)
Lemma suggest_try_change_walks_keeps (P : suginfo_T -> Prop)
    add_sound_suggest loaded os langs su :
  (forall su flags, P su -> P (set_su_badflags su flags)) ->
  (forall su word, P su -> P (add_banned su word)) ->
  (forall su goodword badlen score slang,
     P su -> P (add_suggestion su GA goodword badlen score 0 false slang false)) ->
  P su -> P (suggest_try_change_walks add_sound_suggest loaded os langs su).
Proof.
  intros Hf Hb Ha. unfold suggest_try_change_walks.
  generalize (seq 0 (length langs)). intros l. revert su.
  induction l as [|lpi l IH]; intros su H; [exact H|].
  cbn [fold_left]. apply IH.
  destruct (langs !! lpi) as [lp|]; [|exact H].
  destruct (loaded lp); [|exact H].
  unfold suggest_trie_walk. apply walk_run_keeps; auto. discriminate.
Qed.

Lemma suggest_try_change_walks_maxcount add_sound_suggest loaded os langs su :
  su_maxcount (suggest_try_change_walks add_sound_suggest loaded os langs su)
  = su_maxcount su.
Proof.
  apply (suggest_try_change_walks_keeps (fun su' => su_maxcount su' = su_maxcount su)).
  - intros su' flags H. exact H.
  - intros su' word H. unfold add_banned. destruct (existsb _ _); exact H.
  - intros su' goodword badlen score slang H.
    rewrite add_suggestion_maxcount. exact H.
  - reflexivity.
Qed.

Lemma suggest_try_change_walks_dup_inv add_sound_suggest loaded os langs word su :
  dup_inv word su ->
  dup_inv word (suggest_try_change_walks add_sound_suggest loaded os langs su).
Proof.
  apply (suggest_try_change_walks_keeps (dup_inv word)).
  - intros su' flags H. exact H.
  - intros su' w H. unfold add_banned. destruct (existsb _ _); exact H.
  - intros su' goodword badlen score slang H.
    apply add_suggestion_dup_inv. exact H.
Qed.

(** *** What [add_suggestion] leaves as it is *)

(** The fields of [su] that adding a suggestion never changes. *)
Definition base_kept (su su' : suginfo_T) : Prop :=
  su_badptr su' = su_badptr su /\ su_badlen su' = su_badlen su /\
  su_maxcount su' = su_maxcount su /\ su_badflags su' = su_badflags su /\
  su_badword su' = su_badword su /\ su_fbadword su' = su_fbadword su /\
  su_sal_badword su' = su_sal_badword su /\ su_banned su' = su_banned su /\
  su_sallang su' = su_sallang su.

Lemma base_kept_refl su : base_kept su su.
Proof. unfold base_kept. repeat split. Qed.

Lemma add_suggestion_base su su' gap goodword badlenarg score altscore had_bonus
    slang maxsf :
  base_kept su su' ->
  base_kept su (add_suggestion su' gap goodword badlenarg score altscore had_bonus
                               slang maxsf).
Proof.
  intros H. unfold add_suggestion.
  destruct (minimize_len _ _ _ _ _) as [goodlen badlen].
  destruct (_ && _); [exact H|].
  destruct (find_suggestion _ _ _ _) as [i|].
  - destruct (_ !! i); [|exact H]. destruct gap; exact H.
  - destruct (_ <? _); [|destruct gap; exact H].
    destruct maxsf; destruct (cleanup_suggestions _ _ _); destruct gap; exact H.
Qed.

(** The array and the maximum that a call of [add_suggestion] is not for
    stay as they are. *)
Lemma add_suggestion_other_array su goodword badlenarg score altscore had_bonus
    slang maxsf :
  su_sga (add_suggestion su GA goodword badlenarg score altscore had_bonus slang maxsf)
  = su_sga su.
Proof.
  unfold add_suggestion.
  destruct (minimize_len _ _ _ _ _) as [goodlen badlen].
  destruct (_ && _); [reflexivity|].
  destruct (find_suggestion _ _ _ _) as [i|].
  - destruct (_ !! i); reflexivity.
  - destruct (_ <? _); [|reflexivity].
    destruct maxsf; destruct (cleanup_suggestions _ _ _); reflexivity.
Qed.

Lemma add_suggestion_other_max su gap goodword badlenarg score altscore had_bonus
    slang :
  su_maxscore (add_suggestion su gap goodword badlenarg score altscore had_bonus
                              slang true)
  = su_maxscore su /\
  su_sfmaxscore (add_suggestion su gap goodword badlenarg score altscore had_bonus
                                slang false)
  = su_sfmaxscore su.
Proof.
  unfold add_suggestion.
  destruct (minimize_len _ _ _ _ _) as [goodlen badlen].
  destruct (_ && _); [split; reflexivity|].
  destruct (find_suggestion _ _ _ _) as [i|].
  - destruct (_ !! i); destruct gap; split; reflexivity.
  - destruct (_ <? _); [|destruct gap; split; reflexivity].
    destruct (cleanup_suggestions _ (su_sfmaxscore su) _);
      destruct (cleanup_suggestions _ (su_maxscore su) _);
      destruct gap; split; reflexivity.
Qed.

(** *** Rescoring once *)

(** Whether [rescore_one] rescores an entry. *)
Definition needs_rescore (stp : suggest_T) : bool :=
  match st_slang stp with
  | Some slang => (0 <? sl_sal_len slang) && negb (st_had_bonus stp)
  | None => false
  end.

Lemma rescore_one_skip su stp : needs_rescore stp = false -> rescore_one su stp = stp.
Proof.
  unfold needs_rescore, rescore_one. destruct (st_slang stp); [|reflexivity].
  intros ->. reflexivity.
Qed.

Lemma rescore_one_done su stp : needs_rescore (rescore_one su stp) = false.
Proof.
  destruct (needs_rescore stp) eqn:E; [|rewrite rescore_one_skip; assumption].
  unfold needs_rescore in E. unfold rescore_one.
  destruct (st_slang stp) as [slang|] eqn:Es; [|discriminate].
  rewrite E. unfold needs_rescore. cbn [st_slang set_st_scores st_had_bonus].
  rewrite Es. apply andb_false_r.
Qed.

Lemma rescore_one_once su su' stp :
  rescore_one su' (rescore_one su stp) = rescore_one su stp.
Proof. apply rescore_one_skip, rescore_one_done. Qed.

(** X27.  No suggestion gets the bonus of the sound-alike score twice:
    [rescore_suggestions] leaves alone what it has rescored, so calling it
    again, as [spell_suggest_intern] does after the walks for the
    sound-folded word, changes nothing, and an entry [rescore_one] has
    rescored is not rescored again whatever [su] has become. *)
Theorem rescore_suggestions_once (su su' : suginfo_T) (stp : suggest_T) :
  rescore_suggestions (rescore_suggestions su) = rescore_suggestions su /\
  rescore_one su' (rescore_one su stp) = rescore_one su stp.
Proof.
  split; [|apply rescore_one_once].
  unfold rescore_suggestions. destruct (su_sallang su) as [sl|] eqn:E.
  - cbn [su_sallang set_su_ga su_ga]. rewrite E. unfold set_su_ga. cbn.
    f_equal. rewrite map_map. apply map_ext. intros stp'.
    apply rescore_one_once.
  - rewrite E. reflexivity.
Qed.
End Suggest.

(** ** [bytes2offset] *)

(** *** The masks of [bytes2offset] on a byte *)

(** Every byte is one of the 256 values of [seq]: a property checked on all of
    them holds of every byte. *)
Lemma byte_cases (P : Z -> bool) :
  forallb P (map Z.of_nat (seq 0 256)) = true ->
  forall c, 0 <= c < 256 -> P c = true.
Proof.
  intros Hall c Hc.
  rewrite forallb_forall in Hall. apply Hall.
  apply in_map_iff. exists (Z.to_nat c). split; [lia|].
  apply in_seq. lia.
Qed.

Definition is_1byte (c : Z) : bool :=
  implb (c <? 128) (Z.land c 0x80 =? 0).
Definition is_2byte (c : Z) : bool :=
  implb ((128 <=? c) && (c <? 192))
        (negb (Z.land c 0x80 =? 0) && (Z.land c 0xc0 =? 0x80)
         && (Z.land c 0x3f =? c - 128)).
Definition is_3byte (c : Z) : bool :=
  implb ((192 <=? c) && (c <? 224))
        (negb (Z.land c 0x80 =? 0) && negb (Z.land c 0xc0 =? 0x80)
         && (Z.land c 0xe0 =? 0xc0) && (Z.land c 0x1f =? c - 192)).
Definition is_4byte (c : Z) : bool :=
  implb ((224 <=? c) && (c <? 240))
        (negb (Z.land c 0x80 =? 0) && negb (Z.land c 0xc0 =? 0x80)
         && negb (Z.land c 0xe0 =? 0xc0) && (Z.land c 0x0f =? c - 224)).

Ltac mask_tac M :=
  simpl in M; rewrite ?andb_true_iff, ?negb_true_iff in M;
  repeat match goal with
         | H : _ /\ _ |- _ => destruct H
         | H : (_ =? _) = true |- _ = _ => apply Z.eqb_eq in H
         end;
  repeat split; try assumption; try lia.

Lemma mask_1byte c : 0 <= c < 128 -> (Z.land c 0x80 =? 0) = true.
Proof.
  intros H. pose proof (byte_cases is_1byte eq_refl c ltac:(lia)) as M.
  unfold is_1byte in M. destruct (Z.ltb_spec c 128); [exact M | lia].
Qed.

Lemma mask_2byte x :
  0 <= x < 64 ->
  (Z.land (128 + x) 0x80 =? 0) = false /\
  (Z.land (128 + x) 0xc0 =? 0x80) = true /\ Z.land (128 + x) 0x3f = x.
Proof.
  intros H. pose proof (byte_cases is_2byte eq_refl (128 + x) ltac:(lia)) as M.
  unfold is_2byte in M.
  destruct (Z.leb_spec 128 (128 + x)); [|lia].
  destruct (Z.ltb_spec (128 + x) 192); [|lia].
  mask_tac M.
Qed.

Lemma mask_3byte x :
  0 <= x < 32 ->
  (Z.land (192 + x) 0x80 =? 0) = false /\
  (Z.land (192 + x) 0xc0 =? 0x80) = false /\
  (Z.land (192 + x) 0xe0 =? 0xc0) = true /\ Z.land (192 + x) 0x1f = x.
Proof.
  intros H. pose proof (byte_cases is_3byte eq_refl (192 + x) ltac:(lia)) as M.
  unfold is_3byte in M.
  destruct (Z.leb_spec 192 (192 + x)); [|lia].
  destruct (Z.ltb_spec (192 + x) 224); [|lia].
  mask_tac M.
Qed.

Lemma mask_4byte x :
  0 <= x < 16 ->
  (Z.land (224 + x) 0x80 =? 0) = false /\
  (Z.land (224 + x) 0xc0 =? 0x80) = false /\
  (Z.land (224 + x) 0xe0 =? 0xc0) = false /\ Z.land (224 + x) 0x0f = x.
Proof.
  intros H. pose proof (byte_cases is_4byte eq_refl (224 + x) ltac:(lia)) as M.
  unfold is_4byte in M.
  destruct (Z.leb_spec 224 (224 + x)); [|lia].
  destruct (Z.ltb_spec (224 + x) 240); [|lia].
  mask_tac M.
Qed.

(** C9.  [bytes2offset] decodes the variable-width table.  With [x] the
    payload bits of the first byte: a first byte [0xxxxxxx] yields [x - 1] and
    consumes one byte; [10xxxxxx y] yields [(x-1)*255 + (y-1)] and consumes
    two; [110xxxxx y z] yields [((x-1)*255 + (y-1))*255 + (z-1)] and consumes
    three; [1110xxxx y z w] goes one level further and consumes four.  The
    second component is the memory at the advanced pointer. *)
Theorem bytes2offset_decodes (x y z w : Z) (rest : list Z) :
  (0 <= x < 128 -> bytes2offset (x :: rest) = Some (x - 1, rest)) /\
  (0 <= x < 64 ->
   bytes2offset (128 + x :: y :: rest) = Some ((x - 1) * 255 + (y - 1), rest)) /\
  (0 <= x < 32 ->
   bytes2offset (192 + x :: y :: z :: rest)
   = Some (((x - 1) * 255 + (y - 1)) * 255 + (z - 1), rest)) /\
  (0 <= x < 16 ->
   bytes2offset (224 + x :: y :: z :: w :: rest)
   = Some ((((x - 1) * 255 + (y - 1)) * 255 + (z - 1)) * 255 + (w - 1), rest)).
Proof.
  repeat split; intros Hx; unfold bytes2offset.
  - rewrite (mask_1byte x Hx). reflexivity.
  - destruct (mask_2byte x Hx) as (E1 & E2 & E3). rewrite E1, E2, E3. reflexivity.
  - destruct (mask_3byte x Hx) as (E1 & E2 & E3 & E4).
    rewrite E1, E2, E3, E4. reflexivity.
  - destruct (mask_4byte x Hx) as (E1 & E2 & E3 & E4).
    rewrite E1, E2, E3, E4. reflexivity.
Qed.

(** The four widths on concrete bytes, each through the theorem. *)
Lemma bytes2offset_decodes_witness :
  bytes2offset [5; 77] = Some (4, [77]) /\
  bytes2offset [128 + 3; 10; 77] = Some (519, [77]) /\
  bytes2offset [192 + 2; 1; 9; 77] = Some (65033, [77]) /\
  bytes2offset [224 + 1; 1; 1; 4; 77] = Some (3, [77]).
Proof.
  split; [|split; [|split]].
  - apply (proj1 (bytes2offset_decodes 5 0 0 0 [77])). lia.
  - apply (proj1 (proj2 (bytes2offset_decodes 3 10 0 0 [77]))). lia.
  - apply (proj1 (proj2 (proj2 (bytes2offset_decodes 2 1 9 0 [77])))). lia.
  - apply (proj2 (proj2 (proj2 (bytes2offset_decodes 1 1 1 4 [77])))). lia.
Defined.

(** ** The edit scores: what the array holds *)

Section EditScoreFacts.

Variable SPELL_TOFOLD : Z -> Z.
Variable slang : option slang_T.

(** The score of turning the word [b] into the word [g], by recursion on the
    two words: equal first characters are kept; otherwise the least of
    substituting, swapping the first two characters (when that makes them
    match), deleting from [b] and inserting into [b]. *)
Fixpoint edit_dist (b : list Z) : list Z -> Z :=
  fix edit_dist_ins (g : list Z) : Z :=
    match b, g with
    | [], [] => 0
    | [], _ :: g' => edit_dist_ins g' + SCORE_INS
    | _ :: b', [] => edit_dist b' [] + SCORE_DEL
    | x :: b', y :: g' =>
        if x =? y then edit_dist b' g'
        else
          let c := subst_score SPELL_TOFOLD slang x y + edit_dist b' g' in
          let c := match b', g' with
                   | x' :: b'', y' :: g'' =>
                       if (x =? y') && (x' =? y)
                       then Z.min c (SCORE_SWAP + edit_dist b'' g'')
                       else c
                   | _, _ => c
                   end in
          let c := Z.min c (SCORE_DEL + edit_dist b' g) in
          Z.min c (SCORE_INS + edit_dist_ins g')
    end.

Lemma edit_dist_nil_cons y g : edit_dist [] (y :: g) = edit_dist [] g + SCORE_INS.
Proof. reflexivity. Qed.

Lemma edit_dist_cons_nil x b : edit_dist (x :: b) [] = edit_dist b [] + SCORE_DEL.
Proof. reflexivity. Qed.

(** The swap is tried when the first two characters of the words are
    crossed. *)
Definition swap_dist (x y : Z) (b' g' : list Z) (c : Z) : Z :=
  match b', g' with
  | x' :: b'', y' :: g'' =>
      if (x =? y') && (x' =? y)
      then Z.min c (SCORE_SWAP + edit_dist b'' g'')
      else c
  | _, _ => c
  end.

Lemma edit_dist_cons_cons x b' y g' :
  edit_dist (x :: b') (y :: g')
  = if x =? y then edit_dist b' g'
    else Z.min (Z.min (swap_dist x y b' g'
                         (subst_score SPELL_TOFOLD slang x y + edit_dist b' g'))
                      (SCORE_DEL + edit_dist b' (y :: g')))
               (SCORE_INS + edit_dist (x :: b') g').
Proof. destruct b', g'; reflexivity. Qed.

Section Matrix.

Variables badword goodword : list Z.

Let badlen : nat := (length badword + 1)%nat.
Let goodlen : nat := (length goodword + 1)%nat.

(** The prefixes the cell [(i, j)] stands for, last character first. *)
Let bpre (i : nat) : list Z := rev (take i (badword ++ [NUL])).
Let gpre (j : nat) : list Z := rev (take j (goodword ++ [NUL])).

Lemma char_at_app_NUL (w : list Z) (k : nat) : char_at w k = nth k (w ++ [NUL]) NUL.
Proof.
  unfold char_at. destruct (Nat.lt_ge_cases k (length w)).
  - rewrite app_nth1 by lia. reflexivity.
  - rewrite (nth_overflow w) by lia.
    destruct (Nat.eq_dec k (length w)) as [->|].
    + rewrite app_nth2 by lia. rewrite Nat.sub_diag. reflexivity.
    + rewrite nth_overflow by (rewrite length_app; simpl; lia). reflexivity.
Qed.

Lemma rev_take_S (w : list Z) (k : nat) :
  (k < length w + 1)%nat ->
  rev (take (S k) (w ++ [NUL])) = char_at w k :: rev (take k (w ++ [NUL])).
Proof.
  intros Hk.
  assert (Hl : (w ++ [NUL]) !! k = Some (char_at w k)).
  { rewrite char_at_app_NUL.
    assert (Hlt : (k < length (w ++ [NUL]))%nat) by (rewrite length_app; simpl; lia).
    destruct (lookup_lt_is_Some_2 _ _ Hlt) as [x Hx].
    rewrite (nth_lookup_Some _ _ NUL _ Hx). exact Hx. }
  rewrite (take_S_r _ _ _ Hl). rewrite rev_app_distr. reflexivity.
Qed.

Lemma bpre_S i : (i < badlen)%nat -> bpre (S i) = char_at badword i :: bpre i.
Proof. intros H. apply rev_take_S. exact H. Qed.

Lemma gpre_S j : (j < goodlen)%nat -> gpre (S j) = char_at goodword j :: gpre j.
Proof. intros H. apply rev_take_S. exact H. Qed.

(** [swap_dist] on the prefixes of a cell, by the indexes the code reads. *)
Lemma swap_dist_idx i j c :
  (i < badlen)%nat -> (j < goodlen)%nat ->
  swap_dist (char_at badword i) (char_at goodword j) (bpre i) (gpre j) c
  = if (1 <? S i)%nat && (1 <? S j)%nat then
      if (char_at badword i =? char_at goodword (j - 1))
         && (char_at badword (i - 1) =? char_at goodword j)
      then Z.min c (SCORE_SWAP + edit_dist (bpre (i - 1)) (gpre (j - 1)))
      else c
    else c.
Proof.
  intros Hi Hj. destruct i as [|i']; [reflexivity|].
  destruct j as [|j'].
  { rewrite (bpre_S i') by lia. reflexivity. }
  rewrite (bpre_S i') by lia. rewrite (gpre_S j') by lia.
  replace (S i' - 1)%nat with i' by lia. replace (S j' - 1)%nat with j' by lia.
  reflexivity.
Qed.

(** *** Reading and writing [CNT] *)

Definition cnt_size : nat := ((badlen + 1) * (goodlen + 1))%nat.

Lemma CNT_idx_lt a b :
  (a <= badlen)%nat -> (b <= goodlen)%nat -> (CNT_idx badlen a b < cnt_size)%nat.
Proof.
  unfold CNT_idx, cnt_size. generalize badlen goodlen. intros n m Ha Hb.
  assert (b * (n + 1) <= m * (n + 1))%nat by (apply Nat.mul_le_mono_r; exact Hb).
  lia.
Qed.

Lemma CNT_idx_inj a b a' b' :
  (a <= badlen)%nat -> (a' <= badlen)%nat ->
  CNT_idx badlen a b = CNT_idx badlen a' b' -> a = a' /\ b = b'.
Proof.
  unfold CNT_idx. generalize badlen. intros n Ha Ha' E.
  destruct (Nat.lt_trichotomy b b') as [Hlt|[Heq|Hgt]].
  - assert ((b + 1) * (n + 1) <= b' * (n + 1))%nat
      by (apply Nat.mul_le_mono_r; lia). lia.
  - subst b'. lia.
  - assert ((b' + 1) * (n + 1) <= b * (n + 1))%nat
      by (apply Nat.mul_le_mono_r; lia). lia.
Qed.

Lemma CNT_set_same cnt a b v :
  length cnt = cnt_size -> (a <= badlen)%nat -> (b <= goodlen)%nat ->
  CNT badlen (set_CNT badlen cnt a b v) a b = v.
Proof.
  intros Hl Ha Hb. unfold CNT, set_CNT.
  apply list_lookup_total_insert_eq. rewrite Hl. apply CNT_idx_lt; assumption.
Qed.

Lemma CNT_set_other cnt a b v a' b' :
  (a <= badlen)%nat -> (a' <= badlen)%nat -> (a, b) <> (a', b') ->
  CNT badlen (set_CNT badlen cnt a b v) a' b' = CNT badlen cnt a' b'.
Proof.
  intros Ha Ha' Hne. unfold CNT, set_CNT.
  apply list_lookup_total_insert_ne. intros E.
  apply CNT_idx_inj in E; [|assumption|assumption]. destruct E; congruence.
Qed.

Lemma set_CNT_length cnt a b v : length (set_CNT badlen cnt a b v) = length cnt.
Proof. apply length_insert. Qed.

(** The cell [(a, b)] holds the score of its two prefixes. *)
Definition cell_ok (cnt : list Z) (a b : nat) : Prop :=
  CNT badlen cnt a b = edit_dist (bpre a) (gpre b).

(** The cells written before the loops reach [(i, j)], row after row. *)
Definition filled (cnt : list Z) (i j : nat) : Prop :=
  length cnt = cnt_size /\
  forall a b, (a <= badlen)%nat -> (b <= goodlen)%nat ->
              (a < i \/ (a = i /\ b < j))%nat -> cell_ok cnt a b.

Lemma filled_write cnt i j v :
  (i <= badlen)%nat -> (j <= goodlen)%nat ->
  filled cnt i j ->
  v = edit_dist (bpre i) (gpre j) ->
  filled (set_CNT badlen cnt i j v) i (S j).
Proof.
  intros Hi Hj [Hl Hc] Hv. split; [rewrite set_CNT_length; exact Hl|].
  intros a b Ha Hb Hab. unfold cell_ok.
  destruct (decide ((i, j) = (a, b))) as [E|E].
  - injection E as <- <-. rewrite CNT_set_same by assumption. exact Hv.
  - rewrite CNT_set_other by assumption. apply Hc; try assumption.
    destruct Hab as [?|[-> ?]]; [left; assumption|].
    right. split; [reflexivity|].
    assert (b <> j) by congruence. lia.
Qed.

(** The body of the inner loop fills the cell [(i+1, j+1)]. *)
Lemma edit_cell_filled cnt i j :
  (i < badlen)%nat -> (j < goodlen)%nat ->
  filled cnt (S i) (S j) ->
  filled (edit_cell SPELL_TOFOLD slang badword goodword badlen cnt (S i) (S j))
         (S i) (S (S j)).
Proof.
  intros Hi Hj Hf. pose proof Hf as [Hl Hc].
  unfold edit_cell.
  replace (S i - 1)%nat with i by lia. replace (S j - 1)%nat with j by lia.
  assert (Hd : CNT badlen cnt i j = edit_dist (bpre i) (gpre j))
    by (apply Hc; lia).
  assert (Hdel : CNT badlen cnt i (S j) = edit_dist (bpre i) (gpre (S j)))
    by (apply Hc; lia).
  assert (Hins : CNT badlen cnt (S i) j = edit_dist (bpre (S i)) (gpre j))
    by (apply Hc; lia).
  set (bc := char_at badword i). set (gc := char_at goodword j).
  assert (Hgoal : edit_dist (bpre (S i)) (gpre (S j))
                  = if bc =? gc then edit_dist (bpre i) (gpre j)
                    else Z.min (Z.min (swap_dist bc gc (bpre i) (gpre j)
                                         (subst_score SPELL_TOFOLD slang bc gc
                                          + edit_dist (bpre i) (gpre j)))
                                      (SCORE_DEL + edit_dist (bpre i) (gpre (S j))))
                               (SCORE_INS + edit_dist (bpre (S i)) (gpre j))).
  { rewrite (bpre_S i Hi) at 1. rewrite (gpre_S j Hj) at 1.
    rewrite edit_dist_cons_cons. fold bc gc.
    rewrite (bpre_S i Hi), (gpre_S j Hj). reflexivity. }
  destruct (bc =? gc) eqn:Ebg.
  { apply filled_write; [lia | lia | exact Hf | rewrite Hgoal, Hd; reflexivity]. }
  (* the substitution *)
  set (c0 := subst_score SPELL_TOFOLD slang bc gc + CNT badlen cnt i j).
  set (cnt1 := set_CNT badlen cnt (S i) (S j) c0).
  assert (Hl1 : length cnt1 = cnt_size) by (unfold cnt1; rewrite set_CNT_length; exact Hl).
  assert (H1 : CNT badlen cnt1 (S i) (S j) = c0)
    by (unfold cnt1; apply CNT_set_same; try lia; exact Hl).
  assert (Hkeep1 : forall a b, (a <= badlen)%nat -> (a, b) <> (S i, S j) ->
                               CNT badlen cnt1 a b = CNT badlen cnt a b).
  { intros a b Ha Hne. unfold cnt1. apply CNT_set_other; try lia. congruence. }
  (* the swap *)
  set (cnt2 :=
         if (1 <? S i)%nat && (1 <? S j)%nat then
           if (bc =? char_at goodword (S j - 2)) && (char_at badword (S i - 2) =? gc)
           then if SCORE_SWAP + CNT badlen cnt1 (S i - 2) (S j - 2)
                   <? CNT badlen cnt1 (S i) (S j)
                then set_CNT badlen cnt1 (S i) (S j)
                       (SCORE_SWAP + CNT badlen cnt1 (S i - 2) (S j - 2))
                else cnt1
           else cnt1
         else cnt1).
  assert (H2 : length cnt2 = cnt_size /\
               CNT badlen cnt2 (S i) (S j)
               = swap_dist bc gc (bpre i) (gpre j)
                   (subst_score SPELL_TOFOLD slang bc gc + edit_dist (bpre i) (gpre j)) /\
               forall a b, (a <= badlen)%nat -> (a, b) <> (S i, S j) ->
                           CNT badlen cnt2 a b = CNT badlen cnt a b).
  { assert (Hbase : length cnt1 = cnt_size /\
               CNT badlen cnt1 (S i) (S j)
               = subst_score SPELL_TOFOLD slang bc gc + edit_dist (bpre i) (gpre j) /\
               forall a b, (a <= badlen)%nat -> (a, b) <> (S i, S j) ->
                           CNT badlen cnt1 a b = CNT badlen cnt a b).
    { rewrite H1. unfold c0. rewrite Hd.
      split; [exact Hl1|split; [reflexivity|exact Hkeep1]]. }
    unfold cnt2. rewrite (swap_dist_idx i j _ Hi Hj). fold bc gc.
    replace (S i - 2)%nat with (i - 1)%nat by lia.
    replace (S j - 2)%nat with (j - 1)%nat by lia.
    destruct ((1 <? S i)%nat && (1 <? S j)%nat) eqn:E1; [|exact Hbase].
    apply andb_true_iff in E1. destruct E1 as [E1 E1'].
    apply Nat.ltb_lt in E1, E1'.
    destruct ((bc =? char_at goodword (j - 1)) && (char_at badword (i - 1) =? gc))
      eqn:Esw; [|exact Hbase].
    assert (Hsw : CNT badlen cnt1 (i - 1) (j - 1)
                  = edit_dist (bpre (i - 1)) (gpre (j - 1))).
    { rewrite Hkeep1 by (try lia; intros [= ? ?]; lia). apply Hc; lia. }
    rewrite Hsw, H1. unfold c0. rewrite Hd.
    match goal with |- context [?x <? ?y] => destruct (Z.ltb_spec x y) as [Hlt|Hge] end.
    - split; [rewrite set_CNT_length; exact Hl1|]. split.
      + rewrite CNT_set_same by (try lia; exact Hl1). lia.
      + intros a b Ha Hne. rewrite CNT_set_other by (try lia; congruence).
        apply Hkeep1; assumption.
    - split; [exact Hl1|]. split; [rewrite H1; unfold c0; rewrite Hd; lia|exact Hkeep1]. }
  fold cnt1. fold c0. fold cnt1. fold cnt2.
  destruct H2 as (Hl2 & H2 & Hkeep2). clearbody cnt2. clear cnt1 Hl1 H1 Hkeep1.
  (* the deletion *)
  rewrite (Hkeep2 i (S j)) by (try lia; intros [= ?]; lia).
  set (cnt3 := if SCORE_DEL + CNT badlen cnt i (S j) <? CNT badlen cnt2 (S i) (S j)
               then set_CNT badlen cnt2 (S i) (S j) (SCORE_DEL + CNT badlen cnt i (S j))
               else cnt2).
  assert (H3 : length cnt3 = cnt_size /\
               CNT badlen cnt3 (S i) (S j)
               = Z.min (swap_dist bc gc (bpre i) (gpre j)
                          (subst_score SPELL_TOFOLD slang bc gc
                           + edit_dist (bpre i) (gpre j)))
                       (SCORE_DEL + edit_dist (bpre i) (gpre (S j))) /\
               forall a b, (a <= badlen)%nat -> (a, b) <> (S i, S j) ->
                           CNT badlen cnt3 a b = CNT badlen cnt a b).
  { unfold cnt3. rewrite H2, Hdel.
    match goal with |- context [?x <? ?y] => destruct (Z.ltb_spec x y) end.
    - split; [rewrite set_CNT_length; exact Hl2|]. split.
      + rewrite CNT_set_same by (try lia; exact Hl2). lia.
      + intros a b Ha Hne. rewrite CNT_set_other by (try lia; congruence).
        apply Hkeep2; assumption.
    - split; [exact Hl2|]. split; [rewrite H2; lia|exact Hkeep2]. }
  destruct H3 as (Hl3 & H3 & Hkeep3). clearbody cnt3.
  (* the insertion *)
  rewrite (Hkeep3 (S i) j) by (try lia; intros [= ?]; lia).
  rewrite H3, Hins.
  split.
  { match goal with |- context [?x <? ?y] => destruct (Z.ltb_spec x y) end;
      [rewrite set_CNT_length|]; exact Hl3. }
  intros a b Ha Hb Hab. unfold cell_ok.
  destruct (decide ((a, b) = (S i, S j))) as [E|E].
  - injection E as -> ->. rewrite Hgoal.
    match goal with |- context [?x <? ?y] => destruct (Z.ltb_spec x y) end.
    + rewrite CNT_set_same by (try lia; exact Hl3). lia.
    + rewrite H3. lia.
  - assert (Hold : CNT badlen cnt a b = edit_dist (bpre a) (gpre b)).
    { apply Hc; try assumption.
      destruct Hab as [?|[-> ?]]; [left; assumption|].
      right. split; [reflexivity|].
      assert (b <> S j) by congruence. lia. }
    match goal with |- context [?x <? ?y] => destruct (Z.ltb_spec x y) end.
    + rewrite CNT_set_other by (try lia; congruence). rewrite Hkeep3; assumption.
    + rewrite Hkeep3; assumption.
Qed.

(** A loop over [seq] that keeps a property of the index reached. *)
Lemma fold_left_seq_inv {S0 : Type} (P : S0 -> nat -> Prop) (f : S0 -> nat -> S0)
    (start len : nat) (s : S0) :
  P s start ->
  (forall s k, (start <= k < start + len)%nat -> P s k -> P (f s k) (S k)) ->
  P (fold_left f (seq start len) s) (start + len)%nat.
Proof.
  revert start s. induction len as [|len IH]; intros start s H0 Hstep; simpl.
  - rewrite Nat.add_0_r. exact H0.
  - replace (start + S len)%nat with (S start + len)%nat by lia.
    apply IH.
    + apply Hstep; [lia | exact H0].
    + intros s' k Hk. apply Hstep. lia.
Qed.

Lemma edit_row_filled cnt i :
  (i < badlen)%nat ->
  filled cnt (S i) 0 ->
  filled (edit_row SPELL_TOFOLD slang badword goodword badlen goodlen cnt (S i))
         (S (S i)) 0.
Proof.
  intros Hi Hf. unfold edit_row.
  replace (S i - 1)%nat with i by lia.
  assert (H0 : filled (set_CNT badlen cnt (S i) 0 (CNT badlen cnt i 0 + SCORE_DEL))
                      (S i) 1).
  { apply filled_write; [lia | lia | exact Hf |].
    destruct Hf as [_ Hc]. rewrite (Hc i 0%nat) by lia.
    rewrite (bpre_S i Hi). reflexivity. }
  pose proof (fold_left_seq_inv
                (fun c j => filled c (S i) j)
                (fun c j => edit_cell SPELL_TOFOLD slang badword goodword badlen c (S i) j)
                1 goodlen _ H0) as H.
  simpl in H.
  assert (Hrow : filled
            (fold_left
               (fun c j => edit_cell SPELL_TOFOLD slang badword goodword badlen c (S i) j)
               (seq 1 goodlen)
               (set_CNT badlen cnt (S i) 0 (CNT badlen cnt i 0 + SCORE_DEL)))
            (S i) (S goodlen)).
  { apply H. intros s k Hk Hs.
    destruct k as [|k]; [lia|]. apply edit_cell_filled; [exact Hi | lia | exact Hs]. }
  destruct Hrow as [Hl Hc]. split; [exact Hl|].
  intros a b Ha Hb Hab. apply Hc; try assumption. lia.
Qed.

(** When the loops are done every cell holds the score of its prefixes. *)
Lemma edit_matrix_filled :
  filled (edit_matrix SPELL_TOFOLD slang badword goodword) (S badlen) 0.
Proof.
  unfold edit_matrix. fold badlen. fold goodlen.
  set (cnt0 := set_CNT badlen (replicate ((badlen + 1) * (goodlen + 1)) 0) 0 0 0).
  assert (H0 : filled cnt0 0 1).
  { split; [unfold cnt0; rewrite set_CNT_length, length_replicate; reflexivity|].
    intros a b Ha Hb Hab. assert (a = 0 /\ b = 0)%nat as [-> ->] by lia.
    unfold cell_ok, cnt0. rewrite CNT_set_same; try lia; [reflexivity|].
    rewrite length_replicate. reflexivity. }
  pose proof (fold_left_seq_inv
                (fun c j => filled c 0 j)
                (fun c j => set_CNT badlen c 0 j (CNT badlen c 0 (j - 1) + SCORE_INS))
                1 goodlen cnt0 H0) as H.
  simpl in H.
  match goal with
  | |- filled (fold_left _ _ ?c) _ _ => assert (Hrow0 : filled c 1 0)
  end.
  { assert (Hr : filled
              (fold_left
                 (fun c j => set_CNT badlen c 0 j (CNT badlen c 0 (j - 1) + SCORE_INS))
                 (seq 1 goodlen) cnt0) 0 (S goodlen)).
    { apply H. intros s k Hk Hs. destruct k as [|k]; [lia|].
      apply filled_write; [lia | lia | exact Hs |].
      replace (S k - 1)%nat with k by lia.
      destruct Hs as [_ Hc]. rewrite (Hc 0%nat k) by lia.
      rewrite (gpre_S k) by lia. reflexivity. }
    destruct Hr as [Hl Hc]. split; [exact Hl|].
    intros a b Ha Hb Hab. apply Hc; try assumption. lia. }
  match goal with
  | |- filled (fold_left ?f _ ?c) _ _ =>
      pose proof (fold_left_seq_inv (fun m i => filled m i 0) f 1 badlen c Hrow0) as H'
  end.
  simpl in H'. apply H'.
  intros s k Hk Hs. destruct k as [|k]; [lia|].
  apply edit_row_filled; [lia | exact Hs].
Qed.

(** [spell_edit_score] returns the score of turning [badword] into
    [goodword], read from the ends of the words. *)
Lemma spell_edit_score_dist :
  spell_edit_score SPELL_TOFOLD slang badword goodword
  = edit_dist (rev badword) (rev goodword).
Proof.
  unfold spell_edit_score. fold badlen. fold goodlen.
  destruct edit_matrix_filled as [_ Hc].
  rewrite (Hc (badlen - 1)%nat (goodlen - 1)%nat) by (unfold badlen, goodlen; lia).
  unfold bpre, gpre, badlen, goodlen.
  replace (length badword + 1 - 1)%nat with (length badword) by lia.
  replace (length goodword + 1 - 1)%nat with (length goodword) by lia.
  rewrite !take_app_length. reflexivity.
Qed.

End Matrix.

(** *** Turning the words around *)

Lemma similar_chars_sym (sl : slang_T) (c1 c2 : Z) :
  similar_chars sl c1 c2 = similar_chars sl c2 c1.
Proof.
  unfold similar_chars.
  destruct (Z.eqb_spec (map_char sl c1) 0) as [E1|E1];
    destruct (Z.eqb_spec (map_char sl c2) 0) as [E2|E2]; try reflexivity.
  - symmetry. apply Z.eqb_neq. congruence.
  - apply Z.eqb_neq. congruence.
  - apply Z.eqb_sym.
Qed.

Lemma subst_score_sym (x y : Z) :
  subst_score SPELL_TOFOLD slang x y = subst_score SPELL_TOFOLD slang y x.
Proof.
  unfold subst_score. rewrite (Z.eqb_sym (SPELL_TOFOLD x)).
  destruct (SPELL_TOFOLD y =? SPELL_TOFOLD x); [reflexivity|].
  destruct slang as [sl|]; [|reflexivity].
  rewrite (similar_chars_sym sl y x). reflexivity.
Qed.

Lemma subst_score_cases (x y : Z) :
  subst_score SPELL_TOFOLD slang x y = SCORE_ICASE \/
  subst_score SPELL_TOFOLD slang x y = SCORE_SIMILAR \/
  subst_score SPELL_TOFOLD slang x y = SCORE_SUBST.
Proof.
  unfold subst_score. destruct (_ =? _); [left; reflexivity|].
  destruct slang as [sl|]; [|right; right; reflexivity].
  destruct (_ && _); [right; left | right; right]; reflexivity.
Qed.

Lemma subst_score_min (x y : Z) : SCORE_EDIT_MIN <= subst_score SPELL_TOFOLD slang x y.
Proof.
  destruct (subst_score_cases x y) as [E|[E|E]]; rewrite E;
    unfold SCORE_EDIT_MIN, SCORE_SIMILAR, SCORE_ICASE, SCORE_SUBST; lia.
Qed.

(** Handing the two words to [edit_dist] the other way round exchanges the
    deletions and the insertions. *)
Lemma edit_dist_swapped_gen (n : nat) :
  forall b g, (length b + length g <= n)%nat ->
    edit_dist g b
    = edit_dist b g
      + (SCORE_INS - SCORE_DEL) * (Z.of_nat (length b) - Z.of_nat (length g)).
Proof.
  induction n as [|n IH]; intros b g Hn.
  - destruct b, g; simpl in Hn; lia.
  - destruct b as [|x b'], g as [|y g'].
    + reflexivity.
    + rewrite edit_dist_cons_nil, edit_dist_nil_cons.
      rewrite (IH [] g') by (simpl in *; lia).
      simpl length. unfold SCORE_INS, SCORE_DEL. lia.
    + rewrite edit_dist_cons_nil, edit_dist_nil_cons.
      rewrite (IH b' []) by (simpl in *; lia).
      simpl length. unfold SCORE_INS, SCORE_DEL. lia.
    + rewrite !edit_dist_cons_cons. rewrite (Z.eqb_sym y x).
      simpl in Hn.
      destruct (x =? y) eqn:Exy.
      { rewrite (IH b' g') by lia. simpl length. lia. }
      rewrite (IH b' (y :: g')) by (simpl; lia).
      rewrite (IH (x :: b') g') by (simpl; lia).
      assert (Hsw : swap_dist y x g' b'
                      (subst_score SPELL_TOFOLD slang y x + edit_dist g' b')
                    = swap_dist x y b' g'
                        (subst_score SPELL_TOFOLD slang x y + edit_dist b' g')
                      + (SCORE_INS - SCORE_DEL)
                        * (Z.of_nat (length b') - Z.of_nat (length g'))).
      { rewrite (subst_score_sym y x). rewrite (IH b' g') by lia.
        unfold swap_dist. destruct b' as [|x' b'']; [destruct g'; lia|].
        destruct g' as [|y' g'']; [lia|].
        rewrite (Z.eqb_sym y x'), (Z.eqb_sym y' x), andb_comm.
        destruct ((x =? y') && (x' =? y)); [|lia].
        rewrite (IH b'' g'') by (simpl in *; lia). simpl length.
        unfold SCORE_INS, SCORE_DEL. lia. }
      rewrite Hsw. simpl length. unfold SCORE_INS, SCORE_DEL. lia.
Qed.

Lemma edit_dist_swapped (b g : list Z) :
  edit_dist g b
  = edit_dist b g
    + (SCORE_INS - SCORE_DEL) * (Z.of_nat (length b) - Z.of_nat (length g)).
Proof. apply (edit_dist_swapped_gen (length b + length g)). lia. Qed.

(** C8 as the code has it.  A deletion scores 94 and an insertion 96, so
    [spell_edit_score] of the words the other way round differs by twice the
    difference of their numbers of characters, whether a SIMILAR map is
    active or not; for words of as many characters the two scores are the
    same. *)
Theorem spell_edit_score_swapped (a b : list Z) :
  spell_edit_score SPELL_TOFOLD slang b a
  = spell_edit_score SPELL_TOFOLD slang a b
    + (SCORE_INS - SCORE_DEL) * (Z.of_nat (length a) - Z.of_nat (length b)) /\
  SCORE_INS - SCORE_DEL = 2 /\
  (length a = length b ->
   spell_edit_score SPELL_TOFOLD slang a b = spell_edit_score SPELL_TOFOLD slang b a).
Proof.
  rewrite !spell_edit_score_dist.
  pose proof (edit_dist_swapped (rev a) (rev b)) as H.
  rewrite !length_rev in H.
  split; [exact H|]. split; [reflexivity|].
  intros E. rewrite H, E. lia.
Qed.

(** *** Edit scripts

    [script b g c]: the word [b] is turned into [g] for the score [c] by
    keeping, substituting, deleting, inserting and swapping characters from
    the front to the end. *)
Inductive script : list Z -> list Z -> Z -> Prop :=
| script_nil : script [] [] 0
| script_keep x b g c : script b g c -> script (x :: b) (x :: g) c
| script_subst x y b g c :
    x <> y -> script b g c ->
    script (x :: b) (y :: g) (c + subst_score SPELL_TOFOLD slang x y)
| script_del x b g c : script b g c -> script (x :: b) g (c + SCORE_DEL)
| script_ins y b g c : script b g c -> script b (y :: g) (c + SCORE_INS)
| script_swap x y b g c :
    x <> y -> script b g c -> script (x :: y :: b) (y :: x :: g) (c + SCORE_SWAP).

Lemma script_cost (b g : list Z) (c c' : Z) : script b g c -> c = c' -> script b g c'.
Proof. intros H <-. exact H. Qed.

Lemma script_nonneg (b g : list Z) (c : Z) : script b g c -> 0 <= c.
Proof.
  induction 1; try lia.
  - pose proof (subst_score_min x y). unfold SCORE_EDIT_MIN, SCORE_SIMILAR in *. lia.
  - unfold SCORE_DEL. lia.
  - unfold SCORE_INS. lia.
  - unfold SCORE_SWAP. lia.
Qed.

(** [edit_dist] is the score of a script. *)
Lemma edit_dist_script_gen (n : nat) :
  forall b g, (length b + length g <= n)%nat -> script b g (edit_dist b g).
Proof.
  induction n as [|n IH]; intros b g Hn.
  - destruct b, g; simpl in Hn; try lia. constructor.
  - destruct b as [|x b'], g as [|y g']; simpl in Hn.
    + constructor.
    + rewrite edit_dist_nil_cons. apply script_ins. apply IH. simpl. lia.
    + rewrite edit_dist_cons_nil. apply script_del. apply IH. simpl. lia.
    + rewrite edit_dist_cons_cons.
      destruct (Z.eqb_spec x y) as [->|Hxy].
      { apply script_keep. apply IH. lia. }
      assert (Hsw : script (x :: b') (y :: g')
                      (swap_dist x y b' g'
                         (subst_score SPELL_TOFOLD slang x y + edit_dist b' g'))).
      { assert (Hsub : script (x :: b') (y :: g')
                         (subst_score SPELL_TOFOLD slang x y + edit_dist b' g')).
        { eapply script_cost;
            [apply (script_subst x y b' g' (edit_dist b' g') Hxy); apply IH; lia|].
          lia. }
        unfold swap_dist. destruct b' as [|x' b'']; [exact Hsub|].
        destruct g' as [|y' g'']; [exact Hsub|].
        destruct ((x =? y') && (x' =? y)) eqn:E; [|exact Hsub].
        apply andb_true_iff in E. destruct E as [E1 E2].
        apply Z.eqb_eq in E1, E2. subst y' x'.
        destruct (Z.min_spec (subst_score SPELL_TOFOLD slang x y
                              + edit_dist (y :: b'') (x :: g''))
                             (SCORE_SWAP + edit_dist b'' g'')) as [[_ ->]|[_ ->]];
          [exact Hsub|].
        eapply script_cost;
          [apply (script_swap x y b'' g'' (edit_dist b'' g'') Hxy); apply IH|].
        - simpl in Hn. lia.
        - lia. }
      match goal with
      | |- script _ _ (Z.min (Z.min ?a ?d) ?i) =>
          destruct (Z.min_spec (Z.min a d) i) as [[_ ->]|[_ ->]];
            [destruct (Z.min_spec a d) as [[_ ->]|[_ ->]]|]
      end.
      * exact Hsw.
      * eapply script_cost; [apply script_del; apply (IH b' (y :: g'))|]; [simpl|]; lia.
      * eapply script_cost; [apply script_ins; apply (IH (x :: b') g')|]; [simpl|]; lia.
Qed.

Lemma edit_dist_script (b g : list Z) : script b g (edit_dist b g).
Proof. apply (edit_dist_script_gen (length b + length g)). lia. Qed.

Lemma edit_dist_nonneg (b g : list Z) : 0 <= edit_dist b g.
Proof. apply (script_nonneg b g). apply edit_dist_script. Qed.

(** Without the first character of the target, or of the source, a script
    costs at most a deletion, or an insertion, more. *)
Lemma script_drop_target (b t : list Z) (c : Z) :
  script b t c ->
  forall y g, t = y :: g -> exists c', script b g c' /\ c' <= c + SCORE_DEL.
Proof.
  induction 1 as [|x b g0 c H IH|x y0 b g0 c Hxy H IH|x b g0 c H IH
                  |y0 b g0 c H IH|x y0 b g0 c Hxy H IH]; intros y g Ht.
  - discriminate.
  - injection Ht as -> ->. exists (c + SCORE_DEL). split; [apply script_del; exact H|lia].
  - injection Ht as -> ->. exists (c + SCORE_DEL). split; [apply script_del; exact H|].
    pose proof (subst_score_min x y). unfold SCORE_EDIT_MIN, SCORE_SIMILAR in *. lia.
  - destruct (IH y g Ht) as (c' & Hc' & Hle).
    exists (c' + SCORE_DEL). split; [apply script_del; exact Hc'|lia].
  - injection Ht as -> ->. exists c. split; [exact H|]. unfold SCORE_INS, SCORE_DEL. lia.
  - injection Ht as E1 E2. subst y0 g. exists (c + SCORE_DEL).
    split; [apply script_keep; apply script_del; exact H|]. unfold SCORE_SWAP. lia.
Qed.

Lemma script_drop_source (s g : list Z) (c : Z) :
  script s g c ->
  forall x b, s = x :: b -> exists c', script b g c' /\ c' <= c + SCORE_INS.
Proof.
  induction 1 as [|x0 b0 g c H IH|x0 y b0 g c Hxy H IH|x0 b0 g c H IH
                  |y b0 g c H IH|x0 y b0 g c Hxy H IH]; intros x b Hs.
  - discriminate.
  - injection Hs as -> ->. exists (c + SCORE_INS). split; [apply script_ins; exact H|lia].
  - injection Hs as -> ->. exists (c + SCORE_INS). split; [apply script_ins; exact H|].
    pose proof (subst_score_min x y). unfold SCORE_EDIT_MIN, SCORE_SIMILAR in *. lia.
  - injection Hs as -> ->. exists c. split; [exact H|]. unfold SCORE_INS, SCORE_DEL. lia.
  - destruct (IH x b Hs) as (c' & Hc' & Hle).
    exists (c' + SCORE_INS). split; [apply script_ins; exact Hc'|lia].
  - injection Hs as E1 E2. subst x0 b. exists (c + SCORE_INS).
    split; [apply script_keep; apply script_ins; exact H|]. unfold SCORE_SWAP. lia.
Qed.

Lemma swap_dist_le (x y : Z) (b' g' : list Z) (c : Z) : swap_dist x y b' g' c <= c.
Proof.
  unfold swap_dist. destruct b', g'; try lia. destruct (_ && _); lia.
Qed.

(** No script scores less than [edit_dist]. *)
Lemma edit_dist_least_gen (n : nat) :
  forall b g c, (length b + length g <= n)%nat -> script b g c -> edit_dist b g <= c.
Proof.
  induction n as [|n IH]; intros b g c Hn H.
  - destruct b, g; simpl in Hn; try lia. simpl. apply (script_nonneg _ _ _ H).
  - inversion H as [|x b0 g0 c0 H0|x y b0 g0 c0 Hxy H0|x b0 g0 c0 H0
                    |y b0 g0 c0 H0|x y b0 g0 c0 Hxy H0]; subst; simpl in Hn.
    + simpl. lia.
    + rewrite edit_dist_cons_cons, Z.eqb_refl. apply IH; [lia|exact H0].
    + rewrite edit_dist_cons_cons.
      destruct (Z.eqb_spec x y) as [E|_]; [contradiction|].
      pose proof (IH b0 g0 c0 ltac:(lia) H0).
      pose proof (swap_dist_le x y b0 g0
                    (subst_score SPELL_TOFOLD slang x y + edit_dist b0 g0)).
      lia.
    + destruct g as [|y g'].
      * rewrite edit_dist_cons_nil. pose proof (IH b0 [] c0 ltac:(simpl; lia) H0). lia.
      * rewrite edit_dist_cons_cons.
        destruct (Z.eqb_spec x y) as [->|Hxy].
        -- destruct (script_drop_target _ _ _ H0 y g' eq_refl) as (c' & Hc' & Hle).
           pose proof (IH b0 g' c' ltac:(simpl in *; lia) Hc'). lia.
        -- pose proof (IH b0 (y :: g') c0 ltac:(simpl in *; lia) H0). lia.
    + destruct b as [|x b'].
      * rewrite edit_dist_nil_cons. pose proof (IH [] g0 c0 ltac:(simpl; lia) H0). lia.
      * rewrite edit_dist_cons_cons.
        destruct (Z.eqb_spec x y) as [->|Hxy].
        -- destruct (script_drop_source _ _ _ H0 y b' eq_refl) as (c' & Hc' & Hle).
           pose proof (IH b' g0 c' ltac:(simpl in *; lia) Hc'). lia.
        -- pose proof (IH (x :: b') g0 c0 ltac:(simpl in *; lia) H0). lia.
    + rewrite edit_dist_cons_cons.
      destruct (Z.eqb_spec x y) as [E|_]; [contradiction|].
      simpl swap_dist. rewrite !Z.eqb_refl. simpl andb. cbv iota.
      pose proof (IH b0 g0 c0 ltac:(lia) H0). lia.
Qed.

Lemma edit_dist_least (b g : list Z) (c : Z) : script b g c -> edit_dist b g <= c.
Proof. apply (edit_dist_least_gen (length b + length g)). lia. Qed.

(** A script can be continued at the end of the words. *)
Lemma script_snoc_keep (x : Z) (b g : list Z) (c : Z) :
  script b g c -> script (b ++ [x]) (g ++ [x]) c.
Proof.
  induction 1; simpl; try (constructor; assumption).
  apply script_keep. constructor.
Qed.

Lemma script_snoc_subst (x y : Z) (b g : list Z) (c : Z) :
  x <> y -> script b g c ->
  script (b ++ [x]) (g ++ [y]) (c + subst_score SPELL_TOFOLD slang x y).
Proof.
  intros Hxy. induction 1; simpl.
  - apply (script_subst x y [] [] 0 Hxy). constructor.
  - apply script_keep. assumption.
  - eapply script_cost; [apply script_subst; eassumption|lia].
  - eapply script_cost; [apply script_del; eassumption|lia].
  - eapply script_cost; [apply script_ins; eassumption|lia].
  - eapply script_cost; [apply script_swap; eassumption|lia].
Qed.

Lemma script_snoc_del (x : Z) (b g : list Z) (c : Z) :
  script b g c -> script (b ++ [x]) g (c + SCORE_DEL).
Proof.
  induction 1; simpl.
  - apply (script_del x [] [] 0). constructor.
  - apply script_keep. assumption.
  - eapply script_cost; [apply script_subst; eassumption|lia].
  - eapply script_cost; [apply script_del; eassumption|lia].
  - eapply script_cost; [apply script_ins; eassumption|lia].
  - eapply script_cost; [apply script_swap; eassumption|lia].
Qed.

Lemma script_snoc_ins (y : Z) (b g : list Z) (c : Z) :
  script b g c -> script b (g ++ [y]) (c + SCORE_INS).
Proof.
  induction 1; simpl.
  - apply (script_ins y [] [] 0). constructor.
  - apply script_keep. assumption.
  - eapply script_cost; [apply script_subst; eassumption|lia].
  - eapply script_cost; [apply script_del; eassumption|lia].
  - eapply script_cost; [apply script_ins; eassumption|lia].
  - eapply script_cost; [apply script_swap; eassumption|lia].
Qed.

Lemma script_snoc_swap (x y : Z) (b g : list Z) (c : Z) :
  x <> y -> script b g c -> script (b ++ [x; y]) (g ++ [y; x]) (c + SCORE_SWAP).
Proof.
  intros Hxy. induction 1; simpl.
  - apply (script_swap x y [] [] 0 Hxy). constructor.
  - apply script_keep. assumption.
  - eapply script_cost; [apply script_subst; eassumption|lia].
  - eapply script_cost; [apply script_del; eassumption|lia].
  - eapply script_cost; [apply script_ins; eassumption|lia].
  - eapply script_cost; [apply script_swap; eassumption|lia].
Qed.

Lemma script_rev (b g : list Z) (c : Z) : script b g c -> script (rev b) (rev g) c.
Proof.
  induction 1; simpl.
  - constructor.
  - apply script_snoc_keep. assumption.
  - apply script_snoc_subst; assumption.
  - apply script_snoc_del. assumption.
  - apply script_snoc_ins. assumption.
  - rewrite <- !app_assoc. simpl. apply script_snoc_swap; [congruence|assumption].
Qed.

(** The score is the same from the ends of the words and from their fronts. *)
Lemma edit_dist_rev (b g : list Z) : edit_dist (rev b) (rev g) = edit_dist b g.
Proof.
  apply Z.le_antisymm.
  - apply edit_dist_least. apply script_rev. apply edit_dist_script.
  - pose proof (edit_dist_least _ _ _ (script_rev _ _ _ (edit_dist_script (rev b) (rev g)))) as H.
    rewrite !rev_involutive in H. exact H.
Qed.

Lemma spell_edit_score_front (badword goodword : list Z) :
  spell_edit_score SPELL_TOFOLD slang badword goodword = edit_dist badword goodword.
Proof. rewrite spell_edit_score_dist. apply edit_dist_rev. Qed.

(** X1.  [spell_edit_score] is the least score of an edit script that turns
    the bad word into the good word: it is the score of a script, and no
    script scores less. *)
Theorem spell_edit_score_least_script (badword goodword : list Z) :
  script badword goodword (spell_edit_score SPELL_TOFOLD slang badword goodword) /\
  forall c, script badword goodword c ->
            spell_edit_score SPELL_TOFOLD slang badword goodword <= c.
Proof.
  rewrite spell_edit_score_front. split.
  - apply edit_dist_script.
  - intros c H. apply edit_dist_least. exact H.
Qed.

(** *** [spell_edit_score_limit]: what one turn of the loop keeps *)

Lemma edit_dist_refl (w : list Z) : edit_dist w w = 0.
Proof.
  induction w as [|x w IH]; [reflexivity|].
  rewrite edit_dist_cons_cons, Z.eqb_refl. exact IH.
Qed.

Lemma edit_dist_nil_r (b : list Z) : edit_dist b [] = SCORE_DEL * Z.of_nat (length b).
Proof.
  induction b as [|x b IH]; [reflexivity|].
  rewrite edit_dist_cons_nil, IH. simpl length. lia.
Qed.

Lemma edit_dist_nil_l (g : list Z) : edit_dist [] g = SCORE_INS * Z.of_nat (length g).
Proof.
  induction g as [|y g IH]; [reflexivity|].
  rewrite edit_dist_nil_cons, IH. simpl length. lia.
Qed.

Lemma script_differ (b g : list Z) (c : Z) :
  script b g c -> b <> g -> SCORE_EDIT_MIN <= c.
Proof.
  induction 1 as [|x b g c H IH|x y b g c Hxy H IH|x b g c H IH
                  |y b g c H IH|x y b g c Hxy H IH]; intros Hne.
  - contradiction.
  - apply IH. congruence.
  - pose proof (script_nonneg _ _ _ H). pose proof (subst_score_min x y). lia.
  - pose proof (script_nonneg _ _ _ H). unfold SCORE_EDIT_MIN, SCORE_SIMILAR, SCORE_DEL. lia.
  - pose proof (script_nonneg _ _ _ H). unfold SCORE_EDIT_MIN, SCORE_SIMILAR, SCORE_INS. lia.
  - pose proof (script_nonneg _ _ _ H). unfold SCORE_EDIT_MIN, SCORE_SIMILAR, SCORE_SWAP. lia.
Qed.

(** Words that differ are at least [SCORE_EDIT_MIN] apart. *)
Lemma edit_dist_differ (b g : list Z) : b <> g -> SCORE_EDIT_MIN <= edit_dist b g.
Proof. apply script_differ. apply edit_dist_script. Qed.

(** Reading a C string at an index, and what is left of it from there. *)
Lemma char_at_ge (w : list Z) (i : nat) : (length w <= i)%nat -> char_at w i = NUL.
Proof. intros H. unfold char_at. apply nth_overflow. exact H. Qed.

Lemma char_at_lt (w : list Z) (i : nat) :
  cstring w -> (i < length w)%nat -> char_at w i <> NUL.
Proof.
  intros Hw Hi. unfold cstring in Hw. rewrite List.Forall_forall in Hw.
  apply Hw. unfold char_at. apply nth_In. exact Hi.
Qed.

Lemma char_at_NUL (w : list Z) (i : nat) :
  cstring w -> char_at w i = NUL -> (length w <= i)%nat.
Proof.
  intros Hw H. destruct (Nat.le_gt_cases (length w) i) as [Hle|Hlt]; [exact Hle|].
  exfalso. exact (char_at_lt w i Hw Hlt H).
Qed.

Lemma drop_ge_nil (w : list Z) (i : nat) : (length w <= i)%nat -> drop i w = [].
Proof. intros H. apply drop_ge. exact H. Qed.

Lemma drop_char_at (w : list Z) (i : nat) :
  (i < length w)%nat -> drop i w = char_at w i :: drop (S i) w.
Proof.
  revert i. induction w as [|x w IH]; intros i Hi; simpl in Hi; [lia|].
  destruct i as [|i]; [reflexivity|].
  simpl. apply IH. lia.
Qed.

(** No SIMILAR map is active: [slang] is NULL or [sl_has_map] is not set. *)
Definition no_map (sl : option slang_T) : bool :=
  match sl with
  | Some sl => negb (sl_has_map sl)
  | None => true
  end.

Lemma subst_score_no_map (x y : Z) :
  no_map slang = true -> SCORE_ICASE <= subst_score SPELL_TOFOLD slang x y.
Proof.
  intros H. unfold subst_score. destruct (_ =? _); [lia|].
  destruct slang as [sl|]; [|unfold SCORE_ICASE, SCORE_SUBST; lia].
  simpl in H. apply negb_true_iff in H. rewrite H. simpl.
  unfold SCORE_ICASE, SCORE_SUBST; lia.
Qed.

(** Line 4286: ``If swapping two characters makes a match then the
    substitution is more expensive''.  Without a SIMILAR map it is: after a
    substitution of the first of two crossed characters, what is left costs
    a substitution, a swap, a deletion or an insertion more. *)
Lemma swap_beats_subst (x y : Z) (b2 g2 : list Z) :
  no_map slang = true -> x <> y ->
  Z.min (SCORE_SWAP + edit_dist b2 g2)
        (Z.min (SCORE_DEL + edit_dist b2 (x :: g2))
               (SCORE_INS + edit_dist (y :: b2) g2))
  <= subst_score SPELL_TOFOLD slang x y + edit_dist (y :: b2) (x :: g2).
Proof.
  intros Hno Hxy.
  pose proof (subst_score_no_map x y Hno) as Hs1.
  pose proof (subst_score_no_map y x Hno) as Hs2.
  rewrite (edit_dist_cons_cons y b2 x g2).
  destruct (Z.eqb_spec y x) as [E|_]; [congruence|].
  assert (Hsw : SCORE_SWAP + edit_dist b2 g2
                <= subst_score SPELL_TOFOLD slang x y
                   + swap_dist y x b2 g2
                       (subst_score SPELL_TOFOLD slang y x + edit_dist b2 g2)).
  { unfold swap_dist. destruct b2 as [|x' b3]; [unfold SCORE_ICASE, SCORE_SWAP in *; lia|].
    destruct g2 as [|y' g3]; [unfold SCORE_ICASE, SCORE_SWAP in *; lia|].
    destruct ((y =? y') && (x' =? x)) eqn:E; [|unfold SCORE_ICASE, SCORE_SWAP in *; lia].
    apply andb_true_iff in E. destruct E as [E1 E2].
    apply Z.eqb_eq in E1, E2. subst y' x'.
    assert (edit_dist (x :: b3) (y :: g3)
            <= subst_score SPELL_TOFOLD slang x y + edit_dist b3 g3).
    { rewrite edit_dist_cons_cons. destruct (Z.eqb_spec x y) as [E|_]; [congruence|].
      pose proof (swap_dist_le x y b3 g3
                    (subst_score SPELL_TOFOLD slang x y + edit_dist b3 g3)).
      pose proof (edit_dist_nonneg b3 (y :: g3)).
      pose proof (edit_dist_nonneg (x :: b3) g3).
      unfold SCORE_DEL, SCORE_INS. lia. }
    unfold SCORE_ICASE, SCORE_SWAP in *. lia. }
  unfold SCORE_ICASE in *. lia.
Qed.

Section Limit.

Variables badword goodword : list Z.
Hypothesis Hbad : cstring badword.
Hypothesis Hgood : cstring goodword.

(** The score of what is left of the words from the indexes [bi] and [gi]. *)
Definition rest_dist (bi gi : nat) : Z :=
  edit_dist (drop bi badword) (drop gi goodword).

Lemma rest_dist_nonneg (bi gi : nat) : 0 <= rest_dist bi gi.
Proof. apply edit_dist_nonneg. Qed.

Lemma skip_equal_spec (n : nat) :
  forall bi gi bi' gi' ended,
    (length badword - bi <= n)%nat ->
    skip_equal badword goodword n bi gi = (bi', gi', ended) ->
    rest_dist bi' gi' = rest_dist bi gi /\
    (bi + gi <= bi' + gi')%nat /\
    (if ended
     then char_at badword bi' = NUL /\ char_at goodword gi' = NUL
     else char_at badword bi' <> char_at goodword gi').
Proof.
  induction n as [|n IH]; intros bi gi bi' gi' ended Hn; simpl;
    destruct (Z.eqb_spec (char_at badword bi) (char_at goodword gi)) as [E|E]; simpl.
  - destruct (Z.eqb_spec (char_at badword bi) NUL) as [E0|E0]; intros [= <- <- <-].
    + split; [reflexivity|]. split; [lia|]. split; congruence.
    + exfalso. apply E0. apply char_at_ge. lia.
  - intros [= <- <- <-]. split; [reflexivity|]. split; [lia|exact E].
  - destruct (Z.eqb_spec (char_at badword bi) NUL) as [E0|E0].
    + intros [= <- <- <-]. split; [reflexivity|]. split; [lia|]. split; congruence.
    + intros H. apply IH in H; [|lia].
      destruct H as (HF & Hle & Hend).
      split; [|split; [lia|exact Hend]].
      rewrite HF. unfold rest_dist.
      assert (Hbi : (bi < length badword)%nat).
      { destruct (Nat.le_gt_cases (length badword) bi) as [Hle'|]; [|assumption].
        exfalso. apply E0. apply char_at_ge. exact Hle'. }
      assert (Hgi : (gi < length goodword)%nat).
      { destruct (Nat.le_gt_cases (length goodword) gi) as [Hle'|]; [|assumption].
        exfalso. apply E0. rewrite E. apply char_at_ge. exact Hle'. }
      rewrite (drop_char_at badword bi Hbi), (drop_char_at goodword gi Hgi).
      rewrite edit_dist_cons_cons, E, Z.eqb_refl. reflexivity.
  - intros [= <- <- <-]. split; [reflexivity|]. split; [lia|exact E].
Qed.

Lemma score_rest_spec (w : list Z) (step : Z) (n : nat) :
  cstring w -> 0 < step ->
  forall i score minscore,
    (i < length w)%nat -> (length w - S i <= n)%nat ->
    score_rest w step n i score minscore
    = if score + step * Z.of_nat (length w - i) <? minscore
      then Some (score + step * Z.of_nat (length w - i))
      else None.
Proof.
  intros Hw Hstep. induction n as [|n IH]; intros i score minscore Hi Hn; simpl.
  - replace (length w - i)%nat with 1%nat by lia.
    destruct (Z.leb_spec minscore (score + step)) as [H|H].
    + destruct (Z.ltb_spec (score + step * Z.of_nat 1) minscore); [lia|reflexivity].
    + destruct (Z.ltb_spec (score + step * Z.of_nat 1) minscore); [|lia].
      destruct (_ =? _); f_equal; lia.
  - destruct (Z.leb_spec minscore (score + step)) as [H|H].
    + destruct (Z.ltb_spec (score + step * Z.of_nat (length w - i)) minscore); [nia|reflexivity].
    + destruct (Z.eqb_spec (char_at w (S i)) NUL) as [E|E].
      * apply char_at_NUL in E; [|exact Hw].
        replace (length w - i)%nat with 1%nat by lia.
        destruct (Z.ltb_spec (score + step * Z.of_nat 1) minscore); [f_equal; lia|lia].
      * assert (Hi' : (S i < length w)%nat).
        { destruct (Nat.le_gt_cases (length w) (S i)) as [Hle|]; [|assumption].
          exfalso. apply E. apply char_at_ge. exact Hle. }
        rewrite IH by lia.
        replace (score + step + step * Z.of_nat (length w - S i))
          with (score + step * Z.of_nat (length w - i)) by lia.
        reflexivity.
Qed.

Lemma rest_matches_spec (n : nat) :
  forall bi2 gi2,
    (length badword - bi2 <= n)%nat ->
    if rest_matches badword goodword n bi2 gi2
    then drop bi2 badword = drop gi2 goodword
    else drop bi2 badword <> drop gi2 goodword.
Proof.
  induction n as [|n IH]; intros bi2 gi2 Hn; simpl;
    destruct (Z.eqb_spec (char_at goodword gi2) (char_at badword bi2)) as [E|E].
  - destruct (Z.eqb_spec (char_at goodword gi2) NUL) as [E0|E0].
    + rewrite !drop_ge_nil; [reflexivity| |].
      * apply char_at_NUL; assumption.
      * apply char_at_NUL; [assumption|congruence].
    + exfalso. apply E0. rewrite E. apply char_at_ge. lia.
  - intros Hd. apply E.
    destruct (Nat.le_gt_cases (length badword) bi2) as [Hb|Hb];
      destruct (Nat.le_gt_cases (length goodword) gi2) as [Hg|Hg].
    + rewrite !char_at_ge by assumption. reflexivity.
    + rewrite (drop_ge_nil _ _ Hb), (drop_char_at _ _ Hg) in Hd. discriminate.
    + rewrite (drop_ge_nil _ _ Hg), (drop_char_at _ _ Hb) in Hd. discriminate.
    + rewrite (drop_char_at _ _ Hg), (drop_char_at _ _ Hb) in Hd. congruence.
  - destruct (Z.eqb_spec (char_at goodword gi2) NUL) as [E0|E0].
    + rewrite !drop_ge_nil; [reflexivity| |].
      * apply char_at_NUL; assumption.
      * apply char_at_NUL; [assumption|congruence].
    + assert (Hb : (bi2 < length badword)%nat).
      { destruct (Nat.le_gt_cases (length badword) bi2) as [Hle|]; [|assumption].
        exfalso. apply E0. rewrite E. apply char_at_ge. exact Hle. }
      assert (Hg : (gi2 < length goodword)%nat).
      { destruct (Nat.le_gt_cases (length goodword) gi2) as [Hle|]; [|assumption].
        exfalso. apply E0. apply char_at_ge. exact Hle. }
      specialize (IH (S bi2) (S gi2) ltac:(lia)).
      rewrite (drop_char_at _ _ Hb), (drop_char_at _ _ Hg), E.
      destruct (rest_matches badword goodword n (S bi2) (S gi2)); congruence.
  - intros Hd. apply E.
    destruct (Nat.le_gt_cases (length badword) bi2) as [Hb|Hb];
      destruct (Nat.le_gt_cases (length goodword) gi2) as [Hg|Hg].
    + rewrite !char_at_ge by assumption. reflexivity.
    + rewrite (drop_ge_nil _ _ Hb), (drop_char_at _ _ Hg) in Hd. discriminate.
    + rewrite (drop_ge_nil _ _ Hg), (drop_char_at _ _ Hb) in Hd. discriminate.
    + rewrite (drop_char_at _ _ Hg), (drop_char_at _ _ Hb) in Hd. congruence.
Qed.

Lemma swap_dist_drop (x y : Z) (bi gi : nat) (c : Z) :
  x <> NUL -> y <> NUL ->
  swap_dist x y (drop (S bi) badword) (drop (S gi) goodword) c
  = if (y =? char_at badword (S bi)) && (x =? char_at goodword (S gi))
    then Z.min c (SCORE_SWAP + rest_dist (S (S bi)) (S (S gi)))
    else c.
Proof.
  intros Hx Hy. unfold swap_dist, rest_dist.
  destruct (Nat.le_gt_cases (length badword) (S bi)) as [Hb|Hb].
  { rewrite (drop_ge_nil _ _ Hb), (char_at_ge _ _ Hb).
    destruct (Z.eqb_spec y NUL) as [E|_]; [contradiction|reflexivity]. }
  rewrite (drop_char_at _ _ Hb).
  destruct (Nat.le_gt_cases (length goodword) (S gi)) as [Hg|Hg].
  { rewrite (drop_ge_nil _ _ Hg), (char_at_ge _ _ Hg).
    destruct (Z.eqb_spec x NUL) as [E|_]; [contradiction|].
    rewrite andb_false_r. reflexivity. }
  rewrite (drop_char_at _ _ Hg).
  rewrite (Z.eqb_sym (char_at badword (S bi)) y), andb_comm. reflexivity.
Qed.

(** What an alternative on the stack can still reach, and the least of that
    over the stack and [minscore]. *)
Definition entry_value (e : limitscore_T) : Z :=
  score e + rest_dist (badi e) (goodi e).

Definition stack_min (stack : list limitscore_T) (m : Z) : Z :=
  fold_right (fun e acc => Z.min (entry_value e) acc) m stack.

Definition limit_value (st : limit_state) : Z :=
  stack_min (l_stack st)
    (Z.min (l_minscore st) (l_score st + rest_dist (l_bi st) (l_gi st))).

Lemma stack_min_le (stack : list limitscore_T) (m : Z) : stack_min stack m <= m.
Proof. induction stack as [|e s IH]; simpl; lia. Qed.

Lemma stack_min_min (stack : list limitscore_T) (a m : Z) :
  stack_min stack (Z.min a m) = Z.min a (stack_min stack m).
Proof. induction stack as [|e s IH]; simpl; [reflexivity|]. rewrite IH. lia. Qed.

(** One round either leaves the stack alone or pushes the alternative; it is
    left out only when it cannot come below [minscore]. *)
Lemma try_round_spec (round bi gi : nat) (sc : Z)
    (stack : list limitscore_T) (minscore : Z) :
  (round <= 1)%nat ->
  let score_off := sc + (if Nat.eqb round 0 then SCORE_DEL else SCORE_INS) in
  let e := {| badi := bi + 1 - round; goodi := gi + round; score := score_off |} in
  match try_round badword goodword round bi gi sc stack minscore with
  | None =>
      (LIMIT_STACK_SIZE <= length stack)%nat /\ score_off + SCORE_EDIT_MIN < minscore
  | Some (stack', m') =>
      stack_min stack' m' = Z.min (entry_value e) (stack_min stack minscore) /\
      m' <= minscore /\
      (stack' = stack \/
       (stack' = e :: stack /\ score_off + SCORE_EDIT_MIN < minscore /\
        (length stack < LIMIT_STACK_SIZE)%nat))
  end.
Proof.
  intros Hr score_off e. unfold try_round. fold score_off. fold e.
  pose proof (stack_min_le stack minscore) as Hle.
  pose proof (rest_dist_nonneg (bi + 1 - round) (gi + round)) as Hnn.
  assert (Hev : entry_value e = score_off + rest_dist (bi + 1 - round) (gi + round))
    by reflexivity.
  destruct (Z.ltb_spec score_off minscore) as [H1|H1].
  - destruct (Z.leb_spec minscore (score_off + SCORE_EDIT_MIN)) as [H2|H2].
    + pose proof (rest_matches_spec (length badword) (bi + 1 - round) (gi + round)
                    ltac:(lia)) as Hrm.
      destruct (rest_matches badword goodword (length badword)
                  (bi + 1 - round) (gi + round)).
      * assert (E0 : rest_dist (bi + 1 - round) (gi + round) = 0).
        { unfold rest_dist. rewrite Hrm. apply edit_dist_refl. }
        split; [|split; [lia|left; reflexivity]].
        replace score_off with (Z.min score_off minscore) at 1 by lia.
        rewrite stack_min_min. lia.
      * apply edit_dist_differ in Hrm. fold (rest_dist (bi + 1 - round) (gi + round)) in Hrm.
        split; [lia|]. split; [lia|left; reflexivity].
    + destruct (Nat.ltb_spec (length stack) LIMIT_STACK_SIZE) as [H3|H3].
      * split; [reflexivity|]. split; [lia|]. right. repeat split; assumption.
      * split; assumption.
  - split; [lia|]. split; [lia|left; reflexivity].
Qed.

(** The stack cannot run full while [limit] is at most [SCORE_LIMITMAX]: an
    alternative is pushed after a deletion or an insertion, and between two
    levels of the stack lies at least a change of case. *)
Fixpoint stack_ok (s : list limitscore_T) : Prop :=
  match s with
  | [] => True
  | e :: s' =>
      SCORE_DEL + SCORE_ICASE * Z.of_nat (length s' / 2) <= score e /\ stack_ok s'
  end.

Definition state_ok (limit : Z) (st : limit_state) : Prop :=
  stack_ok (l_stack st) /\
  SCORE_ICASE * Z.of_nat ((length (l_stack st) + 1) / 2) <= l_score st /\
  l_minscore st <= limit + 1.

(** What is left to try: an alternative at the indexes [bi] and [gi] weighs
    three times one that is a character further. *)
Definition pos_weight (bi gi : nat) : nat :=
  3 ^ (length badword + length goodword - (bi + gi)).

Definition stack_weight (s : list limitscore_T) : nat :=
  fold_right (fun e acc => pos_weight (badi e) (goodi e) + acc)%nat 0%nat s.

Definition weight (st : limit_state) : nat :=
  (pos_weight (l_bi st) (l_gi st) + stack_weight (l_stack st))%nat.

Lemma pos_weight_pos (bi gi : nat) : (0 < pos_weight bi gi)%nat.
Proof.
  unfold pos_weight.
  pose proof (Nat.pow_nonzero 3 (length badword + length goodword - (bi + gi))). lia.
Qed.

Lemma pos_weight_steps (bi0 gi0 bi gi : nat) :
  (bi0 + gi0 <= bi + gi)%nat ->
  (bi < length badword)%nat -> (gi < length goodword)%nat ->
  exists k : nat,
    (0 < k)%nat /\ (9 * k <= pos_weight bi0 gi0)%nat /\
    (forall a c, (bi + gi + 1 <= a + c)%nat -> (pos_weight a c <= 3 * k)%nat) /\
    (forall a c, (bi + gi + 2 <= a + c)%nat -> (pos_weight a c <= k)%nat).
Proof.
  intros Hle Hb Hg.
  exists (3 ^ (length badword + length goodword - (bi + gi + 2)))%nat.
  split; [|split; [|split]].
  - pose proof (Nat.pow_nonzero 3 (length badword + length goodword - (bi + gi + 2))). lia.
  - unfold pos_weight.
    replace (9 * 3 ^ (length badword + length goodword - (bi + gi + 2)))%nat
      with (3 ^ (S (S (length badword + length goodword - (bi + gi + 2)))))%nat
      by (rewrite !Nat.pow_succ_r'; lia).
    apply Nat.pow_le_mono_r; lia.
  - intros a c H. unfold pos_weight.
    replace (3 * 3 ^ (length badword + length goodword - (bi + gi + 2)))%nat
      with (3 ^ (S (length badword + length goodword - (bi + gi + 2))))%nat
      by (rewrite !Nat.pow_succ_r'; lia).
    apply Nat.pow_le_mono_r; lia.
  - intros a c H. unfold pos_weight. apply Nat.pow_le_mono_r; lia.
Qed.

Lemma stack_ok_push (e : limitscore_T) (stack stack' : list limitscore_T)
    (sc off m minscore : Z) (k : nat) :
  stack_ok stack ->
  SCORE_ICASE * Z.of_nat (length stack / 2) <= sc ->
  SCORE_DEL <= off ->
  score e = sc + off ->
  (pos_weight (badi e) (goodi e) <= 3 * k)%nat ->
  stack' = stack \/
  (stack' = e :: stack /\ sc + off + SCORE_EDIT_MIN < m /\
   (length stack < LIMIT_STACK_SIZE)%nat) ->
  stack_ok stack' /\
  (length stack <= length stack' <= length stack + 1)%nat /\
  (stack_weight stack' <= stack_weight stack + 3 * k)%nat.
Proof.
  intros Hok Hsc Hoff He Hw [->|(-> & _ & _)].
  - split; [exact Hok|]. split; lia.
  - cbn [stack_ok]. split; [split; [rewrite He; lia|exact Hok]|].
    unfold stack_weight. cbn [length fold_right]. split; lia.
Qed.

Lemma stack_min_min_r (stack : list limitscore_T) (a m : Z) :
  stack_min stack (Z.min m a) = Z.min a (stack_min stack m).
Proof. rewrite Z.min_comm. apply stack_min_min. Qed.

Lemma half_succ_le (n : nat) : (n / 2 <= (n + 1) / 2)%nat.
Proof. apply Nat.Div0.div_le_mono. lia. Qed.

Lemma half_add_2 (n : nat) : ((n + 2) / 2 = n / 2 + 1)%nat.
Proof.
  replace (n + 2)%nat with (n + 1 * 2)%nat by lia.
  rewrite Nat.div_add by lia. reflexivity.
Qed.

Lemma half_ge_5 (n : nat) : (10 <= n)%nat -> (5 <= n / 2)%nat.
Proof. intros H. change 5%nat with (10 / 2)%nat. apply Nat.Div0.div_le_mono. exact H. Qed.

(** One turn of the outer loop: the least score that can still be found stays
    the same, the stack does not run full, and less is left to try. *)
Lemma limit_turn_spec (limit : Z) (st : limit_state) :
  no_map slang = true -> limit <= SCORE_LIMITMAX -> state_ok limit st ->
  match limit_turn_of SPELL_TOFOLD slang badword goodword st with
  | Next st' =>
      limit_value st' = limit_value st /\ state_ok limit st' /\
      (weight st' < weight st)%nat
  | ToPop stack m =>
      stack_min stack m = limit_value st /\ stack_ok stack /\ m <= limit + 1 /\
      (stack_weight stack < weight st)%nat
  | StackFull => False
  end.
Proof.
  intros Hno Hlim Hok.
  destruct st as [stack bi0 gi0 sc minscore].
  unfold state_ok in Hok. cbn [l_stack l_bi l_gi l_score l_minscore] in Hok.
  destruct Hok as (Hstk & Hsc & Hmin).
  unfold limit_turn_of, limit_value, weight, state_ok.
  cbn [l_stack l_bi l_gi l_score l_minscore].
  destruct (skip_equal badword goodword (length badword) bi0 gi0)
    as [[bi gi] ended] eqn:Hskip.
  apply skip_equal_spec in Hskip; [|lia].
  destruct Hskip as (HF & Hle & Hend).
  pose proof (pos_weight_pos bi0 gi0) as Hw0.
  unfold SCORE_LIMITMAX in Hlim.
  destruct ended.
  - destruct Hend as [Eb Eg].
    assert (E0 : rest_dist bi0 gi0 = 0).
    { rewrite <- HF. unfold rest_dist.
      rewrite !drop_ge_nil by (apply char_at_NUL; assumption). reflexivity. }
    rewrite E0. split; [|split; [exact Hstk|split; [|lia]]].
    + f_equal. destruct (Z.ltb_spec sc minscore); lia.
    + destruct (Z.ltb_spec sc minscore); lia.
  - destruct (Z.eqb_spec (char_at goodword gi) NUL) as [Eg|Eg].
    { assert (Hb : (bi < length badword)%nat).
      { destruct (Nat.le_gt_cases (length badword) bi) as [Hge|]; [|assumption].
        exfalso. apply Hend. rewrite Eg. apply char_at_ge. exact Hge. }
      rewrite (score_rest_spec badword SCORE_DEL (length badword) Hbad
                 ltac:(unfold SCORE_DEL; lia) bi sc minscore Hb ltac:(lia)).
      assert (E0 : rest_dist bi0 gi0 = SCORE_DEL * Z.of_nat (length badword - bi)).
      { rewrite <- HF. unfold rest_dist.
        rewrite (drop_ge_nil goodword gi) by (apply char_at_NUL; assumption).
        rewrite edit_dist_nil_r, length_drop. reflexivity. }
      rewrite E0.
      destruct (Z.ltb_spec (sc + SCORE_DEL * Z.of_nat (length badword - bi)) minscore).
      - split; [f_equal; lia|]. split; [exact Hstk|]. split; lia.
      - split; [f_equal; lia|]. split; [exact Hstk|]. split; lia. }
    destruct (Z.eqb_spec (char_at badword bi) NUL) as [Eb|Eb].
    { assert (Hg : (gi < length goodword)%nat).
      { destruct (Nat.le_gt_cases (length goodword) gi) as [Hge|]; [|assumption].
        exfalso. apply Eg. apply char_at_ge. exact Hge. }
      rewrite (score_rest_spec goodword SCORE_INS (length goodword) Hgood
                 ltac:(unfold SCORE_INS; lia) gi sc minscore Hg ltac:(lia)).
      assert (E0 : rest_dist bi0 gi0 = SCORE_INS * Z.of_nat (length goodword - gi)).
      { rewrite <- HF. unfold rest_dist.
        rewrite (drop_ge_nil badword bi) by (apply char_at_NUL; assumption).
        rewrite edit_dist_nil_l, length_drop. reflexivity. }
      rewrite E0.
      destruct (Z.ltb_spec (sc + SCORE_INS * Z.of_nat (length goodword - gi)) minscore).
      - split; [f_equal; lia|]. split; [exact Hstk|]. split; lia.
      - split; [f_equal; lia|]. split; [exact Hstk|]. split; lia. }
    assert (Hb : (bi < length badword)%nat).
    { destruct (Nat.le_gt_cases (length badword) bi) as [Hge|]; [|assumption].
      exfalso. apply Eb. apply char_at_ge. exact Hge. }
    assert (Hg : (gi < length goodword)%nat).
    { destruct (Nat.le_gt_cases (length goodword) gi) as [Hge|]; [|assumption].
      exfalso. apply Eg. apply char_at_ge. exact Hge. }
    destruct (pos_weight_steps bi0 gi0 bi gi Hle Hb Hg) as (k & Hk0 & Hk9 & Hk3 & Hk1).
    assert (EF : rest_dist bi0 gi0
                 = Z.min (Z.min (swap_dist (char_at badword bi) (char_at goodword gi)
                                   (drop (S bi) badword) (drop (S gi) goodword)
                                   (subst_score SPELL_TOFOLD slang (char_at badword bi)
                                      (char_at goodword gi)
                                    + rest_dist (S bi) (S gi)))
                                (SCORE_DEL + rest_dist (S bi) gi))
                         (SCORE_INS + rest_dist bi (S gi))).
    { rewrite <- HF. unfold rest_dist.
      rewrite (drop_char_at badword bi Hb), (drop_char_at goodword gi Hg).
      rewrite edit_dist_cons_cons.
      destruct (Z.eqb_spec (char_at badword bi) (char_at goodword gi)) as [E|_];
        [contradiction|].
      reflexivity. }
    rewrite (swap_dist_drop _ _ bi gi _ Eb Eg) in EF.
    pose proof (half_succ_le (length stack)) as Hhalf.
    (* round 0 *)
    pose proof (try_round_spec 0 bi gi sc stack minscore ltac:(lia)) as H0.
    cbv zeta in H0. cbn [Nat.eqb] in H0.
    destruct (try_round badword goodword 0 bi gi sc stack minscore) as [[stack1 m1]|].
    2:{ destruct H0 as [H0a H0b]. apply half_ge_5 in H0a.
        unfold SCORE_ICASE, SCORE_DEL, SCORE_EDIT_MIN, SCORE_SIMILAR in *. lia. }
    destruct H0 as (HV1 & Hm1 & Hs1).
    unfold entry_value in HV1. cbn [badi goodi score] in HV1.
    replace (bi + 1 - 0)%nat with (S bi) in * by lia.
    replace (gi + 0)%nat with gi in * by lia.
    apply (stack_ok_push _ stack stack1 sc SCORE_DEL minscore minscore k Hstk) in Hs1;
      [|unfold SCORE_ICASE in *; lia|lia|reflexivity|apply Hk3; simpl; lia].
    destruct Hs1 as (Hstk1 & Hlen1 & Hw1).
    (* round 1 *)
    pose proof (try_round_spec 1 bi gi sc stack1 m1 ltac:(lia)) as H1.
    cbv zeta in H1. cbn [Nat.eqb] in H1.
    assert (Hsc1 : SCORE_ICASE * Z.of_nat (length stack1 / 2) <= sc).
    { assert (length stack1 / 2 <= (length stack + 1) / 2)%nat
        by (apply Nat.Div0.div_le_mono; lia).
      unfold SCORE_ICASE in *. lia. }
    destruct (try_round badword goodword 1 bi gi sc stack1 m1) as [[stack2 m2]|].
    2:{ destruct H1 as [H1a H1b]. apply half_ge_5 in H1a.
        unfold SCORE_ICASE, SCORE_INS, SCORE_EDIT_MIN, SCORE_SIMILAR in *. lia. }
    destruct H1 as (HV2 & Hm2 & Hs2).
    unfold entry_value in HV2. cbn [badi goodi score] in HV2.
    replace (bi + 1 - 1)%nat with bi in * by lia.
    replace (gi + 1)%nat with (S gi) in * by lia.
    apply (stack_ok_push _ stack1 stack2 sc SCORE_INS m1 m1 k Hstk1 Hsc1) in Hs2;
      [|unfold SCORE_INS, SCORE_DEL; lia|reflexivity|apply Hk3; simpl; lia].
    destruct Hs2 as (Hstk2 & Hlen2 & Hw2).
    assert (Hsc2 : SCORE_ICASE * Z.of_nat ((length stack2 + 1) / 2) <= sc + SCORE_ICASE).
    { assert ((length stack2 + 1) / 2 <= (length stack + 1 + 2) / 2)%nat
        by (apply Nat.Div0.div_le_mono; lia).
      rewrite half_add_2 in H. unfold SCORE_ICASE in *. lia. }
    pose proof (rest_dist_nonneg (S bi) (S gi)) as Hn11.
    pose proof (rest_dist_nonneg (S (S bi)) (S (S gi))) as Hn22.
    pose proof (subst_score_no_map (char_at badword bi) (char_at goodword gi) Hno) as Hsub.
    pose proof (stack_min_le stack minscore) as Hsm.
    replace (bi + 1)%nat with (S bi) by lia.
    replace (bi + 2)%nat with (S (S bi)) by lia.
    replace (gi + 2)%nat with (S (S gi)) by lia.
    rewrite <- andb_assoc.
    destruct (Z.ltb_spec (sc + SCORE_SWAP) m2) as [Hsw|Hsw];
      [destruct ((char_at goodword gi =? char_at badword (S bi))
                 && (char_at badword bi =? char_at goodword (S gi))) eqn:Hcross|];
      cbn [andb].
    + (* the swap *)
      apply andb_true_iff in Hcross. destruct Hcross as [Ec1 Ec2].
      apply Z.eqb_eq in Ec1, Ec2.
      assert (Hb1 : (S bi < length badword)%nat).
      { destruct (Nat.le_gt_cases (length badword) (S bi)) as [Hge|]; [|assumption].
        exfalso. apply Eg. rewrite Ec1. apply char_at_ge. exact Hge. }
      assert (Hg1 : (S gi < length goodword)%nat).
      { destruct (Nat.le_gt_cases (length goodword) (S gi)) as [Hge|]; [|assumption].
        exfalso. apply Eb. rewrite Ec2. apply char_at_ge. exact Hge. }
      pose proof (swap_beats_subst (char_at badword bi) (char_at goodword gi)
                    (drop (S (S bi)) badword) (drop (S (S gi)) goodword) Hno Hend)
        as Hkey.
      assert (E11 : rest_dist (S bi) (S gi)
                    = edit_dist (char_at goodword gi :: drop (S (S bi)) badword)
                        (char_at badword bi :: drop (S (S gi)) goodword)).
      { unfold rest_dist. rewrite (drop_char_at _ _ Hb1), (drop_char_at _ _ Hg1).
        rewrite <- Ec1, <- Ec2. reflexivity. }
      assert (E10 : rest_dist (S bi) gi
                    = edit_dist (drop (S (S bi)) badword)
                        (char_at badword bi :: drop (S (S gi)) goodword)).
      { unfold rest_dist.
        rewrite (drop_char_at _ _ Hb1), (drop_char_at _ _ Hg), (drop_char_at _ _ Hg1).
        rewrite <- Ec1, <- Ec2. rewrite edit_dist_cons_cons, Z.eqb_refl. reflexivity. }
      assert (E01 : rest_dist bi (S gi)
                    = edit_dist (char_at goodword gi :: drop (S (S bi)) badword)
                        (drop (S (S gi)) goodword)).
      { unfold rest_dist.
        rewrite (drop_char_at _ _ Hb), (drop_char_at _ _ Hb1), (drop_char_at _ _ Hg1).
        rewrite <- Ec1, <- Ec2. rewrite edit_dist_cons_cons, Z.eqb_refl. reflexivity. }
      rewrite <- E11, <- E10, <- E01 in Hkey.
      fold (rest_dist (S (S bi)) (S (S gi))) in Hkey.
      cbn [l_stack l_bi l_gi l_score l_minscore].
        split; [|split; [split; [exact Hstk2|split]|]].
      * rewrite !stack_min_min_r, HV2, HV1, EF. clear - Hkey. lia.
      * clear - Hsc2. unfold SCORE_ICASE, SCORE_SWAP in *. lia.
      * clear - Hm2 Hm1 Hmin. lia.
      * pose proof (Hk1 (S (S bi)) (S (S gi)) ltac:(lia)) as Hk.
        clear - Hk Hk0 Hk9 Hw1 Hw2. lia.
    + (* no swap: the characters are not crossed *)
      destruct (Z.ltb_spec (sc + subst_score SPELL_TOFOLD slang (char_at badword bi)
                                   (char_at goodword gi)) m2) as [Hlt|Hge].
      * cbn [l_stack l_bi l_gi l_score l_minscore].
        split; [|split; [split; [exact Hstk2|split]|]].
        -- rewrite !stack_min_min_r, HV2, HV1, EF. clear - Hsub. lia.
        -- clear - Hsc2 Hsub. unfold SCORE_ICASE in *. lia.
        -- clear - Hm2 Hm1 Hmin. lia.
        -- pose proof (Hk1 (S bi) (S gi) ltac:(lia)) as Hk.
           clear - Hk Hk0 Hk9 Hw1 Hw2. lia.
      * split; [|split; [exact Hstk2|split;
                  [clear - Hm2 Hm1 Hmin; lia|clear - Hk0 Hk9 Hw1 Hw2; lia]]].
        pose proof (stack_min_le stack2 m2) as Hsm2.
        rewrite HV2, HV1 in Hsm2. rewrite HV2, HV1, EF, stack_min_min_r.
        clear - Hsm2 Hge Hn11. lia.
    + (* no swap: it would reach [minscore] *)
      assert (Hswap : m2 <= sc + (SCORE_SWAP + rest_dist (S (S bi)) (S (S gi))))
        by (clear - Hsw Hn22; lia).
      destruct ((char_at goodword gi =? char_at badword (S bi))
                && (char_at badword bi =? char_at goodword (S gi)));
      destruct (Z.ltb_spec (sc + subst_score SPELL_TOFOLD slang (char_at badword bi)
                                   (char_at goodword gi)) m2) as [Hlt|Hge].
      * cbn [l_stack l_bi l_gi l_score l_minscore].
        split; [|split; [split; [exact Hstk2|split]|]].
        -- pose proof (stack_min_le stack2 m2) as Hsm2.
           rewrite HV2, HV1 in Hsm2. rewrite !stack_min_min_r, HV2, HV1, EF.
           clear - Hswap Hsm2 Hlt Hn11 Hn22. lia.
        -- clear - Hsc2 Hsub. unfold SCORE_ICASE in *. lia.
        -- clear - Hm2 Hm1 Hmin. lia.
        -- pose proof (Hk1 (S bi) (S gi) ltac:(lia)) as Hk.
           clear - Hk Hk0 Hk9 Hw1 Hw2. lia.
      * split; [|split; [exact Hstk2|split;
                  [clear - Hm2 Hm1 Hmin; lia|clear - Hk0 Hk9 Hw1 Hw2; lia]]].
        pose proof (stack_min_le stack2 m2) as Hsm2.
        rewrite HV2, HV1 in Hsm2. rewrite HV2, HV1, EF, stack_min_min_r.
        clear - Hswap Hsm2 Hge Hn11 Hn22. lia.
      * cbn [l_stack l_bi l_gi l_score l_minscore].
        split; [|split; [split; [exact Hstk2|split]|]].
        -- rewrite !stack_min_min_r, HV2, HV1, EF. clear - Hsub. lia.
        -- clear - Hsc2 Hsub. unfold SCORE_ICASE in *. lia.
        -- clear - Hm2 Hm1 Hmin. lia.
        -- pose proof (Hk1 (S bi) (S gi) ltac:(lia)) as Hk.
           clear - Hk Hk0 Hk9 Hw1 Hw2. lia.
      * split; [|split; [exact Hstk2|split;
                  [clear - Hm2 Hm1 Hmin; lia|clear - Hk0 Hk9 Hw1 Hw2; lia]]].
        pose proof (stack_min_le stack2 m2) as Hsm2.
        rewrite HV2, HV1 in Hsm2. rewrite HV2, HV1, EF, stack_min_min_r.
        clear - Hswap Hsm2 Hge Hn11 Hn22. lia.
Qed.

(** The loop ends, without writing behind the end of [stack], with the least
    score that could be found. *)
Lemma limit_loop_finishes (limit : Z) :
  no_map slang = true -> limit <= SCORE_LIMITMAX ->
  forall turns st,
    (weight st < turns)%nat -> state_ok limit st ->
    limit_loop SPELL_TOFOLD slang badword goodword turns st
    = Finished (limit_value st).
Proof.
  intros Hno Hlim. induction turns as [|turns IH]; intros st Hw Hok; [lia|].
  cbn [limit_loop].
  pose proof (limit_turn_spec limit st Hno Hlim Hok) as H.
  destruct (limit_turn_of SPELL_TOFOLD slang badword goodword st) as [st'|stack m|].
  - destruct H as (HV & Hok' & Hw'). rewrite <- HV. apply IH; [lia|exact Hok'].
  - destruct H as (HV & Hstk & Hm & Hw'). destruct stack as [|e s].
    + simpl in HV. rewrite HV. reflexivity.
    + cbn [stack_ok] in Hstk. destruct Hstk as [He Hs].
      rewrite IH.
      * f_equal. rewrite <- HV. unfold limit_value.
        cbn [l_stack l_bi l_gi l_score l_minscore].
        rewrite stack_min_min_r. reflexivity.
      * unfold weight. cbn [l_stack l_bi l_gi].
        unfold stack_weight in Hw'. cbn [fold_right] in Hw'.
        fold (stack_weight s) in Hw'. lia.
      * unfold state_ok. cbn [l_stack l_score l_minscore].
        split; [exact Hs|]. split; [|exact Hm].
        assert ((length s + 1) / 2 <= (length s + 2) / 2)%nat
          by (apply Nat.Div0.div_le_mono; lia).
        rewrite half_add_2 in H. unfold SCORE_ICASE, SCORE_DEL in *. lia.
  - contradiction.
Qed.

Lemma limit_loop_start (limit : Z) :
  no_map slang = true -> limit <= SCORE_LIMITMAX ->
  limit_loop SPELL_TOFOLD slang badword goodword (limit_turns badword goodword)
    {| l_stack := []; l_bi := 0; l_gi := 0; l_score := 0; l_minscore := limit + 1 |}
  = Finished (Z.min (limit + 1) (edit_dist badword goodword)).
Proof.
  intros Hno Hlim.
  rewrite (limit_loop_finishes limit Hno Hlim).
  - reflexivity.
  - unfold weight, limit_turns, pos_weight, stack_weight.
    cbn [l_stack l_bi l_gi fold_right].
    assert (3 ^ (length badword + length goodword - (0 + 0))
            <= 3 ^ (length badword + length goodword + 1))%nat
      by (apply Nat.pow_le_mono_r; lia).
    lia.
  - unfold state_ok. cbn [l_stack l_score l_minscore stack_ok length].
    split; [exact I|]. split; [|lia]. reflexivity.
Qed.

End Limit.

(** C1 as the code has it.  For C strings, without a SIMILAR map and with
    [limit] at most [SCORE_LIMITMAX] (350, the most [add_sound_suggest] asks
    for), [spell_edit_score_limit] ends without writing behind [stack[9]] and
    returns [spell_edit_score] of the words when that is at most [limit]
    (also when it is [limit] itself), and [SCORE_MAXMAX] when it is above. *)
Theorem spell_edit_score_limit_exact (badword goodword : list Z) (limit : Z) :
  cstring badword -> cstring goodword ->
  no_map slang = true -> limit <= SCORE_LIMITMAX ->
  spell_edit_score_limit SPELL_TOFOLD slang badword goodword limit
  = Some (if spell_edit_score SPELL_TOFOLD slang badword goodword <=? limit
          then spell_edit_score SPELL_TOFOLD slang badword goodword
          else SCORE_MAXMAX).
Proof.
  intros Hb Hg Hno Hlim. unfold spell_edit_score_limit.
  rewrite (limit_loop_start badword goodword Hb Hg limit Hno Hlim).
  rewrite spell_edit_score_front.
  destruct (Z.leb_spec (edit_dist badword goodword) limit) as [H|H].
  - destruct (Z.ltb_spec limit (Z.min (limit + 1) (edit_dist badword goodword))); [lia|].
    f_equal. lia.
  - destruct (Z.ltb_spec limit (Z.min (limit + 1) (edit_dist badword goodword))); [|lia].
    reflexivity.
Qed.

(** *** The bounds of [spell_edit_score] *)

(** Taking every character of the bad word out and putting every character
    of the good word in is a script. *)
Lemma script_del_ins (b g : list Z) :
  script b g (SCORE_DEL * Z.of_nat (length b) + SCORE_INS * Z.of_nat (length g)).
Proof.
  induction b as [|x b IHb].
  - induction g as [|y g IHg]; [constructor|].
    replace (SCORE_DEL * Z.of_nat (length (@nil Z))
             + SCORE_INS * Z.of_nat (length (y :: g)))
      with (SCORE_DEL * Z.of_nat (length (@nil Z))
            + SCORE_INS * Z.of_nat (length g) + SCORE_INS)
      by (cbn [length]; lia).
    apply script_ins. exact IHg.
  - replace (SCORE_DEL * Z.of_nat (length (x :: b)) + SCORE_INS * Z.of_nat (length g))
      with (SCORE_DEL * Z.of_nat (length b) + SCORE_INS * Z.of_nat (length g)
            + SCORE_DEL)
      by (cbn [length]; lia).
    apply script_del. exact IHb.
Qed.

(** X14.  [spell_edit_score] is 0 for a word against itself and only then;
    two different words score at least [SCORE_SIMILAR] = 33, the cheapest
    change, and never more than taking out every character of the bad word
    (94 each) and putting in every character of the good word (96 each),
    which is also what a word scores against the empty word. *)
Theorem spell_edit_score_bounds (badword goodword : list Z) :
  (spell_edit_score SPELL_TOFOLD slang badword goodword = 0 <-> badword = goodword) /\
  (badword <> goodword ->
   SCORE_SIMILAR <= spell_edit_score SPELL_TOFOLD slang badword goodword) /\
  spell_edit_score SPELL_TOFOLD slang badword goodword
  <= SCORE_DEL * Z.of_nat (length badword) + SCORE_INS * Z.of_nat (length goodword) /\
  spell_edit_score SPELL_TOFOLD slang badword []
  = SCORE_DEL * Z.of_nat (length badword) /\
  spell_edit_score SPELL_TOFOLD slang [] goodword
  = SCORE_INS * Z.of_nat (length goodword).
Proof.
  rewrite !spell_edit_score_front.
  split; [split|split; [|split; [|split]]].
  - intros H. destruct (decide (badword = goodword)) as [E|E]; [exact E|].
    pose proof (edit_dist_differ badword goodword E) as Hd.
    unfold SCORE_EDIT_MIN, SCORE_SIMILAR in Hd. lia.
  - intros ->. apply edit_dist_refl.
  - intros E. apply (edit_dist_differ badword goodword E).
  - apply edit_dist_least, script_del_ins.
  - apply edit_dist_nil_r.
  - apply edit_dist_nil_l.
Qed.
End EditScoreFacts.

(** * More of the code: the embedding *)

(** ** The sound-alike score: [soundalike_score] (lines 3812-4036)

    The function walks two NUL-terminated strings with pointers and reads at
    small offsets from them.  A pointer is the rest of the string from where
    it points (without the NUL).  A read or a move is checked against the
    terminating NUL: reading at the NUL gives NUL, reading or moving behind it
    is outside the string and gives [None], which the whole function then
    returns. *)

Notation "'do' x <- e ; f" :=
  (match e with Some x => f | None => None end)
  (at level 10, x pattern, e at level 100, f at level 200, only parsing).

(** [p[i]]. *)
Definition rd (p : list Z) (i : nat) : option Z :=
  if (i <=? length p)%nat then Some (char_at p i) else None.

(** [p + i], a pointer that is read afterwards. *)
Definition ptr_add (p : list Z) (i : nat) : option (list Z) :=
  if (i <=? length p)%nat then Some (drop i p) else None.

(** [STRCMP(p + i, q + j) == 0]. *)
Definition streq_at (p : list Z) (i : nat) (q : list Z) (j : nat) : option bool :=
  do a <- ptr_add p i; do b <- ptr_add q j; Some (strcmp_eq a b).

(** [pl[0] == ps[1] && pl[1] == ps[0]]; the second comparison is evaluated
    only when the first holds. *)
Definition swapped (pl ps : list Z) : option bool :=
  do a <- rd pl 0; do b <- rd ps 1;
  if a =? b then do c <- rd pl 1; do d <- rd ps 0; Some (c =? d)
  else Some false.

(** [pl[0] == ps[1] && pl[1] == ps[0] && STRCMP(pl + 2, ps + 2) == 0]. *)
Definition swapped_then_equal (pl ps : list Z) : option bool :=
  do sw <- swapped pl ps;
  if sw then streq_at pl 2 ps 2 else Some false.

(** [while ( *pl == *ps && *pl != NUL) { ++pl; ++ps; }] (lines 3882-3886). *)
Fixpoint skip_identical (pl ps : list Z) : list Z * list Z :=
  if (char_at pl 0 =? char_at ps 0) && negb (char_at pl 0 =? NUL) then
    match pl, ps with
    | _ :: pl', _ :: ps' => skip_identical pl' ps'
    | _, _ => (pl, ps)
    end
  else (pl, ps).

(** [while ( *pl == *ps) { ++pl; ++ps; }], the loop without a test for the end
    (lines 3894, 3935, 3948, 4012, 4023): with both pointers at a NUL it moves
    on behind the strings. *)
Fixpoint skip_while_equal (pl ps : list Z) : option (list Z * list Z) :=
  if char_at pl 0 =? char_at ps 0 then
    match pl, ps with
    | _ :: pl', _ :: ps' => skip_while_equal pl' ps'
    | _, _ => None
    end
  else Some (pl, ps).

(** [while ( *pl2 == *ps2) { if ( *pl2 == NUL) return ...; ++pl2; ++ps2; }]
    (lines 3913, 3972, 3992): [inl tt] when the end is reached, else the two
    pointers at the first difference. *)
Fixpoint skip_to_end (pl ps : list Z) : option (unit + list Z * list Z) :=
  if char_at pl 0 =? char_at ps 0 then
    if char_at pl 0 =? NUL then Some (inl tt)
    else
      match pl, ps with
      | _ :: pl', _ :: ps' => skip_to_end pl' ps'
      | _, _ => None
      end
  else Some (inr (pl, ps)).

(** The character ['*'], which the sound folding puts for a vowel at the
    start of a word. *)
Definition STAR : Z := 42.

(** Lines 3834-3859: what the function returns at once, or the score and the
    two pointers it goes on with. *)
Definition soundalike_vowel (goodsound badsound : list Z)
  : option (Z + Z * list Z * list Z) :=
  do b0 <- rd badsound 0; do g0 <- rd goodsound 0;
  if ((b0 =? STAR) || (g0 =? STAR)) && negb (b0 =? g0) then
    do c1 <- (if b0 =? NUL then do g1 <- rd goodsound 1; Some (g1 =? NUL)
              else Some false);
    do c2 <- (if c1 then Some true
              else if g0 =? NUL then do b1 <- rd badsound 1; Some (b1 =? NUL)
              else Some false);
    if c2 then Some (inl SCORE_DEL)
    else if (b0 =? NUL) || (g0 =? NUL) then Some (inl SCORE_MAXMAX)
    else
      do b1 <- rd badsound 1; do g1 <- rd goodsound 1;
      do like_subst <-
        (if b1 =? g1 then Some true
         else if negb (b1 =? NUL) && negb (g1 =? NUL) then
           do b2 <- rd badsound 2; do g2 <- rd goodsound 2; Some (b2 =? g2)
         else Some false);
      if like_subst then Some (inr (0, goodsound, badsound))
      else if b0 =? STAR then
        do badsound <- ptr_add badsound 1;
        Some (inr (Z.quot (2 * SCORE_DEL) 3, goodsound, badsound))
      else
        do goodsound <- ptr_add goodsound 1;
        Some (inr (Z.quot (2 * SCORE_DEL) 3, goodsound, badsound))
  else Some (inr (0, goodsound, badsound)).

(** [case -2: case 2:] (lines 3890-3904). *)
Definition soundalike_two (score : Z) (pl ps : list Z) : option Z :=
  do pl <- ptr_add pl 1;
  do (pl, ps) <- skip_while_equal pl ps;
  do e <- streq_at pl 1 ps 0;
  if e then Some (score + SCORE_DEL * 2) else Some SCORE_MAXMAX.

(** [case -1: case 1:] (lines 3906-3958). *)
Definition soundalike_one (score : Z) (pl ps : list Z) : option Z :=
  do pl2 <- ptr_add pl 1;
  do r <- skip_to_end pl2 ps;
  match r with
  | inl _ => Some (score + SCORE_DEL)
  | inr (pl2, ps2) =>
      do e <- swapped_then_equal pl2 ps2;
      if e then Some (score + SCORE_DEL + SCORE_SWAP) else
      do e <- streq_at pl2 1 ps2 1;
      if e then Some (score + SCORE_DEL + SCORE_SUBST) else
      do sw <- swapped pl ps;
      do e <- (if sw then
                 do pl2 <- ptr_add pl 2; do ps2 <- ptr_add ps 2;
                 do (pl2, ps2) <- skip_while_equal pl2 ps2;
                 streq_at pl2 1 ps2 0
               else Some false);
      if e then Some (score + SCORE_SWAP + SCORE_DEL) else
      do pl2 <- ptr_add pl 1; do ps2 <- ptr_add ps 1;
      do (pl2, ps2) <- skip_while_equal pl2 ps2;
      do e <- streq_at pl2 1 ps2 0;
      if e then Some (score + SCORE_SUBST + SCORE_DEL) else Some SCORE_MAXMAX
  end.

(** Lines 3989-4032 of [case 0:], from ``5: substitute'' on. *)
Definition soundalike_subst (score : Z) (pl ps : list Z) : option Z :=
  do pl2 <- ptr_add pl 1; do ps2 <- ptr_add ps 1;
  do r <- skip_to_end pl2 ps2;
  match r with
  | inl _ => Some (score + SCORE_SUBST)
  | inr (pl2, ps2) =>
      do e <- swapped_then_equal pl2 ps2;
      if e then Some (score + SCORE_SUBST + SCORE_SWAP) else
      do e <- streq_at pl2 1 ps2 1;
      if e then Some (score + SCORE_SUBST + SCORE_SUBST) else
      do ps2 <- ptr_add ps 1;
      do (pl2, ps2) <- skip_while_equal pl ps2;
      do e <- streq_at pl2 1 ps2 0;
      if e then Some (score + SCORE_INS + SCORE_DEL) else
      do pl2 <- ptr_add pl 1;
      do (pl2, ps2) <- skip_while_equal pl2 ps;
      do e <- streq_at pl2 0 ps2 1;
      if e then Some (score + SCORE_INS + SCORE_DEL) else Some SCORE_MAXMAX
  end.

(** [case 0:] (lines 3960-4032). *)
Definition soundalike_same (score : Z) (pl ps : list Z) : option Z :=
  do c <- rd pl 0;
  if c =? NUL then Some score else
  do sw <- swapped pl ps;
  if sw then
    do pl2 <- ptr_add pl 2; do ps2 <- ptr_add ps 2;
    do r <- skip_to_end pl2 ps2;
    match r with
    | inl _ => Some (score + SCORE_SWAP)
    | inr (pl2, ps2) =>
        do e <- swapped_then_equal pl2 ps2;
        if e then Some (score + SCORE_SWAP + SCORE_SWAP) else
        do e <- streq_at pl2 1 ps2 1;
        if e then Some (score + SCORE_SWAP + SCORE_SUBST)
        else soundalike_subst score pl ps
    end
  else soundalike_subst score pl ps.

(** [soundalike_score] (lines 3818-4036). *)
Definition soundalike_score (goodstart badstart : list Z) : option Z :=
  do r <- soundalike_vowel goodstart badstart;
  match r with
  | inl v => Some v
  | inr (score, goodsound, badsound) =>
      let goodlen := Z.of_nat (length goodsound) in
      let badlen := Z.of_nat (length badsound) in
      let n := goodlen - badlen in
      if (n <? -2) || (2 <? n) then Some SCORE_MAXMAX
      else
        let '(pl, ps) := if 0 <? n then (goodsound, badsound)
                         else (badsound, goodsound) in
        let '(pl, ps) := skip_identical pl ps in
        if (n =? -2) || (n =? 2) then soundalike_two score pl ps
        else if (n =? -1) || (n =? 1) then soundalike_one score pl ps
        else soundalike_same score pl ps
  end.

(** ** The sound-alike score of a suggestion: [stp_sal_score] (lines
    3035-3093) *)

Section SalScore.

(** Code outside spellsuggest.c, as in the section of the candidate store. *)
Variable spell_soundfold : slang_T -> list Z -> bool -> list Z.
Variable spell_casefold : list Z -> list Z.
Variable MAXWLEN : Z.

(** [for (p = fword; *(p = skiptowhite(p)) != NUL; ) STRMOVE(p, p + 1);]
    (lines 3070-3071): every blank is moved out of the string. *)
Fixpoint remove_white (p : list Z) : list Z :=
  match p with
  | [] => []
  | c :: r => if VIM_ISWHITE c then remove_white r else c :: remove_white r
  end.

(** [stp_sal_score]; [su] is read at [su_badptr] and [su_badlen]. *)
Definition stp_sal_score (stp : suggest_T) (su_badptr : list Z) (su_badlen : Z)
    (slang : slang_T) (badsound : list Z) : option Z :=
  let lendiff := su_badlen - st_orglen stp in
  let pbad :=
    if 0 <=? lendiff then badsound
    else
      let fword := spell_casefold (take (Z.to_nat (st_orglen stp)) su_badptr) in
      let fword :=
        if VIM_ISWHITE (char_at su_badptr (Z.to_nat su_badlen))
           && (char_at (skiptowhite (st_word stp)) 0 =? NUL)
        then remove_white fword else fword in
      spell_soundfold slang fword true in
  let pgood :=
    if (0 <? lendiff) && (st_wordlen stp + lendiff <? MAXWLEN) then
      strcpy_at (st_word stp) (st_wordlen stp)
                (take (Z.to_nat lendiff)
                      (drop (Z.to_nat (su_badlen - lendiff)) su_badptr))
    else st_word stp in
  let goodsound := spell_soundfold slang pgood false in
  soundalike_score goodsound pbad.

End SalScore.

(** ** The option 'spellsuggest': [spell_check_sps] (lines 400-455)

    [copy_option_part] and [getdigits] are declared outside spellsuggest.c.
    The option is given as the parts [copy_option_part] cuts it into at the
    commas, one for every turn of the loop; [getdigits] gives the number a
    string starts with and the string behind the number. *)

(** [VIM_ISDIGIT] is a macro declared outside spellsuggest.c: an ASCII
    digit. *)
Definition VIM_ISDIGIT (c : Z) : bool := (48 <=? c) && (c <=? 57).

Definition str_best : list Z := [98; 101; 115; 116].
Definition str_fast : list Z := [102; 97; 115; 116].
Definition str_double : list Z := [100; 111; 117; 98; 108; 101].
Definition str_expr : list Z := [101; 120; 112; 114; 58].
Definition str_file : list Z := [102; 105; 108; 101; 58].
Definition str_timeout : list Z := [116; 105; 109; 101; 111; 117; 116; 58].

Section CheckSps.

Variable getdigits : list Z -> Z * list Z.

(** Lines 419-439: [f] and [sps_limit] after them. *)
Definition sps_part (sps_limit : Z) (buf : list Z) : Z * Z :=
  if VIM_ISDIGIT (char_at buf 0) then
    let '(n, s) := getdigits buf in
    if negb (char_at s 0 =? NUL) && negb (VIM_ISDIGIT (char_at s 0))
    then (-1, n) else (0, n)
  else if strcmp_eq buf str_best then (SPS_BEST, sps_limit)
  else if strcmp_eq buf str_fast then (SPS_FAST, sps_limit)
  else if strcmp_eq buf str_double then (SPS_DOUBLE, sps_limit)
  else if negb (strncmp_eq buf str_expr 5)
          && negb (strncmp_eq buf str_file 5)
          && (negb (strncmp_eq buf str_timeout 8)
              || (negb (VIM_ISDIGIT (char_at buf 8))
                  && negb ((char_at buf 8 =? 45) && VIM_ISDIGIT (char_at buf 9))))
  then (-1, sps_limit)
  else (0, sps_limit).

(** The loop (lines 415-449) on [sps_flags] and [sps_limit]: [None] when it
    leaves with [return FAIL]. *)
Fixpoint check_sps_loop (sps_flags sps_limit : Z) (parts : list (list Z))
  : option (Z * Z) :=
  match parts with
  | [] => Some (sps_flags, sps_limit)
  | buf :: rest =>
      let '(f, sps_limit) := sps_part sps_limit buf in
      if (f =? -1) || (negb (sps_flags =? 0) && negb (f =? 0)) then None
      else check_sps_loop (if negb (f =? 0) then f else sps_flags) sps_limit rest
  end.

(** [spell_check_sps]: whether it returns OK, and [sps_flags] and
    [sps_limit] as it leaves them. *)
Definition spell_check_sps (parts : list (list Z)) : bool * Z * Z :=
  match check_sps_loop 0 9999 parts with
  | None => (false, SPS_BEST, 9999)
  | Some (sps_flags, sps_limit) =>
      (true, if sps_flags =? 0 then SPS_BEST else sps_flags, sps_limit)
  end.

End CheckSps.

(** ** The number of a sound-folded word: [soundfold_find] (lines 3407-3476)

    The function goes down the tree of sound-folded words, which is the two
    arrays [sl_sbyts] and [sl_sidxs]; an index it reads them at comes from
    the arrays themselves.  A read outside an array gives [None], which the
    function then returns.  The word is read up to its NUL only. *)

(** [a[i]]. *)
Definition arr_at (a : list Z) (i : Z) : option Z :=
  if i <? 0 then None else a !! Z.to_nat i.

Definition TAB : Z := 9.
Definition SPACE : Z := 32.

(** [while (ptr[wlen] == ' ' || ptr[wlen] == TAB) ++wlen;] (lines 3470-3471),
    with [ptr + wlen] for the pointer and the index. *)
Fixpoint skip_blanks (ptr : list Z) : list Z :=
  match ptr with
  | c :: rest => if (c =? SPACE) || (c =? TAB) then skip_blanks rest else ptr
  | [] => []
  end.

(** [while (len > 0 && byts[arridx] == NUL) { ++arridx; --len; }] (lines
    3436-3440); [len] bounds the turns. *)
Fixpoint skip_nul_bytes (byts : list Z) (fuel : nat) (arridx len : Z)
  : option (Z * Z) :=
  if len <=? 0 then Some (arridx, len)
  else
    match fuel with
    | O => None
    | S fuel =>
        do b <- arr_at byts arridx;
        if b =? NUL then skip_nul_bytes byts fuel (arridx + 1) (len - 1)
        else Some (arridx, len)
    end.

(** [while (byts[arridx] < c) { wordnr += idxs[idxs[arridx]]; ++arridx;
    if (--len == 0) return -1; }] (lines 3452-3459): [Some None] for the
    [return], else [arridx] and [wordnr].  [arridx] goes up in every turn, so
    the loop comes to the end of [byts] at the latest; the length of [byts]
    bounds the turns. *)
Fixpoint find_byte (byts idxs : list Z) (fuel : nat) (c arridx len wordnr : Z)
  : option (option (Z * Z)) :=
  do b <- arr_at byts arridx;
  if b <? c then
    match fuel with
    | O => None
    | S fuel =>
        do child <- arr_at idxs arridx;
        do count <- arr_at idxs child;
        if len - 1 =? 0 then Some None
        else find_byte byts idxs fuel c (arridx + 1) (len - 1) (wordnr + count)
    end
  else Some (Some (arridx, wordnr)).

(** The loop [for (;;)] (lines 3422-3473) from [arridx], [wordnr] and
    [ptr + wlen] on.  Every turn that does not end the loop moves on in the
    word, whose length bounds the turns. *)
Fixpoint soundfold_find_loop (byts idxs : list Z) (fuel : nat)
    (arridx wordnr : Z) (ptr : list Z) : option Z :=
  match fuel with
  | O => None
  | S fuel =>
      do len <- arr_at byts arridx;
      let arridx := arridx + 1 in
      let c := char_at ptr 0 in
      do b <- arr_at byts arridx;
      do r <- (if b =? NUL then
                 if c =? NUL then Some (inl wordnr)
                 else
                   do (arridx, len) <- skip_nul_bytes byts (Z.to_nat len) arridx len;
                   if len =? 0 then Some (inl (-1))
                   else Some (inr (arridx, len, wordnr + 1))
               else Some (inr (arridx, len, wordnr)));
      match r with
      | inl v => Some v
      | inr (arridx, len, wordnr) =>
          if c =? NUL then Some (-1)
          else
            let c := if c =? TAB then SPACE else c in
            do r <- find_byte byts idxs (length byts) c arridx len wordnr;
            match r with
            | None => Some (-1)
            | Some (arridx, wordnr) =>
                do b <- arr_at byts arridx;
                if negb (b =? c) then Some (-1)
                else
                  do arridx <- arr_at idxs arridx;
                  let ptr := drop 1 ptr in
                  let ptr := if c =? SPACE then skip_blanks ptr else ptr in
                  soundfold_find_loop byts idxs fuel arridx wordnr ptr
            end
      end
  end.

(** [soundfold_find] (lines 3407-3476), with [byts] for [slang->sl_sbyts]
    and [idxs] for [slang->sl_sidxs]. *)
Definition soundfold_find (byts idxs : list Z) (word : list Z) : option Z :=
  soundfold_find_loop byts idxs (S (length word)) 0 0 word.

(** ** The word of a number: the lookup in [add_sound_suggest] (lines
    3271-3307)

    For a number from the line of the .sug file, [add_sound_suggest] goes
    down the tree of the words, the arrays [sl_fbyts] and [sl_fidxs], to
    the word with that number, and puts its bytes in [theword]. *)

(** [for ( ; byts[n + i] == NUL; ++i) if (i > byts[n]) goto badword;] (lines
    3289-3295): [false] for the [goto], and [i].  [n + i] goes up in every
    turn, so the loop comes to the end of [byts] at the latest. *)
Fixpoint skip_nul_safely (byts : list Z) (fuel : nat) (n i : Z) : option (bool * Z) :=
  do b <- arr_at byts (n + i);
  if b =? NUL then
    do len <- arr_at byts n;
    if len <? i then Some (false, i)
    else
      match fuel with
      | O => None
      | S fuel => skip_nul_safely byts fuel n (i + 1)
      end
  else Some (true, i).

(** [for ( ; i < byts[n]; ++i) { wc = idxs[idxs[n + i]]; if (wordcount + wc
    > orgnr) break; wordcount += wc; }] (lines 3298-3304): [i] and
    [wordcount].  [n + i] goes up in every turn, so the loop comes to the
    end of [idxs] at the latest. *)
Fixpoint pick_sibling (byts idxs : list Z) (fuel : nat) (orgnr n i wordcount : Z)
  : option (Z * Z) :=
  do len <- arr_at byts n;
  if i <? len then
    do child <- arr_at idxs (n + i);
    do wc <- arr_at idxs child;
    if orgnr <? wordcount + wc then Some (i, wordcount)
    else
      match fuel with
      | O => None
      | S fuel => pick_sibling byts idxs fuel orgnr n (i + 1) (wordcount + wc)
      end
  else Some (i, wordcount).

(** The letters of ``BAD'' (line 3292). *)
Definition str_BAD : list Z := [66; 65; 68].

(** [for (wlen = 0; wlen < MAXWLEN - 3; ++wlen)] (lines 3279-3308) for the
    [fuel] turns that are left: the bytes put in [theword], [n] and [i]. *)
Fixpoint word_of_number_loop (byts idxs : list Z) (fuel : nat)
    (orgnr n wordcount : Z) (theword : list Z) (i : Z)
  : option (list Z * Z * Z) :=
  match fuel with
  | O => Some (theword, n, i)
  | S fuel =>
      do b1 <- arr_at byts (n + 1);
      if (wordcount =? orgnr) && (b1 =? NUL) then Some (theword, n, 1)
      else
        let wordcount := if b1 =? NUL then wordcount + 1 else wordcount in
        do (ok, i) <- skip_nul_safely byts (length byts) n 1;
        if ok then
          do (i, wordcount) <- pick_sibling byts idxs (length idxs) orgnr n i wordcount;
          do b <- arr_at byts (n + i);
          do child <- arr_at idxs (n + i);
          word_of_number_loop byts idxs fuel orgnr child wordcount (theword ++ [b]) i
        else Some (theword ++ str_BAD, n, i)
  end.

(** Lines 3276-3309 of [add_sound_suggest]: the bytes put in [theword],
    before the NUL that is put behind them, and [n] and [i] as the loop over
    the flags finds them.  With [MAXWLEN] not above 3 the first loop would
    not be entered and [i] not be set. *)
Definition word_of_number (byts idxs : list Z) (MAXWLEN orgnr : Z)
  : option (list Z * Z * Z) :=
  if MAXWLEN - 3 <=? 0 then None
  else word_of_number_loop byts idxs (Z.to_nat (MAXWLEN - 3)) orgnr 0 0 [] 1.

(** ** The words of a sound-folded word: [add_sound_suggest] (lines
    3206-3402)

    The function is given a sound-folded word that a walk has come to and
    the score of the walk.  It remembers in the table [sl_sounddone] with
    what score it has seen the word; it finds the number of the word in the
    tree of the sound-folded words, reads in the line of that number of the
    .sug file the numbers of the words that fold to it, looks each of them
    up in the tree of the words, and adds it to the suggestions for every
    combination of flags it is in the tree with. *)

(** The fields of [slang_T] the function reads that the record above leaves
    out: the two trees, the lines of [sl_sugbuf] (a line as [ml_get_buf]
    gives it, without its NUL) and [sl_wordcount] (the count of a word,
    [None] when it has none). *)
Record sugdata_T := {
  sl_sbyts : list Z;
  sl_sidxs : list Z;
  sl_fbyts : list Z;
  sl_fidxs : list Z;
  sl_sugbuf : Z -> list Z;
  sl_wordcount : list Z -> option Z
}.

(** [sft_score] is a [short]: what the assignment of an [int] leaves. *)
Definition short_of (v : Z) : Z := (v + 32768) mod 65536 - 32768.

(** [hash_lookup]: the score the table has for the word. *)
Fixpoint sft_find (done : sounddone_T) (word : list Z) : option Z :=
  match done with
  | [] => None
  | (w, s) :: rest => if strcmp_eq w word then Some s else sft_find rest word
  end.

(** [sft->sft_score = score] for the entry of the word, which is added when
    the table has none. *)
Fixpoint sft_set (done : sounddone_T) (word : list Z) (score : Z) : sounddone_T :=
  match done with
  | [] => [(word, short_of score)]
  | (w, s) :: rest =>
      if strcmp_eq w word then (w, short_of score) :: rest
      else (w, s) :: sft_set rest word score
  end.

(** A buffer read as a string: the bytes before the first NUL. *)
Fixpoint until_nul (s : list Z) : list Z :=
  match s with
  | [] => []
  | c :: rest => if c =? NUL then [] else c :: until_nul rest
  end.

Section AddSoundSuggest.

(** Code outside spellsuggest.c, as for [add_suggestion] above, and the
    flags of a word, which spell.h defines. *)
Variable TOLOWER_LOC : Z -> Z.
Variable spell_soundfold : slang_T -> list Z -> bool -> list Z.
Variable sal_score : suggest_T -> list Z -> Z -> slang_T -> list Z -> Z.
Variable has_mbyte : bool.
Variable mb_head_off : list Z -> Z -> Z.
Variable mb_ptr2char : list Z -> Z.
Variable make_case_word : list Z -> Z -> list Z.
Variable SPELL_ISUPPER : Z -> bool.
Variable SPELL_TOFOLD : Z -> Z.
Variable MAXWLEN : Z.
Variables WF_REGION WF_KEEPCAP WF_NOSUGGEST WF_CAPMASK : Z.

(** [find_keepcap_word] (lines 2725-2867) looks the word up in the tree of
    the words that keep their case; it is left open here. *)
Variable find_keepcap_word : slang_T -> list Z -> list Z.

Variable sps_flags : Z.
Variable sd : sugdata_T.

(** Lines 3355-3372: the penalty for a word of another region and for a
    first letter that is made upper case. *)
Definition sound_word_penalty (su : suginfo_T) (lp : langp_T) (p : list Z)
    (flags : Z) : Z :=
  let goodscore :=
    if negb (Z.land flags WF_REGION =? 0)
       && (Z.land (Z.shiftr (flags mod 2 ^ 32) 16) (lp_region lp) =? 0)
    then SCORE_REGION else 0 in
  let gc := char_at p 0 in
  if SPELL_ISUPPER gc then
    let bc := char_at (su_badword su) 0 in
    if negb (SPELL_ISUPPER bc) && negb (SPELL_TOFOLD bc =? SPELL_TOFOLD gc)
    then goodscore + Z.quot SCORE_ICASE 2
    else goodscore
  else goodscore.

(** Lines 3341-3397: the suggestion for the word [p] that is in the tree
    with [flags]; [None] when [spell_edit_score_limit] writes behind its
    stack. *)
Definition add_sound_word (su : suginfo_T) (lp : langp_T) (p : list Z)
    (flags score : Z) : option suginfo_T :=
  let slang := lp_slang lp in
  if negb (Z.land sps_flags SPS_DOUBLE =? 0) then
    if score <=? su_maxscore su then
      Some (add_suggestion TOLOWER_LOC spell_soundfold sal_score has_mbyte
              mb_head_off mb_ptr2char su SGA p (su_badlen su) score 0 false
              (Some slang) false)
    else Some su
  else
    let goodscore := sound_word_penalty su lp p flags in
    let limit := MAXSCORE (su_sfmaxscore su - goodscore) score in
    do edit <- (if SCORE_LIMITMAX <? limit
                then Some (spell_edit_score SPELL_TOFOLD (Some slang) (su_badword su) p)
                else spell_edit_score_limit SPELL_TOFOLD (Some slang)
                       (su_badword su) p limit);
    let goodscore := goodscore + edit in
    if goodscore <? SCORE_MAXMAX then
      let goodscore := score_wordcount_adj (sl_wordcount sd p) goodscore false in
      let goodscore := RESCORE goodscore score in
      if goodscore <=? su_sfmaxscore su then
        Some (add_suggestion TOLOWER_LOC spell_soundfold sal_score has_mbyte
                mb_head_off mb_ptr2char su GA p (su_badlen su) goodscore score
                true (Some slang) true)
      else Some su
    else Some su.

(** [for (; i <= byts[n] && byts[n + i] == NUL; ++i)] (lines 3312-3398),
    the loop over the flags the word is in the tree with.  [n + i] goes up
    in every turn, so the loop comes to the end of [byts] at the latest. *)
Fixpoint sound_flags_loop (fuel : nat) (su : suginfo_T) (lp : langp_T)
    (theword : list Z) (score n i : Z) : option suginfo_T :=
  do len <- arr_at (sl_fbyts sd) n;
  if i <=? len then
    do b <- arr_at (sl_fbyts sd) (n + i);
    if b =? NUL then
      match fuel with
      | O => None
      | S fuel =>
          do flags <- arr_at (sl_fidxs sd) (n + i);
          do su <-
            (if negb (Z.land flags WF_NOSUGGEST =? 0) then Some su
             else if negb (Z.land flags WF_KEEPCAP =? 0) then
               add_sound_word su lp (find_keepcap_word (lp_slang lp) theword)
                              flags score
             else
               let flags := Z.lor flags (su_badflags su) in
               if negb (Z.land flags WF_CAPMASK =? 0) then
                 add_sound_word su lp (make_case_word theword flags) flags score
               else add_sound_word su lp theword flags score);
          sound_flags_loop fuel su lp theword score n (i + 1)
      end
    else Some su
  else Some su.

(** [while ( *nrline != NUL)] (lines 3267-3401), the loop over the numbers
    of the line; every number takes a byte of the line at least, so the
    length of the line bounds the turns. *)
Fixpoint sound_numbers_loop (fuel : nat) (su : suginfo_T) (lp : langp_T)
    (score : Z) (nrline : list Z) (orgnr : Z) : option suginfo_T :=
  if char_at nrline 0 =? NUL then Some su
  else
    match fuel with
    | O => None
    | S fuel =>
        do (off, nrline) <- bytes2offset nrline;
        let orgnr := orgnr + off in
        do (theword, n, i) <- word_of_number (sl_fbyts sd) (sl_fidxs sd) MAXWLEN orgnr;
        do su <- sound_flags_loop (length (sl_fbyts sd)) su lp (until_nul theword)
                                  score n i;
        sound_numbers_loop fuel su lp score nrline orgnr
    end.

(** [add_sound_suggest] (lines 3206-3402), with the allocation succeeding:
    [su] and the table [sl_sounddone] afterwards. *)
Definition add_sound_suggest (done : sounddone_T) (su : suginfo_T)
    (goodword : list Z) (score : Z) (lp : langp_T)
  : option (suginfo_T * sounddone_T) :=
  let seen := match sft_find done goodword with
              | None => false
              | Some s => s <=? score
              end in
  if seen then Some (su, done)
  else
    let done := sft_set done goodword score in
    do sfwordnr <- soundfold_find (sl_sbyts sd) (sl_sidxs sd) goodword;
    if sfwordnr <? 0 then Some (su, done)
    else
      let nrline := sl_sugbuf sd (sfwordnr + 1) in
      do su <- sound_numbers_loop (length nrline) su lp score nrline 0;
      Some (su, done).

End AddSoundSuggest.

(** ** The walks for the sound-folded bad word:
    [suggest_try_soundalike_prep], [suggest_try_soundalike] and
    [suggest_try_soundalike_finish] (lines 3110-3200)

    [spell_suggest_intern] walks the trees of the sound-folded words up to
    three times, with a higher [su_maxscore] each time.  A walk hands every
    sound-folded word it comes to to [add_sound_suggest], which keeps in the
    table [sl_sounddone] of the language the words it has handled; the
    tables are emptied before the first of the walks and after the last. *)

(** The table of the language with the address [id] among the tables that
    go with [su]; a language that is not among them has an empty table. *)
Fixpoint sounddone_of (tabs : list (nat * sounddone_T)) (id : nat) : sounddone_T :=
  match tabs with
  | [] => []
  | (i, t) :: rest => if Nat.eqb i id then t else sounddone_of rest id
  end.

(** The tables with the table [t] for the language with the address [id]. *)
Fixpoint sounddone_put (tabs : list (nat * sounddone_T)) (id : nat) (t : sounddone_T)
  : list (nat * sounddone_T) :=
  match tabs with
  | [] => [(id, t)]
  | (i, t0) :: rest =>
      if Nat.eqb i id then (i, t) :: rest else (i, t0) :: sounddone_put rest id t
  end.

Section Soundalike.

(** Code outside spellsuggest.c, as above. *)
Variable TOLOWER_LOC : Z -> Z.
Variable spell_soundfold : slang_T -> list Z -> bool -> list Z.
Variable sal_score : suggest_T -> list Z -> Z -> slang_T -> list Z -> Z.
Variable has_mbyte : bool.
Variable mb_head_off : list Z -> Z -> Z.
Variable mb_ptr2char : list Z -> Z.
Variable make_case_word : list Z -> Z -> list Z.
Variable captype : list Z -> Z.
Variable SPELL_ISUPPER : Z -> bool.
Variable SPELL_TOFOLD : Z -> Z.
Variable MAXWLEN : Z.
Variables WF_ONECAP WF_ALLCAP WF_KEEPCAP WF_REGION WF_NOSUGGEST WF_CAPMASK : Z.
Variable find_keepcap_word : slang_T -> list Z -> list Z.

(** The global [sps_flags], which [add_sound_suggest] reads. *)
Variable sps_flags : Z.

(** The fields of [lp->lp_slang] that [slang_T] above leaves out: the trees
    and the .sug file, and whether the tree of the sound-folded words is
    there ([sl_sbyts != NULL]). *)
Variable sugdata : langp_T -> sugdata_T.
Variable has_sbyts : langp_T -> bool.

(** [add_sound_suggest(su, goodword, score, lp)] as a walk calls it: the
    table is that of [lp->lp_slang].  The function gives nothing when it
    reads behind an array or writes behind the stack of
    [spell_edit_score_limit]; C leaves open what comes of that, and [su] is
    taken to stay as it was. *)
Definition add_sound_suggest_su (su : suginfo_T) (goodword : list Z) (score : Z)
    (lp : langp_T) : suginfo_T :=
  let id := sl_id (lp_slang lp) in
  match add_sound_suggest TOLOWER_LOC spell_soundfold sal_score has_mbyte
          mb_head_off mb_ptr2char make_case_word SPELL_ISUPPER SPELL_TOFOLD
          MAXWLEN WF_REGION WF_KEEPCAP WF_NOSUGGEST WF_CAPMASK find_keepcap_word
          sps_flags (sugdata lp) (sounddone_of (su_sounddone su) id) su goodword
          score lp with
  | Some (su', done) =>
      set_su_sounddone su' (sounddone_put (su_sounddone su') id done)
  | None => su
  end.

(** The languages the three functions are for (lines 3121, 3147 and 3183):
    [slang->sl_sal.ga_len > 0 && slang->sl_sbyts != NULL]. *)
Definition folds_sounds (lp : langp_T) : bool :=
  (0 <? sl_sal_len (lp_slang lp)) && has_sbyts lp.

(** [suggest_try_soundalike_prep] (lines 3110-3127): [hash_init] leaves an
    empty table. *)
Definition suggest_try_soundalike_prep (langs : list langp_T) (su : suginfo_T)
  : suginfo_T :=
  fold_left (fun su lp =>
               if folds_sounds lp
               then set_su_sounddone su
                      (sounddone_put (su_sounddone su) (sl_id (lp_slang lp)) [])
               else su)
            langs su.

(** [suggest_try_soundalike] (lines 3133-3164).  [salword], the sound-folded
    bad word, is read by the walk only, which has what it reads handed to
    it: the walk for the language [lpi] reads [os lpi]. *)
Definition suggest_try_soundalike (os : nat -> list walk_obs)
    (langs : list langp_T) (su : suginfo_T) : suginfo_T :=
  fold_left (fun su lpi =>
               match langs !! lpi with
               | Some lp =>
                   if folds_sounds lp
                   then w_su (suggest_trie_walk TOLOWER_LOC spell_soundfold sal_score
                                has_mbyte mb_head_off mb_ptr2char make_case_word
                                captype SPELL_ISUPPER MAXWLEN WF_ONECAP WF_ALLCAP
                                WF_KEEPCAP add_sound_suggest_su lp true su (os lpi))
                   else su
               | None => su
               end)
            (seq 0 (length langs)) su.

(** [suggest_try_soundalike_finish] (lines 3169-3200) frees the words of
    the tables and leaves the tables empty, as
    [suggest_try_soundalike_prep] does. *)
Definition suggest_try_soundalike_finish (langs : list langp_T) (su : suginfo_T)
  : suginfo_T :=
  suggest_try_soundalike_prep langs su.

(** The call number [n] of [suggest_try_soundalike] in
    [spell_suggest_intern] (lines 1040-1060), which reads [os n]:
    [suggest_try_soundalike_prep] comes before the first call, and before
    the two assignments to [su] ahead of it, which it has nothing in
    common with.  [suggest_try_soundalike_finish] comes after the last
    call; what it empties nothing reads before the next
    [suggest_try_soundalike_prep] empties it again, and it is left out
    here. *)
Definition suggest_try_soundalike_call (os : nat -> nat -> list walk_obs)
    (langs : list langp_T) (n : nat) (su : suginfo_T) : suginfo_T :=
  let su := match n with
            | O => suggest_try_soundalike_prep langs su
            | S _ => su
            end in
  suggest_try_soundalike (os n) langs su.

End Soundalike.

(** * More of the code: what it guarantees *)

(** ** [soundalike_score] *)

(** *** Reads and moves inside a string *)

Lemma rd_ok (p : list Z) (i : nat) :
  (i <= length p)%nat -> rd p i = Some (char_at p i).
Proof.
  intros H. unfold rd. destruct (Nat.leb_spec i (length p)); [reflexivity|lia].
Qed.

Lemma ptr_add_ok (p : list Z) (i : nat) :
  (i <= length p)%nat -> ptr_add p i = Some (drop i p).
Proof.
  intros H. unfold ptr_add. destruct (Nat.leb_spec i (length p)); [reflexivity|lia].
Qed.

Lemma streq_at_ok (p : list Z) (i : nat) (q : list Z) (j : nat) :
  (i <= length p)%nat -> (j <= length q)%nat ->
  streq_at p i q j = Some (strcmp_eq (drop i p) (drop j q)).
Proof.
  intros Hi Hj. unfold streq_at. rewrite !ptr_add_ok by assumption. reflexivity.
Qed.

Lemma cstring_drop (p : list Z) (i : nat) : cstring p -> cstring (drop i p).
Proof. unfold cstring. apply Forall_drop. Qed.

Lemma cstring_app_r (p q : list Z) : cstring (p ++ q) -> cstring q.
Proof. unfold cstring. rewrite Forall_app. tauto. Qed.

Lemma cstring_head (p : list Z) : cstring p -> char_at p 0 = NUL -> p = [].
Proof.
  intros Hp H. apply char_at_NUL in H; [|exact Hp].
  destruct p; [reflexivity|simpl in H; lia].
Qed.

Lemma strcmp_eq_sym (a b : list Z) : strcmp_eq a b = strcmp_eq b a.
Proof.
  revert b. induction a as [|x a IH]; intros [|y b]; simpl; try reflexivity.
  rewrite IH, Z.eqb_sym. reflexivity.
Qed.

Lemma strcmp_eq_refl (a : list Z) : strcmp_eq a a = true.
Proof. apply strcmp_eq_iff. reflexivity. Qed.

Lemma strcmp_eq_length (a b : list Z) :
  strcmp_eq a b = true -> length a = length b.
Proof. intros H. apply strcmp_eq_iff in H. subst. reflexivity. Qed.

(** *** The three loops *)

(** The loops on the shapes of their arguments. *)
Lemma skip_identical_nil_l (ps : list Z) : skip_identical [] ps = ([], ps).
Proof.
  destruct ps as [|y ps]; [reflexivity|].
  change (skip_identical [] (y :: ps))
    with (if (NUL =? y) && negb (NUL =? NUL) then (@nil Z, y :: ps) else (@nil Z, y :: ps)).
  destruct ((NUL =? y) && negb (NUL =? NUL)); reflexivity.
Qed.

Lemma skip_identical_nil_r (pl : list Z) : skip_identical pl [] = (pl, []).
Proof.
  destruct pl as [|x pl]; [reflexivity|].
  change (skip_identical (x :: pl) [])
    with (if (x =? NUL) && negb (x =? NUL) then (x :: pl, @nil Z) else (x :: pl, @nil Z)).
  destruct ((x =? NUL) && negb (x =? NUL)); reflexivity.
Qed.

Lemma skip_identical_cons (x y : Z) (pl ps : list Z) :
  skip_identical (x :: pl) (y :: ps)
  = if (x =? y) && negb (x =? NUL) then skip_identical pl ps
    else (x :: pl, y :: ps).
Proof. reflexivity. Qed.

Lemma skip_while_equal_cons (x y : Z) (pl ps : list Z) :
  skip_while_equal (x :: pl) (y :: ps)
  = if x =? y then skip_while_equal pl ps else Some (x :: pl, y :: ps).
Proof. reflexivity. Qed.

Lemma skip_while_equal_nil_l (y : Z) (ps : list Z) :
  y <> NUL -> skip_while_equal [] (y :: ps) = Some ([], y :: ps).
Proof.
  intros H.
  change (skip_while_equal [] (y :: ps))
    with (if NUL =? y then @None (list Z * list Z) else Some (@nil Z, y :: ps)).
  destruct (Z.eqb_spec NUL y); [congruence|reflexivity].
Qed.

Lemma skip_while_equal_nil_r (x : Z) (pl : list Z) :
  x <> NUL -> skip_while_equal (x :: pl) [] = Some (x :: pl, []).
Proof.
  intros H.
  change (skip_while_equal (x :: pl) [])
    with (if x =? NUL then @None (list Z * list Z) else Some (x :: pl, @nil Z)).
  destruct (Z.eqb_spec x NUL); [congruence|reflexivity].
Qed.

Lemma skip_to_end_cons (x y : Z) (pl ps : list Z) :
  skip_to_end (x :: pl) (y :: ps)
  = if x =? y then if x =? NUL then Some (inl tt) else skip_to_end pl ps
    else Some (inr (x :: pl, y :: ps)).
Proof. reflexivity. Qed.

Lemma skip_to_end_nil_l (y : Z) (ps : list Z) :
  y <> NUL -> skip_to_end [] (y :: ps) = Some (inr ([], y :: ps)).
Proof.
  intros H.
  change (skip_to_end [] (y :: ps))
    with (if NUL =? y then if NUL =? NUL then Some (inl tt) else None
          else Some (@inr unit _ (@nil Z, y :: ps))).
  destruct (Z.eqb_spec NUL y); [congruence|reflexivity].
Qed.

Lemma skip_to_end_nil_r (x : Z) (pl : list Z) :
  x <> NUL -> skip_to_end (x :: pl) [] = Some (inr (x :: pl, [])).
Proof.
  intros H.
  change (skip_to_end (x :: pl) [])
    with (if x =? NUL then if x =? NUL then Some (inl tt) else None
          else Some (@inr unit _ (x :: pl, @nil Z))).
  destruct (Z.eqb_spec x NUL); [congruence|reflexivity].
Qed.

Lemma char_at_0_cons (x : Z) (p : list Z) : char_at (x :: p) 0 = x.
Proof. reflexivity. Qed.

Lemma char_at_0_nil : char_at [] 0 = NUL.
Proof. reflexivity. Qed.

(** On C strings the first loop takes the longest common start off both. *)
Lemma skip_identical_spec (pl ps : list Z) :
  cstring pl -> cstring ps ->
  exists pre,
    pl = pre ++ (skip_identical pl ps).1 /\
    ps = pre ++ (skip_identical pl ps).2 /\
    (char_at (skip_identical pl ps).1 0 <> char_at (skip_identical pl ps).2 0 \/
     ((skip_identical pl ps).1 = [] /\ (skip_identical pl ps).2 = [])).
Proof.
  revert ps. induction pl as [|x pl IH]; intros ps Hl Hs.
  - exists []. rewrite skip_identical_nil_l. cbn [fst snd app].
    split; [reflexivity|]. split; [reflexivity|].
    destruct ps as [|y ps]; [right; split; reflexivity|].
    apply Forall_cons in Hs. destruct Hs as [Hy _].
    left. rewrite char_at_0_cons, char_at_0_nil. congruence.
  - apply Forall_cons in Hl. destruct Hl as [Hx Hl].
    destruct ps as [|y ps].
    + exists []. rewrite skip_identical_nil_r. cbn [fst snd app].
      split; [reflexivity|]. split; [reflexivity|]. left.
      rewrite char_at_0_cons, char_at_0_nil. exact Hx.
    + apply Forall_cons in Hs. destruct Hs as [Hy Hs].
      rewrite skip_identical_cons.
      destruct (Z.eqb_spec x y) as [E|E].
      * destruct (Z.eqb_spec x NUL) as [E'|E']; [congruence|]. cbn [andb negb].
        destruct (IH ps Hl Hs) as (pre & H1 & H2 & H3).
        exists (x :: pre). subst y. cbn [app].
        split; [f_equal; exact H1|]. split; [f_equal; exact H2|]. exact H3.
      * cbn [andb fst snd]. exists []. split; [reflexivity|]. split; [reflexivity|].
        left. rewrite !char_at_0_cons. exact E.
Qed.

Lemma skip_identical_sym (pl ps : list Z) :
  skip_identical ps pl = ((skip_identical pl ps).2, (skip_identical pl ps).1).
Proof.
  revert ps. induction pl as [|x pl IH]; intros ps.
  - rewrite skip_identical_nil_l, skip_identical_nil_r. reflexivity.
  - destruct ps as [|y ps].
    + rewrite skip_identical_nil_l, skip_identical_nil_r. reflexivity.
    + rewrite !skip_identical_cons. rewrite (Z.eqb_sym y x).
      destruct (Z.eqb_spec x y) as [E|E]; cbn [andb]; [|reflexivity].
      subst y. destruct (x =? NUL); cbn [negb]; [reflexivity|]. apply IH.
Qed.

(** What the first loop leaves has the lengths of the strings less the common
    start. *)
Lemma skip_identical_length (pl ps : list Z) :
  cstring pl -> cstring ps ->
  cstring (skip_identical pl ps).1 /\ cstring (skip_identical pl ps).2 /\
  (length pl - length (skip_identical pl ps).1
   = length ps - length (skip_identical pl ps).2)%nat /\
  (length (skip_identical pl ps).1 <= length pl)%nat /\
  (length (skip_identical pl ps).2 <= length ps)%nat.
Proof.
  intros Hl Hs. destruct (skip_identical_spec pl ps Hl Hs) as (pre & H1 & H2 & _).
  split; [apply (cstring_app_r pre); rewrite <- H1; exact Hl|].
  split; [apply (cstring_app_r pre); rewrite <- H2; exact Hs|].
  apply (f_equal (@length Z)) in H1, H2. rewrite length_app in H1, H2. lia.
Qed.

(** The loop without a test for the end stays inside two C strings of
    different lengths, and does what the first loop does. *)
Lemma skip_while_equal_ok (pl ps : list Z) :
  cstring pl -> cstring ps -> length pl <> length ps ->
  skip_while_equal pl ps = Some (skip_identical pl ps).
Proof.
  revert ps. induction pl as [|x pl IH]; intros ps Hl Hs Hlen.
  - destruct ps as [|y ps]; [simpl in Hlen; lia|].
    apply Forall_cons in Hs. destruct Hs as [Hy _].
    rewrite skip_while_equal_nil_l, skip_identical_nil_l by exact Hy. reflexivity.
  - apply Forall_cons in Hl. destruct Hl as [Hx Hl].
    destruct ps as [|y ps].
    + rewrite skip_while_equal_nil_r, skip_identical_nil_r by exact Hx. reflexivity.
    + apply Forall_cons in Hs. destruct Hs as [Hy Hs].
      rewrite skip_while_equal_cons, skip_identical_cons.
      destruct (Z.eqb_spec x y) as [E|E]; cbn [andb]; [|reflexivity].
      destruct (Z.eqb_spec x NUL) as [E'|E']; [congruence|]. cbn [negb].
      apply IH; [assumption..|]. simpl in Hlen. lia.
Qed.

(** The loop with the test for the end stays inside two C strings. *)
Lemma skip_to_end_ok (pl ps : list Z) :
  cstring pl -> cstring ps ->
  skip_to_end pl ps
  = Some (if strcmp_eq pl ps then inl tt else inr (skip_identical pl ps)).
Proof.
  revert ps. induction pl as [|x pl IH]; intros ps Hl Hs.
  - destruct ps as [|y ps]; [reflexivity|].
    apply Forall_cons in Hs. destruct Hs as [Hy _].
    rewrite skip_to_end_nil_l, skip_identical_nil_l by exact Hy. reflexivity.
  - apply Forall_cons in Hl. destruct Hl as [Hx Hl].
    destruct ps as [|y ps].
    + rewrite skip_to_end_nil_r, skip_identical_nil_r by exact Hx. reflexivity.
    + apply Forall_cons in Hs. destruct Hs as [Hy Hs].
      rewrite skip_to_end_cons, skip_identical_cons. cbn [strcmp_eq].
      destruct (Z.eqb_spec x y) as [E|E]; cbn [andb]; [|reflexivity].
      destruct (Z.eqb_spec x NUL) as [E'|E']; [congruence|]. cbn [negb].
      apply IH; assumption.
Qed.

Lemma skip_identical_facts (pl ps : list Z) :
  cstring pl -> cstring ps ->
  cstring (skip_identical pl ps).1 /\ cstring (skip_identical pl ps).2 /\
  (length (skip_identical pl ps).1 + length ps
   = length (skip_identical pl ps).2 + length pl)%nat /\
  (length (skip_identical pl ps).1 <= length pl)%nat /\
  ((skip_identical pl ps).1 = [] -> (skip_identical pl ps).2 = [] -> pl = ps).
Proof.
  intros Hl Hs. destruct (skip_identical_spec pl ps Hl Hs) as (pre & H1 & H2 & _).
  destruct (skip_identical_length pl ps Hl Hs) as (C1 & C2 & _).
  split; [exact C1|]. split; [exact C2|].
  pose proof (f_equal (@length Z) H1) as L1.
  pose proof (f_equal (@length Z) H2) as L2.
  rewrite length_app in L1, L2.
  split; [lia|]. split; [lia|].
  intros E1 E2. rewrite E1 in H1. rewrite E2 in H2. congruence.
Qed.

(** *** The function on C strings, without the checks *)

Definition heads_swapped (p q : list Z) : bool :=
  (char_at p 0 =? char_at q 1) && (char_at p 1 =? char_at q 0).

Definition tails_equal (i j : nat) (pq : list Z * list Z) : bool :=
  strcmp_eq (drop i pq.1) (drop j pq.2).

Definition swap_tails (pq : list Z * list Z) : bool :=
  heads_swapped pq.1 pq.2 && tails_equal 2 2 pq.

Definition two_of (score : Z) (pl ps : list Z) : Z :=
  if tails_equal 1 0 (skip_identical (drop 1 pl) ps) then score + SCORE_DEL * 2
  else SCORE_MAXMAX.

Definition one_of (score : Z) (pl ps : list Z) : Z :=
  if strcmp_eq (drop 1 pl) ps then score + SCORE_DEL else
  if swap_tails (skip_identical (drop 1 pl) ps) then score + SCORE_DEL + SCORE_SWAP else
  if tails_equal 1 1 (skip_identical (drop 1 pl) ps)
  then score + SCORE_DEL + SCORE_SUBST else
  if heads_swapped pl ps
     && tails_equal 1 0 (skip_identical (drop 2 pl) (drop 2 ps))
  then score + SCORE_SWAP + SCORE_DEL else
  if tails_equal 1 0 (skip_identical (drop 1 pl) (drop 1 ps))
  then score + SCORE_SUBST + SCORE_DEL
  else SCORE_MAXMAX.

Definition subst_of (score : Z) (pl ps : list Z) : Z :=
  if strcmp_eq (drop 1 pl) (drop 1 ps) then score + SCORE_SUBST else
  if swap_tails (skip_identical (drop 1 pl) (drop 1 ps))
  then score + SCORE_SUBST + SCORE_SWAP else
  if tails_equal 1 1 (skip_identical (drop 1 pl) (drop 1 ps))
  then score + SCORE_SUBST + SCORE_SUBST else
  if tails_equal 1 0 (skip_identical pl (drop 1 ps))
  then score + SCORE_INS + SCORE_DEL else
  if tails_equal 0 1 (skip_identical (drop 1 pl) ps)
  then score + SCORE_INS + SCORE_DEL
  else SCORE_MAXMAX.

Definition same_of (score : Z) (pl ps : list Z) : Z :=
  if char_at pl 0 =? NUL then score else
  if heads_swapped pl ps then
    if strcmp_eq (drop 2 pl) (drop 2 ps) then score + SCORE_SWAP else
    if swap_tails (skip_identical (drop 2 pl) (drop 2 ps))
    then score + SCORE_SWAP + SCORE_SWAP else
    if tails_equal 1 1 (skip_identical (drop 2 pl) (drop 2 ps))
    then score + SCORE_SWAP + SCORE_SUBST
    else subst_of score pl ps
  else subst_of score pl ps.

Lemma swapped_ok (p q : list Z) :
  (1 <= length p)%nat -> (1 <= length q)%nat ->
  swapped p q = Some (heads_swapped p q).
Proof.
  intros Hp Hq. unfold swapped, heads_swapped.
  rewrite !rd_ok by lia.
  destruct (char_at p 0 =? char_at q 1); reflexivity.
Qed.

Lemma heads_swapped_length (p q : list Z) :
  cstring p -> cstring q -> (1 <= length p)%nat -> (1 <= length q)%nat ->
  heads_swapped p q = true -> (2 <= length p)%nat /\ (2 <= length q)%nat.
Proof.
  intros Cp Cq Hp Hq H. unfold heads_swapped in H.
  apply andb_true_iff in H. destruct H as [H1 H2].
  apply Z.eqb_eq in H1, H2.
  assert (N0 : char_at p 0 <> NUL) by (apply char_at_lt; [exact Cp|lia]).
  assert (M0 : char_at q 0 <> NUL) by (apply char_at_lt; [exact Cq|lia]).
  split.
  - destruct (Nat.le_gt_cases 2 (length p)) as [L|L]; [exact L|].
    exfalso. apply M0. rewrite <- H2. apply char_at_ge. lia.
  - destruct (Nat.le_gt_cases 2 (length q)) as [L|L]; [exact L|].
    exfalso. apply N0. rewrite H1. apply char_at_ge. lia.
Qed.

Lemma swapped_then_equal_ok (p q : list Z) :
  cstring p -> cstring q -> (1 <= length p)%nat -> (1 <= length q)%nat ->
  swapped_then_equal p q = Some (swap_tails (p, q)).
Proof.
  intros Cp Cq Hp Hq. unfold swapped_then_equal, swap_tails, tails_equal.
  rewrite swapped_ok by assumption. cbn [fst snd].
  destruct (heads_swapped p q) eqn:E; [|reflexivity].
  destruct (heads_swapped_length p q Cp Cq Hp Hq E) as [L1 L2].
  rewrite streq_at_ok by assumption. reflexivity.
Qed.

(** The parts of what the first loop leaves, named. *)
Ltac skip_facts pl ps a b :=
  let C1 := fresh "C" a in
  let C2 := fresh "C" b in
  let L := fresh "L" a in
  let U := fresh "U" a in
  let N := fresh "N" a in
  let H := fresh in
  assert (H : cstring pl /\ cstring ps)
    by (split; first [assumption | apply cstring_drop; assumption]);
  destruct (skip_identical_facts pl ps (proj1 H) (proj2 H)) as (C1 & C2 & L & U & N);
  clear H;
  destruct (skip_identical pl ps) as [a b]; cbn [fst snd] in *.

Lemma soundalike_two_run (score : Z) (pl ps : list Z) :
  cstring pl -> cstring ps -> length pl = S (S (length ps)) ->
  soundalike_two score pl ps = Some (two_of score pl ps).
Proof.
  intros Cl Cs Hlen. unfold soundalike_two, two_of, tails_equal.
  rewrite ptr_add_ok by lia.
  rewrite skip_while_equal_ok
    by (first [assumption | apply cstring_drop; assumption | rewrite length_drop; lia]).
  pose proof (length_drop pl 1) as D.
  skip_facts (drop 1 pl) ps a b.
  rewrite streq_at_ok by lia.
  destruct (strcmp_eq (drop 1 a) (drop 0 b)); reflexivity.
Qed.

Lemma soundalike_one_run (score : Z) (pl ps : list Z) :
  cstring pl -> cstring ps -> length pl = S (length ps) ->
  soundalike_one score pl ps = Some (one_of score pl ps).
Proof.
  intros Cl Cs Hlen. unfold soundalike_one, one_of.
  rewrite ptr_add_ok by lia.
  rewrite skip_to_end_ok by (first [assumption | apply cstring_drop; assumption]).
  destruct (strcmp_eq (drop 1 pl) ps) eqn:E1; [reflexivity|].
  pose proof (length_drop pl 1) as D1.
  pose proof (length_drop pl 2) as D2.
  pose proof (length_drop ps 1) as D3.
  pose proof (length_drop ps 2) as D4.
  assert (Hne : drop 1 pl <> ps).
  { intros E. apply strcmp_eq_iff in E. congruence. }
  skip_facts (drop 1 pl) ps a b.
  assert (La' : (1 <= length a)%nat /\ (1 <= length b)%nat).
  { destruct a, b; simpl in *; try lia. exfalso. apply Hne, Na; reflexivity. }
  destruct La' as [La1 Lb1].
  rewrite swapped_then_equal_ok by assumption.
  destruct (swap_tails (a, b)); [reflexivity|].
  unfold tails_equal at 1. cbn [fst snd].
  rewrite streq_at_ok by lia.
  destruct (strcmp_eq (drop 1 a) (drop 1 b)); [reflexivity|].
  rewrite swapped_ok by lia.
  destruct (heads_swapped pl ps) eqn:Esw.
  - destruct (heads_swapped_length pl ps Cl Cs ltac:(lia) ltac:(lia) Esw) as [L1 L2].
    rewrite !ptr_add_ok by lia.
    rewrite skip_while_equal_ok
      by (first [apply cstring_drop; assumption | rewrite !length_drop; lia]).
    cbn [andb].
    skip_facts (drop 2 pl) (drop 2 ps) c d.
    unfold tails_equal at 1. cbn [fst snd].
    rewrite streq_at_ok by lia.
    destruct (strcmp_eq (drop 1 c) (drop 0 d)); [reflexivity|].
    rewrite skip_while_equal_ok
      by (first [apply cstring_drop; assumption | rewrite !length_drop; lia]).
    skip_facts (drop 1 pl) (drop 1 ps) e f.
    unfold tails_equal. cbn [fst snd].
    rewrite streq_at_ok by lia.
    destruct (strcmp_eq (drop 1 e) (drop 0 f)); reflexivity.
  - cbn [andb]. rewrite !ptr_add_ok by lia.
    rewrite skip_while_equal_ok
      by (first [apply cstring_drop; assumption | rewrite !length_drop; lia]).
    skip_facts (drop 1 pl) (drop 1 ps) e f.
    unfold tails_equal. cbn [fst snd].
    rewrite streq_at_ok by lia.
    destruct (strcmp_eq (drop 1 e) (drop 0 f)); reflexivity.
Qed.

Lemma soundalike_subst_run (score : Z) (pl ps : list Z) :
  cstring pl -> cstring ps -> length pl = length ps -> (1 <= length pl)%nat ->
  soundalike_subst score pl ps = Some (subst_of score pl ps).
Proof.
  intros Cl Cs Hlen Hpos. unfold soundalike_subst, subst_of.
  rewrite !ptr_add_ok by lia.
  rewrite skip_to_end_ok by (apply cstring_drop; assumption).
  destruct (strcmp_eq (drop 1 pl) (drop 1 ps)) eqn:E1; [reflexivity|].
  pose proof (length_drop pl 1) as D1.
  pose proof (length_drop ps 1) as D3.
  assert (Hne : drop 1 pl <> drop 1 ps).
  { intros E. apply strcmp_eq_iff in E. congruence. }
  skip_facts (drop 1 pl) (drop 1 ps) a b.
  assert (La' : (1 <= length a)%nat /\ (1 <= length b)%nat).
  { destruct a, b; simpl in *; try lia. exfalso. apply Hne, Na; reflexivity. }
  destruct La' as [La1 Lb1].
  rewrite swapped_then_equal_ok by assumption.
  destruct (swap_tails (a, b)); [reflexivity|].
  unfold tails_equal at 1. cbn [fst snd].
  rewrite streq_at_ok by lia.
  destruct (strcmp_eq (drop 1 a) (drop 1 b)); [reflexivity|].
  rewrite skip_while_equal_ok
    by (first [assumption | apply cstring_drop; assumption | rewrite !length_drop; lia]).
  skip_facts pl (drop 1 ps) c d.
  unfold tails_equal at 1. cbn [fst snd].
  rewrite streq_at_ok by lia.
  destruct (strcmp_eq (drop 1 c) (drop 0 d)); [reflexivity|].
  rewrite skip_while_equal_ok
    by (first [assumption | apply cstring_drop; assumption | rewrite !length_drop; lia]).
  skip_facts (drop 1 pl) ps e f.
  unfold tails_equal. cbn [fst snd].
  rewrite streq_at_ok by lia.
  destruct (strcmp_eq (drop 0 e) (drop 1 f)); reflexivity.
Qed.

Lemma soundalike_same_run (score : Z) (pl ps : list Z) :
  cstring pl -> cstring ps -> length pl = length ps ->
  soundalike_same score pl ps = Some (same_of score pl ps).
Proof.
  intros Cl Cs Hlen. unfold soundalike_same, same_of.
  rewrite rd_ok by lia.
  destruct (Z.eqb_spec (char_at pl 0) NUL) as [E0|E0]; [reflexivity|].
  assert (Hpos : (1 <= length pl)%nat).
  { destruct pl; [exfalso; apply E0; reflexivity|simpl; lia]. }
  rewrite swapped_ok by lia.
  destruct (heads_swapped pl ps) eqn:Esw;
    [|apply soundalike_subst_run; assumption].
  destruct (heads_swapped_length pl ps Cl Cs ltac:(lia) ltac:(lia) Esw) as [L1 L2].
  rewrite !ptr_add_ok by lia.
  rewrite skip_to_end_ok by (apply cstring_drop; assumption).
  destruct (strcmp_eq (drop 2 pl) (drop 2 ps)) eqn:E1; [reflexivity|].
  pose proof (length_drop pl 2) as D1.
  pose proof (length_drop ps 2) as D3.
  assert (Hne : drop 2 pl <> drop 2 ps).
  { intros E. apply strcmp_eq_iff in E. congruence. }
  skip_facts (drop 2 pl) (drop 2 ps) a b.
  assert (La' : (1 <= length a)%nat /\ (1 <= length b)%nat).
  { destruct a, b; simpl in *; try lia. exfalso. apply Hne, Na; reflexivity. }
  destruct La' as [La1 Lb1].
  rewrite swapped_then_equal_ok by assumption.
  destruct (swap_tails (a, b)); [reflexivity|].
  unfold tails_equal at 1. cbn [fst snd].
  rewrite streq_at_ok by lia.
  destruct (strcmp_eq (drop 1 a) (drop 1 b)); [reflexivity|].
  apply soundalike_subst_run; assumption.
Qed.

Definition vowel_of (goodsound badsound : list Z) : Z + Z * list Z * list Z :=
  let b0 := char_at badsound 0 in
  let g0 := char_at goodsound 0 in
  if ((b0 =? STAR) || (g0 =? STAR)) && negb (b0 =? g0) then
    if ((b0 =? NUL) && (char_at goodsound 1 =? NUL))
       || ((g0 =? NUL) && (char_at badsound 1 =? NUL))
    then inl SCORE_DEL
    else if (b0 =? NUL) || (g0 =? NUL) then inl SCORE_MAXMAX
    else if (char_at badsound 1 =? char_at goodsound 1)
            || (negb (char_at badsound 1 =? NUL) && negb (char_at goodsound 1 =? NUL)
                && (char_at badsound 2 =? char_at goodsound 2))
    then inr (0, goodsound, badsound)
    else if b0 =? STAR
    then inr (Z.quot (2 * SCORE_DEL) 3, goodsound, drop 1 badsound)
    else inr (Z.quot (2 * SCORE_DEL) 3, drop 1 goodsound, badsound)
  else inr (0, goodsound, badsound).

Lemma star_not_NUL : STAR <> NUL.
Proof. discriminate. Qed.

Lemma nonempty_of_head (p : list Z) : char_at p 0 <> NUL -> (1 <= length p)%nat.
Proof. destruct p; [intros H; exfalso; apply H; reflexivity|simpl; lia]. Qed.

Lemma soundalike_vowel_run (goodsound badsound : list Z) :
  cstring goodsound -> cstring badsound ->
  soundalike_vowel goodsound badsound = Some (vowel_of goodsound badsound).
Proof.
  intros Cg Cb. unfold soundalike_vowel, vowel_of.
  rewrite !rd_ok by lia. cbv zeta.
  destruct (((char_at badsound 0 =? STAR) || (char_at goodsound 0 =? STAR))
            && negb (char_at badsound 0 =? char_at goodsound 0)) eqn:Estar;
    [|reflexivity].
  apply andb_true_iff in Estar. destruct Estar as [Es Ed].
  apply orb_true_iff in Es. apply negb_true_iff in Ed. apply Z.eqb_neq in Ed.
  rewrite !Z.eqb_eq in Es.
  destruct (Z.eqb_spec (char_at badsound 0) NUL) as [Eb|Eb].
  - assert (Hg : char_at goodsound 0 = STAR).
    { destruct Es as [Es|Es]; [rewrite Eb in Es; discriminate|exact Es]. }
    assert (Lg : (1 <= length goodsound)%nat).
    { apply nonempty_of_head. rewrite Hg. discriminate. }
    rewrite rd_ok by lia. cbn [andb orb].
    destruct (char_at goodsound 1 =? NUL); [reflexivity|].
    destruct (Z.eqb_spec (char_at goodsound 0) NUL) as [Eg|Eg];
      [rewrite Hg in Eg; discriminate|]. reflexivity.
  - assert (Lb : (1 <= length badsound)%nat) by (apply nonempty_of_head; exact Eb).
    cbn [andb orb].
    destruct (Z.eqb_spec (char_at goodsound 0) NUL) as [Eg|Eg].
    + rewrite rd_ok by lia. cbn [andb orb].
      destruct (char_at badsound 1 =? NUL); reflexivity.
    + assert (Lg : (1 <= length goodsound)%nat) by (apply nonempty_of_head; exact Eg).
      cbn [andb orb]. rewrite !rd_ok by lia.
      destruct (Z.eqb_spec (char_at badsound 1) (char_at goodsound 1)) as [E1|E1].
      * cbn [orb]. reflexivity.
      * cbn [orb].
        destruct (Z.eqb_spec (char_at badsound 1) NUL) as [Eb1|Eb1]; cbn [negb andb].
        { destruct (char_at badsound 0 =? STAR); rewrite ptr_add_ok by lia; reflexivity. }
        destruct (Z.eqb_spec (char_at goodsound 1) NUL) as [Eg1|Eg1]; cbn [negb andb].
        { destruct (char_at badsound 0 =? STAR); rewrite ptr_add_ok by lia; reflexivity. }
        assert (Lb2 : (2 <= length badsound)%nat).
        { destruct (Nat.le_gt_cases 2 (length badsound)) as [L|L]; [exact L|].
          exfalso. apply Eb1. apply char_at_ge. lia. }
        assert (Lg2 : (2 <= length goodsound)%nat).
        { destruct (Nat.le_gt_cases 2 (length goodsound)) as [L|L]; [exact L|].
          exfalso. apply Eg1. apply char_at_ge. lia. }
        rewrite !rd_ok by lia.
        destruct (char_at badsound 2 =? char_at goodsound 2); [reflexivity|].
        destruct (char_at badsound 0 =? STAR); rewrite ptr_add_ok by lia; reflexivity.
Qed.

(** What [vowel_of] goes on with are C strings again. *)
Lemma vowel_of_cstring (goodsound badsound : list Z) (score : Z) (g b : list Z) :
  cstring goodsound -> cstring badsound ->
  vowel_of goodsound badsound = inr (score, g, b) ->
  cstring g /\ cstring b /\ (score = 0 \/ score = Z.quot (2 * SCORE_DEL) 3).
Proof.
  intros Cg Cb. unfold vowel_of. cbv zeta.
  repeat match goal with
         | |- context [if ?c then _ else _] => destruct c
         end;
    intros [= <- <- <-]; repeat split;
      first [assumption | apply cstring_drop; assumption | left; reflexivity
            | right; reflexivity].
Qed.

Definition rest_of (score : Z) (goodsound badsound : list Z) : Z :=
  let goodlen := Z.of_nat (length goodsound) in
  let badlen := Z.of_nat (length badsound) in
  let n := goodlen - badlen in
  if (n <? -2) || (2 <? n) then SCORE_MAXMAX
  else
    let '(pl, ps) := if 0 <? n then (goodsound, badsound)
                     else (badsound, goodsound) in
    let '(pl, ps) := skip_identical pl ps in
    if (n =? -2) || (n =? 2) then two_of score pl ps
    else if (n =? -1) || (n =? 1) then one_of score pl ps
    else same_of score pl ps.

Definition score_of (goodstart badstart : list Z) : Z :=
  match vowel_of goodstart badstart with
  | inl v => v
  | inr (score, goodsound, badsound) => rest_of score goodsound badsound
  end.

Lemma soundalike_score_run (goodstart badstart : list Z) :
  cstring goodstart -> cstring badstart ->
  soundalike_score goodstart badstart = Some (score_of goodstart badstart).
Proof.
  intros Cg Cb. unfold soundalike_score, score_of, rest_of.
  rewrite soundalike_vowel_run by assumption.
  destruct (vowel_of goodstart badstart) as [v|[[score g] b]] eqn:Ev; [reflexivity|].
  destruct (vowel_of_cstring _ _ _ _ _ Cg Cb Ev) as (Cg' & Cb' & _).
  cbv zeta.
  destruct ((Z.of_nat (length g) - Z.of_nat (length b) <? -2)
            || (2 <? Z.of_nat (length g) - Z.of_nat (length b))) eqn:Efar;
    [reflexivity|].
  apply orb_false_iff in Efar. destruct Efar as [F1 F2].
  apply Z.ltb_ge in F1, F2.
  destruct (Z.ltb_spec 0 (Z.of_nat (length g) - Z.of_nat (length b))) as [Hn|Hn].
  - skip_facts g b pl ps.
    destruct (Z.eqb_spec (Z.of_nat (length g) - Z.of_nat (length b)) (-2)); [lia|].
    destruct (Z.eqb_spec (Z.of_nat (length g) - Z.of_nat (length b)) 2) as [E2|E2];
      cbn [orb].
    + apply soundalike_two_run; [assumption..|lia].
    + destruct (Z.eqb_spec (Z.of_nat (length g) - Z.of_nat (length b)) (-1)); [lia|].
      destruct (Z.eqb_spec (Z.of_nat (length g) - Z.of_nat (length b)) 1) as [E1|E1];
        cbn [orb]; [|lia].
      apply soundalike_one_run; [assumption..|lia].
  - skip_facts b g pl ps.
    destruct (Z.eqb_spec (Z.of_nat (length g) - Z.of_nat (length b)) 2); [lia|].
    destruct (Z.eqb_spec (Z.of_nat (length g) - Z.of_nat (length b)) (-2)) as [E2|E2];
      cbn [orb].
    + apply soundalike_two_run; [assumption..|lia].
    + destruct (Z.eqb_spec (Z.of_nat (length g) - Z.of_nat (length b)) 1); [lia|].
      destruct (Z.eqb_spec (Z.of_nat (length g) - Z.of_nat (length b)) (-1)) as [E1|E1];
        cbn [orb].
      * apply soundalike_one_run; [assumption..|lia].
      * apply soundalike_same_run; [assumption..|lia].
Qed.

(** *** The values of the score *)

Lemma two_of_values (score : Z) (pl ps : list Z) :
  two_of score pl ps = SCORE_MAXMAX \/ two_of score pl ps = score + 188.
Proof. unfold two_of. destruct (tails_equal _ _ _); [right|left]; reflexivity. Qed.

Lemma one_of_values (score : Z) (pl ps : list Z) :
  one_of score pl ps = SCORE_MAXMAX \/ one_of score pl ps = score + 94 \/
  one_of score pl ps = score + 169 \/ one_of score pl ps = score + 187.
Proof.
  unfold one_of.
  repeat match goal with
         | |- context [if ?c then _ else _] => destruct c
         end;
    unfold SCORE_DEL, SCORE_SWAP, SCORE_SUBST; lia.
Qed.

Lemma subst_of_values (score : Z) (pl ps : list Z) :
  subst_of score pl ps = SCORE_MAXMAX \/ subst_of score pl ps = score + 93 \/
  subst_of score pl ps = score + 168 \/ subst_of score pl ps = score + 186 \/
  subst_of score pl ps = score + 190.
Proof.
  unfold subst_of.
  repeat match goal with
         | |- context [if ?c then _ else _] => destruct c
         end;
    unfold SCORE_DEL, SCORE_INS, SCORE_SWAP, SCORE_SUBST; lia.
Qed.

Lemma same_of_values (score : Z) (pl ps : list Z) :
  (char_at pl 0 = NUL /\ same_of score pl ps = score) \/
  (char_at pl 0 <> NUL /\
   (same_of score pl ps = SCORE_MAXMAX \/ same_of score pl ps = score + 75 \/
    same_of score pl ps = score + 93 \/ same_of score pl ps = score + 150 \/
    same_of score pl ps = score + 168 \/ same_of score pl ps = score + 186 \/
    same_of score pl ps = score + 190)).
Proof.
  unfold same_of.
  destruct (Z.eqb_spec (char_at pl 0) NUL) as [E|E]; [left; split; [exact E|reflexivity]|].
  right. split; [exact E|].
  pose proof (subst_of_values score pl ps) as Hs.
  repeat match goal with
         | |- context [if ?c then _ else _] => destruct c
         end;
    unfold SCORE_SWAP, SCORE_SUBST; lia.
Qed.

Lemma vowel_of_values (goodsound badsound : list Z) :
  match vowel_of goodsound badsound with
  | inl v => v = SCORE_DEL \/ v = SCORE_MAXMAX
  | inr (score, g, b) =>
      (score = 0 /\ g = goodsound /\ b = badsound) \/
      (score = 62 /\
       ((g = goodsound /\ b = drop 1 badsound /\ (1 <= length badsound)%nat) \/
        (g = drop 1 goodsound /\ b = badsound /\ (1 <= length goodsound)%nat)))
  end.
Proof.
  unfold vowel_of. cbv zeta.
  destruct (((char_at badsound 0 =? STAR) || (char_at goodsound 0 =? STAR))
            && negb (char_at badsound 0 =? char_at goodsound 0));
    [|left; repeat split].
  destruct ((char_at badsound 0 =? NUL) && (char_at goodsound 1 =? NUL)
            || (char_at goodsound 0 =? NUL) && (char_at badsound 1 =? NUL));
    [left; reflexivity|].
  destruct (Z.eqb_spec (char_at badsound 0) NUL) as [Eb|Eb];
    [right; reflexivity|].
  destruct (Z.eqb_spec (char_at goodsound 0) NUL) as [Eg|Eg];
    [right; reflexivity|].
  cbn [orb].
  destruct ((char_at badsound 1 =? char_at goodsound 1)
            || negb (char_at badsound 1 =? NUL) && negb (char_at goodsound 1 =? NUL)
               && (char_at badsound 2 =? char_at goodsound 2));
    [left; repeat split|].
  destruct (char_at badsound 0 =? STAR); right; (split; [reflexivity|]);
    [left|right]; repeat split; apply nonempty_of_head; assumption.
Qed.

Lemma score_of_values (goodstart badstart : list Z) :
  score_of goodstart badstart = SCORE_MAXMAX \/
  0 <= score_of goodstart badstart <= 252.
Proof.
  unfold score_of, rest_of.
  pose proof (vowel_of_values goodstart badstart) as Hv.
  destruct (vowel_of goodstart badstart) as [v|[[score g] b]].
  - destruct Hv as [-> | ->]; [right; unfold SCORE_DEL; lia|left; reflexivity].
  - assert (Hs : score = 0 \/ score = 62) by (destruct Hv as [(-> & _)|(-> & _)]; lia).
    cbv zeta.
    destruct ((Z.of_nat (length g) - Z.of_nat (length b) <? -2)
              || (2 <? Z.of_nat (length g) - Z.of_nat (length b)));
      [left; reflexivity|].
    destruct (if 0 <? Z.of_nat (length g) - Z.of_nat (length b) then (g, b) else (b, g))
      as [pl0 ps0].
    destruct (skip_identical pl0 ps0) as [pl ps].
    pose proof (two_of_values score pl ps) as H2.
    pose proof (one_of_values score pl ps) as H1.
    pose proof (same_of_values score pl ps) as H0.
    repeat match goal with
           | |- context [if ?c then _ else _] => destruct c
           end.
    + destruct H2 as [H2|H2]; [left; exact H2|right; lia].
    + destruct H1 as [H1|H1]; [left; exact H1|right; lia].
    + destruct H0 as [[_ H0]|[_ [H0|H0]]]; [right; lia|left; exact H0|right; lia].
Qed.

(** X4.  [soundalike_score] stays inside its two strings: on C strings every
    read and every pointer it moves is at or before the terminating NUL, also
    in the loops that do not test for the end, so the function returns a
    score. *)
Theorem soundalike_score_in_bounds (goodstart badstart : list Z) :
  cstring goodstart -> cstring badstart ->
  exists v, soundalike_score goodstart badstart = Some v.
Proof.
  intros Cg Cb. exists (score_of goodstart badstart).
  apply soundalike_score_run; assumption.
Qed.

(** *** The score does not depend on the order of the two words *)

Lemma heads_swapped_sym (p q : list Z) : heads_swapped p q = heads_swapped q p.
Proof.
  unfold heads_swapped.
  rewrite (Z.eqb_sym (char_at p 0)), (Z.eqb_sym (char_at p 1)). apply andb_comm.
Qed.

Lemma tails_equal_sym (i j : nat) (pl ps : list Z) :
  tails_equal i j (skip_identical ps pl) = tails_equal j i (skip_identical pl ps).
Proof.
  unfold tails_equal. rewrite (skip_identical_sym pl ps). cbn [fst snd].
  apply strcmp_eq_sym.
Qed.

Lemma swap_tails_sym (pl ps : list Z) :
  swap_tails (skip_identical ps pl) = swap_tails (skip_identical pl ps).
Proof.
  unfold swap_tails. rewrite tails_equal_sym.
  rewrite (skip_identical_sym pl ps) at 1 2. cbn [fst snd].
  rewrite heads_swapped_sym. reflexivity.
Qed.

Lemma subst_of_sym (score : Z) (pl ps : list Z) :
  subst_of score ps pl = subst_of score pl ps.
Proof.
  unfold subst_of.
  rewrite (strcmp_eq_sym (drop 1 ps)),
    (swap_tails_sym (drop 1 pl) (drop 1 ps)),
    (tails_equal_sym 1 1 (drop 1 pl) (drop 1 ps)),
    (tails_equal_sym 1 0 (drop 1 pl) ps),
    (tails_equal_sym 0 1 pl (drop 1 ps)).
  destruct (strcmp_eq (drop 1 pl) (drop 1 ps)); [reflexivity|].
  destruct (swap_tails _); [reflexivity|].
  destruct (tails_equal 1 1 _); [reflexivity|].
  destruct (tails_equal 0 1 _), (tails_equal 1 0 _); reflexivity.
Qed.

Lemma same_of_sym (score : Z) (pl ps : list Z) :
  cstring pl -> cstring ps -> length pl = length ps ->
  same_of score ps pl = same_of score pl ps.
Proof.
  intros Cl Cs Hlen. unfold same_of.
  rewrite (heads_swapped_sym ps pl), (strcmp_eq_sym (drop 2 ps)),
    (swap_tails_sym (drop 2 pl) (drop 2 ps)),
    (tails_equal_sym 1 1 (drop 2 pl) (drop 2 ps)), (subst_of_sym score pl ps).
  assert (E : (char_at ps 0 =? NUL) = (char_at pl 0 =? NUL)).
  { destruct pl as [|x pl], ps as [|y ps]; try discriminate; [reflexivity|].
    apply Forall_cons in Cl, Cs. destruct Cl as [Hx _], Cs as [Hy _].
    rewrite !char_at_0_cons.
    destruct (Z.eqb_spec x NUL), (Z.eqb_spec y NUL); congruence. }
  rewrite E. reflexivity.
Qed.

Lemma vowel_of_sym (goodsound badsound : list Z) :
  vowel_of badsound goodsound
  = match vowel_of goodsound badsound with
    | inl v => inl v
    | inr (score, g, b) => inr (score, b, g)
    end.
Proof.
  unfold vowel_of. cbv zeta.
  rewrite (Z.eqb_sym (char_at goodsound 0) (char_at badsound 0)),
    (Z.eqb_sym (char_at goodsound 1) (char_at badsound 1)),
    (Z.eqb_sym (char_at goodsound 2) (char_at badsound 2)).
  destruct (Z.eqb_spec (char_at badsound 0) (char_at goodsound 0)) as [E|E];
    [rewrite !andb_false_r; reflexivity|].
  rewrite !andb_true_r.
  rewrite (orb_comm (char_at goodsound 0 =? STAR)),
    (orb_comm (char_at goodsound 0 =? NUL)),
    (orb_comm ((char_at goodsound 0 =? NUL) && (char_at badsound 1 =? NUL))),
    (andb_comm (negb (char_at goodsound 1 =? NUL))).
  destruct ((char_at badsound 0 =? STAR) || (char_at goodsound 0 =? STAR)) eqn:Es;
    [|reflexivity].
  destruct ((char_at badsound 0 =? NUL) && (char_at goodsound 1 =? NUL)
            || (char_at goodsound 0 =? NUL) && (char_at badsound 1 =? NUL));
    [reflexivity|].
  destruct ((char_at badsound 0 =? NUL) || (char_at goodsound 0 =? NUL));
    [reflexivity|].
  destruct ((char_at badsound 1 =? char_at goodsound 1)
            || negb (char_at badsound 1 =? NUL) && negb (char_at goodsound 1 =? NUL)
               && (char_at badsound 2 =? char_at goodsound 2));
    [reflexivity|].
  destruct (Z.eqb_spec (char_at badsound 0) STAR) as [Eb|Eb],
           (Z.eqb_spec (char_at goodsound 0) STAR) as [Eg|Eg];
    try reflexivity; try congruence. discriminate.
Qed.

(** X5.  The sound-alike score of two C strings does not depend on which of
    them is the good word and which the bad one. *)
Theorem soundalike_score_sym (goodstart badstart : list Z) :
  cstring goodstart -> cstring badstart ->
  soundalike_score goodstart badstart = soundalike_score badstart goodstart.
Proof.
  intros Cg Cb. rewrite !soundalike_score_run by assumption. f_equal.
  unfold score_of, rest_of. rewrite (vowel_of_sym goodstart badstart).
  destruct (vowel_of goodstart badstart) as [v|[[score g] b]] eqn:Ev; [reflexivity|].
  destruct (vowel_of_cstring _ _ _ _ _ Cg Cb Ev) as (Cg' & Cb' & _).
  cbv zeta.
  destruct (Z.ltb_spec (Z.of_nat (length g) - Z.of_nat (length b)) (-2)),
           (Z.ltb_spec 2 (Z.of_nat (length g) - Z.of_nat (length b))),
           (Z.ltb_spec (Z.of_nat (length b) - Z.of_nat (length g)) (-2)),
           (Z.ltb_spec 2 (Z.of_nat (length b) - Z.of_nat (length g)));
    try lia; cbn [orb]; try reflexivity.
  destruct (Z.ltb_spec 0 (Z.of_nat (length g) - Z.of_nat (length b))) as [Hn|Hn],
           (Z.ltb_spec 0 (Z.of_nat (length b) - Z.of_nat (length g))) as [Hm|Hm];
    try lia.
  - destruct (skip_identical g b) as [pl ps].
    destruct (Z.eqb_spec (Z.of_nat (length g) - Z.of_nat (length b)) (-2)),
             (Z.eqb_spec (Z.of_nat (length g) - Z.of_nat (length b)) 2),
             (Z.eqb_spec (Z.of_nat (length b) - Z.of_nat (length g)) (-2)),
             (Z.eqb_spec (Z.of_nat (length b) - Z.of_nat (length g)) 2);
      try lia; cbn [orb]; try reflexivity.
    destruct (Z.eqb_spec (Z.of_nat (length g) - Z.of_nat (length b)) (-1)),
             (Z.eqb_spec (Z.of_nat (length g) - Z.of_nat (length b)) 1),
             (Z.eqb_spec (Z.of_nat (length b) - Z.of_nat (length g)) (-1)),
             (Z.eqb_spec (Z.of_nat (length b) - Z.of_nat (length g)) 1);
      try lia; cbn [orb]; reflexivity.
  - destruct (skip_identical b g) as [pl ps].
    destruct (Z.eqb_spec (Z.of_nat (length g) - Z.of_nat (length b)) (-2)),
             (Z.eqb_spec (Z.of_nat (length g) - Z.of_nat (length b)) 2),
             (Z.eqb_spec (Z.of_nat (length b) - Z.of_nat (length g)) (-2)),
             (Z.eqb_spec (Z.of_nat (length b) - Z.of_nat (length g)) 2);
      try lia; cbn [orb]; try reflexivity.
    destruct (Z.eqb_spec (Z.of_nat (length g) - Z.of_nat (length b)) (-1)),
             (Z.eqb_spec (Z.of_nat (length g) - Z.of_nat (length b)) 1),
             (Z.eqb_spec (Z.of_nat (length b) - Z.of_nat (length g)) (-1)),
             (Z.eqb_spec (Z.of_nat (length b) - Z.of_nat (length g)) 1);
      try lia; cbn [orb]; reflexivity.
  - assert (Hlen : length b = length g) by lia.
    rewrite (skip_identical_sym b g).
    pose proof (skip_identical_facts b g Cb' Cg') as (C1 & C2 & L & _ & _).
    destruct (skip_identical b g) as [pl ps]. cbn [fst snd] in *.
    destruct (Z.eqb_spec (Z.of_nat (length g) - Z.of_nat (length b)) (-2)),
             (Z.eqb_spec (Z.of_nat (length g) - Z.of_nat (length b)) 2),
             (Z.eqb_spec (Z.of_nat (length b) - Z.of_nat (length g)) (-2)),
             (Z.eqb_spec (Z.of_nat (length b) - Z.of_nat (length g)) 2);
      try lia; cbn [orb].
    destruct (Z.eqb_spec (Z.of_nat (length g) - Z.of_nat (length b)) (-1)),
             (Z.eqb_spec (Z.of_nat (length g) - Z.of_nat (length b)) 1),
             (Z.eqb_spec (Z.of_nat (length b) - Z.of_nat (length g)) (-1)),
             (Z.eqb_spec (Z.of_nat (length b) - Z.of_nat (length g)) 1);
      try lia; cbn [orb].
    symmetry. apply same_of_sym; [assumption..|lia].
Qed.

(** *** The score of a word against itself *)

Lemma skip_identical_same (w : list Z) :
  cstring w -> skip_identical w w = ([], []).
Proof.
  induction w as [|x w IH]; intros Cw; [reflexivity|].
  apply Forall_cons in Cw. destruct Cw as [Hx Cw].
  rewrite skip_identical_cons, Z.eqb_refl.
  destruct (Z.eqb_spec x NUL); [congruence|]. cbn [andb negb]. apply IH. exact Cw.
Qed.

(** X6.  On C strings the score is 0 for a word against itself and for no
    other pair of words. *)
Theorem soundalike_score_zero (goodstart badstart : list Z) :
  cstring goodstart -> cstring badstart ->
  (soundalike_score goodstart badstart = Some 0 <-> goodstart = badstart).
Proof.
  intros Cg Cb. rewrite soundalike_score_run by assumption.
  unfold score_of, rest_of.
  pose proof (vowel_of_values goodstart badstart) as Hv.
  split.
  - intros H. injection H as H.
    destruct (vowel_of goodstart badstart) as [v|[[score g] b]] eqn:Ev.
    { destruct Hv as [-> | ->]; discriminate. }
    destruct (vowel_of_cstring _ _ _ _ _ Cg Cb Ev) as (Cg' & Cb' & _).
    cbv zeta in H.
    assert (Hs : score = 0 \/ score = 62) by (destruct Hv as [(-> & _)|(-> & _)]; lia).
    destruct ((Z.of_nat (length g) - Z.of_nat (length b) <? -2)
              || (2 <? Z.of_nat (length g) - Z.of_nat (length b))) eqn:Efar;
      [discriminate|].
    apply orb_false_iff in Efar. destruct Efar as [F1 F2].
    apply Z.ltb_ge in F1, F2.
    destruct (Z.ltb_spec 0 (Z.of_nat (length g) - Z.of_nat (length b))) as [Hn|Hn].
    + pose proof (two_of_values score (skip_identical g b).1 (skip_identical g b).2) as H2.
      pose proof (one_of_values score (skip_identical g b).1 (skip_identical g b).2) as H1.
      destruct (skip_identical g b) as [pl ps]. cbn [fst snd] in *.
      destruct (Z.eqb_spec (Z.of_nat (length g) - Z.of_nat (length b)) (-2)); [lia|].
      destruct (Z.eqb_spec (Z.of_nat (length g) - Z.of_nat (length b)) 2);
        cbn [orb] in H; [unfold SCORE_MAXMAX in *; lia|].
      destruct (Z.eqb_spec (Z.of_nat (length g) - Z.of_nat (length b)) (-1)); [lia|].
      destruct (Z.eqb_spec (Z.of_nat (length g) - Z.of_nat (length b)) 1);
        cbn [orb] in H; [unfold SCORE_MAXMAX in *; lia|lia].
    + pose proof (two_of_values score (skip_identical b g).1 (skip_identical b g).2) as H2.
      pose proof (one_of_values score (skip_identical b g).1 (skip_identical b g).2) as H1.
      pose proof (same_of_values score (skip_identical b g).1 (skip_identical b g).2) as H0.
      pose proof (skip_identical_facts b g Cb' Cg') as (C1 & C2 & L & _ & N).
      destruct (skip_identical b g) as [pl ps]. cbn [fst snd] in *.
      destruct (Z.eqb_spec (Z.of_nat (length g) - Z.of_nat (length b)) (-2));
        cbn [orb] in H; [unfold SCORE_MAXMAX in *; lia|].
      destruct (Z.eqb_spec (Z.of_nat (length g) - Z.of_nat (length b)) 2);
        cbn [orb] in H; [lia|].
      destruct (Z.eqb_spec (Z.of_nat (length g) - Z.of_nat (length b)) (-1));
        cbn [orb] in H; [unfold SCORE_MAXMAX in *; lia|].
      destruct (Z.eqb_spec (Z.of_nat (length g) - Z.of_nat (length b)) 1);
        cbn [orb] in H; [lia|].
      destruct H0 as [[E0 H0]|[_ H0]]; [|unfold SCORE_MAXMAX in *; lia].
      assert (Hsc : score = 0) by lia.
      destruct Hv as [(_ & -> & ->)|(Hv & _)]; [|lia].
      apply cstring_head in E0; [|exact C1]. subst pl.
      assert (ps = []) by (destruct ps; [reflexivity|simpl in L; lia]).
      subst ps. symmetry. apply N; reflexivity.
  - intros <-. f_equal.
    assert (Hvo : vowel_of goodstart goodstart = inr (0, goodstart, goodstart)).
    { unfold vowel_of. cbv zeta. rewrite Z.eqb_refl, andb_false_r. reflexivity. }
    rewrite Hvo. cbv zeta. rewrite Z.sub_diag. cbn [Z.ltb Z.compare orb Z.eqb].
    rewrite skip_identical_same by exact Cg. reflexivity.
Qed.

Lemma vowel_of_far (goodsound badsound : list Z) :
  cstring goodsound -> cstring badsound ->
  3 < Z.abs (Z.of_nat (length goodsound) - Z.of_nat (length badsound)) ->
  vowel_of goodsound badsound = inl SCORE_MAXMAX \/
  exists score g b,
    vowel_of goodsound badsound = inr (score, g, b) /\
    2 < Z.abs (Z.of_nat (length g) - Z.of_nat (length b)).
Proof.
  intros Cg Cb Hfar. unfold vowel_of. cbv zeta.
  destruct (((char_at badsound 0 =? STAR) || (char_at goodsound 0 =? STAR))
            && negb (char_at badsound 0 =? char_at goodsound 0));
    [|right; eexists _, _, _; split; [reflexivity|lia]].
  destruct ((char_at badsound 0 =? NUL) && (char_at goodsound 1 =? NUL)
            || (char_at goodsound 0 =? NUL) && (char_at badsound 1 =? NUL)) eqn:Ed.
  { exfalso. apply orb_true_iff in Ed.
    destruct Ed as [Ed|Ed]; apply andb_true_iff in Ed; destruct Ed as [E0 E1];
      apply Z.eqb_eq in E0, E1;
      apply char_at_NUL in E0, E1; try assumption; lia. }
  destruct ((char_at badsound 0 =? NUL) || (char_at goodsound 0 =? NUL));
    [left; reflexivity|].
  right.
  destruct ((char_at badsound 1 =? char_at goodsound 1)
            || negb (char_at badsound 1 =? NUL) && negb (char_at goodsound 1 =? NUL)
               && (char_at badsound 2 =? char_at goodsound 2));
    [eexists _, _, _; split; [reflexivity|lia]|].
  destruct (char_at badsound 0 =? STAR);
    (eexists _, _, _; split; [reflexivity|rewrite length_drop; lia]).
Qed.

Lemma score_of_far (goodstart badstart : list Z) :
  cstring goodstart -> cstring badstart ->
  3 < Z.abs (Z.of_nat (length goodstart) - Z.of_nat (length badstart)) ->
  score_of goodstart badstart = SCORE_MAXMAX.
Proof.
  intros Cg Cb Hfar. unfold score_of, rest_of.
  destruct (vowel_of_far goodstart badstart Cg Cb Hfar)
    as [-> | (score & g & b & -> & Hn)]; [reflexivity|].
  cbv zeta.
  destruct (Z.ltb_spec (Z.of_nat (length g) - Z.of_nat (length b)) (-2));
    [reflexivity|].
  destruct (Z.ltb_spec 2 (Z.of_nat (length g) - Z.of_nat (length b)));
    [reflexivity|lia].
Qed.

(** X7.  On C strings the score is [SCORE_MAXMAX] or lies between 0 and 252,
    below the [SCORE_BIG] that callers put in the place of [SCORE_MAXMAX]; it
    is [SCORE_MAXMAX] whenever the lengths of the two words differ by more
    than three. *)
Theorem soundalike_score_range (goodstart badstart : list Z) :
  cstring goodstart -> cstring badstart ->
  exists v,
    soundalike_score goodstart badstart = Some v /\
    (v = SCORE_MAXMAX \/ (0 <= v <= 252 /\ v < SCORE_BIG)) /\
    (3 < Z.abs (Z.of_nat (length goodstart) - Z.of_nat (length badstart)) ->
     v = SCORE_MAXMAX).
Proof.
  intros Cg Cb. exists (score_of goodstart badstart).
  split; [apply soundalike_score_run; assumption|].
  split.
  - destruct (score_of_values goodstart badstart) as [H|H]; [left; exact H|].
    right. split; [exact H|]. unfold SCORE_BIG, SCORE_INS. lia.
  - apply score_of_far; assumption.
Qed.

(** *** Words one change apart *)

Lemma vowel_of_plain (goodsound badsound : list Z) :
  char_at goodsound 0 <> STAR -> char_at badsound 0 <> STAR ->
  vowel_of goodsound badsound = inr (0, goodsound, badsound).
Proof.
  intros Hg Hb. unfold vowel_of. cbv zeta.
  destruct (Z.eqb_spec (char_at badsound 0) STAR); [congruence|].
  destruct (Z.eqb_spec (char_at goodsound 0) STAR); [congruence|]. reflexivity.
Qed.

Lemma skip_identical_prefix (pre a b : list Z) :
  cstring pre -> skip_identical (pre ++ a) (pre ++ b) = skip_identical a b.
Proof.
  induction pre as [|x pre IH]; intros Cp; [reflexivity|].
  apply Forall_cons in Cp. destruct Cp as [Hx Cp].
  cbn [app]. rewrite skip_identical_cons, Z.eqb_refl.
  destruct (Z.eqb_spec x NUL); [congruence|]. cbn [andb negb]. apply IH. exact Cp.
Qed.

Lemma skip_identical_differ (x y : Z) (a b : list Z) :
  x <> y -> skip_identical (x :: a) (y :: b) = (x :: a, y :: b).
Proof.
  intros H. rewrite skip_identical_cons.
  destruct (Z.eqb_spec x y); [congruence|]. reflexivity.
Qed.

(** Taking a character out anywhere in a run of equal characters gives the
    same word: the loop stops at the end of the run, and the character there
    can be the one taken out. *)
Lemma skip_identical_del (x : Z) (post : list Z) :
  drop 1 (skip_identical (x :: post) post).1 = (skip_identical (x :: post) post).2.
Proof.
  revert x. induction post as [|y post IH]; intros x.
  - rewrite skip_identical_nil_r. reflexivity.
  - rewrite skip_identical_cons.
    destruct ((x =? y) && negb (x =? NUL)); [apply IH|reflexivity].
Qed.

Lemma cstring_app (p q : list Z) : cstring (p ++ q) <-> cstring p /\ cstring q.
Proof. unfold cstring. apply Forall_app. Qed.

Lemma one_of_del (score : Z) (pl ps : list Z) :
  0 <= score <= 62 ->
  (one_of score pl ps = score + SCORE_DEL <-> strcmp_eq (drop 1 pl) ps = true).
Proof.
  intros Hsc. unfold one_of. destruct (strcmp_eq (drop 1 pl) ps); [tauto|].
  split; [|discriminate].
  repeat match goal with
         | |- context [if ?c then _ else _] => destruct c
         end;
    unfold SCORE_DEL, SCORE_SWAP, SCORE_SUBST, SCORE_MAXMAX; lia.
Qed.

Lemma subst_of_subst (score : Z) (pl ps : list Z) :
  0 <= score <= 62 ->
  (subst_of score pl ps = score + SCORE_SUBST
   <-> strcmp_eq (drop 1 pl) (drop 1 ps) = true).
Proof.
  intros Hsc. unfold subst_of. destruct (strcmp_eq (drop 1 pl) (drop 1 ps)); [tauto|].
  split; [|discriminate].
  repeat match goal with
         | |- context [if ?c then _ else _] => destruct c
         end;
    unfold SCORE_DEL, SCORE_INS, SCORE_SWAP, SCORE_SUBST, SCORE_MAXMAX; lia.
Qed.

Lemma same_of_swap (score : Z) (pl ps : list Z) :
  0 <= score <= 62 ->
  (same_of score pl ps = score + SCORE_SWAP
   <-> char_at pl 0 <> NUL /\ heads_swapped pl ps = true
       /\ strcmp_eq (drop 2 pl) (drop 2 ps) = true).
Proof.
  intros Hsc. unfold same_of.
  pose proof (subst_of_values score pl ps) as Hs.
  destruct (Z.eqb_spec (char_at pl 0) NUL) as [E|E].
  { split; [unfold SCORE_SWAP; lia|tauto]. }
  destruct (heads_swapped pl ps).
  - destruct (strcmp_eq (drop 2 pl) (drop 2 ps)); [tauto|].
    split; [|intros (_ & _ & H); discriminate].
    repeat match goal with
           | |- context [if ?c then _ else _] => destruct c
           end;
      unfold SCORE_SWAP, SCORE_SUBST, SCORE_MAXMAX in *; lia.
  - split; [|intros (_ & H & _); discriminate].
    unfold SCORE_SWAP, SCORE_MAXMAX in *; lia.
Qed.

Lemma same_of_subst (score : Z) (pl ps : list Z) :
  0 <= score <= 62 ->
  same_of score pl ps = score + SCORE_SUBST ->
  char_at pl 0 <> NUL /\ strcmp_eq (drop 1 pl) (drop 1 ps) = true.
Proof.
  intros Hsc. unfold same_of.
  destruct (Z.eqb_spec (char_at pl 0) NUL) as [E|E]; [unfold SCORE_SUBST; lia|].
  intros H. split; [exact E|]. apply (subst_of_subst score pl ps Hsc).
  revert H.
  repeat match goal with
         | |- context [if ?c then _ else _] => destruct c
         end;
    unfold SCORE_SWAP, SCORE_SUBST; try lia; tauto.
Qed.

(** The score of two plain words (neither starts with the vowel mark) whose
    lengths are [n] apart, the longer one first. *)
Lemma score_of_longer (g b : list Z) :
  char_at g 0 <> STAR -> char_at b 0 <> STAR ->
  length g = S (length b) ->
  score_of g b = one_of 0 (skip_identical g b).1 (skip_identical g b).2.
Proof.
  intros Hg Hb Hlen. unfold score_of, rest_of. rewrite vowel_of_plain by assumption.
  cbv zeta. rewrite Hlen.
  replace (Z.of_nat (S (length b)) - Z.of_nat (length b)) with 1 by lia.
  cbn. destruct (skip_identical g b); reflexivity.
Qed.

Lemma score_of_equal_length (g b : list Z) :
  char_at g 0 <> STAR -> char_at b 0 <> STAR ->
  length g = length b ->
  score_of g b = same_of 0 (skip_identical b g).1 (skip_identical b g).2.
Proof.
  intros Hg Hb Hlen. unfold score_of, rest_of. rewrite vowel_of_plain by assumption.
  cbv zeta. rewrite Hlen, Z.sub_diag.
  cbn. destruct (skip_identical b g); reflexivity.
Qed.

Lemma score_of_lengths (g b : list Z) (v : Z) :
  char_at g 0 <> STAR -> char_at b 0 <> STAR ->
  score_of g b = v ->
  (v = SCORE_DEL -> length g = S (length b) \/ length b = S (length g)) /\
  (v = SCORE_SWAP \/ v = SCORE_SUBST -> length g = length b).
Proof.
  intros Hg Hb. unfold score_of, rest_of. rewrite vowel_of_plain by assumption. cbv zeta.
  destruct (Z.ltb_spec (Z.of_nat (length g) - Z.of_nat (length b)) (-2));
    [intros <-; cbn; split; [discriminate|intros [|]; discriminate]|].
  destruct (Z.ltb_spec 2 (Z.of_nat (length g) - Z.of_nat (length b)));
    [intros <-; cbn; split; [discriminate|intros [|]; discriminate]|].
  cbn [orb].
  destruct (if 0 <? Z.of_nat (length g) - Z.of_nat (length b) then (g, b) else (b, g))
    as [pl0 ps0].
  destruct (skip_identical pl0 ps0) as [pl ps].
  pose proof (two_of_values 0 pl ps) as V2.
  pose proof (one_of_values 0 pl ps) as V1.
  pose proof (same_of_values 0 pl ps) as V0.
  destruct (Z.eqb_spec (Z.of_nat (length g) - Z.of_nat (length b)) (-2));
    [cbn [orb]; intros <-; unfold SCORE_DEL, SCORE_SWAP, SCORE_SUBST, SCORE_MAXMAX in *;
     split; intros; lia|].
  destruct (Z.eqb_spec (Z.of_nat (length g) - Z.of_nat (length b)) 2);
    [cbn [orb]; intros <-; unfold SCORE_DEL, SCORE_SWAP, SCORE_SUBST, SCORE_MAXMAX in *;
     split; intros; lia|].
  cbn [orb].
  destruct (Z.eqb_spec (Z.of_nat (length g) - Z.of_nat (length b)) (-1));
    [cbn [orb]; intros <-; unfold SCORE_DEL, SCORE_SWAP, SCORE_SUBST, SCORE_MAXMAX in *;
     split; intros; lia|].
  destruct (Z.eqb_spec (Z.of_nat (length g) - Z.of_nat (length b)) 1);
    [cbn [orb]; intros <-; unfold SCORE_DEL, SCORE_SWAP, SCORE_SUBST, SCORE_MAXMAX in *;
     split; intros; lia|].
  cbn [orb]. intros <-. unfold SCORE_DEL, SCORE_SWAP, SCORE_SUBST, SCORE_MAXMAX in *.
  split; intros; lia.
Qed.

(** One character taken out of the longer word. *)
Lemma score_of_del (g b : list Z) :
  cstring g -> cstring b ->
  char_at g 0 <> STAR -> char_at b 0 <> STAR ->
  length g = S (length b) ->
  (score_of g b = SCORE_DEL
   <-> exists pre x post, g = pre ++ x :: post /\ b = pre ++ post).
Proof.
  intros Cg Cb Hg Hb Hlen. rewrite score_of_longer by assumption.
  change SCORE_DEL with (0 + SCORE_DEL). rewrite one_of_del by lia.
  rewrite strcmp_eq_iff.
  destruct (skip_identical_spec g b Cg Cb) as (pre & H1 & H2 & _).
  split.
  - intros E. destruct (skip_identical g b) as [pl ps]. cbn [fst snd] in *.
    destruct pl as [|x pl].
    + exfalso. simpl in E. subst ps.
      rewrite H1, H2 in Hlen. lia.
    + simpl in E. rewrite drop_0 in E. subst ps.
      exists pre, x, pl. split; assumption.
  - intros (pre' & x & post & E1 & E2).
    assert (Cp : cstring pre') by (rewrite E1 in Cg; apply cstring_app in Cg; tauto).
    rewrite E1, E2, skip_identical_prefix by exact Cp.
    apply skip_identical_del.
Qed.

(** Two neighbours that changed places. *)
Lemma score_of_swap (g b : list Z) :
  cstring g -> cstring b ->
  char_at g 0 <> STAR -> char_at b 0 <> STAR ->
  (score_of g b = SCORE_SWAP
   <-> exists pre x y post,
         x <> y /\ g = pre ++ x :: y :: post /\ b = pre ++ y :: x :: post).
Proof.
  intros Cg Cb Hg Hb. split.
  - intros H.
    assert (Hlen : length g = length b).
    { apply (score_of_lengths g b _ Hg Hb H). left. reflexivity. }
    rewrite score_of_equal_length in H by assumption.
    change SCORE_SWAP with (0 + SCORE_SWAP) in H.
    apply same_of_swap in H; [|lia]. destruct H as (H0 & Hsw & Heq).
    destruct (skip_identical_spec b g Cb Cg) as (pre & H1 & H2 & Hd).
    destruct (skip_identical_facts b g Cb Cg) as (C1 & C2 & L & _ & _).
    destruct (skip_identical b g) as [pl ps]. cbn [fst snd] in *.
    assert (L1 : (1 <= length pl)%nat) by (apply nonempty_of_head; exact H0).
    destruct (heads_swapped_length pl ps C1 C2 L1 ltac:(lia) Hsw) as [L2 L3].
    destruct pl as [|p0 [|p1 pr]]; try (simpl in L2; lia).
    destruct ps as [|s0 [|s1 sr]]; try (simpl in L3; lia).
    unfold heads_swapped, char_at in Hsw. cbn [nth] in Hsw.
    apply andb_true_iff in Hsw. destruct Hsw as [E1 E2].
    apply Z.eqb_eq in E1, E2. cbn [drop] in Heq. rewrite !drop_0 in Heq.
    apply strcmp_eq_iff in Heq.
    destruct Hd as [Hd|[Hd _]]; [|discriminate]. rewrite !char_at_0_cons in Hd.
    subst s1 s0 sr.
    exists pre, p1, p0, pr. split; [congruence|]. split; assumption.
  - intros (pre & x & y & post & Hxy & E1 & E2).
    assert (Hlen : length g = length b).
    { rewrite E1, E2, !length_app. reflexivity. }
    rewrite score_of_equal_length by assumption.
    assert (Cp : cstring pre) by (rewrite E1 in Cg; apply cstring_app in Cg; tauto).
    rewrite E2 in Cb. apply cstring_app in Cb. destruct Cb as [_ Cb].
    apply Forall_cons in Cb. destruct Cb as [Hy _].
    rewrite E1, E2, skip_identical_prefix by exact Cp.
    rewrite skip_identical_differ by congruence. cbn [fst snd].
    change SCORE_SWAP with (0 + SCORE_SWAP). apply same_of_swap; [lia|].
    rewrite char_at_0_cons. split; [exact Hy|]. split.
    + unfold heads_swapped, char_at. cbn [nth]. rewrite !Z.eqb_refl. reflexivity.
    + apply strcmp_eq_refl.
Qed.

(** One character replaced by another. *)
Lemma score_of_subst (g b : list Z) :
  cstring g -> cstring b ->
  char_at g 0 <> STAR -> char_at b 0 <> STAR ->
  (score_of g b = SCORE_SUBST
   <-> exists pre x y post,
         x <> y /\ g = pre ++ x :: post /\ b = pre ++ y :: post).
Proof.
  intros Cg Cb Hg Hb. split.
  - intros H.
    assert (Hlen : length g = length b).
    { apply (score_of_lengths g b _ Hg Hb H). right. reflexivity. }
    rewrite score_of_equal_length in H by assumption.
    change SCORE_SUBST with (0 + SCORE_SUBST) in H.
    apply same_of_subst in H; [|lia]. destruct H as (H0 & Heq).
    destruct (skip_identical_spec b g Cb Cg) as (pre & H1 & H2 & Hd).
    destruct (skip_identical_facts b g Cb Cg) as (C1 & C2 & L & _ & _).
    destruct (skip_identical b g) as [pl ps]. cbn [fst snd] in *.
    assert (L1 : (1 <= length pl)%nat) by (apply nonempty_of_head; exact H0).
    destruct pl as [|p0 pr]; [simpl in L1; lia|].
    destruct ps as [|s0 sr]; [simpl in L; simpl in L1; lia|].
    cbn [drop] in Heq. rewrite !drop_0 in Heq. apply strcmp_eq_iff in Heq.
    destruct Hd as [Hd|[Hd _]]; [|discriminate]. rewrite !char_at_0_cons in Hd.
    subst sr.
    exists pre, s0, p0, pr. split; [congruence|]. split; assumption.
  - intros (pre & x & y & post & Hxy & E1 & E2).
    assert (Hlen : length g = length b).
    { rewrite E1, E2, !length_app. reflexivity. }
    rewrite score_of_equal_length by assumption.
    assert (Cp : cstring pre) by (rewrite E1 in Cg; apply cstring_app in Cg; tauto).
    rewrite E2 in Cb. apply cstring_app in Cb. destruct Cb as [_ Cb].
    apply Forall_cons in Cb. destruct Cb as [Hy _].
    rewrite E1, E2, skip_identical_prefix by exact Cp.
    rewrite skip_identical_differ by congruence. cbn [fst snd].
    unfold same_of. rewrite char_at_0_cons.
    destruct (Z.eqb_spec y NUL); [congruence|].
    assert (Hsw : heads_swapped (y :: post) (x :: post) = false).
    { unfold heads_swapped, char_at. cbn [nth].
      destruct (Z.eqb_spec y (nth 0 post NUL)) as [Ea|Ea]; [|reflexivity].
      destruct (Z.eqb_spec (nth 0 post NUL) x) as [Eb|Eb]; [congruence|reflexivity]. }
    rewrite Hsw. change SCORE_SUBST with (0 + SCORE_SUBST).
    apply subst_of_subst; [lia|]. apply strcmp_eq_refl.
Qed.

(** X8.  For two C strings that do not start with the vowel mark ['*'], a
    single change is scored as that change and nothing else is: the score is
    [SCORE_DEL] exactly when one word is the other with one character taken
    out, [SCORE_SWAP] exactly when the words differ by two neighbours that
    changed places, and [SCORE_SUBST] exactly when they differ in one
    character. *)
Theorem soundalike_score_one_change (goodstart badstart : list Z) :
  cstring goodstart -> cstring badstart ->
  char_at goodstart 0 <> STAR -> char_at badstart 0 <> STAR ->
  (soundalike_score goodstart badstart = Some SCORE_DEL
   <-> exists pre x post,
         (goodstart = pre ++ x :: post /\ badstart = pre ++ post) \/
         (badstart = pre ++ x :: post /\ goodstart = pre ++ post)) /\
  (soundalike_score goodstart badstart = Some SCORE_SWAP
   <-> exists pre x y post,
         x <> y /\ goodstart = pre ++ x :: y :: post
         /\ badstart = pre ++ y :: x :: post) /\
  (soundalike_score goodstart badstart = Some SCORE_SUBST
   <-> exists pre x y post,
         x <> y /\ goodstart = pre ++ x :: post /\ badstart = pre ++ y :: post).
Proof.
  intros Cg Cb Hg Hb.
  assert (Hinj : forall v, soundalike_score goodstart badstart = Some v
                           <-> score_of goodstart badstart = v).
  { intros v. rewrite soundalike_score_run by assumption.
    split; [intros [= H]; exact H|intros ->; reflexivity]. }
  rewrite !Hinj.
  split; [|split; [apply score_of_swap|apply score_of_subst]; assumption].
  split.
  - intros H.
    destruct (proj1 (score_of_lengths _ _ _ Hg Hb H) eq_refl) as [Hlen|Hlen].
    + apply score_of_del in H; try assumption.
      destruct H as (pre & x & post & E1 & E2).
      exists pre, x, post. left. split; assumption.
    + assert (H' : score_of badstart goodstart = SCORE_DEL).
      { apply Hinj in H. rewrite soundalike_score_sym in H by assumption.
        rewrite soundalike_score_run in H by assumption.
        injection H as H. exact H. }
      apply score_of_del in H'; try assumption.
      destruct H' as (pre & x & post & E1 & E2).
      exists pre, x, post. right. split; assumption.
  - intros (pre & x & post & [[E1 E2]|[E1 E2]]).
    + apply score_of_del; try assumption.
      * rewrite E1, E2, !length_app. simpl. lia.
      * exists pre, x, post. split; assumption.
    + apply Hinj. rewrite soundalike_score_sym by assumption.
      rewrite soundalike_score_run by assumption. f_equal.
      apply score_of_del; try assumption.
      * rewrite E1, E2, !length_app. simpl. lia.
      * exists pre, x, post. split; assumption.
Qed.

(** *** Words two changes apart *)

(** One change of a word: a character taken out, put in or replaced, or two
    neighbours changing places. *)
Inductive one_change : list Z -> list Z -> Prop :=
| change_del (pre : list Z) (x : Z) (post : list Z) :
    one_change (pre ++ x :: post) (pre ++ post)
| change_ins (pre : list Z) (x : Z) (post : list Z) :
    one_change (pre ++ post) (pre ++ x :: post)
| change_subst (pre : list Z) (x y : Z) (post : list Z) :
    one_change (pre ++ x :: post) (pre ++ y :: post)
| change_swap (pre : list Z) (x y : Z) (post : list Z) :
    one_change (pre ++ x :: y :: post) (pre ++ y :: x :: post).

(** At most [n] changes in a row. *)
Inductive changes : nat -> list Z -> list Z -> Prop :=
| changes_none (n : nat) (w : list Z) : changes n w w
| changes_step (n : nat) (a b c : list Z) :
    one_change a b -> changes n b c -> changes (S n) a c.

Lemma one_change_sym (a b : list Z) : one_change a b -> one_change b a.
Proof. intros H. destruct H; constructor. Qed.

Lemma one_change_app (pre a b : list Z) :
  one_change a b -> one_change (pre ++ a) (pre ++ b).
Proof. intros H. destruct H; rewrite !app_assoc; constructor. Qed.

Lemma changes_mono (n m : nat) (a b : list Z) :
  changes n a b -> (n <= m)%nat -> changes m a b.
Proof.
  intros H. revert m. induction H as [n w|n a b c H1 H2 IH]; intros m Hm.
  - constructor.
  - destruct m as [|m]; [lia|]. apply (changes_step m a b c H1). apply IH. lia.
Qed.

Lemma changes_trans (n m : nat) (a b c : list Z) :
  changes n a b -> changes m b c -> changes (n + m) a c.
Proof.
  intros H. revert m c. induction H as [n w|n a b c' H1 H2 IH]; intros m c Hc.
  - apply (changes_mono m); [exact Hc|lia].
  - cbn [Nat.add]. apply (changes_step (n + m) a b c H1). apply IH. exact Hc.
Qed.

Lemma changes_one (a b : list Z) : one_change a b -> changes 1 a b.
Proof. intros H. apply (changes_step 0 a b b H). constructor. Qed.

Lemma changes_sym (n : nat) (a b : list Z) : changes n a b -> changes n b a.
Proof.
  intros H. induction H as [n w|n a b c H1 H2 IH]; [constructor|].
  replace (S n) with (n + 1)%nat by lia.
  apply (changes_trans n 1 c b a IH). apply changes_one, one_change_sym, H1.
Qed.

Lemma changes_app (n : nat) (pre a b : list Z) :
  changes n a b -> changes n (pre ++ a) (pre ++ b).
Proof.
  intros H. induction H as [n w|n a b c H1 H2 IH]; [constructor|].
  apply (changes_step n _ (pre ++ b) _); [apply one_change_app; exact H1|exact IH].
Qed.

Lemma changes_cons (n : nat) (x : Z) (a b : list Z) :
  changes n a b -> changes n (x :: a) (x :: b).
Proof. apply (changes_app n [x]). Qed.

(** What the first loop took off both words can be put back. *)
Lemma skip_changes (n : nat) (pl ps : list Z) :
  cstring pl -> cstring ps ->
  changes n (skip_identical pl ps).1 (skip_identical pl ps).2 -> changes n pl ps.
Proof.
  intros Cl Cs H. destruct (skip_identical_spec pl ps Cl Cs) as (pre & H1 & H2 & _).
  destruct (skip_identical pl ps) as [a b]. cbn [fst snd] in *.
  rewrite H1, H2. apply changes_app. exact H.
Qed.

Lemma drop1_self (pl : list Z) : changes 1 pl (drop 1 pl).
Proof.
  destruct pl as [|x pl]; [constructor|].
  apply changes_one. apply (change_del [] x pl).
Qed.

Lemma drop1_changes (n : nat) (pl ps : list Z) :
  changes n (drop 1 pl) (drop 1 ps) -> changes (S n) pl ps.
Proof.
  intros H. destruct pl as [|x pl], ps as [|y ps]; cbn [drop] in H;
    rewrite ?drop_0 in H.
  - apply (changes_mono n); [exact H|lia].
  - replace (S n) with (n + 1)%nat by lia.
    apply (changes_trans n 1 [] ps _ H). apply changes_one, (change_ins [] y ps).
  - apply (changes_step n _ pl _); [apply (change_del [] x pl)|exact H].
  - apply (changes_step n _ (y :: pl) _); [apply (change_subst [] x y pl)|].
    apply changes_cons. exact H.
Qed.

(** The tests the function makes on what its loops leave. *)
Lemma tails_10_changes (pq : list Z * list Z) :
  tails_equal 1 0 pq = true -> changes 1 pq.1 pq.2.
Proof.
  destruct pq as [a b]. unfold tails_equal. cbn [fst snd]. rewrite drop_0.
  intros H. apply strcmp_eq_iff in H. subst b. apply drop1_self.
Qed.

Lemma tails_01_changes (pq : list Z * list Z) :
  tails_equal 0 1 pq = true -> changes 1 pq.1 pq.2.
Proof.
  destruct pq as [a b]. unfold tails_equal. cbn [fst snd]. rewrite drop_0.
  intros H. apply strcmp_eq_iff in H. subst a. apply changes_sym, drop1_self.
Qed.

Lemma tails_11_changes (pq : list Z * list Z) :
  tails_equal 1 1 pq = true -> changes 1 pq.1 pq.2.
Proof.
  destruct pq as [a b]. unfold tails_equal. cbn [fst snd].
  intros H. apply strcmp_eq_iff in H.
  apply (drop1_changes 0). rewrite H. constructor.
Qed.

Lemma heads_swapped_cases (a b : list Z) :
  cstring a -> cstring b -> heads_swapped a b = true ->
  (a = [] /\ b = []) \/
  exists x y r r', a = x :: y :: r /\ b = y :: x :: r'.
Proof.
  intros Ca Cb H. unfold heads_swapped in H.
  apply andb_true_iff in H. destruct H as [H1 H2]. apply Z.eqb_eq in H1, H2.
  destruct a as [|x [|y r]].
  - left. split; [reflexivity|]. apply cstring_head; [exact Cb|].
    rewrite <- H2. reflexivity.
  - exfalso. apply Forall_cons in Ca. destruct Ca as [Hx _].
    assert (E : char_at b 0 = NUL) by (rewrite <- H2; reflexivity).
    apply cstring_head in E; [|exact Cb]. subst b.
    apply Hx. rewrite char_at_0_cons in H1. rewrite H1. reflexivity.
  - right. rewrite char_at_0_cons in H1. unfold char_at in H1, H2. cbn [nth] in H1, H2.
    apply Forall_cons in Ca. destruct Ca as [Hx Ca].
    apply Forall_cons in Ca. destruct Ca as [Hy _].
    destruct b as [|s0 [|s1 r']]; cbn [nth] in H1, H2.
    + exfalso. apply Hx. exact H1.
    + exfalso. apply Hx. exact H1.
    + exists x, y, r, r'. subst. split; reflexivity.
Qed.

Lemma swap_tails_changes (pq : list Z * list Z) :
  cstring pq.1 -> cstring pq.2 -> swap_tails pq = true -> changes 1 pq.1 pq.2.
Proof.
  destruct pq as [a b]. unfold swap_tails, tails_equal. cbn [fst snd].
  intros Ca Cb H. apply andb_true_iff in H. destruct H as [H1 H2].
  apply strcmp_eq_iff in H2.
  destruct (heads_swapped_cases a b Ca Cb H1)
    as [[-> ->]|(x & y & r & r' & -> & ->)]; [constructor|].
  cbn [drop] in H2. rewrite !drop_0 in H2. subst r'.
  apply changes_one. apply (change_swap [] x y r).
Qed.

(** After two neighbours changed places, [n] more changes. *)
Lemma swapped_changes (n : nat) (pl ps : list Z) :
  cstring pl -> cstring ps -> heads_swapped pl ps = true ->
  changes n (drop 2 pl) (drop 2 ps) -> changes (S n) pl ps.
Proof.
  intros Cl Cs Hsw H.
  destruct (heads_swapped_cases pl ps Cl Cs Hsw)
    as [[-> ->]|(x & y & r & r' & -> & ->)]; [constructor|].
  cbn [drop] in H. rewrite !drop_0 in H.
  apply (changes_step n _ (y :: x :: r) _); [apply (change_swap [] x y r)|].
  apply (changes_app n [y; x]). exact H.
Qed.

Ltac skip_cstring :=
  first [ assumption
        | apply cstring_drop; assumption
        | apply skip_identical_facts;
          first [assumption | apply cstring_drop; assumption] ].

Lemma two_of_changes (score : Z) (pl ps : list Z) :
  cstring pl -> cstring ps ->
  two_of score pl ps <> SCORE_MAXMAX -> changes 2 pl ps.
Proof.
  intros Cl Cs. unfold two_of.
  destruct (tails_equal 1 0 (skip_identical (drop 1 pl) ps)) eqn:E; [|congruence].
  intros _. apply (changes_trans 1 1 pl (drop 1 pl) ps (drop1_self pl)).
  apply skip_changes; [skip_cstring..|]. apply tails_10_changes. exact E.
Qed.

Lemma one_of_changes (score : Z) (pl ps : list Z) :
  cstring pl -> cstring ps ->
  one_of score pl ps <> SCORE_MAXMAX -> changes 2 pl ps.
Proof.
  intros Cl Cs. unfold one_of.
  destruct (strcmp_eq (drop 1 pl) ps) eqn:E1.
  { intros _. apply strcmp_eq_iff in E1. rewrite <- E1.
    apply (changes_mono 1); [apply drop1_self|lia]. }
  destruct (swap_tails (skip_identical (drop 1 pl) ps)) eqn:E2.
  { intros _. apply (changes_trans 1 1 pl (drop 1 pl) ps (drop1_self pl)).
    apply skip_changes; [skip_cstring..|].
    apply swap_tails_changes; [skip_cstring..|exact E2]. }
  destruct (tails_equal 1 1 (skip_identical (drop 1 pl) ps)) eqn:E3.
  { intros _. apply (changes_trans 1 1 pl (drop 1 pl) ps (drop1_self pl)).
    apply skip_changes; [skip_cstring..|]. apply tails_11_changes. exact E3. }
  destruct (heads_swapped pl ps
            && tails_equal 1 0 (skip_identical (drop 2 pl) (drop 2 ps))) eqn:E4.
  { intros _. apply andb_true_iff in E4. destruct E4 as [Hsw E4].
    apply swapped_changes; [assumption..|].
    apply skip_changes; [skip_cstring..|]. apply tails_10_changes. exact E4. }
  destruct (tails_equal 1 0 (skip_identical (drop 1 pl) (drop 1 ps))) eqn:E5;
    [|congruence].
  intros _. apply drop1_changes.
  apply skip_changes; [skip_cstring..|]. apply tails_10_changes. exact E5.
Qed.

Lemma subst_of_changes (score : Z) (pl ps : list Z) :
  cstring pl -> cstring ps ->
  subst_of score pl ps <> SCORE_MAXMAX -> changes 2 pl ps.
Proof.
  intros Cl Cs. unfold subst_of.
  destruct (strcmp_eq (drop 1 pl) (drop 1 ps)) eqn:E1.
  { intros _. apply strcmp_eq_iff in E1.
    apply (changes_mono 1); [|lia]. apply drop1_changes. rewrite E1. constructor. }
  destruct (swap_tails (skip_identical (drop 1 pl) (drop 1 ps))) eqn:E2.
  { intros _. apply drop1_changes. apply skip_changes; [skip_cstring..|].
    apply swap_tails_changes; [skip_cstring..|exact E2]. }
  destruct (tails_equal 1 1 (skip_identical (drop 1 pl) (drop 1 ps))) eqn:E3.
  { intros _. apply drop1_changes. apply skip_changes; [skip_cstring..|].
    apply tails_11_changes. exact E3. }
  destruct (tails_equal 1 0 (skip_identical pl (drop 1 ps))) eqn:E4.
  { intros _. apply (changes_trans 1 1 pl (drop 1 ps) ps).
    - apply skip_changes; [skip_cstring..|]. apply tails_10_changes. exact E4.
    - apply changes_sym, drop1_self. }
  destruct (tails_equal 0 1 (skip_identical (drop 1 pl) ps)) eqn:E5; [|congruence].
  intros _. apply (changes_trans 1 1 pl (drop 1 pl) ps (drop1_self pl)).
  apply skip_changes; [skip_cstring..|]. apply tails_01_changes. exact E5.
Qed.

Lemma same_of_changes (score : Z) (pl ps : list Z) :
  cstring pl -> cstring ps -> length pl = length ps ->
  same_of score pl ps <> SCORE_MAXMAX -> changes 2 pl ps.
Proof.
  intros Cl Cs Hlen. unfold same_of.
  destruct (Z.eqb_spec (char_at pl 0) NUL) as [E0|E0].
  { intros _. apply cstring_head in E0; [|exact Cl]. subst pl.
    destruct ps; [constructor|discriminate]. }
  destruct (heads_swapped pl ps) eqn:Hsw; [|apply subst_of_changes; assumption].
  destruct (strcmp_eq (drop 2 pl) (drop 2 ps)) eqn:E1.
  { intros _. apply strcmp_eq_iff in E1.
    apply (changes_mono 1); [|lia].
    apply swapped_changes; [assumption..|]. rewrite E1. constructor. }
  destruct (swap_tails (skip_identical (drop 2 pl) (drop 2 ps))) eqn:E2.
  { intros _. apply swapped_changes; [assumption..|].
    apply skip_changes; [skip_cstring..|].
    apply swap_tails_changes; [skip_cstring..|exact E2]. }
  destruct (tails_equal 1 1 (skip_identical (drop 2 pl) (drop 2 ps))) eqn:E3.
  { intros _. apply swapped_changes; [assumption..|].
    apply skip_changes; [skip_cstring..|]. apply tails_11_changes. exact E3. }
  apply subst_of_changes; assumption.
Qed.

Lemma rest_of_changes (score : Z) (g b : list Z) :
  cstring g -> cstring b ->
  rest_of score g b <> SCORE_MAXMAX -> changes 2 b g.
Proof.
  intros Cg Cb. unfold rest_of. cbv zeta.
  destruct ((Z.of_nat (length g) - Z.of_nat (length b) <? -2)
            || (2 <? Z.of_nat (length g) - Z.of_nat (length b))) eqn:Efar;
    [congruence|].
  apply orb_false_iff in Efar. destruct Efar as [F1 F2].
  apply Z.ltb_ge in F1, F2.
  destruct (Z.ltb_spec 0 (Z.of_nat (length g) - Z.of_nat (length b))) as [Hn|Hn].
  - pose proof (skip_changes 2 g b Cg Cb) as Hsk.
    pose proof (skip_identical_facts g b Cg Cb) as (C1 & C2 & L & _ & _).
    destruct (skip_identical g b) as [pl ps]. cbn [fst snd] in *.
    intros H. apply changes_sym, Hsk.
    destruct (Z.eqb_spec (Z.of_nat (length g) - Z.of_nat (length b)) (-2)); [lia|].
    destruct (Z.eqb_spec (Z.of_nat (length g) - Z.of_nat (length b)) 2);
      cbn [orb] in H; [apply (two_of_changes score); assumption|].
    destruct (Z.eqb_spec (Z.of_nat (length g) - Z.of_nat (length b)) (-1)); [lia|].
    destruct (Z.eqb_spec (Z.of_nat (length g) - Z.of_nat (length b)) 1);
      cbn [orb] in H; [|lia].
    apply (one_of_changes score); assumption.
  - pose proof (skip_changes 2 b g Cb Cg) as Hsk.
    pose proof (skip_identical_facts b g Cb Cg) as (C1 & C2 & L & _ & _).
    destruct (skip_identical b g) as [pl ps]. cbn [fst snd] in *.
    intros H. apply Hsk.
    destruct (Z.eqb_spec (Z.of_nat (length g) - Z.of_nat (length b)) (-2));
      cbn [orb] in H; [apply (two_of_changes score); assumption|].
    destruct (Z.eqb_spec (Z.of_nat (length g) - Z.of_nat (length b)) 2);
      cbn [orb] in H; [lia|].
    destruct (Z.eqb_spec (Z.of_nat (length g) - Z.of_nat (length b)) (-1));
      cbn [orb] in H; [apply (one_of_changes score); assumption|].
    destruct (Z.eqb_spec (Z.of_nat (length g) - Z.of_nat (length b)) 1);
      cbn [orb] in H; [lia|].
    apply (same_of_changes score); [assumption..|lia|assumption].
Qed.

Lemma vowel_of_del_changes (g b : list Z) :
  cstring g -> cstring b ->
  vowel_of g b = inl SCORE_DEL -> changes 1 b g.
Proof.
  intros Cg Cb. unfold vowel_of. cbv zeta.
  destruct (((char_at b 0 =? STAR) || (char_at g 0 =? STAR))
            && negb (char_at b 0 =? char_at g 0)); [|discriminate].
  destruct ((char_at b 0 =? NUL) && (char_at g 1 =? NUL)
            || (char_at g 0 =? NUL) && (char_at b 1 =? NUL)) eqn:Ed.
  - intros _. apply orb_true_iff in Ed.
    destruct Ed as [Ed|Ed]; apply andb_true_iff in Ed; destruct Ed as [E0 E1];
      apply Z.eqb_eq in E0, E1; apply cstring_head in E0; try assumption;
      apply char_at_NUL in E1; try assumption; subst.
    + destruct g as [|x [|y g]]; [constructor| |simpl in E1; lia].
      apply changes_one, (change_ins [] x []).
    + destruct b as [|x [|y b]]; [constructor| |simpl in E1; lia].
      apply changes_one, (change_del [] x []).
  - repeat match goal with
           | |- context [if ?c then _ else _] => destruct c
           end; discriminate.
Qed.

(** X9.  A score below [SCORE_MAXMAX] is given only to words that are close:
    the good word is the bad word with at most three changes (a character
    taken out, put in or replaced, or two neighbours changing places), and
    with at most two when neither word starts with the vowel mark ['*']. *)
Theorem soundalike_score_two_changes (goodstart badstart : list Z) (v : Z) :
  cstring goodstart -> cstring badstart ->
  soundalike_score goodstart badstart = Some v -> v <> SCORE_MAXMAX ->
  changes 3 badstart goodstart /\
  (char_at goodstart 0 <> STAR -> char_at badstart 0 <> STAR ->
   changes 2 badstart goodstart).
Proof.
  intros Cg Cb H Hv. rewrite soundalike_score_run in H by assumption.
  injection H as H. subst v. split.
  - unfold score_of in Hv.
    pose proof (vowel_of_values goodstart badstart) as Hval.
    pose proof (vowel_of_del_changes goodstart badstart Cg Cb) as Hdel.
    destruct (vowel_of goodstart badstart) as [v|[[score g] b]] eqn:Ev.
    + destruct Hval as [-> | ->]; [|congruence].
      apply (changes_mono 1); [apply Hdel; reflexivity|lia].
    + destruct (vowel_of_cstring _ _ _ _ _ Cg Cb Ev) as (Cg' & Cb' & _).
      pose proof (rest_of_changes score g b Cg' Cb' Hv) as Hr.
      destruct Hval as [(_ & -> & ->)|(_ & [(-> & -> & _)|(-> & -> & _)])].
      * apply (changes_mono 2); [exact Hr|lia].
      * apply (changes_trans 1 2 _ _ _ (drop1_self badstart) Hr).
      * replace 3%nat with (2 + 1)%nat by lia.
        apply (changes_trans 2 1 _ _ _ Hr). apply changes_sym, drop1_self.
  - intros Hg Hb. unfold score_of in Hv. rewrite vowel_of_plain in Hv by assumption.
    apply (rest_of_changes 0); assumption.
Qed.

(** ** [stp_sal_score] and [rescore_one] *)

Section SalScoreFacts.

Variable spell_soundfold : slang_T -> list Z -> bool -> list Z.
Variable spell_casefold : list Z -> list Z.
Variable MAXWLEN : Z.

(** Sound folding and case folding give C strings for C strings. *)
Hypothesis soundfold_cstring :
  forall sl w folded, cstring w -> cstring (spell_soundfold sl w folded).
Hypothesis casefold_cstring : forall w, cstring w -> cstring (spell_casefold w).

Lemma cstring_take (p : list Z) (n : nat) : cstring p -> cstring (take n p).
Proof. unfold cstring. apply Forall_take. Qed.

Lemma remove_white_cstring (p : list Z) : cstring p -> cstring (remove_white p).
Proof.
  induction p as [|c p IH]; intros H; [exact H|].
  apply Forall_cons in H. destruct H as [Hc Hp]. cbn [remove_white].
  destruct (VIM_ISWHITE c); [apply IH; exact Hp|].
  apply Forall_cons. split; [exact Hc|apply IH; exact Hp].
Qed.

Lemma strcpy_at_cstring (b : list Z) (off : Z) (s : list Z) :
  cstring b -> cstring s -> cstring (strcpy_at b off s).
Proof.
  intros Hb Hs. unfold strcpy_at. destruct (off <=? Z.of_nat (length b)); [|exact Hb].
  apply cstring_app. split; [apply cstring_take; exact Hb|exact Hs].
Qed.

(** On C strings [stp_sal_score] returns a score, [SCORE_MAXMAX] or one
    between 0 and 252. *)
Lemma stp_sal_score_returns (stp : suggest_T) (su_badptr : list Z) (su_badlen : Z)
    (slang : slang_T) (badsound : list Z) :
  cstring (st_word stp) -> cstring su_badptr -> cstring badsound ->
  exists v,
    stp_sal_score spell_soundfold spell_casefold MAXWLEN stp su_badptr su_badlen
                  slang badsound = Some v /\
    (v = SCORE_MAXMAX \/ 0 <= v <= 252).
Proof.
  intros Hw Hp Hb. unfold stp_sal_score. cbv zeta.
  match goal with
  | |- exists v, soundalike_score ?g ?b = Some v /\ _ =>
      assert (Cg : cstring g); [|assert (Cb : cstring b)]
  end.
  - apply soundfold_cstring.
    destruct ((0 <? su_badlen - st_orglen stp)
              && (st_wordlen stp + (su_badlen - st_orglen stp) <? MAXWLEN));
      [|exact Hw].
    apply strcpy_at_cstring; [exact Hw|]. apply cstring_take, cstring_drop, Hp.
  - destruct (0 <=? su_badlen - st_orglen stp); [exact Hb|].
    apply soundfold_cstring.
    destruct (VIM_ISWHITE _ && _);
      [apply remove_white_cstring|]; apply casefold_cstring, cstring_take, Hp.
  - destruct (soundalike_score_range _ _ Cg Cb) as (v & E & [Hv|[Hv _]] & _);
      exists v; (split; [exact E|]); [left|right]; assumption.
Qed.

(** X10.  With the sound-alike score that [stp_sal_score] computes,
    [rescore_one] leaves an entry as it is, or marks it as having the bonus
    and gives it an alternative score between 0 and [SCORE_BIG] = 288
    ([SCORE_MAXMAX] is never stored) and the score [RESCORE] makes of the old
    score and the alternative one; a score that was not negative then lies
    between three quarters of the old one and 72 more than that. *)
Theorem rescore_one_bounds
    (sal : suggest_T -> list Z -> Z -> slang_T -> list Z -> Z)
    (su : suginfo_T) (stp : suggest_T) :
  (forall stp ptr len sl bs v,
     stp_sal_score spell_soundfold spell_casefold MAXWLEN stp ptr len sl bs = Some v ->
     sal stp ptr len sl bs = v) ->
  cstring (st_word stp) -> cstring (su_badptr su) ->
  cstring (su_fbadword su) -> cstring (su_sal_badword su) ->
  rescore_one spell_soundfold sal su stp = stp \/
  (st_had_bonus (rescore_one spell_soundfold sal su stp) = true /\
   0 <= st_altscore (rescore_one spell_soundfold sal su stp) <= SCORE_BIG /\
   st_score (rescore_one spell_soundfold sal su stp)
   = RESCORE (st_score stp) (st_altscore (rescore_one spell_soundfold sal su stp)) /\
   (0 <= st_score stp ->
    3 * st_score stp <= 4 * st_score (rescore_one spell_soundfold sal su stp) + 3 /\
    4 * st_score (rescore_one spell_soundfold sal su stp) <= 3 * st_score stp + 288)).
Proof.
  intros Hsal Hw Hp Hf Hs. unfold rescore_one.
  destruct (st_slang stp) as [slang|]; [|left; reflexivity].
  destruct ((0 <? sl_sal_len slang) && negb (st_had_bonus stp)); [|left; reflexivity].
  right.
  set (p := if slang_ptr_eqb (Some slang) (su_sallang su) then su_sal_badword su
            else spell_soundfold slang (su_fbadword su) true).
  assert (Cp : cstring p).
  { unfold p. destruct (slang_ptr_eqb _ _); [exact Hs|].
    apply soundfold_cstring. exact Hf. }
  destruct (stp_sal_score_returns stp (su_badptr su) (su_badlen su) slang p Hw Hp Cp)
    as (v & Ev & Hv).
  rewrite (Hsal _ _ _ _ _ _ Ev). cbn [st_had_bonus st_altscore st_score set_st_scores].
  split; [reflexivity|].
  assert (Ha : 0 <= (if v =? SCORE_MAXMAX then SCORE_BIG else v) <= SCORE_BIG).
  { destruct (Z.eqb_spec v SCORE_MAXMAX) as [E|E]; unfold SCORE_BIG, SCORE_INS.
    - lia.
    - destruct Hv as [Hv|Hv]; [congruence|lia]. }
  split; [exact Ha|]. split; [reflexivity|].
  intros Hsc. unfold RESCORE.
  generalize dependent (if v =? SCORE_MAXMAX then SCORE_BIG else v).
  intros a Ha. unfold SCORE_BIG, SCORE_INS in Ha.
  rewrite Z.quot_div_nonneg by lia.
  pose proof (Z.mul_div_le (3 * st_score stp + a) 4 ltac:(lia)).
  pose proof (Z.mul_succ_div_gt (3 * st_score stp + a) 4 ltac:(lia)).
  lia.
Qed.

End SalScoreFacts.

(** ** [spell_check_sps] *)

Section CheckSpsFacts.

Variable getdigits : list Z -> Z * list Z.

(** The flag of a part that names a method, 0 for any other part. *)
Definition method_flag (buf : list Z) : Z :=
  if strcmp_eq buf str_best then SPS_BEST
  else if strcmp_eq buf str_fast then SPS_FAST
  else if strcmp_eq buf str_double then SPS_DOUBLE
  else 0.

Lemma method_flag_values (buf : list Z) :
  method_flag buf = 0 \/ method_flag buf = SPS_BEST \/
  method_flag buf = SPS_FAST \/ method_flag buf = SPS_DOUBLE.
Proof.
  unfold method_flag.
  destruct (strcmp_eq buf str_best); [tauto|].
  destruct (strcmp_eq buf str_fast); [tauto|].
  destruct (strcmp_eq buf str_double); tauto.
Qed.

Lemma method_flag_digit (buf : list Z) :
  VIM_ISDIGIT (char_at buf 0) = true -> method_flag buf = 0.
Proof.
  intros H. unfold method_flag.
  destruct (strcmp_eq buf str_best) eqn:E1;
    [apply strcmp_eq_iff in E1; subst buf; discriminate|].
  destruct (strcmp_eq buf str_fast) eqn:E2;
    [apply strcmp_eq_iff in E2; subst buf; discriminate|].
  destruct (strcmp_eq buf str_double) eqn:E3;
    [apply strcmp_eq_iff in E3; subst buf; discriminate|].
  reflexivity.
Qed.

(** What a turn of the loop finds in a part: the flag of the method it
    names, or -1 for a part that names no method and is wrong; and the limit,
    which only a part that starts with a digit changes. *)
Lemma sps_part_spec (sps_limit : Z) (buf : list Z) :
  ((sps_part getdigits sps_limit buf).1 = method_flag buf \/
   ((sps_part getdigits sps_limit buf).1 = -1 /\ method_flag buf = 0)) /\
  (sps_part getdigits sps_limit buf).2
  = if VIM_ISDIGIT (char_at buf 0) then (getdigits buf).1 else sps_limit.
Proof.
  unfold sps_part.
  destruct (VIM_ISDIGIT (char_at buf 0)) eqn:Ed.
  - rewrite (method_flag_digit buf Ed).
    destruct (getdigits buf) as [n s].
    destruct (negb (char_at s 0 =? NUL) && negb (VIM_ISDIGIT (char_at s 0)));
      cbn [fst snd]; (split; [|reflexivity]); [right|left]; tauto.
  - unfold method_flag.
    destruct (strcmp_eq buf str_best); [split; [left|]; reflexivity|].
    destruct (strcmp_eq buf str_fast); [split; [left|]; reflexivity|].
    destruct (strcmp_eq buf str_double); [split; [left|]; reflexivity|].
    match goal with
    | |- context [if ?c then _ else _] => destruct c
    end; cbn [fst snd]; (split; [|reflexivity]); [right|left]; tauto.
Qed.

(** The parts that name a method, and the numbers of those that start with a
    digit. *)
Definition methods_of (parts : list (list Z)) : list (list Z) :=
  List.filter (fun buf => negb (method_flag buf =? 0)) parts.

Definition numbers_of (parts : list (list Z)) : list Z :=
  map (fun buf => (getdigits buf).1)
      (List.filter (fun buf => VIM_ISDIGIT (char_at buf 0)) parts).

Lemma default_last_cons (x d : Z) (l : list Z) :
  default d (last (x :: l)) = default x (last l).
Proof.
  destruct l as [|a t]; [reflexivity|]. rewrite last_cons.
  destruct (last (a :: t)) eqn:E; [reflexivity|].
  apply last_None in E. discriminate.
Qed.

Lemma numbers_of_cons (buf : list Z) (rest : list (list Z)) (sps_limit : Z) :
  default sps_limit (last (numbers_of (buf :: rest)))
  = default (if VIM_ISDIGIT (char_at buf 0) then (getdigits buf).1 else sps_limit)
            (last (numbers_of rest)).
Proof.
  unfold numbers_of. cbn [List.filter].
  destruct (VIM_ISDIGIT (char_at buf 0)); [|reflexivity].
  cbn [map]. apply default_last_cons.
Qed.

Lemma methods_of_cons (buf : list Z) (rest : list (list Z)) :
  methods_of (buf :: rest)
  = if negb (method_flag buf =? 0) then buf :: methods_of rest else methods_of rest.
Proof. reflexivity. Qed.

Lemma check_sps_loop_spec (parts : list (list Z)) (sps_flags sps_limit : Z)
    (flags limit : Z) :
  check_sps_loop getdigits sps_flags sps_limit parts = Some (flags, limit) ->
  limit = default sps_limit (last (numbers_of parts)) /\
  (sps_flags <> 0 -> methods_of parts = [] /\ flags = sps_flags) /\
  (sps_flags = 0 ->
   (methods_of parts = [] /\ flags = 0) \/
   exists m, methods_of parts = [m] /\ flags = method_flag m).
Proof.
  revert sps_flags sps_limit.
  induction parts as [|buf rest IH]; intros sps_flags sps_limit H.
  - cbn in H. injection H as <- <-.
    split; [reflexivity|]. split; [tauto|]. intros ->. left. tauto.
  - cbn [check_sps_loop] in H.
    destruct (sps_part_spec sps_limit buf) as [Hf Hl].
    destruct (sps_part getdigits sps_limit buf) as [f l]. cbn [fst snd] in Hf, Hl.
    destruct (Z.eqb_spec f (-1)) as [E1|E1]; [discriminate|]. cbn [orb] in H.
    destruct Hf as [Hf|[Hf _]]; [|congruence].
    rewrite numbers_of_cons, methods_of_cons, <- Hf, <- Hl.
    destruct (Z.eqb_spec f 0) as [E0|E0]; cbn [negb andb] in *.
    + rewrite andb_false_r in H. apply IH in H. exact H.
    + destruct (Z.eqb_spec sps_flags 0) as [Es|Es]; cbn [negb andb] in H;
        [|discriminate].
      apply IH in H. destruct H as (H1 & H2 & _).
      destruct (H2 E0) as [Hm ->].
      split; [exact H1|]. split; [congruence|].
      intros _. right. exists buf. rewrite Hm. split; [reflexivity|exact Hf].
Qed.

(** X11.  [spell_check_sps] always leaves [sps_flags] as exactly one of
    [SPS_BEST], [SPS_FAST] and [SPS_DOUBLE]; when it fails it leaves
    [SPS_BEST] and the limit 9999; when it accepts the option, at most one
    part names a method, [sps_flags] is the method named ([SPS_BEST] when
    there is none), and [sps_limit] is the number of the last part that
    starts with a digit (9999 when there is none). *)
Theorem spell_check_sps_flags (parts : list (list Z)) :
  exists (ok : bool) (flags limit : Z),
    spell_check_sps getdigits parts = (ok, flags, limit) /\
    (flags = SPS_BEST \/ flags = SPS_FAST \/ flags = SPS_DOUBLE) /\
    (ok = false -> flags = SPS_BEST /\ limit = 9999) /\
    (ok = true ->
     limit = default 9999 (last (numbers_of parts)) /\
     ((methods_of parts = [] /\ flags = SPS_BEST) \/
      exists m, methods_of parts = [m] /\ flags = method_flag m)).
Proof.
  unfold spell_check_sps.
  destruct (check_sps_loop getdigits 0 9999 parts) as [[fl lim]|] eqn:E.
  - apply check_sps_loop_spec in E. destruct E as (H1 & _ & H3).
    specialize (H3 eq_refl).
    exists true, (if fl =? 0 then SPS_BEST else fl), lim.
    split; [reflexivity|].
    assert (Hm : forall m, methods_of parts = [m] -> method_flag m <> 0).
    { intros m Hm.
      assert (Hin : In m (methods_of parts)) by (rewrite Hm; left; reflexivity).
      unfold methods_of in Hin. apply filter_In in Hin. destruct Hin as [_ Hin].
      apply negb_true_iff, Z.eqb_neq in Hin. exact Hin. }
    split; [|split; [discriminate|]].
    + destruct H3 as [[_ ->]|(m & Hmm & ->)]; [left; reflexivity|].
      specialize (Hm m Hmm).
      destruct (Z.eqb_spec (method_flag m) 0); [congruence|].
      destruct (method_flag_values m) as [?|?]; [congruence|assumption].
    + intros _. split; [exact H1|].
      destruct H3 as [[H3 ->]|(m & Hmm & ->)]; [left; split; [exact H3|reflexivity]|].
      right. exists m. split; [exact Hmm|].
      specialize (Hm m Hmm). destruct (Z.eqb_spec (method_flag m) 0); [congruence|].
      reflexivity.
  - exists false, SPS_BEST, 9999. split; [reflexivity|].
    split; [left; reflexivity|]. split; [intros _; split; reflexivity|discriminate].
Qed.

End CheckSpsFacts.

(** ** The method "fast": [spell_find_suggest] with the walks of
    [suggest_try_change] *)

Section FastMode.

Variable TOLOWER_LOC : Z -> Z.
Variable spell_soundfold : slang_T -> list Z -> bool -> list Z.
Variable sal_score : suggest_T -> list Z -> Z -> slang_T -> list Z -> Z.
Variable has_mbyte : bool.
Variable mb_head_off : list Z -> Z -> Z.
Variable mb_ptr2char : list Z -> Z.
Variable make_case_word : list Z -> Z -> list Z.
Variable captype : list Z -> Z.
Variable SPELL_ISUPPER : Z -> bool.
Variable spell_casefold : list Z -> list Z.
Variable spell_check : list Z -> Z * bool.
Variables MAXWLEN WF_ONECAP WF_ALLCAP WF_KEEPCAP : Z.
Variable SPELL_TOFOLD : Z -> Z.
Variable eval_spell_expr : list Z -> list Z -> list (list Z * Z).
Variable read_lines : list Z -> option (list (list Z)).
Variable add_sound_suggest : suginfo_T -> list Z -> Z -> langp_T -> suginfo_T.

(** With [SPS_FAST] set, [spell_suggest_intern] does not come to
    [suggest_try_soundalike]. *)
Lemma spell_suggest_intern_fast (try_change : suginfo_T -> suginfo_T)
    (sound1 sound2 : nat -> suginfo_T -> suginfo_T) langs sps_flags su :
  Z.land sps_flags SPS_FAST <> 0 ->
  spell_suggest_intern TOLOWER_LOC spell_soundfold sal_score has_mbyte mb_head_off
    mb_ptr2char make_case_word
    spell_check MAXWLEN try_change sound1 langs sps_flags su
  = spell_suggest_intern TOLOWER_LOC spell_soundfold sal_score has_mbyte mb_head_off
    mb_ptr2char make_case_word
      spell_check MAXWLEN try_change sound2 langs sps_flags su.
Proof.
  intros H. unfold spell_suggest_intern.
  destruct (Z.eqb_spec (Z.land sps_flags SPS_FAST) 0); [contradiction|reflexivity].
Qed.

Lemma spell_find_suggest_fast_sound (try_change : suginfo_T -> suginfo_T)
    (sound1 sound2 : nat -> suginfo_T -> suginfo_T) langs sps_flags p_sps badptr
    badlen maxcount banbadword need_cap :
  Z.land sps_flags SPS_FAST <> 0 ->
  spell_find_suggest TOLOWER_LOC spell_soundfold sal_score has_mbyte mb_head_off
    mb_ptr2char make_case_word captype
    SPELL_ISUPPER spell_casefold spell_check MAXWLEN WF_ONECAP WF_ALLCAP WF_KEEPCAP
    SPELL_TOFOLD eval_spell_expr read_lines try_change sound1 langs sps_flags p_sps
    badptr badlen maxcount banbadword need_cap
  = spell_find_suggest TOLOWER_LOC spell_soundfold sal_score has_mbyte mb_head_off
    mb_ptr2char make_case_word captype
      SPELL_ISUPPER spell_casefold spell_check MAXWLEN WF_ONECAP WF_ALLCAP WF_KEEPCAP
      SPELL_TOFOLD eval_spell_expr read_lines try_change sound2 langs sps_flags p_sps
      badptr badlen maxcount banbadword need_cap.
Proof.
  intros H. unfold spell_find_suggest.
  destruct badptr as [|c badptr']; [reflexivity|].
  match goal with
  | |- ?lhs = ?rhs =>
      match lhs with
      | context [fold_left ?f1 p_sps ?a] =>
          match rhs with
          | context [fold_left ?f2 p_sps _] =>
              assert (E : forall items acc,
                         fold_left f1 items acc = fold_left f2 items acc)
          end
      end
  end.
  { induction items as [|item items IH]; intros a; [reflexivity|].
    cbn [fold_left]. rewrite IH. f_equal.
    destruct a as [[su dc] di]. destruct item; cbn [sps_item_step]; try reflexivity.
    destruct di; [reflexivity|].
    rewrite (spell_suggest_intern_fast try_change sound1 sound2 langs sps_flags su H).
    reflexivity. }
  rewrite E. reflexivity.
Qed.

(** X19.  With the method "fast" ([SPS_FAST] set in [sps_flags]) and a
    [maxcount] of at least 1, [spell_find_suggest] gives at most [maxcount]
    suggestions and none of them twice (the same word for the same length of
    text), whatever the word trees of the languages hold and however long
    the walks of [suggest_try_change] through them go on. *)
Theorem spell_find_suggest_fast
    (loaded : langp_T -> bool) (os : nat -> list walk_obs)
    (suggest_try_soundalike : nat -> suginfo_T -> suginfo_T)
    (langs : list langp_T) (sps_flags : Z) (p_sps : list sps_item)
    (badptr : list Z) (badlen maxcount : Z) (banbadword need_cap : bool) :
  1 <= maxcount -> Z.land sps_flags SPS_FAST <> 0 ->
  Z.of_nat (length (su_ga
    (spell_find_suggest TOLOWER_LOC spell_soundfold sal_score has_mbyte mb_head_off
      mb_ptr2char make_case_word captype
       SPELL_ISUPPER spell_casefold spell_check MAXWLEN WF_ONECAP WF_ALLCAP
       WF_KEEPCAP SPELL_TOFOLD eval_spell_expr read_lines
       (suggest_try_change_walks TOLOWER_LOC spell_soundfold sal_score has_mbyte
         mb_head_off mb_ptr2char
          make_case_word captype SPELL_ISUPPER MAXWLEN WF_ONECAP WF_ALLCAP
          WF_KEEPCAP add_sound_suggest loaded os langs)
       suggest_try_soundalike langs sps_flags p_sps badptr badlen maxcount
       banbadword need_cap)))
  <= maxcount /\
  NoDup (map (fun stp => (st_word stp, st_orglen stp)) (su_ga
    (spell_find_suggest TOLOWER_LOC spell_soundfold sal_score has_mbyte mb_head_off
      mb_ptr2char make_case_word captype
       SPELL_ISUPPER spell_casefold spell_check MAXWLEN WF_ONECAP WF_ALLCAP
       WF_KEEPCAP SPELL_TOFOLD eval_spell_expr read_lines
       (suggest_try_change_walks TOLOWER_LOC spell_soundfold sal_score has_mbyte
         mb_head_off mb_ptr2char
          make_case_word captype SPELL_ISUPPER MAXWLEN WF_ONECAP WF_ALLCAP
          WF_KEEPCAP add_sound_suggest loaded os langs)
       suggest_try_soundalike langs sps_flags p_sps badptr badlen maxcount
       banbadword need_cap))).
Proof.
  intros Hm Hf.
  rewrite (spell_find_suggest_fast_sound _ suggest_try_soundalike (fun _ su => su))
    by exact Hf.
  split.
  - eapply proj1. apply spell_find_suggest_cut_down; [| |exact Hm].
    + intros su. apply suggest_try_change_walks_maxcount.
    + intros n su. reflexivity.
  - apply spell_find_suggest_no_dups.
    + intros word su. apply suggest_try_change_walks_dup_inv.
    + intros word n su H. exact H.
Qed.

End FastMode.

(** ** [soundfold_find] *)

(** A word with every run of blanks (spaces and tabs) made one space;
    [after_blank] tells that the character before was a blank. *)
Fixpoint collapse_from (after_blank : bool) (w : list Z) : list Z :=
  match w with
  | [] => []
  | c :: rest =>
      if (c =? SPACE) || (c =? TAB) then
        if after_blank then collapse_from true rest
        else SPACE :: collapse_from true rest
      else c :: collapse_from false rest
  end.

Definition collapse_blanks (w : list Z) : list Z := collapse_from false w.

Lemma skip_blanks_length (w : list Z) : (length (skip_blanks w) <= length w)%nat.
Proof.
  induction w as [|c w IH]; [reflexivity|]. cbn [skip_blanks].
  destruct ((c =? SPACE) || (c =? TAB)); cbn [length]; lia.
Qed.

(** After a blank, the blanks that follow are skipped. *)
Lemma collapse_after_blank (w : list Z) :
  collapse_from true w = collapse_from false (skip_blanks w).
Proof.
  induction w as [|c w IH]; [reflexivity|].
  cbn [collapse_from skip_blanks].
  destruct ((c =? SPACE) || (c =? TAB)) eqn:E; [exact IH|].
  cbn [collapse_from]. rewrite E. reflexivity.
Qed.

(** What is left after skipping blanks does not start with a blank, nor does
    what [collapse_from] makes of it. *)
Lemma skip_blanks_collapse (w : list Z) :
  skip_blanks (collapse_from false (skip_blanks w))
  = collapse_from false (skip_blanks w).
Proof.
  induction w as [|c w IH]; [reflexivity|].
  cbn [skip_blanks].
  destruct ((c =? SPACE) || (c =? TAB)) eqn:E; [exact IH|].
  cbn [collapse_from]. rewrite E. cbn [skip_blanks]. rewrite E. reflexivity.
Qed.

(** The loop gives the same for a word and for the word with its runs of
    blanks made one space each, whatever the arrays hold. *)
Lemma soundfold_find_loop_collapse (byts idxs : list Z) (fuel fuel' : nat)
    (arridx wordnr : Z) (ptr : list Z) :
  (length ptr < fuel)%nat -> (length (collapse_from false ptr) < fuel')%nat ->
  soundfold_find_loop byts idxs fuel arridx wordnr ptr
  = soundfold_find_loop byts idxs fuel' arridx wordnr (collapse_from false ptr).
Proof.
  revert fuel' arridx wordnr ptr.
  induction fuel as [|fuel IH]; intros fuel' arridx wordnr ptr Hf Hf'; [lia|].
  destruct fuel' as [|fuel']; [lia|].
  cbn [soundfold_find_loop].
  destruct (arr_at byts arridx) as [len|]; [|reflexivity].
  destruct (arr_at byts (arridx + 1)) as [b|]; [|reflexivity].
  destruct ptr as [|x rest].
  - reflexivity.
  - cbn [collapse_from] in Hf' |- *.
    destruct ((x =? SPACE) || (x =? TAB)) eqn:Eb.
    + (* a blank *)
      rewrite !char_at_0_cons.
      assert (Hx : (x =? NUL) = false).
      { apply orb_true_iff in Eb. destruct Eb as [E|E];
          apply Z.eqb_eq in E; subst x; reflexivity. }
      assert (Hc : (if x =? TAB then SPACE else x) = SPACE).
      { apply orb_true_iff in Eb. destruct Eb as [E|E];
          apply Z.eqb_eq in E; subst x; reflexivity. }
      rewrite Hx, Hc.
      change (SPACE =? NUL) with false. change (SPACE =? TAB) with false.
      cbv iota.
      destruct (if b =? NUL then _ else _) as [[v|[[a l] n]]|]; try reflexivity.
      destruct (find_byte byts idxs (length byts) SPACE a l n) as [[[a' n']|]|];
        try reflexivity.
      destruct (arr_at byts a') as [b'|]; [|reflexivity].
      destruct (negb (b' =? SPACE)); [reflexivity|].
      destruct (arr_at idxs a') as [a''|]; [|reflexivity].
      change (SPACE =? SPACE) with true. cbv iota.
      cbn [drop]. rewrite !drop_0.
      rewrite collapse_after_blank, skip_blanks_collapse.
      apply IH.
      * pose proof (skip_blanks_length rest). cbn [length] in Hf. lia.
      * rewrite collapse_after_blank in Hf'. cbn [length] in Hf'. lia.
    + (* no blank *)
      rewrite !char_at_0_cons.
      apply orb_false_iff in Eb. destruct Eb as [Es Et].
      rewrite Et.
      destruct (if b =? NUL then _ else _) as [[v|[[a l] n]]|]; try reflexivity.
      destruct (x =? NUL); [reflexivity|].
      destruct (find_byte byts idxs (length byts) x a l n) as [[[a' n']|]|];
        try reflexivity.
      destruct (arr_at byts a') as [b'|]; [|reflexivity].
      destruct (negb (b' =? x)); [reflexivity|].
      destruct (arr_at idxs a') as [a''|]; [|reflexivity].
      rewrite Es. cbn [drop]. rewrite !drop_0.
      apply IH; cbn [length] in Hf, Hf'; lia.
Qed.

(** X20.  [soundfold_find] takes a tab for a space and a run of blanks for
    one: whatever the two arrays of the tree hold, it gives for a word what
    it gives for the word with every run of spaces and tabs made one
    space. *)
Theorem soundfold_find_blanks (byts idxs : list Z) (word : list Z) :
  soundfold_find byts idxs word = soundfold_find byts idxs (collapse_blanks word).
Proof.
  unfold soundfold_find, collapse_blanks.
  apply soundfold_find_loop_collapse; lia.
Qed.

(** *** The number is the place of the word among the words of the tree *)

(** A tree of words as the two arrays hold it: a node has [ends] ends of a
    word (NUL bytes, one for each combination of flags) and children under
    bytes that are not NUL. *)
#[warnings="-register-all"] Inductive tree := Node (ends : nat) (kids : list (Z * tree)).

(** The words of a tree, those of a smaller byte first. *)
Fixpoint words (t : tree) : list (list Z) :=
  match t with
  | Node ends kids =>
      (if (0 <? ends)%nat then [[]] else [])
      ++ flat_map (fun bk => match bk with
                             | (b, k) => map (cons b) (words k)
                             end) kids
  end.

Definition words_kids (kids : list (Z * tree)) : list (list Z) :=
  flat_map (fun bk => match bk with (b, k) => map (cons b) (words k) end) kids.

Definition count (t : tree) : Z := Z.of_nat (length (words t)).

(** [a[i] == v], inside the array. *)
Definition arr_is (a : list Z) (i v : Z) : bool :=
  match arr_at a i with
  | Some x => x =? v
  | None => false
  end.

(** The children [kids] are at [p] in the arrays, with bytes above [lo] that
    go up; [sub] tells that a tree is at an index. *)
Definition kids_at (byts idxs : list Z) (sub : tree -> Z -> bool)
  : list (Z * tree) -> Z -> Z -> bool :=
  fix go (kids : list (Z * tree)) (p lo : Z) : bool :=
    match kids with
    | [] => true
    | (b, k) :: rest =>
        (lo <? b) && arr_is byts p b
        && match arr_at idxs p with
           | Some m => arr_is idxs m (count k) && sub k m
           | None => false
           end
        && go rest (p + 1) b
    end.

(** The tree [t] is at the index [n] of the arrays, as [soundfold_find]
    reads them: [byts[n]] is the number of the bytes of the node, which
    follow it, the NUL bytes first; [idxs] has at the place of a byte the
    index of the child, and at that index the number of the words of the
    child.  A node has a byte at least. *)
Fixpoint tree_at (byts idxs : list Z) (t : tree) (n : Z) {struct t} : bool :=
  match t with
  | Node ends kids =>
      (0 <? ends + length kids)%nat
      && arr_is byts n (Z.of_nat (ends + length kids))
      && forallb (fun i => arr_is byts (n + 1 + Z.of_nat i) NUL) (seq 0 ends)
      && kids_at byts idxs (tree_at byts idxs) kids (n + 1 + Z.of_nat ends) 0
  end.

(** The place of a word in a list of words. *)
Fixpoint index_of (w : list Z) (l : list (list Z)) : option nat :=
  match l with
  | [] => None
  | x :: l' => if decide (x = w) then Some O else option_map S (index_of w l')
  end.

(** What [soundfold_find] returns for a place: the number, or -1. *)
Definition number_of (wordnr : Z) (o : option nat) : Z :=
  match o with
  | Some k => wordnr + Z.of_nat k
  | None => -1
  end.

Lemma arr_at_Some (a : list Z) (i v : Z) :
  arr_at a i = Some v -> 0 <= i < Z.of_nat (length a).
Proof.
  unfold arr_at. destruct (Z.ltb_spec i 0) as [Hi|Hi]; [discriminate|].
  intros H. apply lookup_lt_Some in H. lia.
Qed.

Lemma arr_is_true (a : list Z) (i v : Z) :
  arr_is a i v = true -> arr_at a i = Some v.
Proof.
  unfold arr_is. destruct (arr_at a i) as [x|]; [|discriminate].
  intros H. apply Z.eqb_eq in H. subst. reflexivity.
Qed.

(** The places of words in lists put together. *)
Lemma index_of_app (w : list Z) (l1 l2 : list (list Z)) :
  index_of w (l1 ++ l2)
  = match index_of w l1 with
    | Some k => Some k
    | None => option_map (fun k => (length l1 + k)%nat) (index_of w l2)
    end.
Proof.
  induction l1 as [|x l1 IH]; cbn [app index_of length].
  - destruct (index_of w l2); reflexivity.
  - destruct (decide (x = w)); [reflexivity|].
    rewrite IH. destruct (index_of w l1); [reflexivity|].
    destruct (index_of w l2); reflexivity.
Qed.

Lemma index_of_map_cons (b c : Z) (w : list Z) (l : list (list Z)) :
  index_of (c :: w) (map (cons b) l) = if b =? c then index_of w l else None.
Proof.
  induction l as [|x l IH]; cbn [map index_of].
  - destruct (b =? c); reflexivity.
  - rewrite IH. destruct (Z.eqb_spec b c) as [E|E].
    + subst c. destruct (decide (b :: x = b :: w)) as [E1|E1];
        destruct (decide (x = w)) as [E2|E2]; try reflexivity; congruence.
    + destruct (decide (b :: x = c :: w)); [congruence|reflexivity].
Qed.

Lemma index_of_nil_map_cons (b : Z) (l : list (list Z)) :
  index_of [] (map (cons b) l) = None.
Proof.
  induction l as [|x l IH]; [reflexivity|]. cbn [map index_of].
  destruct (decide (b :: x = [])); [discriminate|]. rewrite IH. reflexivity.
Qed.

Lemma index_of_nil_kids (kids : list (Z * tree)) : index_of [] (words_kids kids) = None.
Proof.
  induction kids as [|[b k] kids IH]; [reflexivity|].
  unfold words_kids in *. cbn [flat_map]. rewrite index_of_app.
  rewrite index_of_nil_map_cons, IH. reflexivity.
Qed.

Lemma words_kids_cons (b : Z) (k : tree) (kids : list (Z * tree)) :
  words_kids ((b, k) :: kids) = map (cons b) (words k) ++ words_kids kids.
Proof. reflexivity. Qed.

Lemma kids_at_cons byts idxs sub b k rest p lo :
  kids_at byts idxs sub ((b, k) :: rest) p lo
  = (lo <? b) && arr_is byts p b
    && match arr_at idxs p with
       | Some m => arr_is idxs m (count k) && sub k m
       | None => false
       end
    && kids_at byts idxs sub rest (p + 1) b.
Proof. reflexivity. Qed.

(** Under bytes that go up from above [c] there is no word that starts with
    [c]. *)
Lemma index_of_kids_above byts idxs sub (kids : list (Z * tree)) (p lo c : Z)
    (w : list Z) :
  kids_at byts idxs sub kids p lo = true -> c <= lo ->
  index_of (c :: w) (words_kids kids) = None.
Proof.
  revert p lo. induction kids as [|[b k] kids IH]; intros p lo H Hc; [reflexivity|].
  rewrite kids_at_cons in H. apply andb_true_iff in H. destruct H as [H Hrest].
  apply andb_true_iff in H. destruct H as [H _].
  apply andb_true_iff in H. destruct H as [Hlo _]. apply Z.ltb_lt in Hlo.
  rewrite words_kids_cons, index_of_app, index_of_map_cons.
  destruct (Z.eqb_spec b c); [lia|].
  rewrite (IH (p + 1) b Hrest) by lia. reflexivity.
Qed.

(** A word as [soundfold_find] goes through it without skipping: no NUL, no
    tab, and no blank after a space. *)
Fixpoint plain (w : list Z) : Prop :=
  match w with
  | [] => True
  | c :: rest =>
      c <> NUL /\ c <> TAB /\ (c = SPACE -> skip_blanks rest = rest) /\ plain rest
  end.

Lemma plain_collapse_from (after_blank : bool) (w : list Z) :
  cstring w ->
  plain (collapse_from after_blank w) /\
  (after_blank = true ->
   skip_blanks (collapse_from after_blank w) = collapse_from after_blank w).
Proof.
  revert after_blank. induction w as [|c w IH]; intros ab Hw.
  - split; [exact I|reflexivity].
  - apply Forall_cons in Hw. destruct Hw as [Hc Hw].
    cbn [collapse_from]. destruct ((c =? SPACE) || (c =? TAB)) eqn:Eb.
    + destruct ab; [apply IH; exact Hw|].
      split; [|discriminate].
      destruct (IH true Hw) as [Hp Hs].
      cbn [plain]. repeat split; try discriminate; [|exact Hp].
      intros _. apply Hs. reflexivity.
    + apply orb_false_iff in Eb. destruct Eb as [Es Et].
      apply Z.eqb_neq in Es, Et. split.
      * cbn [plain]. repeat split; try assumption; [intros E; contradiction|].
        apply IH. exact Hw.
      * intros _. cbn [skip_blanks].
        destruct (Z.eqb_spec c SPACE); [contradiction|].
        destruct (Z.eqb_spec c TAB); [contradiction|]. reflexivity.
Qed.

(** The loop over the NUL bytes of a node stops behind them. *)
Lemma skip_nul_bytes_spec (byts : list Z) (n : Z) (ends kcount : nat) :
  (forall i, (i < ends)%nat -> arr_at byts (n + 1 + Z.of_nat i) = Some NUL) ->
  (kcount = O \/
   exists b, arr_at byts (n + 1 + Z.of_nat ends) = Some b /\ b <> NUL) ->
  forall (fuel j : nat),
    (j <= ends)%nat -> (ends - j + kcount <= fuel)%nat ->
    skip_nul_bytes byts fuel (n + 1 + Z.of_nat j) (Z.of_nat (ends - j + kcount))
    = Some (n + 1 + Z.of_nat ends, Z.of_nat kcount).
Proof.
  intros Hnul Hkid. induction fuel as [|fuel IH]; intros j Hj Hf.
  - cbn [skip_nul_bytes]. replace j with ends by lia.
    replace kcount with O by lia. rewrite Nat.sub_diag. reflexivity.
  - cbn [skip_nul_bytes].
    destruct (Z.leb_spec (Z.of_nat (ends - j + kcount)) 0) as [H0|H0].
    + replace j with ends by lia. replace kcount with O by lia.
      rewrite Nat.sub_diag. reflexivity.
    + destruct (Nat.eq_dec j ends) as [E|E].
      * subst j. destruct Hkid as [Hk|(b & Hb & Hb0)]; [lia|].
        rewrite Hb. destruct (Z.eqb_spec b NUL); [contradiction|].
        rewrite Nat.sub_diag. reflexivity.
      * rewrite (Hnul j) by lia. change (NUL =? NUL) with true. cbv iota.
        replace (n + 1 + Z.of_nat j + 1) with (n + 1 + Z.of_nat (S j)) by lia.
        replace (Z.of_nat (ends - j + kcount) - 1)
          with (Z.of_nat (ends - S j + kcount)) by lia.
        apply IH; lia.
Qed.

Lemma number_of_offset (wordnr : Z) (k : nat) (o : option nat) :
  number_of wordnr (option_map (fun i => (k + i)%nat) o)
  = number_of (wordnr + Z.of_nat k) o.
Proof. destruct o as [i|]; cbn [option_map number_of]; lia. Qed.

Section SoundfoldRank.

Variables byts idxs : list Z.

(** The search among the children of a node and the step to the child, given
    what the loop does from the child on. *)
Lemma find_byte_kids (c : Z) (rest : list Z) (f : nat)
    (IHloop : forall t n wordnr,
        tree_at byts idxs t n = true ->
        soundfold_find_loop byts idxs f n wordnr rest
        = Some (number_of wordnr (index_of rest (words t))))
    (kids : list (Z * tree)) :
  forall (p lo wordnr : Z) (fuel : nat),
    kids_at byts idxs (tree_at byts idxs) kids p lo = true ->
    kids <> [] ->
    Z.of_nat (length byts) <= p + Z.of_nat fuel ->
    (do r <- find_byte byts idxs fuel c p (Z.of_nat (length kids)) wordnr;
     match r with
     | None => Some (-1)
     | Some (arridx, wordnr) =>
         do b <- arr_at byts arridx;
         if negb (b =? c) then Some (-1)
         else
           do arridx <- arr_at idxs arridx;
           soundfold_find_loop byts idxs f arridx wordnr rest
     end)
    = Some (number_of wordnr (index_of (c :: rest) (words_kids kids))).
Proof.
  induction kids as [|[b k] kids IH]; intros p lo wordnr fuel Hk Hne Hf;
    [congruence|].
  rewrite kids_at_cons in Hk.
  apply andb_true_iff in Hk. destruct Hk as [Hk Hrest].
  apply andb_true_iff in Hk. destruct Hk as [Hk Hm].
  apply andb_true_iff in Hk. destruct Hk as [Hlo Hb].
  apply Z.ltb_lt in Hlo. apply arr_is_true in Hb.
  destruct (arr_at idxs p) as [m|] eqn:Em; [|discriminate].
  apply andb_true_iff in Hm. destruct Hm as [Hcount Hsub].
  apply arr_is_true in Hcount.
  pose proof (arr_at_Some _ _ _ Hb) as Hp.
  destruct fuel as [|fuel]; [lia|].
  rewrite words_kids_cons, index_of_app, index_of_map_cons.
  cbn [find_byte]. rewrite Hb.
  destruct (Z.ltb_spec b c) as [Hlt|Hge].
  - rewrite Em, Hcount.
    destruct (Z.eqb_spec b c); [lia|].
    rewrite number_of_offset, length_map. fold (count k).
    destruct kids as [|bk kids].
    + reflexivity.
    + replace (Z.of_nat (length ((b, k) :: bk :: kids)) - 1 =? 0) with false
        by (symmetry; apply Z.eqb_neq; cbn [length]; lia).
      replace (Z.of_nat (length ((b, k) :: bk :: kids)) - 1)
        with (Z.of_nat (length (bk :: kids))) by (cbn [length]; lia).
      apply (IH (p + 1) b); [exact Hrest|discriminate|lia].
  - rewrite Hb.
    destruct (Z.eqb_spec b c) as [E|E]; cbn [negb].
    + subst c. rewrite Em. rewrite (IHloop k m wordnr Hsub).
      destruct (index_of rest (words k)) as [i|]; [reflexivity|].
      rewrite (index_of_kids_above _ _ _ _ _ _ _ _ Hrest) by lia.
      reflexivity.
    + rewrite (index_of_kids_above _ _ _ _ _ _ _ _ Hrest) by lia.
      reflexivity.
Qed.

(** From a node of a tree on, the loop adds to [wordnr] the place of the
    rest of the word among the words of the tree, or gives -1 when the rest
    is none of them. *)
Lemma soundfold_find_loop_rank (fuel : nat) :
  forall (t : tree) (n wordnr : Z) (w : list Z),
    tree_at byts idxs t n = true -> plain w -> (length w < fuel)%nat ->
    soundfold_find_loop byts idxs fuel n wordnr w
    = Some (number_of wordnr (index_of w (words t))).
Proof.
  induction fuel as [|f IH]; intros [ends kids] n wordnr w Ht Hw Hf; [lia|].
  cbn [tree_at] in Ht.
  apply andb_true_iff in Ht. destruct Ht as [Ht Hkids].
  apply andb_true_iff in Ht. destruct Ht as [Ht Hnul].
  apply andb_true_iff in Ht. destruct Ht as [Hpos Hlen].
  apply Nat.ltb_lt in Hpos. apply arr_is_true in Hlen.
  assert (Hnul' : forall i, (i < ends)%nat ->
                            arr_at byts (n + 1 + Z.of_nat i) = Some NUL).
  { intros i Hi. rewrite forallb_forall in Hnul.
    apply arr_is_true. apply Hnul. apply in_seq. lia. }
  assert (Hfirst : kids <> [] ->
                   exists b, arr_at byts (n + 1 + Z.of_nat ends) = Some b /\ b <> NUL).
  { destruct kids as [|[b k] kids]; [congruence|]. intros _.
    rewrite kids_at_cons in Hkids.
    apply andb_true_iff in Hkids. destruct Hkids as [Hk _].
    apply andb_true_iff in Hk. destruct Hk as [Hk _].
    apply andb_true_iff in Hk. destruct Hk as [Hlo Hb].
    apply Z.ltb_lt in Hlo. apply arr_is_true in Hb.
    exists b. split; [exact Hb|unfold NUL; lia]. }
  cbn [soundfold_find_loop]. rewrite Hlen.
  cbn [words]. fold (words_kids kids).
  destruct w as [|c rest].
  - (* the word ends *)
    rewrite char_at_0_nil.
    destruct ends as [|ends].
    + destruct (Hfirst ltac:(destruct kids; [cbn in Hpos; lia|discriminate]))
        as (b & Hb & Hb0).
      rewrite Z.add_0_r in Hb. rewrite Hb.
      destruct (Z.eqb_spec b NUL); [contradiction|].
      change (NUL =? NUL) with true. cbv iota.
      cbn [Nat.ltb Nat.leb app]. rewrite index_of_nil_kids. reflexivity.
    + pose proof (Hnul' O ltac:(lia)) as H0. cbn [Z.of_nat] in H0.
      rewrite Z.add_0_r in H0. rewrite H0.
      change (NUL =? NUL) with true. cbv iota.
      cbn [Nat.ltb Nat.leb app index_of].
      destruct (decide (@nil Z = [])); [|congruence].
      cbn [number_of]. f_equal. lia.
  - (* the word goes on *)
    cbn [plain] in Hw. destruct Hw as (Hc & Htab & Hsp & Hrest).
    rewrite char_at_0_cons.
    destruct (Z.eqb_spec c NUL); [contradiction|].
    destruct (Z.eqb_spec c TAB); [contradiction|].
    assert (Hptr : (if c =? SPACE then skip_blanks (drop 1 (c :: rest))
                    else drop 1 (c :: rest)) = rest).
    { cbn [drop]. rewrite drop_0.
      destruct (Z.eqb_spec c SPACE); [apply Hsp; assumption|reflexivity]. }
    rewrite Hptr.
    assert (IHloop : forall t n wordnr,
               tree_at byts idxs t n = true ->
               soundfold_find_loop byts idxs f n wordnr rest
               = Some (number_of wordnr (index_of rest (words t)))).
    { intros t' n' wordnr' Ht'. apply IH; [exact Ht'|exact Hrest|].
      cbn [length] in Hf. lia. }
    destruct ends as [|ends].
    + assert (Hne : kids <> [])
        by (destruct kids; [cbn in Hpos; lia|discriminate]).
      destruct (Hfirst Hne) as (b & Hb & Hb0).
      rewrite Z.add_0_r in Hb, Hkids. rewrite Hb.
      destruct (Z.eqb_spec b NUL); [contradiction|].
      cbn [Nat.ltb Nat.leb app Nat.add].
      apply (find_byte_kids c rest f IHloop kids (n + 1) 0 wordnr (length byts)
               Hkids Hne).
      pose proof (arr_at_Some _ _ _ Hlen). lia.
    + pose proof (Hnul' O ltac:(lia)) as H0. cbn [Z.of_nat] in H0.
      rewrite Z.add_0_r in H0. rewrite H0.
      change (NUL =? NUL) with true. cbv iota.
      rewrite Nat2Z.id.
      pose proof (skip_nul_bytes_spec byts n (S ends) (length kids) Hnul') as Hskip.
      specialize (Hskip ltac:(destruct kids as [|bk kids'];
                               [left; reflexivity|right; apply Hfirst; discriminate])).
      specialize (Hskip (S ends + length kids)%nat O ltac:(lia) ltac:(lia)).
      rewrite Z.add_0_r in Hskip. rewrite Nat.sub_0_r in Hskip.
      rewrite Hskip.
      cbn [Nat.ltb Nat.leb app index_of].
      destruct (decide (@nil Z = c :: rest)); [discriminate|].
      destruct kids as [|bk kids'].
      * reflexivity.
      * replace (Z.of_nat (length (bk :: kids')) =? 0) with false
          by (symmetry; apply Z.eqb_neq; cbn [length]; lia).
        rewrite (find_byte_kids c rest f IHloop (bk :: kids') _ 0 (wordnr + 1)
                   (length byts) Hkids ltac:(discriminate)).
        -- f_equal. destruct (index_of (c :: rest) (words_kids (bk :: kids')));
             cbn [option_map number_of]; lia.
        -- pose proof (arr_at_Some _ _ _ Hlen). lia.
Qed.

End SoundfoldRank.

(** [index_of] gives the first place of the word, if it has one. *)
Lemma index_of_Some (w : list Z) (l : list (list Z)) (k : nat) :
  index_of w l = Some k -> l !! k = Some w.
Proof.
  revert k. induction l as [|x l IH]; intros k H; [discriminate|].
  cbn [index_of] in H. destruct (decide (x = w)) as [E|E].
  - injection H as <-. subst x. reflexivity.
  - destruct (index_of w l) as [j|]; [|discriminate].
    injection H as <-. apply (IH j). reflexivity.
Qed.

Lemma index_of_None (w : list Z) (l : list (list Z)) :
  index_of w l = None -> ~ In w l.
Proof.
  induction l as [|x l IH]; intros H Hin; [exact Hin|].
  cbn [index_of] in H. destruct (decide (x = w)) as [E|E]; [discriminate|].
  destruct (index_of w l); [discriminate|].
  destruct Hin as [Hin|Hin]; [contradiction|]. apply IH; [reflexivity|exact Hin].
Qed.

Lemma soundfold_find_rank (byts idxs : list Z) (t : tree) (word : list Z) :
  tree_at byts idxs t 0 = true -> cstring word ->
  soundfold_find byts idxs word
  = Some (match index_of (collapse_blanks word) (words t) with
          | Some k => Z.of_nat k
          | None => -1
          end).
Proof.
  intros Ht Hw. unfold soundfold_find, collapse_blanks.
  rewrite (soundfold_find_loop_collapse byts idxs (S (length word))
             (S (length (collapse_from false word))) 0 0 word) by lia.
  rewrite (soundfold_find_loop_rank byts idxs
             (S (length (collapse_from false word))) t 0 0
             (collapse_from false word) Ht
             (proj1 (plain_collapse_from false word Hw))) by lia.
  destruct (index_of _ _); reflexivity.
Qed.

(** X21.  When the two arrays hold a tree of words, [soundfold_find] returns
    for a C string the place of the word among the words of the tree,
    counted from 0 with the words in the order of their bytes, where a run
    of spaces and tabs in the word stands for one space; it returns -1 when
    the tree has no such word. *)
Theorem soundfold_find_number (byts idxs : list Z) (t : tree) (word : list Z) :
  tree_at byts idxs t 0 = true -> cstring word ->
  soundfold_find byts idxs word
  = Some (match index_of (collapse_blanks word) (words t) with
          | Some k => Z.of_nat k
          | None => -1
          end).
Proof. apply soundfold_find_rank. Qed.

(** ** The word of a number *)

Lemma words_kids_lookup (b : Z) (k : tree) (rest : list (Z * tree)) (r : nat) :
  words_kids ((b, k) :: rest) !! r
  = if (r <? length (words k))%nat then cons b <$> (words k !! r)
    else words_kids rest !! (r - length (words k))%nat.
Proof.
  rewrite words_kids_cons.
  destruct (Nat.ltb_spec r (length (words k))) as [H|H].
  - rewrite lookup_app_l by (rewrite length_map; exact H).
    apply list_lookup_fmap.
  - rewrite lookup_app_r by (rewrite length_map; exact H).
    rewrite length_map. reflexivity.
Qed.

Section WordOfNumber.

Variables byts idxs : list Z.

(** The loop over the NUL bytes of a node that has children stops at the
    first child. *)
Lemma skip_nul_safely_spec (n : Z) (ends nkids : nat) :
  arr_at byts n = Some (Z.of_nat (ends + nkids)) ->
  (forall i, (i < ends)%nat -> arr_at byts (n + 1 + Z.of_nat i) = Some NUL) ->
  (exists b, arr_at byts (n + 1 + Z.of_nat ends) = Some b /\ b <> NUL) ->
  forall (fuel j : nat),
    (j <= ends)%nat -> (ends - j <= fuel)%nat ->
    skip_nul_safely byts fuel n (1 + Z.of_nat j) = Some (true, 1 + Z.of_nat ends).
Proof.
  intros Hlen Hnul (b & Hb & Hb0).
  induction fuel as [|fuel IH]; intros j Hj Hf.
  - replace j with ends by lia. cbn [skip_nul_safely].
    rewrite Z.add_assoc, Hb. destruct (Z.eqb_spec b NUL); [contradiction|reflexivity].
  - cbn [skip_nul_safely]. rewrite Z.add_assoc.
    destruct (Nat.eq_dec j ends) as [E|E].
    + subst j. rewrite Hb. destruct (Z.eqb_spec b NUL); [contradiction|reflexivity].
    + rewrite (Hnul j) by lia. change (NUL =? NUL) with true. cbv iota.
      rewrite Hlen.
      destruct (Z.ltb_spec (Z.of_nat (ends + nkids)) (1 + Z.of_nat j)); [lia|].
      replace (1 + Z.of_nat j + 1) with (1 + Z.of_nat (S j)) by lia.
      apply IH; lia.
Qed.

Variable orgnr : Z.

(** The choice among the children of a node and the step to the child, given
    what the loop does from the child on. *)
Lemma pick_sibling_kids (f : nat)
    (IHloop : forall t n wordcount theword i w,
        tree_at byts idxs t n = true ->
        0 <= orgnr - wordcount ->
        words t !! Z.to_nat (orgnr - wordcount) = Some w ->
        (length w < f)%nat ->
        exists n',
          word_of_number_loop byts idxs f orgnr n wordcount theword i
          = Some (theword ++ w, n', 1) /\
          arr_at byts (n' + 1) = Some NUL)
    (n len : Z) (Hlen : arr_at byts n = Some len) (kids : list (Z * tree)) :
  forall (i lo wordcount : Z) (fuel : nat) (w theword : list Z),
    kids_at byts idxs (tree_at byts idxs) kids (n + i) lo = true ->
    len = i + Z.of_nat (length kids) - 1 ->
    0 <= orgnr - wordcount ->
    words_kids kids !! Z.to_nat (orgnr - wordcount) = Some w ->
    (length w <= f)%nat ->
    Z.of_nat (length idxs) <= n + i + Z.of_nat fuel ->
    exists n',
      (do (i', wc) <- pick_sibling byts idxs fuel orgnr n i wordcount;
       do b <- arr_at byts (n + i');
       do child <- arr_at idxs (n + i');
       word_of_number_loop byts idxs f orgnr child wc (theword ++ [b]) i')
      = Some (theword ++ w, n', 1) /\
      arr_at byts (n' + 1) = Some NUL.
Proof.
  induction kids as [|[b k] kids IH];
    intros i lo wordcount fuel w theword Hk Hl Hr Hw Hwl Hf;
    [change (words_kids []) with (@nil (list Z)) in Hw;
     rewrite lookup_nil in Hw; discriminate|].
  rewrite kids_at_cons in Hk.
  apply andb_true_iff in Hk. destruct Hk as [Hk Hrest].
  apply andb_true_iff in Hk. destruct Hk as [Hk Hm].
  apply andb_true_iff in Hk. destruct Hk as [Hlo Hb].
  apply arr_is_true in Hb.
  destruct (arr_at idxs (n + i)) as [m|] eqn:Em; [|discriminate].
  apply andb_true_iff in Hm. destruct Hm as [Hcount Hsub].
  apply arr_is_true in Hcount.
  pose proof (arr_at_Some _ _ _ Em) as Hi.
  destruct fuel as [|fuel]; [lia|].
  rewrite words_kids_lookup in Hw.
  assert (Hhere : (Z.to_nat (orgnr - wordcount) < length (words k))%nat ->
            exists n',
              (do b0 <- arr_at byts (n + i);
               do child <- arr_at idxs (n + i);
               word_of_number_loop byts idxs f orgnr child wordcount
                 (theword ++ [b0]) i)
              = Some (theword ++ w, n', 1) /\
              arr_at byts (n' + 1) = Some NUL).
  { intros Hlt. apply Nat.ltb_lt in Hlt. rewrite Hlt in Hw.
    destruct (words k !! Z.to_nat (orgnr - wordcount)) as [w'|] eqn:Ew;
      [|discriminate].
    cbn [fmap option_fmap option_map] in Hw. injection Hw as <-.
    rewrite Hb, Em.
    destruct (IHloop k m wordcount (theword ++ [b]) i w' Hsub Hr Ew)
      as (n' & Hn' & Hnul); [cbn [length] in Hwl; lia|].
    exists n'. rewrite Hn', <- app_assoc. split; [reflexivity|exact Hnul]. }
  cbn [pick_sibling]. rewrite Hlen.
  destruct (Z.ltb_spec i len) as [Hlt|Hge].
  - rewrite Em, Hcount.
    destruct (Z.ltb_spec orgnr (wordcount + count k)) as [Hin|Hout].
    + apply Hhere. unfold count in Hin. lia.
    + destruct (Nat.ltb_spec (Z.to_nat (orgnr - wordcount)) (length (words k)))
        as [Hc|Hc]; [unfold count in Hout; lia|].
      replace (n + i + 1) with (n + (i + 1)) in Hrest by lia.
      apply (IH (i + 1) b (wordcount + count k) fuel w theword Hrest).
      * cbn [length] in Hl. lia.
      * unfold count in *. lia.
      * rewrite <- Hw. f_equal. unfold count. lia.
      * exact Hwl.
      * lia.
  - destruct kids as [|bk kids]; [|cbn [length] in Hl; lia].
    apply Hhere.
    destruct (Nat.ltb_spec (Z.to_nat (orgnr - wordcount)) (length (words k)))
      as [Hc|Hc]; [exact Hc|].
    change (words_kids []) with (@nil (list Z)) in Hw.
    rewrite lookup_nil in Hw. discriminate.
Qed.

(** From a node of a tree on, the loop puts the bytes of the word with the
    number [orgnr] behind [theword], and ends at the node where that word
    ends. *)
Lemma word_of_number_loop_spec (f : nat) :
  forall t n wordcount theword i w,
    tree_at byts idxs t n = true ->
    0 <= orgnr - wordcount ->
    words t !! Z.to_nat (orgnr - wordcount) = Some w ->
    (length w < f)%nat ->
    exists n',
      word_of_number_loop byts idxs f orgnr n wordcount theword i
      = Some (theword ++ w, n', 1) /\
      arr_at byts (n' + 1) = Some NUL.
Proof.
  induction f as [|f IH]; intros [ends kids] n wordcount theword i w Ht Hr Hw Hf;
    [lia|].
  cbn [tree_at] in Ht.
  apply andb_true_iff in Ht. destruct Ht as [Ht Hkids].
  apply andb_true_iff in Ht. destruct Ht as [Ht Hnul].
  apply andb_true_iff in Ht. destruct Ht as [Hpos Hlen].
  apply Nat.ltb_lt in Hpos. apply arr_is_true in Hlen.
  pose proof (arr_at_Some _ _ _ Hlen) as Hn.
  assert (Hnul' : forall i, (i < ends)%nat ->
                            arr_at byts (n + 1 + Z.of_nat i) = Some NUL).
  { intros j Hj. rewrite forallb_forall in Hnul.
    apply arr_is_true. apply Hnul. apply in_seq. lia. }
  assert (Hfirst : kids <> [] ->
                   exists b, arr_at byts (n + 1 + Z.of_nat ends) = Some b /\ b <> NUL).
  { destruct kids as [|[b k] kids]; [congruence|]. intros _.
    rewrite kids_at_cons in Hkids.
    apply andb_true_iff in Hkids. destruct Hkids as [Hk _].
    apply andb_true_iff in Hk. destruct Hk as [Hk _].
    apply andb_true_iff in Hk. destruct Hk as [Hlo Hb].
    apply Z.ltb_lt in Hlo. apply arr_is_true in Hb.
    exists b. split; [exact Hb|unfold NUL; lia]. }
  cbn [words] in Hw. fold (words_kids kids) in Hw.
  cbn [word_of_number_loop].
  destruct ends as [|ends].
  - (* no word ends here *)
    assert (Hne : kids <> []) by (destruct kids; [cbn in Hpos; lia|discriminate]).
    destruct (Hfirst Hne) as (b & Hb & Hb0).
    pose proof Hb as Hb1. cbn [Z.of_nat] in Hb1. rewrite Z.add_0_r in Hb1.
    rewrite Hb1. destruct (Z.eqb_spec b NUL); [contradiction|].
    rewrite andb_false_r.
    pose proof (skip_nul_safely_spec n O (length kids) Hlen Hnul' (Hfirst Hne)
                  (length byts) O ltac:(lia) ltac:(lia)) as Hskip.
    change (1 + Z.of_nat 0) with 1 in Hskip at 1. rewrite Hskip.
    cbn [Nat.ltb Nat.leb app] in Hw.
    replace (n + 1 + Z.of_nat 0) with (n + (1 + Z.of_nat 0)) in Hkids by lia.
    apply (pick_sibling_kids f IH n _ Hlen kids (1 + Z.of_nat 0) 0 wordcount
             (length idxs) w theword Hkids); try assumption; lia.
  - (* a word ends here *)
    pose proof (Hnul' O ltac:(lia)) as H0. cbn [Z.of_nat] in H0.
    rewrite Z.add_0_r in H0. rewrite H0.
    change (NUL =? NUL) with true. rewrite andb_true_r.
    cbn [Nat.ltb Nat.leb] in Hw.
    destruct (Z.eqb_spec wordcount orgnr) as [E|E].
    + subst orgnr. rewrite Z.sub_diag in Hw. cbn in Hw. injection Hw as <-.
      exists n. rewrite app_nil_r. split; [reflexivity|exact H0].
    + assert (Hr' : 1 <= orgnr - wordcount) by lia.
      rewrite lookup_app_r in Hw by (cbn [length]; lia).
      cbn [length] in Hw.
      assert (Hne : kids <> [])
        by (destruct kids;
            [change (words_kids []) with (@nil (list Z)) in Hw;
             rewrite lookup_nil in Hw; discriminate|discriminate]).
      assert (Hbytes : (S ends <= length byts)%nat).
      { destruct (Hfirst Hne) as (b & Hb & _).
        apply arr_at_Some in Hb. lia. }
      pose proof (skip_nul_safely_spec n (S ends) (length kids) Hlen Hnul'
                    (Hfirst Hne) (length byts) O ltac:(lia) ltac:(lia)) as Hskip.
      change (1 + Z.of_nat 0) with 1 in Hskip at 1. rewrite Hskip.
      replace (n + 1 + Z.of_nat (S ends)) with (n + (1 + Z.of_nat (S ends)))
        in Hkids by lia.
      apply (pick_sibling_kids f IH n _ Hlen kids (1 + Z.of_nat (S ends)) 0
               (wordcount + 1) (length idxs) w theword Hkids); try lia.
      rewrite <- Hw. f_equal. lia.
Qed.

End WordOfNumber.

Lemma word_of_number_word (byts idxs : list Z) (t : tree) (MAXWLEN : Z) (k : nat)
    (w : list Z) :
  tree_at byts idxs t 0 = true -> words t !! k = Some w ->
  Z.of_nat (length w) < MAXWLEN - 3 ->
  exists n,
    word_of_number byts idxs MAXWLEN (Z.of_nat k) = Some (w, n, 1) /\
    arr_at byts (n + 1) = Some NUL.
Proof.
  intros Ht Hw Hl. unfold word_of_number.
  destruct (Z.leb_spec (MAXWLEN - 3) 0) as [H0|H0]; [lia|].
  apply (word_of_number_loop_spec byts idxs (Z.of_nat k) (Z.to_nat (MAXWLEN - 3))
           t 0 0 [] 1 w Ht); [lia| |lia].
  rewrite Z.sub_0_r, Nat2Z.id. exact Hw.
Qed.

(** X22.  When the two arrays hold a tree of words, the lookup in
    [add_sound_suggest] puts in [theword] the word that has the number it is
    given, the words of the tree counted from 0 in the order of their bytes,
    if that word is shorter than [MAXWLEN - 3]; it ends at the node where the
    word ends, with [i] at the first byte of the node, which is a NUL. *)
Theorem word_of_number_kth (byts idxs : list Z) (t : tree) (MAXWLEN : Z) (k : nat)
    (w : list Z) :
  tree_at byts idxs t 0 = true -> words t !! k = Some w ->
  Z.of_nat (length w) < MAXWLEN - 3 ->
  exists n,
    word_of_number byts idxs MAXWLEN (Z.of_nat k) = Some (w, n, 1) /\
    arr_at byts (n + 1) = Some NUL.
Proof. apply word_of_number_word. Qed.

(** X23.  The two ways through a tree undo each other: when [soundfold_find]
    returns a number for a C string (and not -1), the lookup of that number
    in the same arrays gives the word back, with every run of spaces and
    tabs made one space, if it is shorter than [MAXWLEN - 3]. *)
Theorem word_of_number_soundfold_find (byts idxs : list Z) (t : tree)
    (MAXWLEN nr : Z) (word : list Z) :
  tree_at byts idxs t 0 = true -> cstring word ->
  Z.of_nat (length (collapse_blanks word)) < MAXWLEN - 3 ->
  soundfold_find byts idxs word = Some nr -> 0 <= nr ->
  exists n,
    word_of_number byts idxs MAXWLEN nr = Some (collapse_blanks word, n, 1).
Proof.
  intros Ht Hw Hl Hf Hnr.
  rewrite (soundfold_find_rank byts idxs t word Ht Hw) in Hf.
  destruct (index_of (collapse_blanks word) (words t)) as [k|] eqn:Ek;
    [|injection Hf as <-; lia].
  injection Hf as <-. apply index_of_Some in Ek.
  destruct (word_of_number_word byts idxs t MAXWLEN k _ Ht Ek Hl) as (n & Hn & _).
  exists n. exact Hn.
Qed.

(** ** [add_sound_suggest] *)

(** [MAXSCORE] undoes [RESCORE]: a word score within the limit that
    [MAXSCORE] gives is rescored to the maximum at most. *)
Lemma RESCORE_within_MAXSCORE (m g s e : Z) :
  0 <= g -> 0 <= s -> 0 <= e -> e <= MAXSCORE (m - g) s ->
  RESCORE (g + e) s <= m.
Proof.
  unfold MAXSCORE, RESCORE. intros Hg Hs He Hl.
  destruct (Z.le_gt_cases 0 (4 * (m - g) - s)) as [Hp|Hn].
  - rewrite Z.quot_div_nonneg in Hl by lia.
    rewrite Z.quot_div_nonneg by lia.
    apply Z.div_le_upper_bound; [lia|].
    assert (3 * e <= 4 * (m - g) - s).
    { pose proof (Z.mul_div_le (4 * (m - g) - s) 3 ltac:(lia)). lia. }
    lia.
  - assert (Hq : Z.quot (4 * (m - g) - s) 3 <= 0).
    { apply Z.quot_le_upper_bound; lia. }
    assert (He0 : e = 0) by lia. subst e.
    assert (Hq0 : Z.quot (4 * (m - g) - s) 3 = 0) by lia.
    apply Z.quot_small_iff in Hq0; [|lia].
    rewrite Z.quot_div_nonneg by lia.
    apply Z.lt_succ_r. apply Z.div_lt_upper_bound; lia.
Qed.

Lemma RESCORE_mono (a b s : Z) : a <= b -> RESCORE a s <= RESCORE b s.
Proof. unfold RESCORE. intros H. apply Z.quot_le_mono; lia. Qed.

Lemma score_wordcount_adj_bounds (wc : option Z) (score : Z) (split : bool) :
  0 <= score ->
  0 <= score_wordcount_adj wc score split <= score.
Proof.
  intros H. unfold score_wordcount_adj. destruct wc as [c|]; [|lia].
  unfold SCORE_COMMON1, SCORE_COMMON2, SCORE_COMMON3.
  destruct (c <? SCORE_THRES2); [|destruct (c <? SCORE_THRES3)];
    destruct split; cbv zeta;
    try change (Z.quot 30 2) with 15; try change (Z.quot 40 2) with 20;
    try change (Z.quot 50 2) with 25;
    match goal with
    | |- context [if ?x <? 0 then _ else _] => destruct (Z.ltb_spec x 0)
    end; lia.
Qed.

(** [spell_edit_score_limit] within its limit, for words without a SIMILAR
    map. *)
Lemma spell_edit_score_limit_within (SPELL_TOFOLD : Z -> Z) (slang : option slang_T)
    (badword goodword : list Z) (limit : Z) :
  cstring badword -> cstring goodword ->
  no_map slang = true -> limit <= SCORE_LIMITMAX ->
  spell_edit_score_limit SPELL_TOFOLD slang badword goodword limit
  = Some (if spell_edit_score SPELL_TOFOLD slang badword goodword <=? limit
          then spell_edit_score SPELL_TOFOLD slang badword goodword
          else SCORE_MAXMAX).
Proof.
  intros Hb Hg Hno Hlim. unfold spell_edit_score_limit.
  rewrite (limit_loop_start SPELL_TOFOLD slang badword goodword Hb Hg limit Hno Hlim).
  rewrite spell_edit_score_front.
  destruct (Z.leb_spec (edit_dist SPELL_TOFOLD slang badword goodword) limit) as [H|H].
  - destruct (Z.ltb_spec limit
                (Z.min (limit + 1) (edit_dist SPELL_TOFOLD slang badword goodword)));
      [lia|].
    f_equal. lia.
  - destruct (Z.ltb_spec limit
                (Z.min (limit + 1) (edit_dist SPELL_TOFOLD slang badword goodword)));
      [|lia].
    reflexivity.
Qed.

Lemma spell_edit_score_nonneg (SPELL_TOFOLD : Z -> Z) (slang : option slang_T)
    (badword goodword : list Z) :
  0 <= spell_edit_score SPELL_TOFOLD slang badword goodword.
Proof. rewrite spell_edit_score_front. apply edit_dist_nonneg. Qed.

Section AddSoundSuggestFacts.

Variable TOLOWER_LOC : Z -> Z.
Variable spell_soundfold : slang_T -> list Z -> bool -> list Z.
Variable sal_score : suggest_T -> list Z -> Z -> slang_T -> list Z -> Z.
Variable has_mbyte : bool.
Variable mb_head_off : list Z -> Z -> Z.
Variable mb_ptr2char : list Z -> Z.
Variable make_case_word : list Z -> Z -> list Z.
Variable SPELL_ISUPPER : Z -> bool.
Variable SPELL_TOFOLD : Z -> Z.
Variable MAXWLEN : Z.
Variables WF_REGION WF_KEEPCAP WF_NOSUGGEST WF_CAPMASK : Z.
Variable find_keepcap_word : slang_T -> list Z -> list Z.
Variable sps_flags : Z.
Variable sd : sugdata_T.

Lemma sound_word_penalty_bounds su lp p flags :
  0 <= sound_word_penalty SPELL_ISUPPER SPELL_TOFOLD WF_REGION su lp p flags <= 226.
Proof.
  unfold sound_word_penalty, SCORE_REGION, SCORE_ICASE.
  change (Z.quot 52 2) with 26.
  destruct (_ && _); destruct (SPELL_ISUPPER (char_at p 0));
    try destruct (_ && _); lia.
Qed.

(** X24.  When [add_sound_suggest] scores a word with
    [spell_edit_score_limit] (the limit that [MAXSCORE] gives is at most
    [SCORE_LIMITMAX], the method is not "double", the language has no
    SIMILAR map), the limit alone decides: a word whose edit score is within
    the limit is added, with the score [RESCORE] makes of its word score and
    the sound score, and the test against [su_sfmaxscore] that follows never
    turns it down; a word above the limit is not added. *)
Theorem add_sound_word_within_limit (su : suginfo_T) (lp : langp_T) (p : list Z)
    (flags score : Z) :
  Z.land sps_flags SPS_DOUBLE = 0 ->
  sl_has_map (lp_slang lp) = false ->
  cstring (su_badword su) -> cstring p -> 0 <= score ->
  MAXSCORE (su_sfmaxscore su
            - sound_word_penalty SPELL_ISUPPER SPELL_TOFOLD WF_REGION su lp p flags)
           score <= SCORE_LIMITMAX ->
  add_sound_word TOLOWER_LOC spell_soundfold sal_score has_mbyte mb_head_off
    mb_ptr2char SPELL_ISUPPER SPELL_TOFOLD
    WF_REGION sps_flags sd su lp p flags score
  = Some
      (if spell_edit_score SPELL_TOFOLD (Some (lp_slang lp)) (su_badword su) p
          <=? MAXSCORE (su_sfmaxscore su
                        - sound_word_penalty SPELL_ISUPPER SPELL_TOFOLD WF_REGION
                            su lp p flags) score
       then
         add_suggestion TOLOWER_LOC spell_soundfold sal_score has_mbyte mb_head_off
           mb_ptr2char su GA p (su_badlen su)
           (RESCORE
              (score_wordcount_adj (sl_wordcount sd p)
                 (sound_word_penalty SPELL_ISUPPER SPELL_TOFOLD WF_REGION su lp p flags
                  + spell_edit_score SPELL_TOFOLD (Some (lp_slang lp))
                      (su_badword su) p)
                 false)
              score)
           score true (Some (lp_slang lp)) true
       else su).
Proof.
  intros Hd Hmap Hb Hp Hs Hlim. unfold add_sound_word.
  rewrite Hd. change (negb (0 =? 0)) with false. cbv iota.
  pose proof (sound_word_penalty_bounds su lp p flags) as Hpen.
  set (pen := sound_word_penalty SPELL_ISUPPER SPELL_TOFOLD WF_REGION su lp p flags)
    in *.
  set (limit := MAXSCORE (su_sfmaxscore su - pen) score) in *.
  destruct (Z.ltb_spec SCORE_LIMITMAX limit) as [Hgt|_]; [lia|].
  rewrite (spell_edit_score_limit_within SPELL_TOFOLD (Some (lp_slang lp))
             (su_badword su) p limit Hb Hp) by (cbn; rewrite ?Hmap; auto).
  pose proof (spell_edit_score_nonneg SPELL_TOFOLD (Some (lp_slang lp))
                (su_badword su) p) as He.
  set (edit := spell_edit_score SPELL_TOFOLD (Some (lp_slang lp)) (su_badword su) p)
    in *.
  destruct (Z.leb_spec edit limit) as [Hin|Hout].
  - destruct (Z.ltb_spec (pen + edit) SCORE_MAXMAX) as [_|Hbig];
      [|unfold SCORE_MAXMAX, SCORE_LIMITMAX in *; lia].
    pose proof (score_wordcount_adj_bounds (sl_wordcount sd p) (pen + edit) false
                  ltac:(lia)) as Hadj.
    pose proof (RESCORE_mono _ _ score (proj2 Hadj)) as Hmono.
    pose proof (RESCORE_within_MAXSCORE (su_sfmaxscore su) pen score edit
                  ltac:(lia) Hs He Hin) as Hres.
    destruct (Z.leb_spec
                (RESCORE (score_wordcount_adj (sl_wordcount sd p) (pen + edit) false)
                         score)
                (su_sfmaxscore su)) as [_|Hno]; [reflexivity|lia].
  - destruct (Z.ltb_spec (pen + SCORE_MAXMAX) SCORE_MAXMAX); [lia|reflexivity].
Qed.

(** What [add_sound_suggest] does to [su] is adding suggestions: to [su_sga]
    with the sound score when the method is "double", else to [su_ga] with
    the rescored score and the bonus.  What these keep, the function
    keeps. *)
Section SoundKeeps.

Variable P : suginfo_T -> Prop.
Hypothesis P_double :
  Z.land sps_flags SPS_DOUBLE <> 0 ->
  forall su p badlen score slang,
    P su ->
    P (add_suggestion TOLOWER_LOC spell_soundfold sal_score has_mbyte mb_head_off
      mb_ptr2char su SGA p badlen score 0
         false slang false).
Hypothesis P_single :
  Z.land sps_flags SPS_DOUBLE = 0 ->
  forall su p badlen score altscore slang,
    P su ->
    P (add_suggestion TOLOWER_LOC spell_soundfold sal_score has_mbyte mb_head_off
      mb_ptr2char su GA p badlen score
         altscore true slang true).

Lemma add_sound_word_keeps su lp p flags score su' :
  P su ->
  add_sound_word TOLOWER_LOC spell_soundfold sal_score has_mbyte mb_head_off
    mb_ptr2char SPELL_ISUPPER SPELL_TOFOLD
    WF_REGION sps_flags sd su lp p flags score = Some su' ->
  P su'.
Proof.
  intros H. unfold add_sound_word.
  destruct (Z.eqb_spec (Z.land sps_flags SPS_DOUBLE) 0) as [Ed|Ed]; cbn [negb].
  - destruct (if _ <? _ then _ else _) as [edit|]; [|discriminate].
    destruct (_ <? SCORE_MAXMAX); [|intros [= <-]; exact H].
    destruct (_ <=? _); intros [= <-]; [|exact H].
    apply P_single; assumption.
  - destruct (_ <=? _); intros [= <-]; [|exact H].
    apply P_double; assumption.
Qed.

Lemma sound_flags_loop_keeps fuel : forall su lp theword score n i su',
  P su ->
  sound_flags_loop TOLOWER_LOC spell_soundfold sal_score has_mbyte mb_head_off
    mb_ptr2char make_case_word SPELL_ISUPPER
    SPELL_TOFOLD WF_REGION WF_KEEPCAP WF_NOSUGGEST WF_CAPMASK find_keepcap_word
    sps_flags sd fuel su lp theword score n i = Some su' ->
  P su'.
Proof.
  induction fuel as [|fuel IH]; intros su lp theword score n i su' H;
    cbn [sound_flags_loop].
  - destruct (arr_at (sl_fbyts sd) n) as [len|]; [|discriminate].
    destruct (i <=? len); [|intros [= <-]; exact H].
    destruct (arr_at (sl_fbyts sd) (n + i)) as [b|]; [|discriminate].
    destruct (b =? NUL); [discriminate|intros [= <-]; exact H].
  - destruct (arr_at (sl_fbyts sd) n) as [len|]; [|discriminate].
    destruct (i <=? len); [|intros [= <-]; exact H].
    destruct (arr_at (sl_fbyts sd) (n + i)) as [b|]; [|discriminate].
    destruct (b =? NUL); [|intros [= <-]; exact H].
    destruct (arr_at (sl_fidxs sd) (n + i)) as [flags|]; [|discriminate].
    destruct (negb (Z.land flags WF_NOSUGGEST =? 0)).
    + apply IH. exact H.
    + destruct (negb (Z.land flags WF_KEEPCAP =? 0)).
      * destruct (add_sound_word _ _ _ _ _ _ _ _ _ _ _ su lp _ flags score) as [su1|] eqn:E;
          [|discriminate].
        apply IH. apply (add_sound_word_keeps _ _ _ _ _ _ H E).
      * destruct (negb (Z.land (Z.lor flags (su_badflags su)) WF_CAPMASK =? 0)).
        -- destruct (add_sound_word _ _ _ _ _ _ _ _ _ _ _ su lp _ _ score) as [su1|] eqn:E;
             [|discriminate].
           apply IH. apply (add_sound_word_keeps _ _ _ _ _ _ H E).
        -- destruct (add_sound_word _ _ _ _ _ _ _ _ _ _ _ su lp _ _ score) as [su1|] eqn:E;
             [|discriminate].
           apply IH. apply (add_sound_word_keeps _ _ _ _ _ _ H E).
Qed.

Lemma sound_numbers_loop_keeps fuel : forall su lp score nrline orgnr su',
  P su ->
  sound_numbers_loop TOLOWER_LOC spell_soundfold sal_score has_mbyte mb_head_off
    mb_ptr2char make_case_word
    SPELL_ISUPPER SPELL_TOFOLD MAXWLEN WF_REGION WF_KEEPCAP WF_NOSUGGEST WF_CAPMASK
    find_keepcap_word sps_flags sd fuel su lp score nrline orgnr = Some su' ->
  P su'.
Proof.
  induction fuel as [|fuel IH]; intros su lp score nrline orgnr su' H;
    cbn [sound_numbers_loop].
  - destruct (char_at nrline 0 =? NUL); [intros [= <-]; exact H|discriminate].
  - destruct (char_at nrline 0 =? NUL); [intros [= <-]; exact H|].
    destruct (bytes2offset nrline) as [[off nrline']|]; [|discriminate].
    destruct (word_of_number _ _ _ _) as [[[theword n] i]|]; [|discriminate].
    destruct (sound_flags_loop _ _ _ _ _ _ _ _ _ _ _ _ _ _ _ _ _ su lp _ score n i)
      as [su1|] eqn:E; [|discriminate].
    apply IH. apply (sound_flags_loop_keeps _ _ _ _ _ _ _ _ H E).
Qed.

Lemma add_sound_suggest_keeps done su goodword score lp su' done' :
  P su ->
  add_sound_suggest TOLOWER_LOC spell_soundfold sal_score has_mbyte mb_head_off
    mb_ptr2char make_case_word
    SPELL_ISUPPER SPELL_TOFOLD MAXWLEN WF_REGION WF_KEEPCAP WF_NOSUGGEST WF_CAPMASK
    find_keepcap_word sps_flags sd done su goodword score lp = Some (su', done') ->
  P su'.
Proof.
  intros H. unfold add_sound_suggest.
  destruct (match sft_find done goodword with Some s => s <=? score | None => false end);
    [intros [= <- <-]; exact H|].
  destruct (soundfold_find _ _ goodword) as [nr|]; [|discriminate].
  destruct (nr <? 0); [intros [= <- <-]; exact H|].
  destruct (sound_numbers_loop _ _ _ _ _ _ _ _ _ _ _ _ _ _ _ _ _ _ su lp score _ 0)
    as [su1|] eqn:E; [|discriminate].
  intros [= <- <-]. apply (sound_numbers_loop_keeps _ _ _ _ _ _ _ H E).
Qed.

End SoundKeeps.

(** X25.  [add_sound_suggest] changes of [su] only the array it adds to and
    the maximum that belongs to it: with the method "double" these are
    [su_sga] and [su_maxscore], and [su_ga] and [su_sfmaxscore] stay as they
    are; with another method they are [su_ga] and [su_sfmaxscore], and
    [su_sga] and [su_maxscore] stay.  [su_ga] is left without a suggestion
    twice and with at most [SUG_MAX_COUNT] entries when it was so before,
    whatever the trees, the .sug file and the table hold. *)
Theorem add_sound_suggest_keeps_store (done done' : sounddone_T)
    (su su' : suginfo_T) (goodword word : list Z) (score : Z) (lp : langp_T) :
  add_sound_suggest TOLOWER_LOC spell_soundfold sal_score has_mbyte mb_head_off
    mb_ptr2char make_case_word
    SPELL_ISUPPER SPELL_TOFOLD MAXWLEN WF_REGION WF_KEEPCAP WF_NOSUGGEST WF_CAPMASK
    find_keepcap_word sps_flags sd done su goodword score lp = Some (su', done') ->
  base_kept su su' /\
  (Z.land sps_flags SPS_DOUBLE <> 0 ->
   su_ga su' = su_ga su /\ su_sfmaxscore su' = su_sfmaxscore su) /\
  (Z.land sps_flags SPS_DOUBLE = 0 ->
   su_sga su' = su_sga su /\ su_maxscore su' = su_maxscore su) /\
  (dup_inv word su -> dup_inv word su') /\
  (Z.of_nat (length (su_ga su)) <= SUG_MAX_COUNT su ->
   Z.of_nat (length (su_ga su')) <= SUG_MAX_COUNT su).
Proof.
  intros H. split; [|split; [|split; [|split]]].
  - apply (add_sound_suggest_keeps (base_kept su)) with (3 := base_kept_refl su)
                                                        (4 := H).
    + intros _ s p badlen sc slang Hs. apply add_suggestion_base. exact Hs.
    + intros _ s p badlen sc alt slang Hs. apply add_suggestion_base. exact Hs.
  - intros Hd.
    apply (add_sound_suggest_keeps
             (fun s => su_ga s = su_ga su /\ su_sfmaxscore s = su_sfmaxscore su))
      with (4 := H); [| |split; reflexivity].
    + intros _ s p badlen sc slang [H1 H2]. split.
      * rewrite add_suggestion_other. exact H1.
      * rewrite (proj2 (add_suggestion_other_max _ _ _ _ _ _ s SGA p badlen sc 0 false slang)).
        exact H2.
    + intros E. contradiction.
  - intros Hd.
    apply (add_sound_suggest_keeps
             (fun s => su_sga s = su_sga su /\ su_maxscore s = su_maxscore su))
      with (4 := H); [| |split; reflexivity].
    + intros E. contradiction.
    + intros _ s p badlen sc alt slang [H1 H2]. split.
      * rewrite add_suggestion_other_array. exact H1.
      * rewrite (proj1 (add_suggestion_other_max _ _ _ _ _ _ s GA p badlen sc alt true slang)).
        exact H2.
  - intros Hi.
    apply (add_sound_suggest_keeps (dup_inv word)) with (3 := Hi) (4 := H).
    + intros _ s p badlen sc slang Hs. apply add_suggestion_dup_inv. exact Hs.
    + intros _ s p badlen sc alt slang Hs. apply add_suggestion_dup_inv. exact Hs.
  - intros Hl.
    apply (add_sound_suggest_keeps
             (fun s => su_maxcount s = su_maxcount su /\
                       Z.of_nat (length (su_ga s)) <= SUG_MAX_COUNT su))
      with (4 := H); [| |split; [reflexivity|exact Hl]].
    + intros _ s p badlen sc slang [H1 H2]. split.
      * rewrite add_suggestion_maxcount. exact H1.
      * rewrite add_suggestion_other. exact H2.
    + intros _ s p badlen sc alt slang [H1 H2]. split.
      * rewrite add_suggestion_maxcount. exact H1.
      * replace (SUG_MAX_COUNT su) with (SUG_MAX_COUNT s)
          by (unfold SUG_MAX_COUNT, SUG_CLEAN_COUNT; rewrite H1; reflexivity).
        apply (add_suggestion_length _ _ _ _ _ _ s GA).
        unfold SUG_MAX_COUNT, SUG_CLEAN_COUNT in *. rewrite H1. exact H2.
Qed.

(** The table has for a word the score that was set last. *)
Lemma sft_find_set (done : sounddone_T) (word : list Z) (score : Z) :
  sft_find (sft_set done word score) word = Some (short_of score).
Proof.
  induction done as [|[w s] done IH]; cbn [sft_set sft_find].
  - rewrite strcmp_eq_refl. reflexivity.
  - destruct (strcmp_eq w word) eqn:E; cbn [sft_find]; rewrite E; [reflexivity|exact IH].
Qed.

(** X26.  [add_sound_suggest] goes through a sound-folded word again only
    when it comes with a lower score: after a call for a word with a score
    that fits in a [short], a call for the same word with that score or a
    higher one changes neither [su] nor the table [sl_sounddone]. *)
Theorem add_sound_suggest_seen (done done' : sounddone_T) (su su' : suginfo_T)
    (goodword : list Z) (score score' : Z) (lp : langp_T) :
  add_sound_suggest TOLOWER_LOC spell_soundfold sal_score has_mbyte mb_head_off
    mb_ptr2char make_case_word
    SPELL_ISUPPER SPELL_TOFOLD MAXWLEN WF_REGION WF_KEEPCAP WF_NOSUGGEST WF_CAPMASK
    find_keepcap_word sps_flags sd done su goodword score lp = Some (su', done') ->
  -32768 <= score < 32768 -> score <= score' ->
  add_sound_suggest TOLOWER_LOC spell_soundfold sal_score has_mbyte mb_head_off
    mb_ptr2char make_case_word
    SPELL_ISUPPER SPELL_TOFOLD MAXWLEN WF_REGION WF_KEEPCAP WF_NOSUGGEST WF_CAPMASK
    find_keepcap_word sps_flags sd done' su' goodword score' lp = Some (su', done').
Proof.
  intros H Hs Hle.
  assert (Hshort : short_of score = score).
  { unfold short_of. rewrite Z.mod_small by lia. lia. }
  assert (Hseen : exists s, sft_find done' goodword = Some s /\ s <= score).
  { unfold add_sound_suggest in H.
    destruct (sft_find done goodword) as [s|] eqn:Ef.
    - destruct (Z.leb_spec s score) as [Hle'|Hgt].
      + injection H as <- <-. exists s. split; [exact Ef|exact Hle'].
      + exists score. rewrite <- Hshort at 1.
        destruct (soundfold_find _ _ goodword) as [nr|]; [|discriminate].
        destruct (nr <? 0); [injection H as <- <-|].
        * split; [apply sft_find_set|lia].
        * destruct (sound_numbers_loop _ _ _ _ _ _ _ _ _ _ _ _ _ _ _ _ _ _ _ _ _ _ _);
            [|discriminate].
          injection H as <- <-. split; [apply sft_find_set|lia].
    - exists score. rewrite <- Hshort at 1.
      destruct (soundfold_find _ _ goodword) as [nr|]; [|discriminate].
      destruct (nr <? 0); [injection H as <- <-|].
      + split; [apply sft_find_set|lia].
      + destruct (sound_numbers_loop _ _ _ _ _ _ _ _ _ _ _ _ _ _ _ _ _ _ _ _ _ _ _);
          [|discriminate].
        injection H as <- <-. split; [apply sft_find_set|lia]. }
  destruct Hseen as (s & Hf & Hsle).
  unfold add_sound_suggest. rewrite Hf.
  destruct (Z.leb_spec s score'); [reflexivity|lia].
Qed.

End AddSoundSuggestFacts.

(** ** The strings [spell_suggest_list] hands to its caller *)

Section SuggestList.

Variable TOLOWER_LOC : Z -> Z.
Variable spell_soundfold : slang_T -> list Z -> bool -> list Z.
Variable sal_score : suggest_T -> list Z -> Z -> slang_T -> list Z -> Z.
Variable has_mbyte : bool.
Variable mb_head_off : list Z -> Z -> Z.
Variable mb_ptr2char : list Z -> Z.
Variable make_case_word : list Z -> Z -> list Z.
Variable captype : list Z -> Z.
Variable SPELL_ISUPPER : Z -> bool.
Variable spell_casefold : list Z -> list Z.
Variable spell_check : list Z -> Z * bool.
Variable SPELL_TOFOLD : Z -> Z.
Variable MAXWLEN : Z.
Variables WF_ONECAP WF_ALLCAP WF_KEEPCAP WF_REGION WF_NOSUGGEST WF_CAPMASK : Z.
Variable eval_spell_expr : list Z -> list Z -> list (list Z * Z).
Variable read_lines : list Z -> option (list (list Z)).
Variable find_keepcap_word : slang_T -> list Z -> list Z.
Variable sps_flags : Z.
Variable sugdata : langp_T -> sugdata_T.
Variable has_sbyts : langp_T -> bool.

(** The tables of the sound-folded words are no part of what the strings
    are made of. *)
Lemma list_inv_sounddone (word : list Z) (su : suginfo_T)
    (tabs : list (nat * sounddone_T)) :
  list_inv word su -> list_inv word (set_su_sounddone su tabs).
Proof. exact (fun H => H). Qed.

(** [add_sound_suggest] keeps the line and the recorded lengths. *)
Lemma add_sound_suggest_su_inv (word : list Z) (su : suginfo_T)
    (goodword : list Z) (score : Z) (lp : langp_T) :
  list_inv word su ->
  list_inv word
    (add_sound_suggest_su TOLOWER_LOC spell_soundfold sal_score has_mbyte
       mb_head_off mb_ptr2char make_case_word SPELL_ISUPPER SPELL_TOFOLD MAXWLEN
       WF_KEEPCAP WF_REGION WF_NOSUGGEST WF_CAPMASK find_keepcap_word sps_flags
       sugdata su goodword score lp).
Proof.
  intros H. unfold add_sound_suggest_su.
  destruct (add_sound_suggest _ _ _ _ _ _ _ _ _ _ _ _ _ _ _ _ _ _ su goodword score lp)
    as [[su' done']|] eqn:E; [|exact H].
  apply list_inv_sounddone.
  apply (add_sound_suggest_keeps TOLOWER_LOC spell_soundfold sal_score has_mbyte
           mb_head_off mb_ptr2char make_case_word SPELL_ISUPPER SPELL_TOFOLD MAXWLEN
           WF_REGION WF_KEEPCAP WF_NOSUGGEST WF_CAPMASK find_keepcap_word sps_flags
           (sugdata lp) (list_inv word))
    with (3 := H) (4 := E).
  - intros _ s p badlen sc slang Hs. apply add_suggestion_inv. exact Hs.
  - intros _ s p badlen sc alt slang Hs. apply add_suggestion_inv. exact Hs.
Qed.

Lemma suggest_try_soundalike_prep_inv (word : list Z) (langs : list langp_T)
    (su : suginfo_T) :
  list_inv word su ->
  list_inv word (suggest_try_soundalike_prep has_sbyts langs su).
Proof.
  unfold suggest_try_soundalike_prep. revert su.
  induction langs as [|lp langs IH]; intros su H; [exact H|].
  cbn [fold_left]. apply IH. destruct (folds_sounds has_sbyts lp); exact H.
Qed.

(** The walks for the sound-folded word keep the line and the recorded
    lengths, whatever they find in the trees. *)
Lemma suggest_try_soundalike_inv (word : list Z) (os : nat -> list walk_obs)
    (langs : list langp_T) (su : suginfo_T) :
  list_inv word su ->
  list_inv word
    (suggest_try_soundalike TOLOWER_LOC spell_soundfold sal_score has_mbyte
       mb_head_off mb_ptr2char make_case_word captype SPELL_ISUPPER SPELL_TOFOLD
       MAXWLEN WF_ONECAP WF_ALLCAP WF_KEEPCAP WF_REGION WF_NOSUGGEST WF_CAPMASK
       find_keepcap_word sps_flags sugdata has_sbyts os langs su).
Proof.
  unfold suggest_try_soundalike.
  generalize (seq 0 (length langs)). intros l. revert su.
  induction l as [|lpi l IH]; intros su H; [exact H|].
  cbn [fold_left]. apply IH.
  destruct (langs !! lpi) as [lp|]; [|exact H].
  destruct (folds_sounds has_sbyts lp); [|exact H].
  unfold suggest_trie_walk. apply (walk_run_keeps _ _ _ _ _ _ _ _ _ _ _ _ _ _ lp
                                     (list_inv word)).
  - intros s flags Hs. exact Hs.
  - intros s w Hs. unfold add_banned. destruct (existsb _ _); exact Hs.
  - intros s goodword badlen score Hs. apply add_suggestion_inv. exact Hs.
  - intros _ s w score Hs. apply add_sound_suggest_su_inv. exact Hs.
  - exact H.
Qed.

Lemma suggest_try_soundalike_call_inv (word : list Z)
    (os : nat -> nat -> list walk_obs) (langs : list langp_T) (n : nat)
    (su : suginfo_T) :
  list_inv word su ->
  list_inv word
    (suggest_try_soundalike_call TOLOWER_LOC spell_soundfold sal_score has_mbyte
       mb_head_off mb_ptr2char make_case_word captype SPELL_ISUPPER SPELL_TOFOLD
       MAXWLEN WF_ONECAP WF_ALLCAP WF_KEEPCAP WF_REGION WF_NOSUGGEST WF_CAPMASK
       find_keepcap_word sps_flags sugdata has_sbyts os langs n su).
Proof.
  intros H. unfold suggest_try_soundalike_call.
  apply suggest_try_soundalike_inv.
  destruct n; [apply suggest_try_soundalike_prep_inv|]; exact H.
Qed.

(** C10.  Every string [spell_suggest_list] hands to the caller is the word
    of the suggestion followed by the bytes of the input from the offset
    [st_orglen] to its end: the rest that is not replaced is appended, and
    when [st_orglen] is the length of the input the string is the word.
    This holds with the walks of [suggest_try_change] and of
    [suggest_try_soundalike] as the code has them, whatever the walks find
    in the trees of the languages ([os_change], [os_sound]), in the .sug
    files and in the option 'spellsuggest'. *)
Theorem spell_suggest_list_appends_rest
    (loaded : langp_T -> bool) (os_change : nat -> list walk_obs)
    (os_sound : nat -> nat -> list walk_obs)
    (langs : list langp_T) (p_sps : list sps_item) (word : list Z)
    (maxcount : Z) (need_cap : bool) :
  let try_change :=
    suggest_try_change_walks TOLOWER_LOC spell_soundfold sal_score has_mbyte
      mb_head_off mb_ptr2char make_case_word captype SPELL_ISUPPER MAXWLEN
      WF_ONECAP WF_ALLCAP WF_KEEPCAP
      (add_sound_suggest_su TOLOWER_LOC spell_soundfold sal_score has_mbyte
         mb_head_off mb_ptr2char make_case_word SPELL_ISUPPER SPELL_TOFOLD MAXWLEN
         WF_KEEPCAP WF_REGION WF_NOSUGGEST WF_CAPMASK find_keepcap_word sps_flags
         sugdata)
      loaded os_change langs in
  let try_soundalike :=
    suggest_try_soundalike_call TOLOWER_LOC spell_soundfold sal_score has_mbyte
      mb_head_off mb_ptr2char make_case_word captype SPELL_ISUPPER SPELL_TOFOLD
      MAXWLEN WF_ONECAP WF_ALLCAP WF_KEEPCAP WF_REGION WF_NOSUGGEST WF_CAPMASK
      find_keepcap_word sps_flags sugdata has_sbyts os_sound langs in
  let sug :=
    spell_find_suggest TOLOWER_LOC spell_soundfold sal_score has_mbyte mb_head_off
      mb_ptr2char make_case_word captype SPELL_ISUPPER spell_casefold spell_check
      MAXWLEN WF_ONECAP WF_ALLCAP WF_KEEPCAP SPELL_TOFOLD eval_spell_expr
      read_lines try_change try_soundalike langs sps_flags p_sps word 0 maxcount
      false need_cap in
  spell_suggest_list TOLOWER_LOC spell_soundfold sal_score has_mbyte mb_head_off
    mb_ptr2char make_case_word captype SPELL_ISUPPER spell_casefold spell_check
    MAXWLEN WF_ONECAP WF_ALLCAP WF_KEEPCAP SPELL_TOFOLD eval_spell_expr read_lines
    try_change try_soundalike langs sps_flags p_sps word maxcount need_cap
  = map (fun stp => st_word stp ++ drop (Z.to_nat (st_orglen stp)) word)
        (su_ga sug) /\
  forall stp,
    In stp (su_ga sug) ->
    (st_orglen stp = Z.of_nat (length word) ->
     st_word stp ++ drop (Z.to_nat (st_orglen stp)) word = st_word stp) /\
    (0 <= st_orglen stp < Z.of_nat (length word) ->
     exists rest, rest <> [] /\
       drop (Z.to_nat (st_orglen stp)) word = rest /\
       word = take (Z.to_nat (st_orglen stp)) word ++ rest).
Proof.
  intros try_change try_soundalike sug.
  apply spell_suggest_list_strings.
  - intros w su H. unfold try_change.
    apply (suggest_try_change_walks_keeps _ _ _ _ _ _ _ _ _ _ _ _ _ (list_inv w)).
    + intros s flags Hs. exact Hs.
    + intros s b Hs. unfold add_banned. destruct (existsb _ _); exact Hs.
    + intros s goodword badlen score slang Hs. apply add_suggestion_inv. exact Hs.
    + exact H.
  - intros w n su H. apply suggest_try_soundalike_call_inv. exact H.
Qed.

End SuggestList.

(** * Examples

    A small setting for the code outside spellsuggest.c: ASCII letters,
    words that sound as they are written, and a spell checker that flags
    the words that start with ``xx''. *)

Definition ex_tolower (c : Z) : Z := if (65 <=? c) && (c <=? 90) then c + 32 else c.

Definition ex_isupper (c : Z) : bool := (65 <=? c) && (c <=? 90).

Definition ex_soundfold (sl : slang_T) (w : list Z) (folded : bool) : list Z := w.

Definition ex_make_case_word (w : list Z) (flags : Z) : list Z := w.

Definition ex_captype (w : list Z) : Z := 0.

Definition ex_casefold (w : list Z) : list Z := map ex_tolower w.

Definition ex_spell_check (p : list Z) : Z * bool :=
  (2, match p with
      | 120 :: 120 :: _ => true
      | _ => false
      end).

(** A character is a byte. *)
Definition ex_head_off (s : list Z) (p : Z) : Z := 0.
Definition ex_ptr2char (p : list Z) : Z := char_at p 0.

(** Characters of one and of two bytes, as UTF-8 has them up to U+07FF: a
    byte from 192 on starts a character of two bytes, whose second byte is
    between 128 and 191. *)
Definition ex_utf_head_off (s : list Z) (p : Z) : Z :=
  let c := char_at s (Z.to_nat p) in
  if (128 <=? c) && (c <? 192) then 1 else 0.
Definition ex_utf_ptr2char (p : list Z) : Z :=
  let c := char_at p 0 in
  if 192 <=? c then (c - 192) * 64 + (char_at p 1 - 128) else c.

Definition ex_MAXWLEN : Z := 254.
Definition ex_WF_ONECAP : Z := 2.
Definition ex_WF_ALLCAP : Z := 4.
Definition ex_WF_KEEPCAP : Z := 128.

(** A language without a SIMILAR map and without a prefix tree, and one with
    a prefix tree. *)
Definition ex_slang : slang_T :=
  {| sl_id := 1; sl_sal_len := 1; sl_has_map := false;
     sl_map_array := fun _ => 0; sl_map_hash := fun _ => 0;
     sl_pbyts := None; sl_nobreak := false; sl_nosplitsugs := false |}.

Definition ex_slang_prefix : slang_T :=
  {| sl_id := 2; sl_sal_len := 0; sl_has_map := false;
     sl_map_array := fun _ => 0; sl_map_hash := fun _ => 0;
     sl_pbyts := Some [1; 97; 0]; sl_nobreak := false; sl_nosplitsugs := false |}.

(** A language whose SIMILAR map holds ``a'' and ``b'' as similar. *)
Definition ex_slang_map : slang_T :=
  {| sl_id := 3; sl_sal_len := 0; sl_has_map := true;
     sl_map_array := fun c => if (c =? 97) || (c =? 98) then 97 else 0;
     sl_map_hash := fun _ => 0;
     sl_pbyts := None; sl_nobreak := false; sl_nosplitsugs := false |}.

(** ** The edit scores *)

(** C8, as the claim has it, fails: without a SIMILAR map, deleting the
    ``a'' of the word ``a'' scores 94 and inserting it into the empty word
    scores 96. *)
Lemma spell_edit_score_not_symmetric :
  no_map None = true /\
  spell_edit_score ex_tolower None [97] [] = 94 /\
  spell_edit_score ex_tolower None [] [97] = 96 /\
  (94 =? 96) = false.
Proof. vm_compute. repeat split. Qed.

(** C1, as the claim has it, fails: with the limit 94 the words ``a'' and
    ``'' give 94, which is not below the limit and is not [SCORE_MAXMAX]. *)
Lemma spell_edit_score_limit_returns_limit :
  spell_edit_score_limit ex_tolower None [97] [] 94 = Some 94 /\
  (94 <? 94) = false /\
  (94 =? SCORE_MAXMAX) = false.
Proof. vm_compute. repeat split. Qed.

Lemma spell_edit_score_limit_exact_witness :
  cstring [97; 98] /\ cstring [98; 97] /\ no_map (Some ex_slang) = true /\
  350 <= SCORE_LIMITMAX /\
  spell_edit_score_limit ex_tolower (Some ex_slang) [97; 98] [98; 97] 350
  = Some (if spell_edit_score ex_tolower (Some ex_slang) [97; 98] [98; 97] <=? 350
          then spell_edit_score ex_tolower (Some ex_slang) [97; 98] [98; 97]
          else SCORE_MAXMAX).
Proof.
  assert (Hb : cstring [97; 98]) by (repeat constructor; discriminate).
  assert (Hg : cstring [98; 97]) by (repeat constructor; discriminate).
  assert (Hl : 350 <= SCORE_LIMITMAX) by (unfold SCORE_LIMITMAX; lia).
  split; [exact Hb|]. split; [exact Hg|]. split; [reflexivity|]. split; [exact Hl|].
  apply (spell_edit_score_limit_exact ex_tolower (Some ex_slang) [97; 98] [98; 97] 350
           Hb Hg eq_refl Hl).
Defined.

(** X2.  With a SIMILAR map the two functions part: for ``ab'' and ``ba'' with
    ``a'' and ``b'' similar, [spell_edit_score] finds the two substitutions
    of a similar character (66), [spell_edit_score_limit] only the swap
    (75). *)
Lemma spell_edit_score_limit_similar_swap :
  no_map (Some ex_slang_map) = false /\
  spell_edit_score ex_tolower (Some ex_slang_map) [97; 98] [98; 97] = 66 /\
  spell_edit_score_limit ex_tolower (Some ex_slang_map) [97; 98] [98; 97] 350
  = Some 75.
Proof. vm_compute. repeat split. Qed.

(** X3.  With a SIMILAR map the ten entries of [stack] are not enough: for
    ``aaaaaa'' and ``bbbbbb'' with ``a'' and ``b'' similar and the limit
    350 the loop comes to write [stack[10]]. *)
Lemma spell_edit_score_limit_stack_overrun :
  limit_loop ex_tolower (Some ex_slang_map)
    [97; 97; 97; 97; 97; 97] [98; 98; 98; 98; 98; 98]
    (limit_turns [97; 97; 97; 97; 97; 97] [98; 98; 98; 98; 98; 98])
    {| l_stack := []; l_bi := 0; l_gi := 0; l_score := 0; l_minscore := 350 + 1 |}
  = Overrun.
Proof. vm_compute. reflexivity. Qed.

(** ** The candidate store *)

(** The sound-alike score of an entry: 100 for ``aa'', [SCORE_MAXMAX] for
    ``zz'', 0 for any other word. *)
Definition ex_sal_score (stp : suggest_T) (badptr : list Z) (badlen : Z)
    (sl : slang_T) (badsound : list Z) : Z :=
  match st_word stp with
  | [97; 97] => 100
  | [122; 122] => SCORE_MAXMAX
  | _ => 0
  end.

(** Nothing comes from an expression or a file. *)
Definition ex_eval_expr (badword expr : list Z) : list (list Z * Z) := [].
Definition ex_read_lines (fname : list Z) : option (list (list Z)) := None.

(** A walk that finds ``aa'' with the score 0 and ``bb'' with the score 100
    for the bad word, and a sound-alike walk that finds nothing. *)
Definition ex_try_change (su : suginfo_T) : suginfo_T :=
  add_suggestion ex_tolower ex_soundfold ex_sal_score false ex_head_off ex_ptr2char
    (add_suggestion ex_tolower ex_soundfold ex_sal_score false ex_head_off
      ex_ptr2char su GA [97; 97]
       (su_badlen su) 0 0 false (su_sallang su) false)
    GA [98; 98] (su_badlen su) 100 0 false (su_sallang su) false.

Definition ex_try_soundalike (n : nat) (su : suginfo_T) : suginfo_T := su.

Definition ex_langs : list langp_T :=
  [ {| lp_slang := ex_slang; lp_sallang := Some ex_slang; lp_replang := None;
       lp_region := 0 |} ].

Definition ex_find_suggest (sps_flags : Z) (badptr : list Z) : suginfo_T :=
  spell_find_suggest ex_tolower ex_soundfold ex_sal_score false ex_head_off
    ex_ptr2char ex_make_case_word
    ex_captype ex_isupper ex_casefold ex_spell_check ex_MAXWLEN ex_WF_ONECAP
    ex_WF_ALLCAP ex_WF_KEEPCAP ex_tolower ex_eval_expr ex_read_lines
    ex_try_change ex_try_soundalike ex_langs sps_flags [SpsOther] badptr 0 10
    false false.

(** 200 entries with the words ``aa'', ``ab'', ... and the scores 0, 1, ... *)
Definition ex_entry (k : nat) : suggest_T :=
  {| st_word := [97 + Z.of_nat (k / 26); 97 + Z.of_nat (k mod 26)];
     st_wordlen := 2; st_orglen := 2; st_score := Z.of_nat k; st_altscore := 0;
     st_salscore := false; st_had_bonus := false; st_slang := None |}.

Definition ex_su_200 : suginfo_T :=
  {| su_ga := map ex_entry (seq 0 200); su_maxcount := 10; su_maxscore := 350;
     su_sfmaxscore := 0; su_sga := []; su_badptr := [120; 120]; su_badlen := 2;
     su_badflags := 0; su_badword := [120; 120]; su_fbadword := [120; 120];
     su_sal_badword := []; su_banned := []; su_sallang := None;
     su_sounddone := [] |}.

(** [su] for the bad word ``the the''. *)
Definition ex_the_the : list Z := [116; 104; 101; 32; 116; 104; 101].

Definition ex_su_the : suginfo_T :=
  {| su_ga := []; su_maxcount := 3; su_maxscore := 350;
     su_sfmaxscore := 0; su_sga := []; su_badptr := ex_the_the; su_badlen := 7;
     su_badflags := 0; su_badword := ex_the_the; su_fbadword := ex_the_the;
     su_sal_badword := []; su_banned := []; su_sallang := None;
     su_sounddone := [] |}.


Lemma add_suggestion_cleans_up_witness :
  minimize_len false ex_head_off ex_ptr2char [121; 121] (su_badptr ex_su_200)
    (length [121; 121]) (Z.of_nat (length [121; 121])) 2 = (2, 2) /\
  find_suggestion (get_gap ex_su_200 GA) [121; 121] 2 2 = None /\
  SUG_MAX_COUNT ex_su_200 < Z.of_nat (length (get_gap ex_su_200 GA)) + 1 /\
  SUG_MAX_COUNT ex_su_200 = SUG_CLEAN_COUNT ex_su_200 + 50 /\
  SUG_CLEAN_COUNT ex_su_200
  = (if su_maxcount ex_su_200 <? 130 then 150 else su_maxcount ex_su_200 + 20) /\
  exists sorted lst,
    Permutation sorted
      (get_gap ex_su_200 GA ++ [new_suggestion [121; 121] 2 2 50 0 false None]) /\
    Sorted (by_key ex_tolower) sorted /\
    get_gap (add_suggestion ex_tolower ex_soundfold ex_sal_score false ex_head_off
               ex_ptr2char ex_su_200 GA [121; 121] 2 50 0 false None false) GA
    = take (Z.to_nat (SUG_CLEAN_COUNT ex_su_200)) sorted /\
    Z.of_nat (length (take (Z.to_nat (SUG_CLEAN_COUNT ex_su_200)) sorted))
    = SUG_CLEAN_COUNT ex_su_200 /\
    last (take (Z.to_nat (SUG_CLEAN_COUNT ex_su_200)) sorted) = Some lst /\
    Forall (fun stp => st_score stp <= st_score lst)
           (take (Z.to_nat (SUG_CLEAN_COUNT ex_su_200)) sorted) /\
    Forall (fun stp => st_score lst <= st_score stp)
           (drop (Z.to_nat (SUG_CLEAN_COUNT ex_su_200)) sorted) /\
    su_maxscore (add_suggestion ex_tolower ex_soundfold ex_sal_score false
                   ex_head_off ex_ptr2char ex_su_200 GA [121; 121] 2 50 0 false
                   None false) = st_score lst /\
    su_sfmaxscore (add_suggestion ex_tolower ex_soundfold ex_sal_score false
                     ex_head_off ex_ptr2char ex_su_200 GA [121; 121] 2 50 0 false
                     None false) = su_sfmaxscore ex_su_200.
Proof.
  assert (H1 : minimize_len false ex_head_off ex_ptr2char [121; 121]
                 (su_badptr ex_su_200) (length [121; 121])
                 (Z.of_nat (length [121; 121])) 2 = (2, 2)) by reflexivity.
  assert (H2 : ~ (2 = 0 /\ 2 = 0)) by (intros [H _]; discriminate H).
  assert (H3 : find_suggestion (get_gap ex_su_200 GA) [121; 121] 2 2 = None)
    by (vm_compute; reflexivity).
  assert (H4 : SUG_MAX_COUNT ex_su_200 < Z.of_nat (length (get_gap ex_su_200 GA)) + 1)
    by (vm_compute; reflexivity).
  split; [exact H1|]. split; [exact H3|]. split; [exact H4|].
  apply (add_suggestion_cleans_up ex_tolower ex_soundfold ex_sal_score false
           ex_head_off ex_ptr2char ex_su_200 GA [121; 121] 2 50 0 false None false
           2 2 H1 H2 H3 H4).
Defined.

(** What the cleanup of the example keeps: the 150 entries of the lowest
    scores, the new one of the score 50 among them, and the bound is the
    score 148 of the last of them. *)
Lemma add_suggestion_cleans_up_example :
  map st_score
      (su_ga (add_suggestion ex_tolower ex_soundfold ex_sal_score false ex_head_off
                ex_ptr2char ex_su_200 GA [121; 121] 2 50 0 false None false))
  = map Z.of_nat (seq 0 51) ++ [50] ++ map Z.of_nat (seq 51 98) /\
  su_maxscore (add_suggestion ex_tolower ex_soundfold ex_sal_score false ex_head_off
                 ex_ptr2char ex_su_200 GA [121; 121] 2 50 0 false None false)
  = 148.
Proof. vm_compute. split; reflexivity. Qed.

(** C6, as the claim has it, fails: for the bad word ``the the'' the entry
    stored is the empty word for the first four characters, not ``the'' for
    all seven. *)
Lemma repeated_word_is_minimized :
  su_badlen ex_su_the = 7 /\
  map (fun stp => (st_word stp, st_orglen stp, st_score stp))
      (su_ga (suggest_try_special ex_tolower ex_soundfold ex_sal_score false
        ex_head_off ex_ptr2char
                ex_make_case_word ex_su_the))
  = [([], 4, 48)] /\
  (4 =? 7) = false.
Proof. vm_compute. repeat split. Qed.

Lemma suggest_try_special_repeated_word_witness :
  su_fbadword ex_su_the = [116; 104; 101] ++ [32] ++ [116; 104; 101] /\
  Forall (fun c => VIM_ISWHITE c = false) [116; 104; 101] /\
  Forall (fun c => VIM_ISWHITE c = true) [32] /\
  0 <= su_badlen ex_su_the <= Z.of_nat (length (su_badptr ex_su_the)) /\
  su_ga (suggest_try_special ex_tolower ex_soundfold ex_sal_score false ex_head_off
           ex_ptr2char ex_make_case_word ex_su_the)
  = su_ga ex_su_the
    ++ [new_suggestion (ex_make_case_word [116; 104; 101] (su_badflags ex_su_the))
                       0 4 48 0 true (su_sallang ex_su_the)].
Proof.
  assert (H1 : su_fbadword ex_su_the = [116; 104; 101] ++ [32] ++ [116; 104; 101])
    by reflexivity.
  assert (H2 : Forall (fun c => VIM_ISWHITE c = false) [116; 104; 101])
    by (repeat constructor).
  assert (H3 : [32] <> []) by discriminate.
  assert (H4 : Forall (fun c => VIM_ISWHITE c = true) [32]) by (repeat constructor).
  assert (H5 : 0 <= su_badlen ex_su_the <= Z.of_nat (length (su_badptr ex_su_the)))
    by (vm_compute; split; discriminate).
  split; [exact H1|]. split; [exact H2|]. split; [exact H4|]. split; [exact H5|].
  destruct (suggest_try_special_repeated_word ex_tolower ex_soundfold ex_sal_score
              false ex_head_off ex_ptr2char ex_make_case_word ex_su_the
              [116; 104; 101] [32] H1 H2 H3 H4 H5)
    as (_ & _ & k & goodlen & badlen & Hmin & _ & _ & _ & _ & _ & _ & _ & _ & Happend).
  assert (Hc : minimize_len false ex_head_off ex_ptr2char
                 (ex_make_case_word [116; 104; 101] (su_badflags ex_su_the))
                 (su_badptr ex_su_the)
                 (length (ex_make_case_word [116; 104; 101] (su_badflags ex_su_the)))
                 (Z.of_nat (length (ex_make_case_word [116; 104; 101]
                                      (su_badflags ex_su_the))))
                 (su_badlen ex_su_the) = (0, 4)) by reflexivity.
  rewrite Hc in Hmin. injection Hmin as <- <-.
  apply Happend.
  - intros [_ H]. discriminate H.
  - constructor.
  - intros stp [].
  - vm_compute. discriminate.
Defined.

(** With characters of two bytes the loop steps over a character and
    compares characters: ``caf\'e'' and ``caf\~i'', whose last bytes are the
    same, lose nothing, where the loop over bytes takes the last byte off
    both; ``caf\'e'' for the text ``x\'e'' loses the two bytes of its last
    character. *)
Lemma minimize_len_characters :
  minimize_len true ex_utf_head_off ex_utf_ptr2char
    [99; 97; 102; 195; 169] [99; 97; 102; 196; 169] 5 5 5 = (5, 5) /\
  minimize_len false ex_head_off ex_ptr2char
    [99; 97; 102; 195; 169] [99; 97; 102; 196; 169] 5 5 5 = (4, 4) /\
  minimize_len true ex_utf_head_off ex_utf_ptr2char
    [99; 97; 102; 195; 169] [120; 195; 169] 5 5 3 = (3, 1).
Proof. vm_compute. repeat split. Qed.

(** [su] for the text ``x\'e'' with the one candidate ``caf'' for ``x'', of
    the score 100. *)
Definition ex_su_caf : suginfo_T :=
  {| su_ga := [ {| st_word := [99; 97; 102]; st_wordlen := 3; st_orglen := 1;
                   st_score := 100; st_altscore := 0; st_salscore := false;
                   st_had_bonus := false; st_slang := None |} ];
     su_maxcount := 10; su_maxscore := 350;
     su_sfmaxscore := 0; su_sga := []; su_badptr := [120; 195; 169]; su_badlen := 3;
     su_badflags := 0; su_badword := [120; 195; 169];
     su_fbadword := [120; 195; 169];
     su_sal_badword := []; su_banned := []; su_sallang := None;
     su_sounddone := [] |}.

(** ``caf\'e'' for ``x\'e'' with the score 50 is ``caf'' for ``x'': the
    entry that is there keeps the lower score, and nothing is appended. *)
Lemma add_suggestion_minimizes_and_merges_witness :
  exists stp',
    length (su_ga (add_suggestion ex_tolower ex_soundfold ex_sal_score true
                     ex_utf_head_off ex_utf_ptr2char ex_su_caf GA
                     [99; 97; 102; 195; 169] 3 50 0 false None false))
    = 1%nat /\
    su_ga (add_suggestion ex_tolower ex_soundfold ex_sal_score true
             ex_utf_head_off ex_utf_ptr2char ex_su_caf GA
             [99; 97; 102; 195; 169] 3 50 0 false None false) !! 0%nat
    = Some stp' /\
    st_word stp' = [99; 97; 102] /\ st_orglen stp' = 1 /\ st_score stp' = 50.
Proof.
  destruct (add_suggestion_minimizes_and_merges ex_tolower ex_soundfold ex_sal_score
              true ex_utf_head_off ex_utf_ptr2char ex_su_caf GA
              [99; 97; 102; 195; 169] 3 50 0 false None false)
    as (k & goodlen & badlen & Hmin & _ & _ & _ & _ & _ & _ & Hmerge).
  assert (Hc : minimize_len true ex_utf_head_off ex_utf_ptr2char
                 [99; 97; 102; 195; 169] (su_badptr ex_su_caf)
                 (length [99; 97; 102; 195; 169])
                 (Z.of_nat (length [99; 97; 102; 195; 169])) 3 = (3, 1))
    by reflexivity.
  rewrite Hc in Hmin. injection Hmin as <- <-.
  destruct (Hmerge ltac:(intros [H _]; discriminate H)
                   ltac:(repeat constructor)
                   0%nat
                   {| st_word := [99; 97; 102]; st_wordlen := 3; st_orglen := 1;
                      st_score := 100; st_altscore := 0; st_salscore := false;
                      st_had_bonus := false; st_slang := None |}
                   eq_refl eq_refl eq_refl
                   ltac:(intros j stp' Hj; inversion Hj))
    as (stp' & Hlen & _ & Hi & Hw & _ & Ho & Hs).
  exists stp'. split; [exact Hlen|]. split; [exact Hi|].
  split; [exact Hw|]. split; [exact Ho|]. exact Hs.
Defined.



(** C4, as the claim has it, fails: in the mode ``double'' the list for the
    bad word ``xx'' is ``aa'' with the score 25 before ``bb'' with the score
    23. *)
Lemma double_mode_is_not_sorted :
  Z.land 4 SPS_DOUBLE = 4 /\
  map (fun stp => (st_word stp, st_score stp)) (su_ga (ex_find_suggest 4 [120; 120]))
  = [([97; 97], 25); ([98; 98], 23)] /\
  (23 <? 25) = true.
Proof. vm_compute. repeat split. Qed.

Lemma spell_find_suggest_sorted_witness :
  (Z.land 1 SPS_DOUBLE = 0 \/ first_sal_lang ex_langs = None) /\
  Sorted (by_key ex_tolower) (su_ga (ex_find_suggest 1 [120; 120])) /\
  StronglySorted (fun a b => st_score a <= st_score b)
                 (su_ga (ex_find_suggest 1 [120; 120])).
Proof.
  split; [left; reflexivity|].
  apply (spell_find_suggest_sorted ex_tolower ex_soundfold ex_sal_score false
           ex_head_off ex_ptr2char ex_make_case_word ex_captype ex_isupper
           ex_casefold ex_spell_check ex_MAXWLEN ex_WF_ONECAP ex_WF_ALLCAP
           ex_WF_KEEPCAP ex_tolower ex_eval_expr ex_read_lines ex_try_change
           ex_try_soundalike ex_langs 1 [SpsOther] [120; 120] 0 10 false false).
  left. reflexivity.
Defined.

(** The list of the example in the mode ``best'': ``aa'' with the score 25,
    then ``bb'' with the score 75. *)
Lemma spell_find_suggest_sorted_example :
  map (fun stp => (st_word stp, st_score stp)) (su_ga (ex_find_suggest 1 [120; 120]))
  = [([97; 97], 25); ([98; 98], 75)].
Proof. vm_compute. reflexivity. Qed.

(** The line ``xx yy'' with the bad word ``xx''. *)
Definition ex_line : list Z := [120; 120; 32; 121; 121].

(** What the caller gets for ``xx yy'': the words with the rest of the line. *)
Lemma spell_suggest_list_example :
  spell_suggest_list ex_tolower ex_soundfold ex_sal_score false ex_head_off
    ex_ptr2char ex_make_case_word
    ex_captype ex_isupper ex_casefold ex_spell_check ex_MAXWLEN ex_WF_ONECAP
    ex_WF_ALLCAP ex_WF_KEEPCAP ex_tolower ex_eval_expr ex_read_lines
    ex_try_change ex_try_soundalike ex_langs 1 [SpsOther] ex_line 10 false
  = [[97; 97; 32; 121; 121]; [98; 98; 32; 121; 121]].
Proof. vm_compute. reflexivity. Qed.

(** ** The walk *)

Definition ex_add_sound_suggest (su : suginfo_T) (goodword : list Z) (score : Z)
    (lp : langp_T) : suginfo_T := su.

Definition ex_lp_prefix : langp_T :=
  {| lp_slang := ex_slang_prefix; lp_sallang := None; lp_replang := None;
     lp_region := 0 |}.

Definition ex_walk_step (o : walk_obs) (w : walk_T) : walk_T * walk_event :=
  walk_step ex_tolower ex_soundfold ex_sal_score false ex_head_off ex_ptr2char
    ex_make_case_word ex_captype
    ex_isupper ex_MAXWLEN ex_WF_ONECAP ex_WF_ALLCAP ex_WF_KEEPCAP
    ex_add_sound_suggest ex_lp_prefix false o w.

Definition ex_walk (su : suginfo_T) (os : list walk_obs) : walk_T :=
  suggest_trie_walk ex_tolower ex_soundfold ex_sal_score false ex_head_off
    ex_ptr2char ex_make_case_word
    ex_captype ex_isupper ex_MAXWLEN ex_WF_ONECAP ex_WF_ALLCAP ex_WF_KEEPCAP
    ex_add_sound_suggest ex_lp_prefix false su os.

(** A turn that reads bytes that differ and nothing else of note. *)
Definition ex_obs : walk_obs :=
  {| o_has_mbyte := false; o_byte_nul := false; o_curi_past := false; o_n := 0;
     o_nosuggest := false; o_prefixok := false; o_prefix_invalid := false;
     o_fword_ends := false; o_goodword_ends := true; o_compound_ok := true;
     o_word_before := false; o_nobreak_same := false; o_compound_giveup := false;
     o_preword_before := []; o_word := []; o_tword := []; o_splitfidx := 0;
     o_fidx := 0; o_fidx_pos := false; o_wc := None; o_wc_split := None;
     o_prewordlen_pos := false; o_flag_banned := false; o_complen_same := true;
     o_no_compprog := true; o_region_wrong := false; o_rare := false;
     o_case_invalid := false; o_nonword_before := false; o_try_compound := false;
     o_split_invalid := false; o_nonword_here := false; o_fword_nul := false;
     o_in_char := false; o_same_byte := false; o_fidx_ge := true;
     o_subst_ok := true; o_plain_adj := AdjNone; o_del_star := false;
     o_del_adj := DelNone; o_diddel := false; o_only_nul := false;
     o_out_of_bounds := false; o_ins_star := false; o_ins_differs := true;
     o_ins_dup := false; o_c2_nul := false; o_c2_same := false;
     o_c3_skip := false; o_mid_nonword := false; o_rep_first_neg := true;
     o_rep_match := false; o_interrupt := false |}.

(** 201 words with the score 0 from the expression of 'spellsuggest'. *)
Definition ex_eval_expr_201 (badword expr : list Z) : list (list Z * Z) :=
  map (fun k => ([97 + Z.of_nat (k / 26); 97 + Z.of_nat (k mod 26)], 0)) (seq 0 201).

(** [su] after the item [expr:] of 'spellsuggest' for the bad word ``xx''. *)
Definition ex_su_after_expr : suginfo_T :=
  spell_find_suggest ex_tolower ex_soundfold ex_sal_score false ex_head_off
    ex_ptr2char ex_make_case_word
    ex_captype ex_isupper ex_casefold ex_spell_check ex_MAXWLEN ex_WF_ONECAP
    ex_WF_ALLCAP ex_WF_KEEPCAP ex_tolower ex_eval_expr_201 ex_read_lines
    ex_try_change ex_try_soundalike [ex_lp_prefix] 1 [SpsExpr []] [120; 120] 0 10
    false false.

(** [su] as [spell_find_suggest] sets it up for the bad word ``xx''. *)
Definition ex_su_start : suginfo_T :=
  {| su_ga := []; su_maxcount := 10; su_maxscore := SCORE_MAXINIT;
     su_sfmaxscore := 0; su_sga := []; su_badptr := [120; 120]; su_badlen := 2;
     su_badflags := 0; su_badword := [120; 120]; su_fbadword := [120; 120];
     su_sal_badword := []; su_banned := []; su_sallang := None;
     su_sounddone := [] |}.

(** C2, as the claim has it, fails: 201 words of the score 0 from an
    expression leave [su_maxscore] at 0; the walk that follows, for a
    language with a prefix tree, goes deeper in its first turn from the level
    of the score 0 with the cost 0, and 0 + 0 is not below 0. *)
Lemma prefix_push_without_score_test :
  su_maxscore ex_su_after_expr = 0 /\
  map ts_score (w_stack (ex_walk ex_su_after_expr [])) = [0] /\
  snd (ex_walk_step ex_obs (ex_walk ex_su_after_expr [])) = Pushed 0 /\
  su_maxscore (w_su (fst (ex_walk_step ex_obs (ex_walk ex_su_after_expr [])))) = 0 /\
  (0 + 0 <? 0) = false.
Proof. vm_compute. repeat split. Qed.

Lemma suggest_trie_walk_goes_deeper_witness :
  0 < ex_MAXWLEN <= 255 /\
  snd (ex_walk_step ex_obs (ex_walk ex_su_start [ex_obs; ex_obs])) = Pushed 93 /\
  w_depth (ex_walk ex_su_start [ex_obs; ex_obs]) <= ex_MAXWLEN - 1 /\
  (snd (ex_walk_step ex_obs (ex_walk ex_su_start [ex_obs; ex_obs])) = Pushed 93 ->
   exists sp below child sp',
     w_stack (ex_walk ex_su_start [ex_obs; ex_obs]) = sp :: below /\
     w_stack (fst (ex_walk_step ex_obs (ex_walk ex_su_start [ex_obs; ex_obs])))
     = child :: sp' :: below /\
     w_depth (ex_walk ex_su_start [ex_obs; ex_obs]) < ex_MAXWLEN - 1 /\
     ts_score child <= ts_score sp + 93 /\
     (ts_score sp + 93
      < su_maxscore (w_su (fst (ex_walk_step ex_obs
                                  (ex_walk ex_su_start [ex_obs; ex_obs])))) \/
      (93 = 0 /\ is_fresh sp = true)) /\
     (0 < su_maxscore ex_su_start ->
      ts_score sp + 93
      < su_maxscore (w_su (fst (ex_walk_step ex_obs
                                  (ex_walk ex_su_start [ex_obs; ex_obs])))))).
Proof.
  assert (H : 0 < ex_MAXWLEN <= 255) by (unfold ex_MAXWLEN; lia).
  split; [exact H|]. split; [vm_compute; reflexivity|].
  apply (suggest_trie_walk_goes_deeper ex_tolower ex_soundfold ex_sal_score false
    ex_head_off ex_ptr2char
           ex_make_case_word ex_captype ex_isupper ex_MAXWLEN ex_WF_ONECAP
           ex_WF_ALLCAP ex_WF_KEEPCAP ex_add_sound_suggest ex_lp_prefix false
           ex_su_start [ex_obs; ex_obs] ex_obs 93 H).
Defined.

(** ** The sound-alike score *)

(** ``*ab'' against ``ab'': the vowel mark is taken off for 62. *)
Lemma soundalike_score_in_bounds_witness :
  cstring [42; 97; 98] /\ cstring [97; 98] /\
  exists v, soundalike_score [42; 97; 98] [97; 98] = Some v.
Proof.
  assert (Hg : cstring [42; 97; 98]) by (repeat constructor; discriminate).
  assert (Hb : cstring [97; 98]) by (repeat constructor; discriminate).
  split; [exact Hg|]. split; [exact Hb|].
  apply (soundalike_score_in_bounds [42; 97; 98] [97; 98] Hg Hb).
Defined.

Lemma soundalike_score_sym_witness :
  cstring [97; 98; 99] /\ cstring [97; 99] /\
  soundalike_score [97; 98; 99] [97; 99] = soundalike_score [97; 99] [97; 98; 99].
Proof.
  assert (Hg : cstring [97; 98; 99]) by (repeat constructor; discriminate).
  assert (Hb : cstring [97; 99]) by (repeat constructor; discriminate).
  split; [exact Hg|]. split; [exact Hb|].
  apply (soundalike_score_sym [97; 98; 99] [97; 99] Hg Hb).
Defined.

Lemma soundalike_score_zero_witness :
  cstring [97; 98] /\
  (soundalike_score [97; 98] [97; 98] = Some 0 <-> [97; 98] = [97; 98]).
Proof.
  assert (Hg : cstring [97; 98]) by (repeat constructor; discriminate).
  split; [exact Hg|].
  apply (soundalike_score_zero [97; 98] [97; 98] Hg Hg).
Defined.

Lemma soundalike_score_range_witness :
  cstring [97; 98; 99; 100; 101] /\ cstring [97] /\
  exists v,
    soundalike_score [97; 98; 99; 100; 101] [97] = Some v /\
    (v = SCORE_MAXMAX \/ (0 <= v <= 252 /\ v < SCORE_BIG)) /\
    (3 < Z.abs (Z.of_nat (length [97; 98; 99; 100; 101]) - Z.of_nat (length [97])) ->
     v = SCORE_MAXMAX).
Proof.
  assert (Hg : cstring [97; 98; 99; 100; 101]) by (repeat constructor; discriminate).
  assert (Hb : cstring [97]) by (repeat constructor; discriminate).
  split; [exact Hg|]. split; [exact Hb|].
  apply (soundalike_score_range [97; 98; 99; 100; 101] [97] Hg Hb).
Defined.

(** ``ab'' against ``ba'' is one swap. *)
Lemma soundalike_score_one_change_witness :
  cstring [97; 98] /\ cstring [98; 97] /\
  (soundalike_score [97; 98] [98; 97] = Some SCORE_SWAP
   <-> exists pre x y post,
         x <> y /\ [97; 98] = pre ++ x :: y :: post
         /\ [98; 97] = pre ++ y :: x :: post) /\
  soundalike_score [97; 98] [98; 97] = Some 75.
Proof.
  assert (Hg : cstring [97; 98]) by (repeat constructor; discriminate).
  assert (Hb : cstring [98; 97]) by (repeat constructor; discriminate).
  split; [exact Hg|]. split; [exact Hb|]. split; [|reflexivity].
  apply (soundalike_score_one_change [97; 98] [98; 97] Hg Hb);
    unfold char_at, STAR; simpl; discriminate.
Defined.

(** ``abc'' against ``bd'' scores 187, and is two changes away. *)
Lemma soundalike_score_two_changes_witness :
  cstring [97; 98; 99] /\ cstring [98; 100] /\
  soundalike_score [97; 98; 99] [98; 100] = Some 187 /\
  changes 3 [98; 100] [97; 98; 99] /\
  (char_at [97; 98; 99] 0 <> STAR -> char_at [98; 100] 0 <> STAR ->
   changes 2 [98; 100] [97; 98; 99]).
Proof.
  assert (Hg : cstring [97; 98; 99]) by (repeat constructor; discriminate).
  assert (Hb : cstring [98; 100]) by (repeat constructor; discriminate).
  split; [exact Hg|]. split; [exact Hb|]. split; [reflexivity|].
  apply (soundalike_score_two_changes [97; 98; 99] [98; 100] 187 Hg Hb eq_refl).
  discriminate.
Defined.

(** ** Rescoring with the sound-alike score *)

Lemma ex_soundfold_cstring (sl : slang_T) (w : list Z) (folded : bool) :
  cstring w -> cstring (ex_soundfold sl w folded).
Proof. intros H. exact H. Qed.

Lemma ex_casefold_cstring (w : list Z) : cstring w -> cstring (ex_casefold w).
Proof.
  unfold cstring, ex_casefold. intros H.
  induction H as [|c w Hc Hw IH]; [constructor|].
  cbn [map]. constructor; [|exact IH].
  unfold ex_tolower, NUL in *.
  destruct ((65 <=? c) && (c <=? 90)) eqn:E; [|exact Hc].
  apply andb_true_iff in E. destruct E as [E1 E2]. apply Z.leb_le in E1. lia.
Qed.

(** The score of [stp_sal_score], 0 where it would read outside a string. *)
Definition ex_stp_sal_score (stp : suggest_T) (badptr : list Z) (badlen : Z)
    (sl : slang_T) (badsound : list Z) : Z :=
  default 0 (stp_sal_score ex_soundfold ex_casefold ex_MAXWLEN stp badptr badlen
                           sl badsound).

Lemma ex_stp_sal_score_agrees stp ptr len sl bs v :
  stp_sal_score ex_soundfold ex_casefold ex_MAXWLEN stp ptr len sl bs = Some v ->
  ex_stp_sal_score stp ptr len sl bs = v.
Proof. intros H. unfold ex_stp_sal_score. rewrite H. reflexivity. Qed.

(** The bad word ``thr'' and the suggestion ``the'' with the score 93. *)
Definition ex_su_thr : suginfo_T :=
  {| su_ga := []; su_maxcount := 10; su_maxscore := 350; su_sfmaxscore := 0;
     su_sga := []; su_badptr := [116; 104; 114]; su_badlen := 3; su_badflags := 0;
     su_badword := [116; 104; 114]; su_fbadword := [116; 104; 114];
     su_sal_badword := [116; 104; 114]; su_banned := [];
     su_sallang := Some ex_slang;
     su_sounddone := [] |}.

Definition ex_stp_the : suggest_T :=
  {| st_word := [116; 104; 101]; st_wordlen := 3; st_orglen := 3; st_score := 93;
     st_altscore := 0; st_salscore := false; st_had_bonus := false;
     st_slang := Some ex_slang |}.

Lemma rescore_one_bounds_witness :
  rescore_one ex_soundfold ex_stp_sal_score ex_su_thr ex_stp_the = ex_stp_the \/
  (st_had_bonus (rescore_one ex_soundfold ex_stp_sal_score ex_su_thr ex_stp_the)
   = true /\
   0 <= st_altscore (rescore_one ex_soundfold ex_stp_sal_score ex_su_thr ex_stp_the)
   <= SCORE_BIG /\
   st_score (rescore_one ex_soundfold ex_stp_sal_score ex_su_thr ex_stp_the)
   = RESCORE (st_score ex_stp_the)
             (st_altscore (rescore_one ex_soundfold ex_stp_sal_score ex_su_thr
                                       ex_stp_the)) /\
   (0 <= st_score ex_stp_the ->
    3 * st_score ex_stp_the
    <= 4 * st_score (rescore_one ex_soundfold ex_stp_sal_score ex_su_thr ex_stp_the) + 3
    /\
    4 * st_score (rescore_one ex_soundfold ex_stp_sal_score ex_su_thr ex_stp_the)
    <= 3 * st_score ex_stp_the + 288)).
Proof.
  apply (rescore_one_bounds ex_soundfold ex_casefold ex_MAXWLEN ex_soundfold_cstring
           ex_casefold_cstring ex_stp_sal_score ex_su_thr ex_stp_the
           ex_stp_sal_score_agrees);
    repeat constructor; discriminate.
Defined.

(** The rescored entry: the sound-alike score of ``the'' and ``thr'' is one
    substitution, 93. *)
Lemma rescore_one_example :
  st_score (rescore_one ex_soundfold ex_stp_sal_score ex_su_thr ex_stp_the) = 93 /\
  st_altscore (rescore_one ex_soundfold ex_stp_sal_score ex_su_thr ex_stp_the) = 93.
Proof. vm_compute. split; reflexivity. Qed.

(** ** The candidate store again *)

Definition ex_gap3 : list suggest_T :=
  [ {| st_word := [99]; st_wordlen := 1; st_orglen := 1; st_score := 30;
       st_altscore := 0; st_salscore := false; st_had_bonus := false;
       st_slang := None |};
    {| st_word := [97]; st_wordlen := 1; st_orglen := 1; st_score := 10;
       st_altscore := 0; st_salscore := false; st_had_bonus := false;
       st_slang := None |};
    {| st_word := [98]; st_wordlen := 1; st_orglen := 1; st_score := 20;
       st_altscore := 0; st_salscore := false; st_had_bonus := false;
       st_slang := None |} ].

Lemma cleanup_suggestions_cutoff_witness :
  1 <= 2 < Z.of_nat (length ex_gap3) /\
  exists dropped : list suggest_T,
    Permutation ex_gap3
      ((cleanup_suggestions ex_tolower ex_gap3 350 2).1 ++ dropped) /\
    Z.of_nat (length (cleanup_suggestions ex_tolower ex_gap3 350 2).1) = 2 /\
    Forall (fun stp => st_score stp <= (cleanup_suggestions ex_tolower ex_gap3 350 2).2)
           (cleanup_suggestions ex_tolower ex_gap3 350 2).1 /\
    Forall (fun stp => (cleanup_suggestions ex_tolower ex_gap3 350 2).2 <= st_score stp)
           dropped.
Proof.
  assert (H : 1 <= 2 < Z.of_nat (length ex_gap3)) by (cbn; lia).
  split; [exact H|].
  apply (cleanup_suggestions_cutoff ex_tolower ex_gap3 350 2 H).
Defined.

(** The two kept have the scores 10 and 20, and 20 is returned. *)
Lemma cleanup_suggestions_example :
  map st_score (cleanup_suggestions ex_tolower ex_gap3 350 2).1 = [10; 20] /\
  (cleanup_suggestions ex_tolower ex_gap3 350 2).2 = 20.
Proof. vm_compute. split; reflexivity. Qed.

Lemma ex_try_change_maxcount (su : suginfo_T) :
  su_maxcount (ex_try_change su) = su_maxcount su.
Proof. unfold ex_try_change. rewrite !add_suggestion_maxcount. reflexivity. Qed.

Lemma ex_try_soundalike_maxcount (n : nat) (su : suginfo_T) :
  su_maxcount (ex_try_soundalike n su) = su_maxcount su.
Proof. reflexivity. Qed.

Lemma spell_find_suggest_count_witness :
  1 <= 1 /\
  Z.of_nat
    (length
       (su_ga (spell_find_suggest ex_tolower ex_soundfold ex_sal_score false
         ex_head_off ex_ptr2char
                 ex_make_case_word ex_captype ex_isupper ex_casefold
                 ex_spell_check ex_MAXWLEN ex_WF_ONECAP ex_WF_ALLCAP
                 ex_WF_KEEPCAP ex_tolower ex_eval_expr ex_read_lines
                 ex_try_change ex_try_soundalike ex_langs 1 [SpsOther] ex_line 0
                 1 false false)))
  <= 1 /\
  Z.of_nat
    (length
       (spell_suggest_list ex_tolower ex_soundfold ex_sal_score false ex_head_off
         ex_ptr2char ex_make_case_word
          ex_captype ex_isupper ex_casefold ex_spell_check ex_MAXWLEN ex_WF_ONECAP
          ex_WF_ALLCAP ex_WF_KEEPCAP ex_tolower ex_eval_expr ex_read_lines
          ex_try_change ex_try_soundalike ex_langs 1 [SpsOther] ex_line 1 false))
  <= 1.
Proof.
  split; [lia|].
  apply (spell_find_suggest_count ex_tolower ex_soundfold ex_sal_score false
    ex_head_off ex_ptr2char
           ex_make_case_word ex_captype ex_isupper ex_casefold ex_spell_check
           ex_MAXWLEN ex_WF_ONECAP ex_WF_ALLCAP ex_WF_KEEPCAP ex_tolower ex_eval_expr
           ex_read_lines ex_try_change ex_try_soundalike ex_try_change_maxcount
           ex_try_soundalike_maxcount ex_langs 1 [SpsOther] ex_line 0 1 false false).
  lia.
Defined.

(** With room for one suggestion the caller gets the best of the two. *)
Lemma spell_suggest_list_one :
  spell_suggest_list ex_tolower ex_soundfold ex_sal_score false ex_head_off
    ex_ptr2char ex_make_case_word
    ex_captype ex_isupper ex_casefold ex_spell_check ex_MAXWLEN ex_WF_ONECAP
    ex_WF_ALLCAP ex_WF_KEEPCAP ex_tolower ex_eval_expr ex_read_lines
    ex_try_change ex_try_soundalike ex_langs 1 [SpsOther] ex_line 1 false
  = [[97; 97; 32; 121; 121]].
Proof. vm_compute. reflexivity. Qed.

Lemma ex_try_change_dup_inv (word : list Z) (su : suginfo_T) :
  dup_inv word su -> dup_inv word (ex_try_change su).
Proof.
  intros H. unfold ex_try_change.
  apply add_suggestion_dup_inv, add_suggestion_dup_inv. exact H.
Qed.

Lemma ex_try_soundalike_dup_inv (word : list Z) (n : nat) (su : suginfo_T) :
  dup_inv word su -> dup_inv word (ex_try_soundalike n su).
Proof. intros H. exact H. Qed.

Lemma spell_find_suggest_no_duplicates_witness :
  NoDup (map (fun stp => (st_word stp, st_orglen stp))
             (su_ga (spell_find_suggest ex_tolower ex_soundfold ex_sal_score false
               ex_head_off ex_ptr2char
                       ex_make_case_word ex_captype ex_isupper ex_casefold
                       ex_spell_check ex_MAXWLEN ex_WF_ONECAP ex_WF_ALLCAP
                       ex_WF_KEEPCAP ex_tolower ex_eval_expr ex_read_lines
                       ex_try_change ex_try_soundalike ex_langs 1 [SpsOther]
                       ex_line 0 10 false false))).
Proof.
  apply (spell_find_suggest_no_duplicates ex_tolower ex_soundfold ex_sal_score false
    ex_head_off ex_ptr2char
           ex_make_case_word ex_captype ex_isupper ex_casefold ex_spell_check
           ex_MAXWLEN ex_WF_ONECAP ex_WF_ALLCAP ex_WF_KEEPCAP ex_tolower ex_eval_expr
           ex_read_lines ex_try_change ex_try_soundalike ex_try_change_dup_inv
           ex_try_soundalike_dup_inv ex_langs 1 [SpsOther] ex_line 0 10 false false).
Defined.

(** ** The method "fast" with the walks *)

(** A turn at the end of a word of the tree that is ``xy'', where the text
    has two characters. *)
Definition ex_obs_word : walk_obs :=
  {| o_has_mbyte := false; o_byte_nul := true; o_curi_past := false; o_n := 0;
     o_nosuggest := false; o_prefixok := false; o_prefix_invalid := false;
     o_fword_ends := true; o_goodword_ends := true; o_compound_ok := true;
     o_word_before := false; o_nobreak_same := false; o_compound_giveup := false;
     o_preword_before := []; o_word := [120; 121]; o_tword := [120; 121];
     o_splitfidx := 0; o_fidx := 2; o_fidx_pos := true; o_wc := None;
     o_wc_split := None; o_prewordlen_pos := false; o_flag_banned := false;
     o_complen_same := true; o_no_compprog := true; o_region_wrong := false;
     o_rare := false; o_case_invalid := false; o_nonword_before := false;
     o_try_compound := false; o_split_invalid := false; o_nonword_here := false;
     o_fword_nul := true; o_in_char := false; o_same_byte := false;
     o_fidx_ge := true; o_subst_ok := true; o_plain_adj := AdjNone;
     o_del_star := false; o_del_adj := DelNone; o_diddel := false;
     o_only_nul := false; o_out_of_bounds := false; o_ins_star := false;
     o_ins_differs := true; o_ins_dup := false; o_c2_nul := false;
     o_c2_same := false; o_c3_skip := false; o_mid_nonword := false;
     o_rep_first_neg := true; o_rep_match := false; o_interrupt := false |}.

(** [suggest_try_change] for walks that come to the word ``xy'' twice. *)
Definition ex_try_change_walks (su : suginfo_T) : suginfo_T :=
  suggest_try_change_walks ex_tolower ex_soundfold ex_sal_score false ex_head_off
    ex_ptr2char ex_make_case_word
    ex_captype ex_isupper ex_MAXWLEN ex_WF_ONECAP ex_WF_ALLCAP ex_WF_KEEPCAP
    ex_add_sound_suggest (fun _ => true) (fun _ => [ex_obs_word; ex_obs_word])
    ex_langs su.

Definition ex_find_suggest_fast : suginfo_T :=
  spell_find_suggest ex_tolower ex_soundfold ex_sal_score false ex_head_off
    ex_ptr2char ex_make_case_word
    ex_captype ex_isupper ex_casefold ex_spell_check ex_MAXWLEN ex_WF_ONECAP
    ex_WF_ALLCAP ex_WF_KEEPCAP ex_tolower ex_eval_expr ex_read_lines
    ex_try_change_walks ex_try_soundalike ex_langs SPS_FAST [SpsOther] ex_line 0 3
    false false.

(** The word the walks come to twice is in the array once. *)
Lemma ex_find_suggest_fast_once :
  map (fun stp => (st_word stp, st_orglen stp, st_score stp))
      (su_ga ex_find_suggest_fast)
  = [([120; 121], 2, 0)].
Proof. vm_compute. reflexivity. Qed.

Lemma spell_find_suggest_fast_witness :
  1 <= 3 /\ Z.land SPS_FAST SPS_FAST <> 0 /\
  Z.of_nat (length (su_ga ex_find_suggest_fast)) <= 3 /\
  NoDup (map (fun stp => (st_word stp, st_orglen stp)) (su_ga ex_find_suggest_fast)).
Proof.
  assert (H1 : 1 <= 3) by lia.
  assert (H2 : Z.land SPS_FAST SPS_FAST <> 0) by (vm_compute; lia).
  split; [exact H1|]. split; [exact H2|].
  apply (spell_find_suggest_fast ex_tolower ex_soundfold ex_sal_score false
    ex_head_off ex_ptr2char
           ex_make_case_word ex_captype ex_isupper ex_casefold ex_spell_check
           ex_MAXWLEN ex_WF_ONECAP ex_WF_ALLCAP ex_WF_KEEPCAP ex_tolower
           ex_eval_expr ex_read_lines ex_add_sound_suggest (fun _ => true)
           (fun _ => [ex_obs_word; ex_obs_word]) ex_try_soundalike ex_langs
           SPS_FAST [SpsOther] ex_line 0 3 false false H1 H2).
Defined.

(** ** The number of a sound-folded word *)

(** The tree of the words ``a'', ``a b'' and ``b'': the node at 0 has the
    bytes ``a'' and ``b'', the node at 3 (under ``a'', two words) an end of
    word and a space, the node at 6 the byte ``b'', and the nodes at 8 and 10
    an end of word. *)
Definition ex_sbyts : list Z := [2; 97; 98; 2; 0; 32; 1; 98; 1; 0; 1; 0].
Definition ex_sidxs : list Z := [0; 3; 8; 2; 0; 6; 1; 10; 1; 0; 1; 0].

(** The numbers of ``a'', ``a b'' and ``b''; ``a'', a tab, two spaces and
    ``b'' is ``a b''; ``c'' and ``ab'' are not in the tree. *)
Lemma soundfold_find_example :
  map (soundfold_find ex_sbyts ex_sidxs)
      [[97]; [97; 32; 98]; [98]; [97; 9; 32; 32; 98]; [99]; [97; 98]]
  = [Some 0; Some 1; Some 2; Some 1; Some (-1); Some (-1)].
Proof. vm_compute. reflexivity. Qed.

(** In a tree that is cut off the function reads behind the array. *)
Lemma soundfold_find_cut_off :
  soundfold_find (take 8 ex_sbyts) (take 8 ex_sidxs) [98] = None.
Proof. vm_compute. reflexivity. Qed.

(** The tree the two arrays hold. *)
Definition ex_stree : tree :=
  Node 0 [(97, Node 1 [(32, Node 0 [(98, Node 1 [])])]); (98, Node 1 [])].

Lemma ex_stree_words : words ex_stree = [[97]; [97; 32; 98]; [98]].
Proof. reflexivity. Qed.

Lemma soundfold_find_number_witness :
  tree_at ex_sbyts ex_sidxs ex_stree 0 = true /\
  cstring [97; 9; 32; 32; 98] /\
  soundfold_find ex_sbyts ex_sidxs [97; 9; 32; 32; 98]
  = Some (match index_of (collapse_blanks [97; 9; 32; 32; 98]) (words ex_stree) with
          | Some k => Z.of_nat k
          | None => -1
          end).
Proof.
  assert (Ht : tree_at ex_sbyts ex_sidxs ex_stree 0 = true) by (vm_compute; reflexivity).
  assert (Hw : cstring [97; 9; 32; 32; 98]) by (repeat constructor; discriminate).
  split; [exact Ht|]. split; [exact Hw|].
  apply (soundfold_find_number ex_sbyts ex_sidxs ex_stree [97; 9; 32; 32; 98] Ht Hw).
Defined.

(** ** The word of a number *)

(** The words of the numbers 0, 1 and 2 in the tree above; there is no word
    of the number 3, for which the loop takes the last byte of the nodes it
    comes to and reads the number of bytes of a node as a byte. *)
Lemma word_of_number_example :
  map (fun k => option_map (fun r => r.1.1) (word_of_number ex_sbyts ex_sidxs 254 k))
      [0; 1; 2; 3]
  = [Some [97]; Some [97; 32; 98]; Some [98]; Some [98; 1; 98]].
Proof. vm_compute. reflexivity. Qed.

Lemma word_of_number_kth_witness :
  tree_at ex_sbyts ex_sidxs ex_stree 0 = true /\
  words ex_stree !! 1%nat = Some [97; 32; 98] /\
  Z.of_nat (length [97; 32; 98]) < 254 - 3 /\
  exists n,
    word_of_number ex_sbyts ex_sidxs 254 (Z.of_nat 1) = Some ([97; 32; 98], n, 1) /\
    arr_at ex_sbyts (n + 1) = Some NUL.
Proof.
  assert (Ht : tree_at ex_sbyts ex_sidxs ex_stree 0 = true) by (vm_compute; reflexivity).
  assert (Hw : words ex_stree !! 1%nat = Some [97; 32; 98]) by reflexivity.
  assert (Hl : Z.of_nat (length [97; 32; 98]) < 254 - 3) by (cbn; lia).
  split; [exact Ht|]. split; [exact Hw|]. split; [exact Hl|].
  apply (word_of_number_kth ex_sbyts ex_sidxs ex_stree 254 1 [97; 32; 98] Ht Hw Hl).
Defined.

Lemma word_of_number_soundfold_find_witness :
  tree_at ex_sbyts ex_sidxs ex_stree 0 = true /\
  cstring [97; 9; 32; 32; 98] /\
  Z.of_nat (length (collapse_blanks [97; 9; 32; 32; 98])) < 254 - 3 /\
  soundfold_find ex_sbyts ex_sidxs [97; 9; 32; 32; 98] = Some 1 /\
  0 <= 1 /\
  exists n,
    word_of_number ex_sbyts ex_sidxs 254 1
    = Some (collapse_blanks [97; 9; 32; 32; 98], n, 1).
Proof.
  assert (Ht : tree_at ex_sbyts ex_sidxs ex_stree 0 = true) by (vm_compute; reflexivity).
  assert (Hw : cstring [97; 9; 32; 32; 98]) by (repeat constructor; discriminate).
  assert (Hl : Z.of_nat (length (collapse_blanks [97; 9; 32; 32; 98])) < 254 - 3)
    by (vm_compute; reflexivity).
  assert (Hf : soundfold_find ex_sbyts ex_sidxs [97; 9; 32; 32; 98] = Some 1)
    by (vm_compute; reflexivity).
  assert (Hn : 0 <= 1) by lia.
  split; [exact Ht|]. split; [exact Hw|]. split; [exact Hl|]. split; [exact Hf|].
  split; [exact Hn|].
  apply (word_of_number_soundfold_find ex_sbyts ex_sidxs ex_stree 254 1
           [97; 9; 32; 32; 98] Ht Hw Hl Hf Hn).
Defined.

(** ** The words of a sound-folded word *)

(** The tree above for the sound-folded words and for the words, and a .sug
    file whose line for the first sound-folded word has the numbers 0 and
    2. *)
Definition ex_sugdata : sugdata_T :=
  {| sl_sbyts := ex_sbyts; sl_sidxs := ex_sidxs;
     sl_fbyts := ex_sbyts; sl_fidxs := ex_sidxs;
     sl_sugbuf := fun lnum => if lnum =? 1 then [1; 3] else [];
     sl_wordcount := fun _ => None |}.

Definition ex_lp : langp_T :=
  {| lp_slang := ex_slang; lp_sallang := Some ex_slang; lp_replang := None;
     lp_region := 0 |}.

(** [su] for the bad word ``ab'' when the walks for the sound-folded word
    start. *)
Definition ex_su_ab : suginfo_T :=
  {| su_ga := []; su_maxcount := 10; su_maxscore := SCORE_SFMAX1;
     su_sfmaxscore := 200; su_sga := []; su_badptr := [97; 98]; su_badlen := 2;
     su_badflags := 0; su_badword := [97; 98]; su_fbadword := [97; 98];
     su_sal_badword := [97; 98]; su_banned := []; su_sallang := Some ex_slang;
     su_sounddone := [] |}.

Definition ex_add_sound (sps_flags : Z) (done : sounddone_T) (su : suginfo_T)
    (goodword : list Z) (score : Z) : option (suginfo_T * sounddone_T) :=
  add_sound_suggest ex_tolower ex_soundfold ex_sal_score false ex_head_off
    ex_ptr2char ex_make_case_word
    ex_isupper ex_tolower ex_MAXWLEN 1 ex_WF_KEEPCAP 1024 198 (fun _ w => w)
    sps_flags ex_sugdata done su goodword score ex_lp.

(** The first sound-folded word with the sound score 40: the words ``a''
    and ``b'' for the bad word ``ab'', both by taking a letter out (94,
    rescored to 80); of ``b'' for ``ab'' nothing is left but to take out the
    ``a''. *)
Lemma add_sound_suggest_example :
  option_map
    (fun r => (map (fun stp => (st_word stp, st_orglen stp, st_score stp,
                                st_altscore stp, st_had_bonus stp))
                   (su_ga r.1), r.2))
    (ex_add_sound SPS_BEST [] ex_su_ab [97] 40)
  = Some ([([97], 2, 80, 40, true); ([], 1, 80, 40, true)], [([97], 40)]).
Proof. vm_compute. reflexivity. Qed.

Lemma add_sound_word_within_limit_witness :
  Z.land SPS_BEST SPS_DOUBLE = 0 /\
  sl_has_map (lp_slang ex_lp) = false /\
  cstring (su_badword ex_su_ab) /\ cstring [97; 99] /\ 0 <= 40 /\
  MAXSCORE (su_sfmaxscore ex_su_ab
            - sound_word_penalty ex_isupper ex_tolower 1 ex_su_ab ex_lp [97; 99] 0)
           40 <= SCORE_LIMITMAX /\
  add_sound_word ex_tolower ex_soundfold ex_sal_score false ex_head_off ex_ptr2char
    ex_isupper ex_tolower 1
    SPS_BEST ex_sugdata ex_su_ab ex_lp [97; 99] 0 40
  = Some
      (if spell_edit_score ex_tolower (Some (lp_slang ex_lp)) (su_badword ex_su_ab)
            [97; 99]
          <=? MAXSCORE (su_sfmaxscore ex_su_ab
                        - sound_word_penalty ex_isupper ex_tolower 1 ex_su_ab ex_lp
                            [97; 99] 0) 40
       then
         add_suggestion ex_tolower ex_soundfold ex_sal_score false ex_head_off
           ex_ptr2char ex_su_ab GA [97; 99]
           (su_badlen ex_su_ab)
           (RESCORE
              (score_wordcount_adj (sl_wordcount ex_sugdata [97; 99])
                 (sound_word_penalty ex_isupper ex_tolower 1 ex_su_ab ex_lp [97; 99] 0
                  + spell_edit_score ex_tolower (Some (lp_slang ex_lp))
                      (su_badword ex_su_ab) [97; 99])
                 false)
              40)
           40 true (Some (lp_slang ex_lp)) true
       else ex_su_ab).
Proof.
  assert (H1 : Z.land SPS_BEST SPS_DOUBLE = 0) by reflexivity.
  assert (H2 : sl_has_map (lp_slang ex_lp) = false) by reflexivity.
  assert (H3 : cstring (su_badword ex_su_ab)) by (repeat constructor; discriminate).
  assert (H4 : cstring [97; 99]) by (repeat constructor; discriminate).
  assert (H5 : 0 <= 40) by lia.
  assert (H6 : MAXSCORE (su_sfmaxscore ex_su_ab
                         - sound_word_penalty ex_isupper ex_tolower 1 ex_su_ab ex_lp
                             [97; 99] 0) 40 <= SCORE_LIMITMAX)
    by (vm_compute; discriminate).
  split; [exact H1|]. split; [exact H2|]. split; [exact H3|]. split; [exact H4|].
  split; [exact H5|]. split; [exact H6|].
  apply (add_sound_word_within_limit ex_tolower ex_soundfold ex_sal_score false
    ex_head_off ex_ptr2char ex_isupper
           ex_tolower 1 SPS_BEST ex_sugdata ex_su_ab ex_lp [97; 99] 0 40
           H1 H2 H3 H4 H5 H6).
Defined.

(** [su] and the table after the call of the example. *)
Definition ex_su_after_sound : suginfo_T :=
  match ex_add_sound SPS_BEST [] ex_su_ab [97] 40 with
  | Some r => r.1
  | None => ex_su_ab
  end.

Definition ex_done_after_sound : sounddone_T :=
  match ex_add_sound SPS_BEST [] ex_su_ab [97] 40 with
  | Some r => r.2
  | None => []
  end.

Lemma ex_add_sound_result :
  ex_add_sound SPS_BEST [] ex_su_ab [97] 40
  = Some (ex_su_after_sound, ex_done_after_sound).
Proof. vm_compute. reflexivity. Qed.

Lemma add_sound_suggest_keeps_store_witness :
  ex_add_sound SPS_BEST [] ex_su_ab [97] 40
  = Some (ex_su_after_sound, ex_done_after_sound) /\
  base_kept ex_su_ab ex_su_after_sound /\
  (Z.land SPS_BEST SPS_DOUBLE <> 0 ->
   su_ga ex_su_after_sound = su_ga ex_su_ab /\
   su_sfmaxscore ex_su_after_sound = su_sfmaxscore ex_su_ab) /\
  (Z.land SPS_BEST SPS_DOUBLE = 0 ->
   su_sga ex_su_after_sound = su_sga ex_su_ab /\
   su_maxscore ex_su_after_sound = su_maxscore ex_su_ab) /\
  (dup_inv [97; 98] ex_su_ab -> dup_inv [97; 98] ex_su_after_sound) /\
  (Z.of_nat (length (su_ga ex_su_ab)) <= SUG_MAX_COUNT ex_su_ab ->
   Z.of_nat (length (su_ga ex_su_after_sound)) <= SUG_MAX_COUNT ex_su_ab).
Proof.
  split; [exact ex_add_sound_result|].
  apply (add_sound_suggest_keeps_store ex_tolower ex_soundfold ex_sal_score false
    ex_head_off ex_ptr2char
           ex_make_case_word ex_isupper ex_tolower ex_MAXWLEN 1 ex_WF_KEEPCAP 1024 198
           (fun _ w => w) SPS_BEST ex_sugdata [] ex_done_after_sound ex_su_ab
           ex_su_after_sound [97] [97; 98] 40 ex_lp ex_add_sound_result).
Defined.

Lemma add_sound_suggest_seen_witness :
  ex_add_sound SPS_BEST [] ex_su_ab [97] 40
  = Some (ex_su_after_sound, ex_done_after_sound) /\
  -32768 <= 40 < 32768 /\ 40 <= 45 /\
  ex_add_sound SPS_BEST ex_done_after_sound ex_su_after_sound [97] 45
  = Some (ex_su_after_sound, ex_done_after_sound).
Proof.
  assert (H1 : -32768 <= 40 < 32768) by lia.
  assert (H2 : 40 <= 45) by lia.
  split; [exact ex_add_sound_result|]. split; [exact H1|]. split; [exact H2|].
  apply (add_sound_suggest_seen ex_tolower ex_soundfold ex_sal_score false
    ex_head_off ex_ptr2char
           ex_make_case_word ex_isupper ex_tolower ex_MAXWLEN 1 ex_WF_KEEPCAP 1024 198
           (fun _ w => w) SPS_BEST ex_sugdata [] ex_done_after_sound ex_su_ab
           ex_su_after_sound [97] 40 45 ex_lp ex_add_sound_result H1 H2).
Defined.

(** ** The strings of [spell_suggest_list] with the walks *)

(** A turn of a walk for the sound-folded bad word at the end of the word
    ``a'' of the tree of the sound-folded words. *)
Definition ex_obs_sound : walk_obs :=
  {| o_has_mbyte := false; o_byte_nul := true; o_curi_past := false; o_n := 0;
     o_nosuggest := false; o_prefixok := false; o_prefix_invalid := false;
     o_fword_ends := true; o_goodword_ends := true; o_compound_ok := true;
     o_word_before := false; o_nobreak_same := false; o_compound_giveup := false;
     o_preword_before := []; o_word := [97]; o_tword := [97];
     o_splitfidx := 0; o_fidx := 1; o_fidx_pos := true; o_wc := None;
     o_wc_split := None; o_prewordlen_pos := false; o_flag_banned := false;
     o_complen_same := true; o_no_compprog := true; o_region_wrong := false;
     o_rare := false; o_case_invalid := false; o_nonword_before := false;
     o_try_compound := false; o_split_invalid := false; o_nonword_here := false;
     o_fword_nul := true; o_in_char := false; o_same_byte := false;
     o_fidx_ge := true; o_subst_ok := true; o_plain_adj := AdjNone;
     o_del_star := false; o_del_adj := DelNone; o_diddel := false;
     o_only_nul := false; o_out_of_bounds := false; o_ins_star := false;
     o_ins_differs := true; o_ins_dup := false; o_c2_nul := false;
     o_c2_same := false; o_c3_skip := false; o_mid_nonword := false;
     o_rep_first_neg := true; o_rep_match := false; o_interrupt := false |}.

(** The line ``ab cd'' with the bad word ``ab''.  The walks of
    [suggest_try_change] find nothing; the first walk for the sound-folded
    word comes to ``a'', the sound of the words ``a'' and ``b''. *)
Definition ex_line_ab : list Z := [97; 98; 32; 99; 100].

Definition ex_os_sound (n lpi : nat) : list walk_obs :=
  match n with
  | O => [ex_obs_sound]
  | S _ => []
  end.

Lemma spell_suggest_list_appends_rest_witness :
  spell_suggest_list ex_tolower ex_soundfold ex_sal_score false ex_head_off
    ex_ptr2char ex_make_case_word ex_captype ex_isupper ex_casefold ex_spell_check
    ex_MAXWLEN ex_WF_ONECAP ex_WF_ALLCAP ex_WF_KEEPCAP ex_tolower ex_eval_expr
    ex_read_lines
    (suggest_try_change_walks ex_tolower ex_soundfold ex_sal_score false
       ex_head_off ex_ptr2char ex_make_case_word ex_captype ex_isupper ex_MAXWLEN
       ex_WF_ONECAP ex_WF_ALLCAP ex_WF_KEEPCAP
       (add_sound_suggest_su ex_tolower ex_soundfold ex_sal_score false
          ex_head_off ex_ptr2char ex_make_case_word ex_isupper ex_tolower
          ex_MAXWLEN ex_WF_KEEPCAP 1 1024 198 (fun _ w => w) SPS_BEST
          (fun _ => ex_sugdata))
       (fun _ => true) (fun _ => []) ex_langs)
    (suggest_try_soundalike_call ex_tolower ex_soundfold ex_sal_score false
       ex_head_off ex_ptr2char ex_make_case_word ex_captype ex_isupper ex_tolower
       ex_MAXWLEN ex_WF_ONECAP ex_WF_ALLCAP ex_WF_KEEPCAP 1 1024 198
       (fun _ w => w) SPS_BEST (fun _ => ex_sugdata) (fun _ => true) ex_os_sound
       ex_langs)
    ex_langs SPS_BEST [SpsOther] ex_line_ab 10 false
  = [[98; 32; 99; 100]; [97; 32; 99; 100]].
Proof.
  rewrite (proj1 (spell_suggest_list_appends_rest ex_tolower ex_soundfold
                    ex_sal_score false ex_head_off ex_ptr2char ex_make_case_word
                    ex_captype ex_isupper ex_casefold ex_spell_check ex_tolower
                    ex_MAXWLEN ex_WF_ONECAP ex_WF_ALLCAP ex_WF_KEEPCAP 1 1024 198
                    ex_eval_expr ex_read_lines (fun _ w => w) SPS_BEST
                    (fun _ => ex_sugdata) (fun _ => true) (fun _ => true)
                    (fun _ => []) ex_os_sound ex_langs [SpsOther] ex_line_ab 10
                    false)).
  vm_compute. reflexivity.
Defined.
